(** * baocaotudong: the document-tree core of [types.ts]

    A shallow embedding of the parts of [types.ts] that rewrite the main
    document part of a .docx package:

    - the short-goal text rewrite of the Table Synthesizer
      ([main_controller], mode 2, action GENERATE_IEP);
    - the Issue Analyzer, the Merge Engine and the Repair Pipeline
      ([autism_module_4], actions MODULE_4_ANALYZE and MODULE_4_FIX);
    - the Field Filler ([smartFillXML], inside [main_controller], mode 1)
      and what GENERATE_DOCX hands to the template engine;

    and of the parts around them:

    - the global helpers [escapeXml] and [removeVietnameseTones] and the
      tests of a cell of a sheet ([isGoalRowIndicator], [isTableHeader],
      [isDomainLabel]);
    - the age of the child ([main_controller], mode 1, action CALCULATE_AGE);
    - the reading of the goals from a workbook and the goals of the plan
      ([main_controller], mode 2, actions PARSE_EXCEL and GENERATE_IEP);
    - the handlers of [App] that keep the selections.

    JavaScript strings are sequences of UTF-16 code units, regular
    expressions are run by a backtracking matcher that follows the order of
    ECMAScript's matcher, and the DOM is a tree of identified nodes. *)

From Stdlib Require Import ZArith NArith Lia DecimalString Sorting.Sorted.
From stdpp Require Import base list strings gmap.

(** ** JavaScript strings *)

Module JS.
Local Open Scope N_scope.

(** A string value is a list of UTF-16 code units. *)
Definition jsstring : Type := list N.

(** String literals of this file are written as Rocq strings, which hold the
    UTF-8 bytes of the source text; [utf16_of_utf8] decodes them into the
    code units the program sees. *)
Fixpoint utf16_of_utf8 (bs : list N) : jsstring :=
  match bs with
  | [] => []
  | b0 :: r0 =>
    if b0 <? 0x80 then b0 :: utf16_of_utf8 r0
    else match r0 with
    | [] => []
    | b1 :: r1 =>
      if b0 <? 0xE0 then ((b0 - 0xC0) * 64 + (b1 - 0x80)) :: utf16_of_utf8 r1
      else match r1 with
      | [] => []
      | b2 :: r2 =>
        if b0 <? 0xF0
        then ((b0 - 0xE0) * 4096 + (b1 - 0x80) * 64 + (b2 - 0x80)) :: utf16_of_utf8 r2
        else match r2 with
        | [] => []
        | b3 :: r3 =>
          let cp := (b0 - 0xF0) * 262144 + (b1 - 0x80) * 4096
                    + (b2 - 0x80) * 64 + (b3 - 0x80) in
          let v := cp - 0x10000 in
          (0xD800 + v / 1024) :: (0xDC00 + v mod 1024) :: utf16_of_utf8 r3
        end
      end
    end
  end.

Definition js (s : string) : jsstring :=
  utf16_of_utf8 (map Byte.to_N (String.list_byte_of_string s)).

(** [WhiteSpace] and [LineTerminator] of ECMAScript: the code units matched
    by [\s] and removed by [String.prototype.trim]. *)
Definition isSpace (c : N) : bool :=
  ((0x09 <=? c) && (c <=? 0x0D)) || (c =? 0x20) || (c =? 0xA0) || (c =? 0x1680)
  || ((0x2000 <=? c) && (c <=? 0x200A)) || (c =? 0x2028) || (c =? 0x2029)
  || (c =? 0x202F) || (c =? 0x205F) || (c =? 0x3000) || (c =? 0xFEFF).

(** [\d] *)
Definition isDigit (c : N) : bool := (0x30 <=? c) && (c <=? 0x39).

Fixpoint dropWhile (p : N -> bool) (s : jsstring) : jsstring :=
  match s with
  | [] => []
  | c :: s' => if p c then dropWhile p s' else s
  end.

Fixpoint takeWhile (p : N -> bool) (s : jsstring) : jsstring :=
  match s with
  | [] => []
  | c :: s' => if p c then c :: takeWhile p s' else []
  end.

Definition trimStart (s : jsstring) : jsstring := dropWhile isSpace s.
Definition trimEnd (s : jsstring) : jsstring := reverse (dropWhile isSpace (reverse s)).
Definition trim (s : jsstring) : jsstring := trimEnd (trimStart s).

Fixpoint eqb (s t : jsstring) : bool :=
  match s, t with
  | [], [] => true
  | c :: s', d :: t' => (c =? d) && eqb s' t'
  | _, _ => false
  end.

Fixpoint startsWith (s p : jsstring) : bool :=
  match p, s with
  | [], _ => true
  | d :: p', c :: s' => (c =? d) && startsWith s' p'
  | _ :: _, [] => false
  end.

(** [s.includes(p)] *)
Fixpoint includes (s p : jsstring) : bool :=
  startsWith s p || match s with [] => false | _ :: s' => includes s' p end.

(** [s.replace(pat, rep)] for a string pattern: the first occurrence of
    [pat] is replaced.  The replacement strings of the program hold no [$],
    so no replacement pattern is expanded. *)
Fixpoint replace (s pat rep : jsstring) : jsstring :=
  if startsWith s pat then rep ++ drop (length pat) s
  else match s with
       | [] => []
       | c :: s' => c :: replace s' pat rep
       end.

(** [parseInt] on a capture of [\d]s: the decimal value.  Numbers are exact
    integers here; the program's doubles agree with them below 2^53. *)
Definition parseInt (s : jsstring) : Z :=
  fold_left (fun acc c => (acc * 10 + (Z.of_N c - 48))%Z) (takeWhile isDigit s) 0%Z.

(** The rendering of an integer inside a template literal. *)
Definition ofZ (z : Z) : jsstring := js (NilZero.string_of_int (Z.to_int z)).

(** [toUpperCase] of one code unit, as used by [Canonicalize] for the [i]
    flag.  It is Unicode's simple upper-case mapping on ASCII, Latin-1, the
    Vietnamese letters of Latin Extended-A and B and on Latin Extended
    Additional, the blocks the letters of the program's patterns live in;
    other units are left alone, which changes no comparison with a letter
    of those patterns. *)
Definition toUpper (c : N) : N :=
  if (0x61 <=? c) && (c <=? 0x7A) then c - 0x20
  else if (0xE0 <=? c) && (c <=? 0xFE) && negb (c =? 0xF7) then c - 0x20
  else if (c =? 0x103) || (c =? 0x111) || (c =? 0x129) || (c =? 0x169)
          || (c =? 0x1A1) || (c =? 0x1B0) then c - 1
  else if (0x1EA0 <=? c) && (c <=? 0x1EFF) && N.odd c then c - 1
  else c.

(** [Canonicalize(ch)] without the [u] flag: a unit outside ASCII never
    folds onto an ASCII one. *)
Definition canonicalize (c : N) : N :=
  let u := toUpper c in
  if (0x80 <=? c) && (u <? 0x80) then c else u.

(** [toLowerCase], unit by unit, on the same blocks as [toUpper], and on
    the Kelvin and Angstrom signs, the only other units that become a letter
    of those blocks. *)
Definition toLower (c : N) : N :=
  if (0x41 <=? c) && (c <=? 0x5A) then c + 0x20
  else if (0xC0 <=? c) && (c <=? 0xDE) && negb (c =? 0xD7) then c + 0x20
  else if (c =? 0x102) || (c =? 0x110) || (c =? 0x128) || (c =? 0x168)
          || (c =? 0x1A0) || (c =? 0x1AF) then c + 1
  else if (0x1EA0 <=? c) && (c <=? 0x1EFF) && N.even c then c + 1
  else if c =? 0x212A then 0x6B
  else if c =? 0x212B then 0xE5
  else c.

Definition toLowerCase (s : jsstring) : jsstring := map toLower s.

(** [s.replace(/\s+/g, ' ')] *)
Fixpoint collapseSpaces (s : jsstring) : jsstring :=
  match s with
  | [] => []
  | c :: s' =>
    if isSpace c then
      0x20 :: match s' with
              | d :: _ => if isSpace d then tail (collapseSpaces s') else collapseSpaces s'
              | [] => []
              end
    else c :: collapseSpaces s'
  end.

(** [s.split(c)] for a separator of one unit. *)
Fixpoint split (c : N) (s : jsstring) : list jsstring :=
  match s with
  | [] => [[]]
  | x :: s' =>
    if x =? c then [] :: split c s'
    else match split c s' with
         | w :: ws => (x :: w) :: ws
         | [] => [[x]]
         end
  end.

(** [l.join(sep)] *)
Fixpoint join (sep : jsstring) (l : list jsstring) : jsstring :=
  match l with
  | [] => []
  | [w] => w
  | w :: l' => w ++ sep ++ join sep l'
  end.

End JS.

Export JS.

(** ** Regular expressions

    The regular expressions of the program are run by a backtracking
    matcher in continuation-passing style, with ECMAScript's priorities:
    alternatives left to right, greedy quantifiers longest first, lazy ones
    shortest first, and an iteration that consumes nothing, once the
    minimum is reached, is abandoned. *)

Module Regex.
Local Open Scope N_scope.

Inductive regex : Type :=
| REmpty
| RChar (p : N -> bool)
| RSeq (r1 r2 : regex)
| RAlt (r1 r2 : regex)
| RRep (lo : nat) (hi : option nat) (greedy : bool) (r : regex)
| RGroup (g : nat) (r : regex)
| RBol
| REol.

(** The matcher's state: the index reached, the input left, and the
    captures made so far (the latest first). *)
Record mstate : Type := MState {
  pos : nat;
  rest : jsstring;
  caps : list (nat * jsstring)
}.

Definition cont : Type := mstate -> option mstate.

Definition orElse {A} (x y : option A) : option A :=
  match x with
  | Some _ => x
  | None => y
  end.

Fixpoint groupsOf (r : regex) : list nat :=
  match r with
  | RSeq r1 r2 | RAlt r1 r2 => groupsOf r1 ++ groupsOf r2
  | RRep _ _ _ r1 => groupsOf r1
  | RGroup g r1 => g :: groupsOf r1
  | _ => []
  end.

Definition clearCaps (gs : list nat) (s : mstate) : mstate :=
  MState (pos s) (rest s)
         (filter (fun c => negb (bool_decide (c.1 ∈ gs))) (caps s)).

Definition setCap (g : nat) (from to : mstate) : mstate :=
  MState (pos to) (rest to)
         ((g, take (pos to - pos from) (rest from)) :: caps to).

Definition decr (hi : option nat) : option nat :=
  match hi with
  | Some n => Some (pred n)
  | None => None
  end.

(** [RepeatMatcher]: [m1] is the matcher of the repeated atom, [gs] the
    groups inside it, which every iteration starts by clearing.  [fuel]
    bounds the number of iterations; [rmatch] passes enough of it. *)
Fixpoint repeatMatcher (m1 : cont -> cont) (gs : list nat) (greedy : bool)
    (fuel lo : nat) (hi : option nat) (k : cont) (s : mstate) : option mstate :=
  match fuel with
  | O => None
  | S fuel' =>
    if bool_decide (hi = Some O) then k s
    else
      let again :=
        m1 (fun s' =>
              if bool_decide (lo = O) && bool_decide (pos s' = pos s) then None
              else repeatMatcher m1 gs greedy fuel' (pred lo) (decr hi) k s')
           (clearCaps gs s) in
      if bool_decide (lo = O)
      then if greedy then orElse again (k s) else orElse (k s) again
      else again
  end.

Fixpoint rmatch (r : regex) (k : cont) (s : mstate) : option mstate :=
  match r with
  | REmpty => k s
  | RChar p =>
    match rest s with
    | c :: tl => if p c then k (MState (S (pos s)) tl (caps s)) else None
    | [] => None
    end
  | RSeq r1 r2 => rmatch r1 (rmatch r2 k) s
  | RAlt r1 r2 => orElse (rmatch r1 k s) (rmatch r2 k s)
  | RRep lo hi greedy r1 =>
    repeatMatcher (rmatch r1) (groupsOf r1) greedy
                  (S (lo + length (rest s))) lo hi k s
  | RGroup g r1 => rmatch r1 (fun s' => k (setCap g s s')) s
  | RBol => if bool_decide (pos s = O) then k s else None
  | REol => match rest s with [] => k s | _ => None end
  end.

(** The result of [String.prototype.match] with a regular expression
    without the [g] flag: where the match starts, the matched text and the
    captures. *)
Record MatchResult : Type := Match {
  index : nat;
  full : jsstring;
  groups : list (nat * jsstring)
}.

(** [m[g]]: [None] is [undefined], the group took no part in the match. *)
Definition group (m : MatchResult) (g : nat) : option jsstring :=
  match list_find (fun c => c.1 = g) (groups m) with
  | Some (_, (_, v)) => Some v
  | None => None
  end.

(** [m[g]] where the program parses or splices the capture; a group that
    took no part reads as the empty string ([rangeMatch[3] || ""]). *)
Definition groupOr (m : MatchResult) (g : nat) : jsstring := default [] (group m g).

(** The search of [RegExpBuiltinExec]: the first index, from the left, at
    which the matcher succeeds. *)
Fixpoint execFrom (r : regex) (i : nat) (s : jsstring) : option MatchResult :=
  match rmatch r Some (MState i s []) with
  | Some e => Some (Match i (take (pos e - i) s) (caps e))
  | None =>
    match s with
    | [] => None
    | _ :: s' => execFrom r (S i) s'
    end
  end.

Definition jsmatch (s : jsstring) (r : regex) : option MatchResult := execFrom r O s.

Definition test (r : regex) (s : jsstring) : bool :=
  match jsmatch s r with Some _ => true | None => false end.

(** *** Building blocks *)

Definition chr (c : N) : regex := RChar (N.eqb c).
(** A character of a pattern under the [i] flag. *)
Definition chrI (c : N) : regex := RChar (fun d => canonicalize d =? canonicalize c).

Definition seqs (rs : list regex) : regex := foldr RSeq REmpty rs.

Fixpoint alts (rs : list regex) : regex :=
  match rs with
  | [] => REmpty
  | [r] => r
  | r :: rs' => RAlt r (alts rs')
  end.

Definition lit (s : jsstring) : regex := seqs (chr <$> s).
Definition litI (s : jsstring) : regex := seqs (chrI <$> s).

Definition digit : regex := RChar isDigit.
Definition space : regex := RChar isSpace.
(** [.]: any unit but a line terminator. *)
Definition dot : regex :=
  RChar (fun c => negb ((c =? 0x0A) || (c =? 0x0D) || (c =? 0x2028) || (c =? 0x2029))).

Definition star (r : regex) : regex := RRep 0 None true r.
Definition plus (r : regex) : regex := RRep 1 None true r.
Definition opt (r : regex) : regex := RRep 0 (Some 1%nat) true r.
Definition lazyStar (r : regex) : regex := RRep 0 None false r.
Definition upTo (lo hi : nat) (r : regex) : regex := RRep lo (Some hi) true r.

End Regex.

Export Regex.

(** ** Table Synthesizer: the short-goal text rewrite

    [main_controller], mode 2, action GENERATE_IEP: the computation of
    [shortGoalsRaw] for one goal. *)

Module Synthesizer.

Local Open Scope Z_scope.

(** [/(\d{1,2})\s*-\s*(\d{1,2})(\s+(?:lần|bậc|loại|câu|từ|chữ))?/i] *)
Definition rangeRe : regex :=
  seqs [ RGroup 1 (upTo 1 2 digit); star space; chr 0x2D; star space;
         RGroup 2 (upTo 1 2 digit);
         opt (RGroup 3 (RSeq (plus space)
                (alts (litI <$> [js "lần"; js "bậc"; js "loại"; js "câu"; js "từ"; js "chữ"])))) ].

(** [/(\d{1,3})\s*\/\s*(\d{1,3})/] *)
Definition ratioRe : regex :=
  seqs [ RGroup 1 (upTo 1 3 digit); star space; chr 0x2F; star space;
         RGroup 2 (upTo 1 3 digit) ].

(** [/(\d+)\s*%/] *)
Definition pctRe : regex :=
  seqs [ RGroup 1 (plus digit); star space; chr 0x25 ].

(** [/(\d+)\s+(lần|bậc|loại)/i] *)
Definition unitRe : regex :=
  seqs [ RGroup 1 (plus digit); plus space;
         RGroup 2 (alts (litI <$> [js "lần"; js "bậc"; js "loại"])) ].

(** [Math.round(x/3)] and [Math.round(x*2/3)] on a non-negative integer:
    a third is never half-way, so rounding is to the nearest integer. *)
Definition roundDiv3 (x : Z) : Z := (2 * x + 3) / 6.

Definition shortGoalsRaw (smartSplitting : bool) (txt : jsstring) : list jsstring :=
  if negb smartSplitting then [txt; txt; txt]
  else
    match jsmatch txt rangeRe with
    | Some rangeMatch =>
      let full := full rangeMatch in
      let a := parseInt (groupOr rangeMatch 1) in
      let b := parseInt (groupOr rangeMatch 2) in
      let suffix := groupOr rangeMatch 3 in
      if b >? a then
        let a1 := Z.max 1 (a - 2) in let b1 := Z.max (a1 + 1) (b - 2) in
        let a2 := Z.max 1 (a - 1) in let b2 := Z.max (a2 + 1) (b - 1) in
        [ replace txt full (ofZ a1 ++ js "-" ++ ofZ b1 ++ suffix);
          replace txt full (ofZ a2 ++ js "-" ++ ofZ b2 ++ suffix);
          txt ]
      else [txt; txt; txt]
    | None =>
      match jsmatch txt ratioRe with
      | Some ratioMatch =>
        let full := full ratioMatch in
        let x := parseInt (groupOr ratioMatch 1) in
        let y := parseInt (groupOr ratioMatch 2) in
        if x <=? y then
          [ replace txt full (ofZ (Z.max 1 (x - 2)) ++ js "/" ++ ofZ y);
            replace txt full (ofZ (Z.max 1 (x - 1)) ++ js "/" ++ ofZ y);
            txt ]
        else [txt; txt; txt]
      | None =>
        match jsmatch txt pctRe with
        | Some pctMatch =>
          let full := full pctMatch in
          let x := parseInt (groupOr pctMatch 1) in
          [ replace txt full (ofZ (roundDiv3 x) ++ js "%");
            replace txt full (ofZ (roundDiv3 (x * 2)) ++ js "%");
            txt ]
        | None =>
          match jsmatch txt unitRe with
          | Some unitMatch =>
            let full := full unitMatch in
            let x := parseInt (groupOr unitMatch 1) in
            let unit := groupOr unitMatch 2 in
            [ replace txt full (ofZ (Z.max 1 (x - 2)) ++ js " " ++ unit);
              replace txt full (ofZ (Z.max 1 (x - 1)) ++ js " " ++ unit);
              txt ]
          | None => [txt; txt; txt]
          end
        end
      end
    end.

End Synthesizer.

(** ** The document tree

    The DOM that [DOMParser] builds, as a tree of identified nodes.  The
    identifier of a node stands for the identity of the JavaScript object:
    the program keeps references to nodes ([tblNodeMap], [gapNodes], [rows])
    while it moves and removes others, and a reference is resolved in the
    tree as it is at that moment.  A node that has been removed from the
    tree has no parent; the program only ever tests that. *)

Module DOM.

Definition nodeId : Type := nat.

Local Unset Elimination Schemes.
Inductive node : Type :=
| Elem (id : nodeId) (name : string) (attributes : list (string * string))
       (childNodes : list node)
| Text (id : nodeId) (data : jsstring)
| Comment (id : nodeId) (data : jsstring).
Local Set Elimination Schemes.

(** Induction over a tree, with the hypothesis for every child. *)
Section NodeInd.
Context (P : node → Prop).
Context (HElem : ∀ i nm at_ ks, Forall P ks → P (Elem i nm at_ ks)).
Context (HText : ∀ i d, P (Text i d)).
Context (HComment : ∀ i d, P (Comment i d)).

Fixpoint node_ind (n : node) : P n :=
  match n with
  | Elem i nm at_ ks =>
    HElem i nm at_ ks
      ((fix go (l : list node) : Forall P l :=
          match l with
          | [] => Forall_nil_2 P
          | k :: l' => Forall_cons_2 P k l' (node_ind k) (go l')
          end) ks)
  | Text i d => HText i d
  | Comment i d => HComment i d
  end.
End NodeInd.

Definition nid (n : node) : nodeId :=
  match n with
  | Elem i _ _ _ | Text i _ | Comment i _ => i
  end.

Definition nodeName (n : node) : string :=
  match n with
  | Elem _ nm _ _ => nm
  | Text _ _ => "#text"
  | Comment _ _ => "#comment"
  end.

Definition childNodes (n : node) : list node :=
  match n with
  | Elem _ _ _ ks => ks
  | _ => []
  end.

Definition named (nm : string) (n : node) : bool := bool_decide (nodeName n = nm).

Section ListHelpers.
Context {A B : Type} (f : A → option B).

(** The first result that [f] gives along a list. *)
Fixpoint findMap (l : list A) : option B :=
  match l with
  | [] => None
  | x :: l' =>
    match f x with
    | Some y => Some y
    | None => findMap l'
    end
  end.
End ListHelpers.

(** [textContent] of an element: the text of its descendants, comments
    left out. *)
Fixpoint textOf (n : node) : jsstring :=
  match n with
  | Elem _ _ _ ks => flat_map textOf ks
  | Text _ d => d
  | Comment _ _ => []
  end.

Definition textContent (n : node) : jsstring :=
  match n with
  | Comment _ d => d
  | _ => textOf n
  end.

(** A node and everything below it, in document order. *)
Fixpoint subtrees (n : node) : list node :=
  n :: match n with
       | Elem _ _ _ ks => flat_map subtrees ks
       | _ => []
       end.

Definition descendants (n : node) : list node := tail (subtrees n).

Definition ids (n : node) : list nodeId := nid <$> subtrees n.

(** [n.getElementsByTagName(nm)], as [Array.from] freezes it. *)
Definition getElementsByTagName (nm : string) (n : node) : list node :=
  filter (λ x, named nm x = true) (descendants n).

(** The node that a reference designates in the tree under [n]. *)
Fixpoint lookup (i : nodeId) (n : node) : option node :=
  if bool_decide (nid n = i) then Some n
  else match n with
       | Elem _ _ _ ks => findMap (lookup i) ks
       | _ => None
       end.

Definition hasChild (i : nodeId) (n : node) : bool :=
  existsb (λ k, bool_decide (nid k = i)) (childNodes n).

(** [parentNode]: [None] for the root and for a node that is not, or no
    longer, in the tree. *)
Fixpoint parentOf (i : nodeId) (n : node) : option node :=
  if hasChild i n then Some n
  else match n with
       | Elem _ _ _ ks => findMap (parentOf i) ks
       | _ => None
       end.

Fixpoint after (i : nodeId) (ks : list node) : list node :=
  match ks with
  | [] => []
  | k :: ks' => if bool_decide (nid k = i) then ks' else after i ks'
  end.

(** The chain [n.nextSibling], [n.nextSibling.nextSibling], ... *)
Definition nextSiblings (i : nodeId) (root : node) : list node :=
  match parentOf i root with
  | Some p => after i (childNodes p)
  | None => []
  end.

(** The tree in which the node designated by [i] is replaced by [f] of
    it. *)
Fixpoint updateAt (i : nodeId) (f : node → node) (n : node) : node :=
  if bool_decide (nid n = i) then f n
  else match n with
       | Elem j nm at_ ks => Elem j nm at_ (map (updateAt i f) ks)
       | _ => n
       end.

Definition withChildren (g : list node → list node) (n : node) : node :=
  match n with
  | Elem j nm at_ ks => Elem j nm at_ (g ks)
  | _ => n
  end.

Definition updateChildren (p : nodeId) (g : list node → list node) (root : node) : node :=
  updateAt p (withChildren g) root.

Definition without (i : nodeId) (ks : list node) : list node :=
  filter (λ k, nid k ≠ i) ks.

Fixpoint insertBeforeId (new : node) (ref : nodeId) (ks : list node) : list node :=
  match ks with
  | [] => [new]
  | k :: ks' => if bool_decide (nid k = ref) then new :: ks else k :: insertBeforeId new ref ks'
  end.

(** [setAttribute]: the value of an attribute that exists is replaced in
    place, a new attribute goes last. *)
Fixpoint setAttr (k v : string) (l : list (string * string)) : list (string * string) :=
  match l with
  | [] => [(k, v)]
  | (k', v') :: l' => if bool_decide (k' = k) then (k, v) :: l' else (k', v') :: setAttr k v l'
  end.

Definition setAttribute (k v : string) (n : node) : node :=
  match n with
  | Elem j nm at_ ks => Elem j nm (setAttr k v at_) ks
  | _ => n
  end.

(** [n.textContent = s] on an element: its children give way to one text
    node, or to none when [s] is empty; [i] identifies the new text node. *)
Definition setTextContent (s : jsstring) (i : nodeId) (n : node) : node :=
  withChildren (λ _, match s with [] => [] | _ => [Text i s] end) n.

(** Exceptions. *)
Inductive exn : Type :=
| NotFoundError
| HierarchyRequestError
| TypeError
| Error (message : jsstring).

Inductive result (A : Type) : Type :=
| Ok (a : A)
| Throw (e : exn).
Global Arguments Ok {A} a.
Global Arguments Throw {A} e.

Global Instance result_ret : MRet result := λ A, Ok.
Global Instance result_bind : MBind result := λ A B f m,
  match m with
  | Ok a => f a
  | Throw e => Throw e
  end.

(** The document under transformation: the tree below the document node,
    and the identifier the next created node receives. *)
Record dom : Type := Dom { root : node; fresh : nodeId }.

Definition maxId (n : node) : nodeId := foldr max O (ids n).
Definition mkDom (r : node) : dom := Dom r (S (maxId r)).

(** [doc.createElement(nm)] *)
Definition createElement (nm : string) (d : dom) : node * dom :=
  (Elem (fresh d) nm [] [], Dom (root d) (S (fresh d))).

(** [n.parentNode?.removeChild(n)] *)
Definition detach (i : nodeId) (r : node) : node :=
  match parentOf i r with
  | Some p => updateChildren (nid p) (without i) r
  | None => r
  end.

(** [p.removeChild(c)]: [c] has to be a child of [p]. *)
Definition removeChild (p c : nodeId) (r : node) : result node :=
  match parentOf c r with
  | Some q => if bool_decide (nid q = p) then Ok (updateChildren p (without c) r)
              else Throw NotFoundError
  | None => Throw NotFoundError
  end.

(** [p.appendChild(c)] for a node [c] that is not in the tree. *)
Definition appendNew (p : nodeId) (c : node) (r : node) : node :=
  updateChildren p (λ ks, ks ++ [c]) r.

(** [p.appendChild(c)] for a node of the tree: it is taken from where it
    is and becomes the last child of [p]; [p] may not lie inside [c]. *)
Definition appendChild (p c : nodeId) (r : node) : result node :=
  match lookup c r with
  | Some sub =>
    if bool_decide (p ∈ ids sub) then Throw HierarchyRequestError
    else Ok (appendNew p sub (detach c r))
  | None => Ok r
  end.

End DOM.

Export DOM.

(** ** Module 4: [autism_module_4] *)

Module Mod4.

(** [Mod4TableInfo] and its [options]. *)
Record Options : Type := {
  fixBorders : bool;
  fixSpacing : bool;
  autofit : bool;
  mergeNext : bool;
  fixAlign : bool
}.

Record Mod4TableInfo : Type := {
  id : Z;
  index : nat;
  previewHtml : jsstring;
  issues : list jsstring;
  canMergeNext : bool;
  isMergeTarget : bool;
  options : Options
}.

(** An uploaded file: its name and the parts of the zip package that
    [PizZip] reads from its bytes, by path. *)
Record File : Type := {
  name : jsstring;
  parts : gmap string jsstring
}.

Definition documentPath : string := "word/document.xml".

Definition sides : list string := ["top"; "left"; "bottom"; "right"; "insideH"; "insideV"].

Definition first (nm : string) (n : node) : option node := head (getElementsByTagName nm n).

(** *** MODULE_4_ANALYZE *)

(** "Check Borders" *)
Definition borderIssues (tbl : node) : list jsstring :=
  match first "w:tblPr" tbl ≫= first "w:tblBorders" with
  | None => [js "Thiếu viền bảng"]
  | Some borders =>
    if existsb (λ s, bool_decide (length (getElementsByTagName ("w:" +:+ s) borders) = O)) sides
    then [js "Viền không đầy đủ"]
    else []
  end.

(** "Check if mergeable": the walk over the siblings that follow the table,
    up to [next], the table that follows it in document order.  It returns
    [isCleanGap] and [gapCount]. *)
Fixpoint gapWalk (next : option nodeId) (siblings : list node) (gapCount : nat) : bool * nat :=
  match siblings with
  | [] => (true, gapCount)
  | sibling :: siblings' =>
    if bool_decide (Some (nid sibling) = next) then (true, gapCount)
    else if named "w:p" sibling then
      if bool_decide (0 < length (trim (textContent sibling))) then (false, gapCount)
      else gapWalk next siblings' (S gapCount)
    else if named "w:tbl" sibling then (true, gapCount)
    else gapWalk next siblings' gapCount
  end.

Definition mergeable (doc : node) (xmlTables : list node) (idx : nat) (tbl : node) : bool :=
  if bool_decide (S idx < length xmlTables) then
    let '(isCleanGap, gapCount) :=
      gapWalk (nid <$> xmlTables !! S idx) (nextSiblings (nid tbl) doc) O in
    isCleanGap && bool_decide (gapCount < 5)
  else false.

Definition noOptions : Options := Build_Options false false false false false.

Section Analyze.
(** [Date.now()], and the tables of the HTML preview that mammoth
    renders. *)
Context (now : Z) (htmlTables : list jsstring).

Definition tableInfo (doc : node) (xmlTables : list node) (idx : nat) (tbl : node)
  : Mod4TableInfo :=
  let canMerge := mergeable doc xmlTables idx tbl in
  {| id := (now + Z.of_nat idx)%Z;
     index := idx;
     previewHtml :=
       default (js "<p class='text-xs text-gray-400'>Không thể tạo bản xem trước</p>")
               (htmlTables !! idx);
     issues := borderIssues tbl
               ++ (if canMerge then [js "Có thể gộp với bảng dưới"] else []);
     canMergeNext := canMerge;
     isMergeTarget := false;
     options := noOptions |}.

Definition analyzeDocument (doc : node) : list Mod4TableInfo :=
  let xmlTables := getElementsByTagName "w:tbl" doc in
  imap (tableInfo doc xmlTables) xmlTables.
End Analyze.

(** *** MODULE_4_FIX *)

(** [1. Re-run Merge Logic]: the siblings up to the next table, and that
    table. *)
Fixpoint scanToTable (siblings : list node) : list node * option node :=
  match siblings with
  | [] => ([], None)
  | sibling :: siblings' =>
    if named "w:tbl" sibling then ([], Some sibling)
    else let '(gapNodes, targetTbl) := scanToTable siblings' in
         (sibling :: gapNodes, targetTbl)
  end.

Fixpoint foldM {A B} (f : A → B → result A) (a : A) (l : list B) : result A :=
  match l with
  | [] => Ok a
  | x :: l' => a' ← f a x; foldM f a' l'
  end.

Definition mergeWithNext (tblNode : nodeId) (doc : node) : result node :=
  let '(gapNodes, targetTbl) := scanToTable (nextSiblings tblNode doc) in
  match targetTbl with
  | Some target =>
    let rows := getElementsByTagName "w:tr" target in
    doc1 ← foldM (λ doc r, appendChild tblNode (nid r) doc) doc rows;
    let doc2 := foldl (λ doc n, detach (nid n) doc) doc1 gapNodes in
    Ok (detach (nid target) doc2)
  | None => Ok doc
  end.

(** [tblNodeMap], in insertion order. *)
Definition buildNodeMap (initialDomTables : list node) (config : list Mod4TableInfo)
  : list (nodeId * Mod4TableInfo) :=
  omap (λ x, x) (imap (λ i tbl, (λ conf, (nid tbl, conf)) <$>
                        List.find (λ c, bool_decide (index c = i)) config)
                      initialDomTables).

(** [[...mod4TableConfig].sort((a, b) => b.index - a.index)]: a stable
    sort, the largest index first. *)
Fixpoint insertByIndex (c : Mod4TableInfo) (l : list Mod4TableInfo) : list Mod4TableInfo :=
  match l with
  | [] => [c]
  | c' :: l' => if bool_decide (index c' < index c) then c :: l
                else c' :: insertByIndex c l'
  end.

Definition sortedConfigs (config : list Mod4TableInfo) : list Mod4TableInfo :=
  foldl (λ acc c, insertByIndex c acc) [] config.

Definition mergePhase (tblNodeMap : list (nodeId * Mod4TableInfo))
    (config : list Mod4TableInfo) (doc : node) : result node :=
  foldM (λ doc conf,
           match List.find (λ e, bool_decide (id e.2 = id conf)) tblNodeMap with
           | None => Ok doc
           | Some (tblNode, _) =>
             match parentOf tblNode doc with
             | None => Ok doc
             | Some _ =>
               if mergeNext (options conf) then mergeWithNext tblNode doc else Ok doc
             end
           end)
        doc (sortedConfigs config).

(** [let x = p.getElementsByTagName(nm)[0];
     if (!x) { x = doc.createElement(nm); p.appendChild(x); }] *)
Definition firstOrAppend (p : nodeId) (nm : string) (d : dom) : nodeId * dom :=
  match DOM.lookup p (root d) ≫= first nm with
  | Some x => (nid x, d)
  | None =>
    let '(x, d1) := createElement nm d in
    (nid x, Dom (appendNew p x (root d1)) (fresh d1))
  end.

Definition setAttributes (e : nodeId) (kvs : list (string * string)) (d : dom) : dom :=
  Dom (foldl (λ r kv, updateAt e (setAttribute kv.1 kv.2) r) (root d) kvs) (fresh d).

(** [const x = p.getElementsByTagName(nm)[0]; if (x) p.removeChild(x);] *)
Definition removeFirst (p : nodeId) (nm : string) (d : dom) : result dom :=
  match DOM.lookup p (root d) ≫= first nm with
  | Some x => r ← removeChild p (nid x) (root d); Ok (Dom r (fresh d))
  | None => Ok d
  end.

(** The table's [w:tblPr], created in front of its children if it has
    none. *)
Definition ensureTblPr (node : nodeId) (d : dom) : nodeId * dom :=
  match DOM.lookup node (root d) ≫= first "w:tblPr" with
  | Some x => (nid x, d)
  | None =>
    let '(x, d1) := createElement "w:tblPr" d in
    (nid x, Dom (updateChildren node (λ ks, x :: ks) (root d1)) (fresh d1))
  end.

Definition borderAttrs : list (string * string) :=
  [("w:val", "single"); ("w:sz", "4"); ("w:space", "0"); ("w:color", "auto")].

(** [newBorders], with its six sides; [i] identifies it, and the sides
    take the identifiers that follow. *)
Definition newBorders (i : nodeId) : node :=
  Elem i "w:tblBorders" []
       (imap (λ k border, Elem (S (i + k)) ("w:" +:+ border) borderAttrs []) sides).

(** "A. Fix Borders (Ensure full borders)" *)
Definition fixBordersStage (tblPr : nodeId) (d : dom) : result dom :=
  d1 ← removeFirst tblPr "w:tblBorders" d;
  Ok (Dom (appendNew tblPr (newBorders (fresh d1)) (root d1)) (S (fresh d1 + length sides))).

(** "B. Autofit (85% width)" *)
Definition autofitStage (tblPr : nodeId) (d : dom) : result dom :=
  let '(tblW, d1) := firstOrAppend tblPr "w:tblW" d in
  let d2 := setAttributes tblW [("w:w", "4250"); ("w:type", "pct")] d1 in
  let '(jc, d3) := firstOrAppend tblPr "w:jc" d2 in
  let d4 := setAttributes jc [("w:val", "center")] d3 in
  removeFirst tblPr "w:tblLayout" d4.

(** "C. 1. Internal Margins" *)
Definition margins : list (string * string) :=
  [("top", "50"); ("bottom", "50"); ("left", "100"); ("right", "100")].

Definition cellMarginsStage (tblPr : nodeId) (d : dom) : dom :=
  let '(cellMar, d1) := firstOrAppend tblPr "w:tblCellMar" d in
  foldl (λ d sv,
           let '(m, d') := firstOrAppend cellMar ("w:" +:+ sv.1) d in
           setAttributes m [("w:w", sv.2); ("w:type", "dxa")] d')
        d1 margins.

(** "C. 2. External Gaps (Keep 1 empty line)": the empty paragraphs that
    follow the table, and whether a table comes right after them. *)
Fixpoint scanGap (siblings : list node) : list node * bool :=
  match siblings with
  | [] => ([], false)
  | sibling :: siblings' =>
    if named "w:tbl" sibling then ([], true)
    else if named "w:p" sibling then
      if bool_decide (trim (textContent sibling) = []) then
        let '(gapNodes, nextTableFound) := scanGap siblings' in
        (sibling :: gapNodes, nextTableFound)
      else ([], false)
    else ([], false)
  end.

(** [node.parentNode?.insertBefore(p, node.nextSibling)] *)
Definition insertAfter (node : nodeId) (p : DOM.node) (doc : DOM.node) : DOM.node :=
  match parentOf node doc with
  | Some parent =>
    match nextSiblings node doc with
    | ref :: _ => updateChildren (nid parent) (insertBeforeId p (nid ref)) doc
    | [] => appendNew (nid parent) p doc
    end
  | None => doc
  end.

Definition externalGapsStage (node : nodeId) (d : dom) : dom :=
  let '(gapNodes, nextTableFound) := scanGap (nextSiblings node (root d)) in
  if nextTableFound then
    match gapNodes with
    | [] =>
      let '(p, d1) := createElement "w:p" d in
      Dom (insertAfter node p (root d1)) (fresh d1)
    | _ :: others =>
      Dom (foldl (λ doc g, detach (nid g) doc) (root d) others) (fresh d)
    end
  else d.

(** "C. Fix Cell Spacing & External Gaps" *)
Definition fixSpacingStage (conf : Mod4TableInfo) (node tblPr : nodeId) (d : dom) : dom :=
  let d1 := cellMarginsStage tblPr d in
  if mergeNext (options conf) then d1 else externalGapsStage node d1.

(** [/^[-+•]/] *)
Definition bulletRe : regex :=
  RSeq RBol (RChar (λ c, (c =? 0x2D) || (c =? 0x2B) || (c =? 0x2022))%N).

(** [let x = p.getElementsByTagName(nm)[0];
     if (!x) { x = doc.createElement(nm); p.insertBefore(x, p.firstChild); }] *)
Definition firstOrPrepend (p : nodeId) (nm : string) (d : dom) : nodeId * dom :=
  match DOM.lookup p (root d) ≫= first nm with
  | Some x => (nid x, d)
  | None =>
    let '(x, d1) := createElement nm d in
    (nid x, Dom (updateChildren p (λ ks, x :: ks) (root d1)) (fresh d1))
  end.

Definition alignParagraph (conf : Mod4TableInfo) (d : dom) (p : nodeId) : result dom :=
  let '(pPr, d1) := firstOrPrepend p "w:pPr" d in
  d2 ← removeFirst pPr "w:ind" d1;
  let fullText :=
    trim (flat_map textContent
            (default [] (getElementsByTagName "w:t" <$> DOM.lookup p (root d2)))) in
  let d3 :=
    if test bulletRe fullText then
      let '(newInd, d') := createElement "w:ind" d2 in
      let newInd := setAttribute "w:hanging" "425" (setAttribute "w:left" "425" newInd) in
      Dom (appendNew pPr newInd (root d')) (fresh d')
    else d2 in
  let d4 :=
    if fixSpacing (options conf) then
      let '(spacing, d') := firstOrAppend pPr "w:spacing" d3 in
      setAttributes spacing [("w:before", "40"); ("w:after", "40")] d'
    else d3 in
  let '(jc, d5) := firstOrAppend pPr "w:jc" d4 in
  Ok (setAttributes jc [("w:val", "left")] d5).

Definition alignCell (conf : Mod4TableInfo) (d : dom) (cell : nodeId) : result dom :=
  let d1 :=
    if autofit (options conf) then
      match (DOM.lookup cell (root d) ≫= first "w:tcPr") ≫= first "w:tcW" with
      | Some tcW => setAttributes (nid tcW) [("w:type", "auto"); ("w:w", "0")] d
      | None => d
      end
    else d in
  let paras := default [] (getElementsByTagName "w:p" <$> DOM.lookup cell (root d1)) in
  foldM (alignParagraph conf) d1 (nid <$> paras).

(** "D. Fix Align / Paragraph Spacing / Smart Bullets" *)
Definition fixAlignStage (conf : Mod4TableInfo) (node : nodeId) (d : dom) : result dom :=
  let cells := default [] (getElementsByTagName "w:tc" <$> DOM.lookup node (root d)) in
  foldM (alignCell conf) d (nid <$> cells).

(** [2. Apply Styles & Logic to remaining nodes], for one entry of
    [tblNodeMap].  [node.parentNode] is read in the document: a table that
    the merge has removed has none.  A table that lies inside a removed
    node still has its parent in the program and is styled there, out of
    the document; the model leaves it as it is, and the properties below
    configure no table inside a node that is removed. *)
Definition styleTable (d : dom) (entry : nodeId * Mod4TableInfo) : result dom :=
  let '(node, conf) := entry in
  match parentOf node (root d) with
  | None => Ok d
  | Some _ =>
    let '(tblPr, d0) := ensureTblPr node d in
    dA ← (if fixBorders (options conf) then fixBordersStage tblPr d0 else Ok d0);
    dB ← (if autofit (options conf) then autofitStage tblPr dA else Ok dA);
    let dC := if fixSpacing (options conf) then fixSpacingStage conf node tblPr dB else dB in
    if fixAlign (options conf) then fixAlignStage conf node dC else Ok dC
  end.

(** [s.lastIndexOf(".")] *)
Fixpoint lastIndexOf (c : N) (s : jsstring) : option nat :=
  match s with
  | [] => None
  | x :: s' =>
    match lastIndexOf c s' with
    | Some i => Some (S i)
    | None => if (x =? c)%N then Some O else None
    end
  end.

(** [name.substring(0, name.lastIndexOf('.')) || dflt] *)
Definition baseName (name dflt : jsstring) : jsstring :=
  match take (default O (lastIndexOf 0x2E name)) name with
  | [] => dflt
  | s => s
  end.

Section Fix.
(** [DOMParser.parseFromString(_, "application/xml")], which gives the
    document node, and [XMLSerializer.serializeToString]. *)
Context (parseFromString : jsstring → node) (serializeToString : node → jsstring).

(** The transformation of the document tree. *)
Definition fixDocument (config : list Mod4TableInfo) (doc : node) : result node :=
  let tblNodeMap := buildNodeMap (getElementsByTagName "w:tbl" doc) config in
  doc1 ← mergePhase tblNodeMap config doc;
  d2 ← foldM styleTable (Dom doc1 (fresh (mkDom doc))) tblNodeMap;
  Ok (root d2).

(** The action MODULE_4_FIX: the output package and its file name. *)
Definition module4_fix (mod4File : option File) (mod4TableConfig : option (list Mod4TableInfo))
  : result (gmap string jsstring * jsstring) :=
  match mod4File, mod4TableConfig with
  | Some file, Some config =>
    let xmlStr := default [] (parts file !! documentPath) in
    let doc := parseFromString xmlStr in
    doc' ← fixDocument config doc;
    let newXml := serializeToString doc' in
    Ok (<[documentPath := newXml]> (parts file),
        baseName (name file) (js "doc") ++ js "_fixed.docx")
  | _, _ => Throw (Error (js "Thiếu dữ liệu."))
  end.

(** The action MODULE_4_ANALYZE. *)
Definition module4_analyze (now : Z) (mammoth : File → list jsstring)
    (mod4File : option File) : result (list Mod4TableInfo) :=
  match mod4File with
  | Some file =>
    let xmlStr := default [] (parts file !! documentPath) in
    Ok (analyzeDocument now (mammoth file) (parseFromString xmlStr))
  | None => Throw (Error (js "Chưa chọn file."))
  end.
End Fix.

End Mod4.

(** ** The Field Filler: [smartFillXML]

    [main_controller], mode 1.  The analysis result comes out of
    [JSON.parse] unchecked, so its fields are JavaScript values that may be
    missing or of another type than [ESDMResult] declares; reading a
    property of [undefined] or calling a method a value does not have throws
    a [TypeError]. *)

Module SmartFill.
Import Mod4.

Section SmartFill.
(** The program's numbers are doubles: [Number.prototype.toFixed(1)], the
  conversion of a number to a string, and the numbers that are falsy (0
  and NaN) are taken from the platform. *)
Context {number : Type} (zero : number) (isFalsy : number → bool).
Context (toFixed1 : number → jsstring) (numberToString : number → jsstring).
(** [DOMParser.parseFromString(_, "application/xml")] and
  [XMLSerializer.serializeToString]. *)
Context (parseFromString : jsstring → node) (serializeToString : node → jsstring).

Inductive jsval : Type :=
| Undefined
| Null
| Num (x : number)
| Str (s : jsstring).

(** A JSON object: a property that is absent reads as [undefined]. *)
Definition get (o : gmap jsstring jsval) (k : jsstring) : jsval := default Undefined (o !! k).

Record StudentInfo : Type := {
name : jsstring;
dob : jsstring;
evalDate : jsstring;
age : jsstring;
gender : jsstring;
studentId : jsstring
}.

Record ESDMResult : Type := {
table : option (list (gmap jsstring jsval));
percents : option (gmap jsstring jsval);
percentsOld : option (gmap jsstring jsval)
}.

(** [/^\d{4}$/] *)
Definition yearRe : regex := seqs [RBol; RRep 4 (Some 4) true digit; REol].

Definition formatDateVI (dateString : jsstring) : jsstring :=
match dateString with
| [] => []
| _ =>
  if includes dateString (js "/") then dateString
  else if test yearRe dateString then dateString
  else match split 0x2D dateString with
       | y :: m :: d :: _ =>
         match y, m, d with
         | _ :: _, _ :: _, _ :: _ => d ++ js "/" ++ m ++ js "/" ++ y
         | _, _, _ => dateString
         end
       | _ => dateString
       end
end.

Definition infoMap (info : StudentInfo) : list (jsstring * jsstring) :=
let displayDob := formatDateVI (dob info) in
let displayEvalDate := formatDateVI (evalDate info) in
[ (js "Họ và tên học sinh", name info);
  (js "Họ và tên trẻ", name info);
  (js "Họ và tên", name info);
  (js "Họ tên", name info);
  (js "Tên trẻ", name info);
  (js "Ngày tháng năm sinh", displayDob);
  (js "Ngày sinh", displayDob);
  (js "Năm sinh", displayDob);
  (js "Ngày lượng giá", displayEvalDate);
  (js "Ngày đánh giá", displayEvalDate);
  (js "Tuổi thực", age info);
  (js "Độ tuổi", age info);
  (js "Tuổi", age info);
  (js "Giới tính", gender info);
  (js "Mã học sinh", studentId info);
  (js "Mã HS", studentId info);
  (js "Mã số", studentId info) ].

(** [[:：]] *)
Definition colon : regex := RChar (λ c, (c =? 0x3A) || (c =? 0xFF1A))%N.

(** [new RegExp(`^\\s*${key}\\s*[:：]`, "i")]; the keys hold letters and
  spaces only. *)
Definition labelRe (key : jsstring) : regex :=
seqs [RBol; star space; litI key; star space; colon].

(** [/(.*?Nhận định chung về kết quả.*?[:：])(.*?)(Tuổi phát triển.*|$)/i] *)
Definition summaryRe : regex :=
seqs [ RGroup 1 (seqs [lazyStar dot; litI (js "Nhận định chung về kết quả");
                       lazyStar dot; colon]);
       RGroup 2 (lazyStar dot);
       RGroup 3 (RAlt (RSeq (litI (js "Tuổi phát triển")) (star dot)) REol) ].

(** [(v || 0).toFixed(1).replace('.', ',')] *)
Definition toFixedComma (v : jsval) : result jsstring :=
let fmt x := replace (toFixed1 x) (js ".") (js ",") in
match v with
| Undefined | Null | Str [] => Ok (fmt zero)
| Num x => Ok (fmt (if isFalsy x then zero else x))
| Str _ => Throw TypeError
end.

(** [createRun(text, isRed, isBold)]; [i] is the identifier of the first
  node it creates, and the second component the next one free. *)
Definition createRun (text : jsstring) (isRed isBold : bool) (i : nodeId) : node * nodeId :=
let sz := Elem (i + 2) "w:sz" [("w:val", "26")] [] in
let szCs := Elem (i + 3) "w:szCs" [("w:val", "26")] [] in
let b := if isBold then [Elem (i + 4) "w:b" [] []] else [] in
let i1 := i + 4 + length b in
let color := if isRed then [Elem i1 "w:color" [("w:val", "FF0000")] []] else [] in
let i2 := i1 + length color in
let rPr := Elem (i + 1) "w:rPr" [] ([sz; szCs] ++ b ++ color) in
let t := setTextContent text (S i2) (Elem i2 "w:t" [("xml:space", "preserve")] []) in
(Elem i "w:r" [] [rPr; t], S (S i2)).

(** [p.appendChild(createRun(text, isRed, isBold))] *)
Definition appendRun (p : nodeId) (text : jsstring) (isRed isBold : bool) (d : dom) : dom :=
let '(r, i) := createRun text isRed isBold (fresh d) in
Dom (appendNew p r (root d)) i.

(** The loop that empties the paragraph: everything goes but a [w:pPr] that
  is met first among the children that remain. *)
Fixpoint keepPPr (ks : list node) : list node :=
match ks with
| [] => []
| k :: ks' => if named "w:pPr" k then [k] else keepPPr ks'
end.

(** The body of [levels.forEach] in the summary. *)
Definition summaryLevel (result : ESDMResult) (p : nodeId) (n : nat) (d : dom)
  (entry : nat * Z) : DOM.result dom :=
let '(index, l) := entry in
let key := js "level" ++ ofZ l in
percents ← from_option Ok (Throw TypeError) (percents result);
valNew ← toFixedComma (get percents key);
let d1 := appendRun p (js "cấp độ " ++ ofZ l ++ js " con đạt ") false false d in
d2 ← match percentsOld result with
     | Some old =>
       match get old key with
       | Undefined => Ok (appendRun p (valNew ++ js "%") true true d1)
       | v =>
         valOld ← toFixedComma v;
         Ok (appendRun p (valOld ++ js "% > " ++ valNew ++ js "%") true true d1)
       end
     | None => Ok (appendRun p (valNew ++ js "%") true true d1)
     end;
Ok (if bool_decide (S index < n) then appendRun p (js ". Và ") false false d2
    else appendRun p (js ".") false false d2).

(** "Handle Summary (Red Percentages)" *)
Definition rebuildSummary (result : ESDMResult) (levels : list Z) (fullText : jsstring)
  (p : nodeId) (d : dom) : DOM.result dom :=
let '(pPr, d1) := firstOrPrepend p "w:pPr" d in
let '(jc, d2) := firstOrAppend pPr "w:jc" d1 in
let d3 := setAttributes jc [("w:val", "center")] d2 in
let prefix :=
  match jsmatch fullText summaryRe with
  | Some m => trim (groupOr m 1)
  | None => js "Nhận định chung về kết quả:"
  end in
let d4 := Dom (updateChildren p keepPPr (root d3)) (fresh d3) in
let d5 := appendRun p (prefix ++ js " ") false true d4 in
match levels with
| [] => Ok (appendRun p (js " Chưa chọn cấp độ nào để đánh giá.") false false d5)
| _ => foldM (summaryLevel result p (length levels)) d5 (imap pair levels)
end.

(** [e.textContent = s] *)
Definition setText (e : nodeId) (s : jsstring) (d : dom) : dom :=
Dom (updateAt e (setTextContent s (fresh d)) (root d)) (S (fresh d)).

(** "Handle General Info" *)
Definition fillInfo (info : StudentInfo) (fullText : jsstring) (tNodes : list node)
  (d : dom) : dom :=
match List.find (λ kv, match kv.2 with
                        | [] => false
                        | _ => test (labelRe kv.1) fullText
                        end) (infoMap info) with
| Some (key, value) =>
  match tNodes with
  | t0 :: others =>
    foldl (λ d t, setText (nid t) [] d) (setText (nid t0) (key ++ js ": " ++ value) d) others
  | [] => d
  end
| None => d
end.

(** The body of [paragraphs.forEach]. *)
Definition fillParagraph (info : StudentInfo) (result : ESDMResult) (levels : list Z)
  (d : dom) (p : nodeId) : DOM.result dom :=
match DOM.lookup p (root d) with
| None => Ok d
| Some P =>
  match getElementsByTagName "w:t" P with
  | [] => Ok d
  | tNodes =>
    let fullText := flat_map textContent tNodes in
    if includes (toLowerCase fullText) (js "nhận định chung về kết quả")
    then rebuildSummary result levels fullText p d
    else Ok (fillInfo info fullText tNodes d)
  end
end.

(** "2. Intelligent Table Filling" *)
Definition getCellText (cell : node) : jsstring :=
match getElementsByTagName "w:p" cell with
| [] => textContent cell
| paragraphs =>
  join (js " ") (map (λ p, flat_map textContent (getElementsByTagName "w:t" p)) paragraphs)
end.

Definition normalize (str : jsstring) : jsstring := toLowerCase (trim (collapseSpaces str)).

(** [/(?:cấp độ|level)\s*(\d+)/] and [/(?:cấp độ|level)\s*(\d)/] *)
Definition levelRe : regex :=
seqs [RAlt (lit (js "cấp độ")) (lit (js "level")); star space; RGroup 1 (plus digit)].
Definition levelDigitRe : regex :=
seqs [RAlt (lit (js "cấp độ")) (lit (js "level")); star space; RGroup 1 digit].

(** [columnMap], filled from the cells of the header row after the
  first. *)
Definition columnMapOf (cells : list node) : gmap nat nat :=
foldl (λ columnMap cc,
         let cellText := normalize (getCellText cc.2) in
         match jsmatch cellText levelRe with
         | Some m =>
           let levelNum := parseInt (groupOr m 1) in
           if (levelNum <? 10)%Z then <[Z.to_nat levelNum := cc.1]> columnMap
           else match jsmatch cellText levelDigitRe with
                | Some digitMatch =>
                  <[Z.to_nat (parseInt (groupOr digitMatch 1)) := cc.1]> columnMap
                | None => columnMap
                end
         | None => columnMap
         end)
      ∅ (drop 1 (imap pair cells)).

(** [Object.entries(columnMap)]: the keys are below 10 and come in
  increasing order. *)
Definition entries (columnMap : gmap nat nat) : list (nat * nat) :=
omap (λ k, pair k <$> columnMap !! k) (seq 0 10).

(** The header row among the given rows: the first whose first cell reads
  "kỹ năng". *)
Fixpoint findHeader (rows : list node) : option (gmap nat nat) :=
match rows with
| [] => None
| row :: rows' =>
  match getElementsByTagName "w:tc" row with
  | [] => findHeader rows'
  | (cell0 :: _) as cells =>
    if includes (normalize (getCellText cell0)) (js "kỹ năng")
    then Some (columnMapOf cells)
    else findHeader rows'
  end
end.

(** [result.table.find(item => ...)] *)
Fixpoint findSkill (rowTitle : jsstring) (items : list (gmap jsstring jsval))
: DOM.result (option (gmap jsstring jsval)) :=
match items with
| [] => Ok None
| item :: items' =>
  match get item (js "skill") with
  | Str skill =>
    let itemSkill := normalize skill in
    if eqb itemSkill rowTitle || startsWith rowTitle itemSkill then Ok (Some item)
    else findSkill rowTitle items'
  | _ => Throw TypeError
  end
end.

Definition cellValue (item : gmap jsstring jsval) (lvl : nat) : jsstring :=
match get item (js "level" ++ ofZ (Z.of_nat lvl)) with
| Undefined | Null => js "-"
| Str s => s
| Num x => numberToString x
end.

Definition fillCell (cell : nodeId) (val : jsstring) (d : dom) : dom :=
match DOM.lookup cell (root d) with
| None => d
| Some C =>
  match getElementsByTagName "w:p" C with
  | p :: others =>
    let '(r, d1) := firstOrAppend (nid p) "w:r" d in
    let '(t, d2) := firstOrAppend r "w:t" d1 in
    let d3 := setText t val d2 in
    let d4 := foldl (λ d q, setText (nid q) [] d) d3 others in
    let runs := default [] (getElementsByTagName "w:r" <$> DOM.lookup (nid p) (root d4)) in
    foldl (λ d q, setText (nid q) [] d) d4 (tail runs)
  | [] =>
    let i := fresh d in
    let t := setTextContent val (i + 3) (Elem (i + 2) "w:t" [] []) in
    Dom (appendNew cell (Elem i "w:p" [] [Elem (i + 1) "w:r" [] [t]]) (root d)) (i + 4)
  end
end.

(** The body of [rows.forEach]. *)
Definition fillRow (result : ESDMResult) (levels : list Z) (columnMap : gmap nat nat)
  (d : dom) (row : nodeId) : DOM.result dom :=
match DOM.lookup row (root d) with
| None => Ok d
| Some R =>
  match getElementsByTagName "w:tc" R with
  | [] => Ok d
  | (cell0 :: _) as cells =>
    let rowTitle := normalize (getCellText cell0) in
    if bool_decide (rowTitle = []) || includes rowTitle (js "kỹ năng") then Ok d
    else
      items ← from_option Ok (Throw TypeError) (table result);
      matchedSkill ← findSkill rowTitle items;
      match matchedSkill with
      | None => Ok d
      | Some item =>
        Ok (foldl (λ d lc,
                     match cells !! lc.2 with
                     | Some cell =>
                       if bool_decide (Z.of_nat lc.1 ∈ levels)
                       then fillCell (nid cell) (cellValue item lc.1) d
                       else d
                     | None => d
                     end)
                  d (entries columnMap))
      end
  end
end.

(** The skill table: width 90%, centred, and its rows filled. *)
Definition fillSkillTable (result : ESDMResult) (levels : list Z) (columnMap : gmap nat nat)
  (tbl : nodeId) (rows : list node) (d : dom) : DOM.result dom :=
let '(tblPr, d1) := firstOrPrepend tbl "w:tblPr" d in
let '(tblW, d2) := firstOrAppend tblPr "w:tblW" d1 in
let d3 := setAttributes tblW [("w:w", "4500"); ("w:type", "pct")] d2 in
let '(jc, d4) := firstOrAppend tblPr "w:jc" d3 in
let d5 := setAttributes jc [("w:val", "center")] d4 in
foldM (fillRow result levels columnMap) d5 (nid <$> rows).

(** [for (const tbl of tables)]: only the first skill table is filled. *)
Fixpoint fillTables (result : ESDMResult) (levels : list Z) (tables : list node) (d : dom)
: DOM.result dom :=
match tables with
| [] => Ok d
| tbl :: tables' =>
  match getElementsByTagName "w:tr" tbl with
  | [] => fillTables result levels tables' d
  | rows =>
    match findHeader (take 5 rows) with
    | Some columnMap => fillSkillTable result levels columnMap (nid tbl) rows d
    | None => fillTables result levels tables' d
    end
  end
end.

(** What stands inside [try]. *)
Definition smartFillBody (xml : jsstring) (info : StudentInfo) (result : ESDMResult)
  (levels : list Z) : DOM.result jsstring :=
let doc := parseFromString xml in
d1 ← foldM (fillParagraph info result levels) (mkDom doc)
           (nid <$> getElementsByTagName "w:p" doc);
d2 ← fillTables result levels (getElementsByTagName "w:tbl" (root d1)) d1;
Ok (serializeToString (root d2)).

Definition smartFillXML (xml : jsstring) (info : StudentInfo) (result : ESDMResult)
  (levels : list Z) : jsstring :=
match smartFillBody xml info result levels with
| Ok smartXml => smartXml
| Throw _ => xml
end.

(** GENERATE_DOCX, up to the call of the template engine: the main document
  part of the template, if it has one that is not empty, is replaced by
  its smart-filled text. *)
Definition smartFillStep (zip : gmap string jsstring) (info : StudentInfo)
  (result : ESDMResult) (levels : list Z) : gmap string jsstring :=
match zip !! documentPath with
| Some ((_ :: _) as originalXml) =>
  <[documentPath := smartFillXML originalXml info result levels]> zip
| _ => zip
end.

(** [(v || 0).toFixed(1) + '%'] *)
Definition toFixedPercent (v : jsval) : DOM.result jsstring :=
match v with
| Undefined | Null | Str [] => Ok (toFixed1 zero ++ js "%")
| Num x => Ok (toFixed1 (if isFalsy x then zero else x) ++ js "%")
| Str _ => Throw TypeError
end.

(** [dataMapping]: the values of the tags of the template. *)
Definition dataMapping (info : StudentInfo) (result : ESDMResult)
  : DOM.result (list (string * jsstring)) :=
percents ← from_option Ok (Throw TypeError) (percents result);
p0 ← toFixedPercent (get percents (js "level0"));
p1 ← toFixedPercent (get percents (js "level1"));
p2 ← toFixedPercent (get percents (js "level2"));
p3 ← toFixedPercent (get percents (js "level3"));
p4 ← toFixedPercent (get percents (js "level4"));
Ok [ ("name", name info); ("dob", formatDateVI (dob info));
     ("eval_date", formatDateVI (evalDate info)); ("age", age info);
     ("gender", gender info); ("student_id", studentId info);
     ("summary", []); ("nhan_xet", []);
     ("p0", p0); ("p1", p1); ("p2", p2); ("p3", p3); ("p4", p4) ].

(** GENERATE_DOCX up to [doc.render(dataMapping)]: the package and the data
  that the template engine receives. *)
Definition generateDocxInput (zip : gmap string jsstring) (info : StudentInfo)
  (result : ESDMResult) (levels : list Z)
  : DOM.result (gmap string jsstring * list (string * jsstring)) :=
let zip1 := smartFillStep zip info result levels in
data ← dataMapping info result;
Ok (zip1, data).

(** An object of the analysis result whose values can be formatted as
  numbers: none is a string that is not empty. *)
Definition readable (o : gmap jsstring jsval) : Prop :=
∀ k c s, o !! k ≠ Some (Str (c :: s)).

(** An analysis result as the prompt of ANALYZE_ESDM asks for it: the
  percentages are there and readable, so are the old ones if there are
  any, and every entry of the table names its skill. *)
Definition wellFormedResult (result : ESDMResult) : Prop :=
(∃ ps, percents result = Some ps ∧ readable ps)
∧ (∀ old, percentsOld result = Some old → readable old)
∧ (∃ items, table result = Some items
            ∧ Forall (λ item, ∃ s, get item (js "skill") = Str s) items).

End SmartFill.
End SmartFill.

(** ** Paths and shapes: the vocabulary of the statements *)

Module Paths.

(** One level of the path from the root to a node: the element passed
    through and its other children, to the left and to the right. *)
Record frame : Type := Frame {
  fid : nodeId;
  fname : string;
  fattrs : list (string * string);
  fleft : list node;
  fright : list node
}.

Definition ctx : Type := list frame.

(** The tree that has [n] at the end of the path [c]. *)
Fixpoint plug (c : ctx) (n : node) : node :=
  match c with
  | [] => n
  | F :: c' => Elem (fid F) (fname F) (fattrs F) (fleft F ++ plug c' n :: fright F)
  end.

(** The identifiers of the nodes along and beside a path. *)
Fixpoint ctxIds (c : ctx) : list nodeId :=
  match c with
  | [] => []
  | F :: c' => fid F :: flat_map ids (fleft F) ++ flat_map ids (fright F) ++ ctxIds c'
  end.

(** Identifier and name of a node, and of all the nodes of a tree. *)
Definition tag (n : node) : nodeId * string := (nid n, nodeName n).
Definition sig (n : node) : list (nodeId * string) := tag <$> subtrees n.

Fixpoint ctxSig (c : ctx) : list (nodeId * string) :=
  match c with
  | [] => []
  | F :: c' => (fid F, fname F) :: flat_map sig (fleft F) ++ flat_map sig (fright F) ++ ctxSig c'
  end.

(** A [w:tbl] element. *)
Definition isTable (n : node) : Prop := named "w:tbl" n = true.

(** A [w:p] element without text other than white space. *)
Definition emptyParagraph (n : node) : Prop :=
  named "w:p" n = true ∧ trim (textContent n) = [].

Global Instance emptyParagraph_dec n : Decision (emptyParagraph n).
Proof. unfold emptyParagraph. apply _. Defined.

(** The identities of the rows of a table: of the [w:tr] elements below
    it. *)
Definition rowIds (n : node) : list nodeId := nid <$> getElementsByTagName "w:tr" n.

(** The rows of a table: its [w:tr] children. *)
Definition rowsOf (n : node) : list nodeId :=
  nid <$> filter (λ k, named "w:tr" k = true) (childNodes n).

(** All the identifiers of a tree lie below [fr]. *)
Definition below (fr : nodeId) (n : node) : Prop := ∀ i, i ∈ ids n → i < fr.

(** The document of [d] has, at the end of the path [c], a tree whose root
    is the node [t]; its nodes are distinct and older than the next node to
    be created. *)
Definition within (c : ctx) (t : nodeId * string) (d : dom) : Prop :=
  ∃ T, root d = plug c T ∧ tag T = t ∧ NoDup (ids (root d)) ∧ below (fresh d) (root d).

(** The node [e] lies in the tree at the end of the path [c]. *)
Definition inside (c : ctx) (d : dom) (e : nodeId * string) : Prop :=
  ∃ T, root d = plug c T ∧ e ∈ sig T.

(** The name of an element, not of a text node or a comment. *)
Definition elementName (nm : string) : Prop := nm ≠ "#text" ∧ nm ≠ "#comment".

(** An identifier the program holds while it works on the tree at the end
    of the path [c]: it designates an element of that tree, or a node that
    is no longer, or not yet, in the document. *)
Definition known (c : ctx) (d : dom) (x : nodeId) : Prop :=
  x < fresh d ∧ (x ∉ ids (root d) ∨ ∃ xn, elementName xn ∧ inside c d (x, xn)).

(** From [d] to [d'] the document has changed inside that tree only, and
    what the program holds stays known. *)
Definition keeps (c : ctx) (t : nodeId * string) (d d' : dom) : Prop :=
  within c t d' ∧ fresh d ≤ fresh d' ∧ ∀ z, known c d z → known c d' z.

(** The runs of the summary paragraph: plain, and in bold and red. *)
Definition plainRun (i : nodeId) (text : jsstring) : node :=
  Elem i "w:r" []
    [ Elem (i + 1) "w:rPr" []
        [ Elem (i + 2) "w:sz" [("w:val", "26")] [];
          Elem (i + 3) "w:szCs" [("w:val", "26")] [] ];
      Elem (i + 4) "w:t" [("xml:space", "preserve")] [Text (i + 5) text] ].

Definition boldRedRun (i : nodeId) (text : jsstring) : node :=
  Elem i "w:r" []
    [ Elem (i + 1) "w:rPr" []
        [ Elem (i + 2) "w:sz" [("w:val", "26")] [];
          Elem (i + 3) "w:szCs" [("w:val", "26")] [];
          Elem (i + 4) "w:b" [] [];
          Elem (i + 5) "w:color" [("w:val", "FF0000")] [] ];
      Elem (i + 6) "w:t" [("xml:space", "preserve")] [Text (i + 7) text] ].

Section TwoChildren.
Context (c : ctx) (p : nodeId) (nm : string) (a : list (string * string)).
Context (pre mid post : list node).

(** A document in which [X] and, after the nodes [mid], [Y] are children
  of the same element. *)
Definition two (X Y : node) : node := plug c (Elem p nm a (pre ++ X :: mid ++ Y :: post)).

Definition ctxX (Y : node) : ctx := c ++ [Frame p nm a pre (mid ++ Y :: post)].
Definition ctxY (X : node) : ctx := c ++ [Frame p nm a (pre ++ X :: mid) post].

(** The state of the document while the rows of [Y0] are moved, one after
  the other, to the end of [X0]: [rem] holds the rows still to be
  moved. *)
Definition moving (t : nodeId) (tn : string) (ta : list (string * string))
  (X0 Y0 : node) (rem : list nodeId) (doc : node) : Prop :=
∃ tk Y,
  doc = two (Elem t tn ta tk) Y ∧ NoDup (ids doc) ∧ tag Y = tag Y0
  ∧ sig (Elem t tn ta tk) ++ sig Y ≡ₚ sig X0 ++ sig Y0
  ∧ (∀ e, e ∈ sig Y → e.2 = "w:tr" → e.1 ∈ rem).
End TwoChildren.

End Paths.

Export Paths.

(** ** Example documents *)

Module Examples.
Import Mod4.

(** [<w:document><w:body> ks </w:body></w:document>] under the document
    node. *)
Definition document (ks : list node) : node :=
  Elem 0 "#document" [] [Elem 1 "w:document" [] [Elem 2 "w:body" [] ks]].

(** The path to the body. *)
Definition toBody : ctx := [Frame 0 "#document" [] [] []; Frame 1 "w:document" [] [] []].

Definition paragraph (i : nodeId) (t : jsstring) : node :=
  Elem i "w:p" [] [Elem (i + 1) "w:r" [] [Elem (i + 2) "w:t" [] [Text (i + 3) t]]].

(** A row of one cell. *)
Definition row (i : nodeId) (t : jsstring) : node :=
  Elem i "w:tr" [] [Elem (i + 1) "w:tc" [] [paragraph (i + 2) t]].

(** [k] empty paragraphs, numbered from [i]. *)
Definition emptyParagraphs (i : nodeId) (k : nat) : list node :=
  (λ j, Elem j "w:p" [] []) <$> seq i k.

(** A table of two rows, and one of three. *)
Definition tableA : node := Elem 10 "w:tbl" [] [row 11 (js "a"); row 21 (js "b")].
Definition tableB : node :=
  Elem 40 "w:tbl" [] [Elem 41 "w:tblPr" [] []; row 42 (js "c"); row 52 (js "d"); row 62 (js "e")].
Definition sectPr : node := Elem 90 "w:sectPr" [] [].

(** The two tables with [k] empty paragraphs in between. *)
Definition gapDocument (k : nat) : node :=
  document (tableA :: emptyParagraphs 100 k ++ [tableB; sectPr]).

(** The two tables with a paragraph of text in between. *)
Definition textBetween : node :=
  document [tableA; paragraph 30 (js "Ghi chú"); tableB; sectPr].

(** A table of one row whose cell holds a table of two rows, and the
    document in which it follows [tableA] after one empty paragraph. *)
Definition nestedTable : node :=
  Elem 40 "w:tbl" []
    [ Elem 41 "w:tr" []
        [ Elem 42 "w:tc" []
            [ Elem 43 "w:tbl" [] [row 44 (js "x"); row 54 (js "y")];
              paragraph 64 (js "c") ] ] ].

Definition nestedDocument : node :=
  document [tableA; Elem 30 "w:p" [] []; nestedTable; sectPr].

Definition only (i : nat) (o : Options) : Mod4TableInfo :=
  Build_Mod4TableInfo (1000 + Z.of_nat i) i [] [] false false o.

Definition mergeOnly : Options := Build_Options false false false true false.
Definition bordersOnly : Options := Build_Options true false false false false.
Definition spacingOnly : Options := Build_Options false true false false false.

(** A table whose properties record a tracked change of its borders:
    [w:tblPr] holds [w:tblBorders] and, in [w:tblPrChange], the former
    [w:tblPr] with borders of its own. *)
Definition trackedTable : node :=
  Elem 10 "w:tbl" []
    [ Elem 11 "w:tblPr" []
        [ Elem 12 "w:tblBorders" [] [Elem 13 "w:top" [("w:val", "double")] []];
          Elem 14 "w:tblPrChange" [("w:id", "1")]
            [Elem 15 "w:tblPr" [] [Elem 16 "w:tblBorders" [] []]] ];
      row 20 (js "a") ].

Definition trackedDocument : node := document [trackedTable; sectPr].

(** The table of [trackedDocument] after [fixBorders]: the borders that
    were a child of [w:tblPr] have given way to new ones, which come last;
    those recorded in [w:tblPrChange] stand before them. *)
Definition trackedOnce : node :=
  document
    [ Elem 10 "w:tbl" []
        [ Elem 11 "w:tblPr" []
            [ Elem 14 "w:tblPrChange" [("w:id", "1")]
                [Elem 15 "w:tblPr" [] [Elem 16 "w:tblBorders" [] []]];
              newBorders 91 ];
          row 20 (js "a") ];
      sectPr ].

(** A package without main document part, and a parser that answers the
    empty text with an error document, as [DOMParser] does. *)
Definition noDocumentFile : File :=
  {| name := js "bao cao.docx"; parts := {["[Content_Types].xml" := js "<Types/>"]} |}.

Definition errorDocument : node :=
  Elem 0 "#document" [] [Elem 1 "parsererror" [] [Text 2 (js "error on line 1")]].

Definition parseOrError (xml : jsstring) : node :=
  match xml with
  | [] => errorDocument
  | _ => document []
  end.

(** A serializer that writes tags without attributes. *)
Fixpoint serialize (n : node) : jsstring :=
  match n with
  | Elem _ "#document" _ ks => flat_map serialize ks
  | Elem _ nm _ ks =>
    js "<" ++ js nm ++ js ">" ++ flat_map serialize ks ++ js "</" ++ js nm ++ js ">"
  | Text _ d => d
  | Comment _ _ => []
  end.

End Examples.

(** Inputs of the Field Filler.  Numbers are tenths here: [505] stands
    for 50.5. *)
Module FillExamples.
Import SmartFill Examples.

Definition toFixedTenths (x : Z) : jsstring := ofZ (x / 10) ++ js "." ++ ofZ (x mod 10).
Definition tenthsToString (x : Z) : jsstring :=
  if (x mod 10 =? 0)%Z then ofZ (x / 10) else toFixedTenths x.

Definition summaryDocument : node :=
  document [ paragraph 10 (js "Nhận định chung về kết quả: ");
             paragraph 20 (js "Họ và tên: ...") ].

Definition student : StudentInfo :=
  {| name := js "Nguyễn Văn A"; dob := js "2020-03-15"; evalDate := js "2024";
     age := []; gender := js "Nam"; studentId := [] |}.

(** Two columns analysed: 25.0% before, 50.5% now, at level 1. *)
Definition compared : @ESDMResult Z :=
  {| table := Some [];
     percents := Some {[ js "level1" := Num 505%Z ]};
     percentsOld := Some {[ js "level1" := Num 250%Z ]} |}.

(** What [JSON.parse("{}")] gives: no field at all. *)
Definition emptyResult : @ESDMResult Z :=
  {| table := None; percents := None; percentsOld := None |}.

Definition fill := smartFillXML 0%Z (Z.eqb 0) toFixedTenths tenthsToString
                                (λ _, summaryDocument) serialize.
Definition fillBody := smartFillBody 0%Z (Z.eqb 0) toFixedTenths tenthsToString
                                     (λ _, summaryDocument) serialize.

(** A template with a label and a skill table: the header row names the
    column of level 1, and one row is to be filled. *)
Definition skillCell (i : nodeId) (t : jsstring) : node :=
  Elem i "w:tc" [] [paragraph (i + 1) t].

Definition skillDocument : node :=
  document [ paragraph 10 (js "Họ và tên: ...");
             Elem 20 "w:tbl" []
               [ Elem 21 "w:tr" [] [skillCell 22 (js "Kỹ năng"); skillCell 27 (js "Cấp độ 1")];
                 Elem 32 "w:tr" [] [skillCell 33 (js "Giao tiếp"); skillCell 38 (js "...")] ] ].

(** An analysis result with its percentages and without [table]. *)
Definition withoutTable : @ESDMResult Z :=
  {| table := None; percents := Some {[ js "level1" := Num 505%Z ]}; percentsOld := None |}.

(** A text that is not well-formed XML, and a parser that answers it with
    an error document, as [DOMParser] does. *)
Definition brokenXml : jsstring := js "<w:document><w:body>".

Definition parseOrBroken (xml : jsstring) : node :=
  if bool_decide (xml = brokenXml) then errorDocument else skillDocument.

End FillExamples.

(** ** Global helpers *)

Module Helpers.
Local Open Scope N_scope.

(** [s.replace(/[...]/g, f)] for a class of single units: every unit of the
    class gives way to what [f] returns for it. *)
Definition replaceUnits (class : N → bool) (f : N → jsstring) (s : jsstring) : jsstring :=
  flat_map (λ c, if class c then f c else [c]) s.

Definition oneOf (set : jsstring) (c : N) : bool := bool_decide (c ∈ set).

(** [escapeXml]: the class holds the five characters that XML reserves. *)
Definition escapeXml (unsafe : jsstring) : jsstring :=
  replaceUnits (oneOf [0x3C; 0x3E; 0x26; 0x27; 0x22])
    (λ c, if c =? 0x3C then js "&lt;"
          else if c =? 0x3E then js "&gt;"
          else if c =? 0x26 then js "&amp;"
          else if c =? 0x27 then js "&apos;"
          else if c =? 0x22 then js "&quot;"
          else [c])
    unsafe.

(** The names of the five entities, after the ampersand. *)
Definition entityNames : list jsstring := [js "lt;"; js "gt;"; js "amp;"; js "apos;"; js "quot;"].

(** The seven classes of [removeVietnameseTones], as the source lists
    them. *)
Definition tonesA : jsstring := js "àáạảãâầấậẩẫăằắặẳẵ".
Definition tonesE : jsstring := js "èéẹẻẽêềếệểễ".
Definition tonesI : jsstring := js "ìíịỉĩ".
Definition tonesO : jsstring := js "òóọỏõôồốộổỗơờớợởỡ".
Definition tonesU : jsstring := js "ùúụủũưừứựửữ".
Definition tonesY : jsstring := js "ỳýỵỷỹ".
Definition tonesD : jsstring := js "đ".

(** The letters with a diacritic of the Vietnamese alphabet, in lower
    case. *)
Definition toneLetters : jsstring :=
  tonesA ++ tonesE ++ tonesI ++ tonesO ++ tonesU ++ tonesY ++ tonesD.

Definition removeVietnameseTones (str : jsstring) : jsstring :=
  let str := toLowerCase str in
  let str := replaceUnits (oneOf tonesA) (λ _, js "a") str in
  let str := replaceUnits (oneOf tonesE) (λ _, js "e") str in
  let str := replaceUnits (oneOf tonesI) (λ _, js "i") str in
  let str := replaceUnits (oneOf tonesO) (λ _, js "o") str in
  let str := replaceUnits (oneOf tonesU) (λ _, js "u") str in
  let str := replaceUnits (oneOf tonesY) (λ _, js "y") str in
  let str := replaceUnits (oneOf tonesD) (λ _, js "d") str in
  let str := replaceUnits (oneOf [0x300; 0x301; 0x303; 0x309; 0x323]) (λ _, []) str in
  let str := replaceUnits (oneOf [0x2C6; 0x306; 0x31B]) (λ _, []) str in
  str.

End Helpers.

(** ** The age of the child: [main_controller], mode 1, action CALCULATE_AGE *)

Module Age.
Local Open Scope Z_scope.

(** A valid [Date], as the program reads it: [getFullYear()], [getMonth()]
    (from 0) and [getDate()], in local time. *)
Record date : Type := Date { fullYear : Z; month : Z; day : Z }.

Definition isLeap (y : Z) : bool :=
  (y mod 4 =? 0) && (negb (y mod 100 =? 0) || (y mod 400 =? 0)).

(** The days of month [m] (from 0) of year [y]. *)
Definition daysInMonth (y m : Z) : Z :=
  if m =? 1 then (if isLeap y then 29 else 28)
  else if (m =? 3) || (m =? 5) || (m =? 8) || (m =? 10) then 30
  else 31.

(** Day [d] of a month, for a [d] past the end of the month: it is counted
    on into the months that follow. *)
Fixpoint forward (fuel : nat) (y m d : Z) : date :=
  match fuel with
  | O => Date y m d
  | S fuel' =>
    if d >? daysInMonth y m then
      if m =? 11 then forward fuel' (y + 1) 0 (d - daysInMonth y m)
      else forward fuel' y (m + 1) (d - daysInMonth y m)
    else Date y m d
  end.

(** Day [d] of a month, for a [d] below 1: it is counted back into the
    months before. *)
Fixpoint backward (fuel : nat) (y m d : Z) : date :=
  match fuel with
  | O => Date y m d
  | S fuel' =>
    if d <? 1 then
      if m =? 0 then backward fuel' (y - 1) 11 (d + daysInMonth (y - 1) 11)
      else backward fuel' y (m - 1) (d + daysInMonth y (m - 1))
    else Date y m d
  end.

(** [new Date(year, month, date)] in local time, read back in local time:
    a year from 0 to 99 stands for 1900 to 1999, a month outside 0..11
    moves the year, and a day outside the month moves the month. *)
Definition makeDate (year monthIndex dayOfMonth : Z) : date :=
  let yr := if (0 <=? year) && (year <=? 99) then 1900 + year else year in
  let ym := yr + monthIndex / 12 in
  let mn := monthIndex mod 12 in
  if dayOfMonth <? 1 then backward (Z.to_nat (1 - dayOfMonth)) ym mn dayOfMonth
  else forward (Z.to_nat dayOfMonth) ym mn dayOfMonth.

(** [[\/\-]] *)
Definition sep : regex := RChar (λ c, (c =? 0x2F) || (c =? 0x2D))%N.
Definition year4 : regex := RRep 4 (Some 4%nat) true digit.

(** [/^(\d{1,2})[\/\-](\d{1,2})[\/\-](\d{4})$/] *)
Definition fullDateRegex : regex :=
  seqs [RBol; RGroup 1 (upTo 1 2 digit); sep; RGroup 2 (upTo 1 2 digit); sep;
        RGroup 3 year4; REol].
(** [/^(\d{1,2})[\/\-](\d{4})$/] *)
Definition monthYearRegex : regex :=
  seqs [RBol; RGroup 1 (upTo 1 2 digit); sep; RGroup 2 year4; REol].
(** [/^(\d{4})$/] *)
Definition yearRegex : regex := seqs [RBol; RGroup 1 year4; REol].
(** [/^(\d{4})-(\d{1,2})-(\d{1,2})$/] *)
Definition isoRegex : regex :=
  seqs [RBol; RGroup 1 year4; chr 0x2D; RGroup 2 (upTo 1 2 digit); chr 0x2D;
        RGroup 3 (upTo 1 2 digit); REol].

Inductive AgeFormat : Type := Detail | Month.

(** The difference of two dates, in years, months and days, after the two
    borrowings. *)
Definition ageDiff (birthDate current : date) : Z * Z * Z :=
  let years := fullYear current - fullYear birthDate in
  let months := month current - month birthDate in
  let days := day current - day birthDate in
  let '(months, days) :=
    if days <? 0 then
      let prevMonth := makeDate (fullYear current) (month current) 0 in
      (months - 1, days + day prevMonth)
    else (months, days) in
  let '(years, months) :=
    if months <? 0 then (years - 1, months + 12) else (years, months) in
  (years, months, days).

Definition tooEarly : jsstring := js "Ngày lượng giá nhỏ hơn ngày sinh".

Definition ageText (birthDate current : date) (ageFormat : option AgeFormat) : jsstring :=
  let '(years, months, days) := ageDiff birthDate current in
  if years <? 0 then tooEarly
  else
    match ageFormat with
    | Some Month =>
      let totalMonths := years * 12 + months in
      ofZ totalMonths ++ js " tháng"
    | _ =>
      let parts :=
        (if years >? 0 then [ofZ years ++ js " tuổi"] else [])
        ++ (if months >? 0 then [ofZ months ++ js " tháng"] else [])
        ++ (if (days >? 0) && (years =? 0) then [ofZ days ++ js " ngày"] else []) in
      let parts := match parts with [] => [js "0 tháng"] | _ => parts end in
      join (js " ") parts
    end.

Section Age.
(** [new Date(s)] for a text [s], read in local time; [None] is the
    invalid date.  What it accepts besides the ISO format, and the day a
    date without time falls on in local time, are the platform's. *)
Context (parseDate : jsstring → option date).

(** The date of birth that is read from the text; [test] and [match] run
    the same pattern, so a text is tested by matching it. *)
Definition birthDateOf (dobTrim : jsstring) : option date :=
  match jsmatch dobTrim fullDateRegex with
  | Some m =>
    Some (makeDate (parseInt (groupOr m 3)) (parseInt (groupOr m 2) - 1) (parseInt (groupOr m 1)))
  | None =>
    match jsmatch dobTrim monthYearRegex with
    | Some m => Some (makeDate (parseInt (groupOr m 2)) (parseInt (groupOr m 1) - 1) 1)
    | None =>
      match jsmatch dobTrim yearRegex with
      | Some m => Some (makeDate (parseInt (groupOr m 1)) 0 1)
      | None => if test isoRegex dobTrim then parseDate dobTrim else None
      end
    end
  end.

(** The action: the text of the age, empty when a date is missing or
    cannot be read. *)
Definition calculateAge (dob evalDate : option jsstring) (ageFormat : option AgeFormat)
  : jsstring :=
  match dob, evalDate with
  | Some ((_ :: _) as dob), Some ((_ :: _) as evalDate) =>
    let current := parseDate evalDate in
    match birthDateOf (trim dob), current with
    | Some birthDate, Some current => ageText birthDate current ageFormat
    | _, _ => []
    end
  | _, _ => []
  end.
End Age.

(** [handleDobChange]: what the field of the date of birth shows after
    the user's input [value]. *)
Definition handleDobChange (value : jsstring) : jsstring :=
  let value := filter (λ c, isDigit c = true) value in
  let value := if bool_decide (8 < length value)%nat then take 8 value else value in
  if bool_decide (4 < length value)%nat
  then take 2 value ++ js "/" ++ take 2 (drop 2 value) ++ js "/" ++ drop 4 value
  else if bool_decide (2 < length value)%nat
  then take 2 value ++ js "/" ++ drop 2 value
  else value.

(** The dates of the calendar. *)
Definition validDate (d : date) : Prop :=
  0 ≤ month d ≤ 11 ∧ 1 ≤ day d ≤ daysInMonth (fullYear d) (month d).

(** The order of dates. *)
Definition earlier (a b : date) : Prop :=
  fullYear a < fullYear b
  ∨ (fullYear a = fullYear b
     ∧ (month a < month b ∨ (month a = month b ∧ day a < day b))).

End Age.

(** ** The selections of the user interface: the handlers of [App] *)

Module UI.
Import Mod4.
Local Open Scope Z_scope.

(** [Array.prototype.sort]: a stable sort.  [le a b] says that [a] may
    stand before [b]; an element is put behind those that may stand before
    it. *)
Fixpoint insertSorted {A} (le : A → A → bool) (x : A) (l : list A) : list A :=
  match l with
  | [] => [x]
  | y :: l' => if le y x then y :: insertSorted le x l' else x :: l
  end.

Definition sortBy {A} (le : A → A → bool) (l : list A) : list A :=
  foldl (λ acc x, insertSorted le x acc) [] l.

(** [s < t] on strings: the order of the code units. *)
Fixpoint strLt (s t : jsstring) : bool :=
  match s, t with
  | _, [] => false
  | [], _ :: _ => true
  | c :: s', d :: t' => (c <? d)%N || ((c =? d)%N && strLt s' t')
  end.

(** The order of [sort()] without a comparator: that of the texts of the
    numbers. *)
Definition defaultLe (a b : Z) : bool := negb (strLt (ofZ b) (ofZ a)).

(** The order of [sort((a, b) => a - b)]. *)
Definition numericLe (a b : Z) : bool := a - b <=? 0.

(** [toggleLevel]: the new [selectedLevels]. *)
Definition toggleLevel (level : Z) (prev : list Z) : list Z :=
  if bool_decide (level ∈ prev) then filter (λ l, l ≠ level) prev
  else sortBy defaultLe (prev ++ [level]).

(** [toggleColumn]: the new [selectedColumns]. *)
Definition toggleColumn (col : Z) (prev : list Z) : list Z :=
  if bool_decide (col ∈ prev) then
    let newVal := filter (λ c, c ≠ col) prev in
    match newVal with
    | [] => [1]
    | _ => sortBy numericLe newVal
    end
  else
    match prev with
    | _ :: second :: _ => sortBy numericLe [second; col]
    | _ => sortBy numericLe (prev ++ [col])
    end.

(** [SelectedGoal] and [Selection]. *)
Inductive GoalSuffix : Type := MTNT | MTC | MTP.

Record SelectedGoal : Type := { goalId : jsstring; suffix : GoalSuffix }.

Record Selection : Type := {
  level : jsstring;
  domain : jsstring;
  goals : list SelectedGoal
}.

Definition isFor (levelName domainName : jsstring) (s : Selection) : bool :=
  bool_decide (level s = levelName) && bool_decide (domain s = domainName).

Definition withGoals (newGoals : list SelectedGoal) (s : Selection) : Selection :=
  {| level := level s; domain := domain s; goals := newGoals |}.

(** [toggleGoalSelection]: the new [selections]. *)
Definition toggleGoalSelection (levelName domainName goalId_ : jsstring)
    (prev : list Selection) : list Selection :=
  match List.find (isFor levelName domainName) prev with
  | Some existingSel =>
    match List.find (λ g, bool_decide (goalId g = goalId_)) (goals existingSel) with
    | Some _ =>
      let newGoals := filter (λ g, goalId g ≠ goalId_) (goals existingSel) in
      match newGoals with
      | [] => filter (λ s, isFor levelName domainName s = false) prev
      | _ => map (λ s, if isFor levelName domainName s then withGoals newGoals s else s) prev
      end
    | None =>
      map (λ s, if isFor levelName domainName s
                then withGoals (goals s ++ [{| goalId := goalId_; suffix := MTNT |}]) s
                else s) prev
    end
  | None =>
    prev ++ [{| level := levelName; domain := domainName;
                goals := [{| goalId := goalId_; suffix := MTNT |}] |}]
  end.

(** [updateGoalSuffix] *)
Definition updateGoalSuffix (levelName domainName goalId_ : jsstring) (suffix_ : GoalSuffix)
    (prev : list Selection) : list Selection :=
  map (λ s, if isFor levelName domainName s
            then withGoals (map (λ g, if bool_decide (goalId g = goalId_)
                                      then {| goalId := goalId g; suffix := suffix_ |}
                                      else g) (goals s)) s
            else s) prev.

(** The goal [g] of the domain [d] of the level [l] is selected. *)
Definition selected (sels : list Selection) (l d g : jsstring) : Prop :=
  ∃ s x, s ∈ sels ∧ level s = l ∧ domain s = d ∧ x ∈ goals s ∧ goalId x = g.

(** What the handlers keep: one selection for a domain of a level, none
    without a goal, and a goal once. *)
Definition wellFormed (sels : list Selection) : Prop :=
  NoDup ((λ s, (level s, domain s)) <$> sels)
  ∧ Forall (λ s, goals s ≠ [] ∧ NoDup (goalId <$> goals s)) sels.

(** The names of the options of a table. *)
Inductive OptionName : Type := FixBorders | FixSpacing | Autofit | MergeNext | FixAlign.

Definition toggleOption (option : OptionName) (o : Options) : Options :=
  match option with
  | FixBorders =>
    Build_Options (negb (fixBorders o)) (fixSpacing o) (autofit o) (mergeNext o) (fixAlign o)
  | FixSpacing =>
    Build_Options (fixBorders o) (negb (fixSpacing o)) (autofit o) (mergeNext o) (fixAlign o)
  | Autofit =>
    Build_Options (fixBorders o) (fixSpacing o) (negb (autofit o)) (mergeNext o) (fixAlign o)
  | MergeNext =>
    Build_Options (fixBorders o) (fixSpacing o) (autofit o) (negb (mergeNext o)) (fixAlign o)
  | FixAlign =>
    Build_Options (fixBorders o) (fixSpacing o) (autofit o) (mergeNext o) (negb (fixAlign o))
  end.

(** [toggleMod4Option]: the new [mod4Tables]. *)
Definition toggleMod4Option (tableId : Z) (option : OptionName) (prev : list Mod4TableInfo)
  : list Mod4TableInfo :=
  map (λ t, if bool_decide (id t = tableId)
            then Build_Mod4TableInfo (id t) (index t) (previewHtml t) (issues t)
                   (canMergeNext t) (isMergeTarget t) (toggleOption option (options t))
            else t) prev.

(** The goal [g] of the domain [d] of the level [l] is selected and carries
    the suffix [x]. *)
Definition marked (sels : list Selection) (l d g : jsstring) (x : GoalSuffix) : Prop :=
  ∃ s y, s ∈ sels ∧ level s = l ∧ domain s = d ∧ y ∈ goals s ∧ goalId y = g ∧ suffix y = x.

End UI.

(** ** Reading the goals from a workbook: [main_controller], mode 2, action PARSE_EXCEL *)

Module Excel.
Import UI.
Local Open Scope N_scope.

(** [/^(M|m)?\d+(\.\d+)*\.?$/] *)
Definition goalRe : regex :=
  seqs [RBol; opt (RGroup 1 (RAlt (chr 0x4D) (chr 0x6D))); plus digit;
        star (RGroup 2 (RSeq (chr 0x2E) (plus digit))); opt (chr 0x2E); REol].

(** [isGoalRowIndicator], on the texts the program calls it with. *)
Definition isGoalRowIndicator (val : jsstring) : bool :=
  let str := trim val in
  match str with
  | [] => false
  | _ => test goalRe str
  end.

Definition stopWords : list jsstring :=
  [js "stt"; js "no."; js "mục tiêu smart"; js "mục tiêu"; js "nội dung"; js "lĩnh vực";
   js "mã"; js "code"; js "mô tả"; js "ghi chú"; js "nhận xét"; js "kết quả"; js "đạt";
   js "chưa đạt"; js "ngày"].

Definition isTableHeader (str : jsstring) : bool :=
  let lower := toLowerCase str in
  existsb (λ w, eqb lower w || startsWith lower (w ++ js " ")) stopWords.

(** [StrNumericLiteral] of ECMAScript: the texts that [Number] does not
    turn into [NaN], white space apart. *)
Definition sign : regex := RChar (λ c, (c =? 0x2B) || (c =? 0x2D)).
Definition exponent : regex :=
  seqs [RChar (λ c, (c =? 0x65) || (c =? 0x45)); opt sign; plus digit].
Definition hexDigit : regex :=
  RChar (λ c, isDigit c || ((0x61 <=? c) && (c <=? 0x66)) || ((0x41 <=? c) && (c <=? 0x46))).
Definition numericRe : regex :=
  seqs [RBol;
        alts [ seqs [opt sign;
                     alts [ lit (js "Infinity");
                            seqs [plus digit; opt (RSeq (chr 0x2E) (star digit)); opt exponent];
                            seqs [chr 0x2E; plus digit; opt exponent] ]];
               seqs [chr 0x30; RChar (λ c, (c =? 0x78) || (c =? 0x58)); plus hexDigit];
               seqs [chr 0x30; RChar (λ c, (c =? 0x6F) || (c =? 0x4F));
                     plus (RChar (λ c, (0x30 <=? c) && (c <=? 0x37)))];
               seqs [chr 0x30; RChar (λ c, (c =? 0x62) || (c =? 0x42));
                     plus (RChar (λ c, (c =? 0x30) || (c =? 0x31)))] ];
        REol].

(** [!isNaN(Number(str))] *)
Definition isNumeric (str : jsstring) : bool :=
  match trim str with
  | [] => true
  | t => test numericRe t
  end.

(** [isDomainLabel], on the texts the program calls it with. *)
Definition isDomainLabel (val : jsstring) : bool :=
  let str := trim val in
  match str with
  | [] => false
  | _ =>
    if isGoalRowIndicator str then false
    else if isTableHeader str then false
    else if isNumeric str && negb (includes str (js " ")) then false
    else true
  end.

Record EsdmGoal : Type := { id : jsstring; text : jsstring }.
Record EsdmDomain : Type := { name : jsstring; goals : list EsdmGoal }.
Record EsdmLevel : Type := { levelName : jsstring; domains : list EsdmDomain }.

Section Excel.
(** The numbers of a sheet are doubles: the numbers that are falsy and the
    text of a number are the platform's. *)
Context {number : Type} (isFalsy : number → bool) (numberToString : number → jsstring).

(** The value of a cell, as [sheet_to_json] gives it. *)
Inductive cell : Type :=
| CStr (s : jsstring)
| CNum (x : number)
| CBool (b : bool).

(** [String(c)] *)
Definition toString (c : cell) : jsstring :=
  match c with
  | CStr s => s
  | CNum x => numberToString x
  | CBool true => js "true"
  | CBool false => js "false"
  end.

(** Whether [c] is truthy; [None] is [undefined], what an index outside
    the row gives. *)
Definition truthy (c : option cell) : bool :=
  match c with
  | Some (CStr s) => negb (bool_decide (s = []))
  | Some (CNum x) => negb (isFalsy x)
  | Some (CBool b) => b
  | None => false
  end.

(** [String(c || '')] *)
Definition textOr (c : option cell) : jsstring :=
  match c with
  | Some c' => if truthy c then toString c' else []
  | None => []
  end.

(** A row of the sheet; [None] where the array of rows has none. *)
Definition row : Type := option (list cell).

(** [row.findIndex(p)] *)
Fixpoint findIndex (p : cell → bool) (r : list cell) : option nat :=
  match r with
  | [] => None
  | c :: r' => if p c then Some O else S <$> findIndex p r'
  end.

Definition isSmartHeader (c : cell) : bool :=
  let val := trim (toLowerCase (textOr (Some c))) in
  includes val (js "mục tiêu smart") || eqb val (js "smart") || eqb val (js "smart goal").

(** [smartGoalColIndex], looked for in the first 30 rows; [None] is -1. *)
Definition smartGoalColIndex (rows : list row) : option nat :=
  findMap (λ r : row, r ≫= findIndex isSmartHeader) (take 30 rows).

(** [val0.replace(/\.$/, '')] *)
Definition dropLastDot (s : jsstring) : jsstring :=
  match reverse s with
  | c :: r => if c =? 0x2E then reverse r else s
  | [] => s
  end.

(** [/^\d+$/] *)
Definition digitsRe : regex := seqs [RBol; plus digit; REol].

(** The identifier of a goal; [toUpperCase] works on the letter of a goal
    row indicator. *)
Definition goalIdOf (val0 : jsstring) : jsstring :=
  let goalId := map toUpper (dropLastDot val0) in
  if test digitsRe goalId then js "M" ++ goalId else goalId.

(** The first cell after the first whose text has more than 5 units. *)
Definition longText (r : list cell) : jsstring :=
  default [] (findMap (λ c, let cellVal := trim (textOr (Some c)) in
                            if bool_decide (5 < length cellVal)%nat then Some cellVal else None)
                      (drop 1 r)).

Definition goalTextOf (smart : option nat) (r : list cell) : jsstring :=
  match smart with
  | Some i =>
    match r !! i with
    | Some c => if truthy (Some c) then trim (toString c) else longText r
    | None => longText r
    end
  | None => longText r
  end.

(** The domains found so far, and [currentDomain], which is one of them:
    its place among them. *)
Record scan : Type := Scan { found : list EsdmDomain; currentDomain : option nat }.

Definition addGoal (g : EsdmGoal) (d : EsdmDomain) : EsdmDomain :=
  {| name := name d; goals := goals d ++ [g] |}.

(** [domains.find(d => d.name.toLowerCase() === domainName.toLowerCase())],
    as the place of what it finds. *)
Fixpoint findDomain (domainName : jsstring) (ds : list EsdmDomain) : option nat :=
  match ds with
  | [] => None
  | d :: ds' =>
    if bool_decide (toLowerCase (name d) = toLowerCase domainName) then Some O
    else S <$> findDomain domainName ds'
  end.

(** The body of the loop over the rows. *)
Definition scanRow (smart : option nat) (st : scan) (r : row) : scan :=
  match r with
  | None | Some [] => st
  | Some ((c0 :: _) as cells) =>
    let val0 := trim (textOr (Some c0)) in
    match val0 with
    | [] => st
    | _ =>
      if isGoalRowIndicator val0 then
        match currentDomain st with
        | Some i =>
          match found st !! i with
          | Some d =>
            let goalId := goalIdOf val0 in
            let goalText := goalTextOf smart cells in
            if negb (bool_decide (goalText = []))
               && negb (existsb (λ g, bool_decide (id g = goalId)) (goals d))
            then Scan (<[i := addGoal {| id := goalId; text := goalText |} d]> (found st))
                      (currentDomain st)
            else st
          | None => st
          end
        | None => st
        end
      else if isDomainLabel val0 then
        match findDomain val0 (found st) with
        | Some i => Scan (found st) (Some i)
        | None => Scan (found st ++ [{| name := val0; goals := [] |}]) (Some (length (found st)))
        end
      else st
    end
  end.

(** The domains of a sheet: those that have a goal. *)
Definition sheetDomains (rows : list row) : list EsdmDomain :=
  let smart := smartGoalColIndex rows in
  let st := foldl (scanRow smart) (Scan [] None) rows in
  filter (λ d, goals d ≠ []) (found st).

(** [a.name.localeCompare(b.name, undefined, { numeric: true, sensitivity:
    'base' }) <= 0], the platform's. *)
Context (collate : jsstring → jsstring → bool).

(** The action, on the sheets of the workbook, by name. *)
Definition parseExcel (sheets : list (jsstring * list row)) : list EsdmLevel :=
  let levels :=
    omap (λ sheet : jsstring * list row,
            let '(sheetName, rows) := sheet in
            match rows with
            | [] => None
            | _ =>
              match sheetDomains rows with
              | [] => None
              | validDomains => Some {| levelName := sheetName; domains := validDomains |}
              end
            end) sheets in
  sortBy (λ a b, collate (levelName a) (levelName b)) levels.

End Excel.

(** What every domain of the result has: goals, each with a text, no two
    with the same identifier. *)
Definition wellFormedDomain (d : EsdmDomain) : Prop :=
  goals d ≠ [] ∧ NoDup (id <$> goals d) ∧ Forall (λ g, text g ≠ []) (goals d).

End Excel.

(** ** The goals of the plan: [main_controller], mode 2, action GENERATE_IEP, "Prepare Data" *)

Module IEP.

Record ProcessedGoal : Type := {
  domainName : jsstring;
  levelName : jsstring;
  goalId : jsstring;
  longTermGoal : jsstring;
  suffix : UI.GoalSuffix
}.

(** [processedData]: for every selection the goals that the data of the
    workbook has, in the order of the selections. *)
Definition processedData (selections : list UI.Selection) (esdmData : list Excel.EsdmLevel)
  : list ProcessedGoal :=
  flat_map
    (λ sel,
       let levelData :=
         List.find (λ l, bool_decide (Excel.levelName l = UI.level sel)) esdmData in
       let domainData :=
         levelData ≫= λ l,
           List.find (λ d, bool_decide (Excel.name d = UI.domain sel)) (Excel.domains l) in
       omap (λ sGoal,
               let goal :=
                 domainData ≫= λ d,
                   List.find (λ g, bool_decide (Excel.id g = UI.goalId sGoal)) (Excel.goals d) in
               (λ goal, {| levelName := UI.level sel; domainName := UI.domain sel;
                           goalId := Excel.id goal; longTermGoal := Excel.text goal;
                           suffix := UI.suffix sGoal |}) <$> goal)
            (UI.goals sel))
    selections.

(** [Array.from(new Set(l))]: the values in the order of their first
    occurrence. *)
Definition uniq {A} `{EqDecision A} (l : list A) : list A :=
  foldl (λ seen x, if bool_decide (x ∈ seen) then seen else seen ++ [x]) [] l.

Definition domainsInOrder (processedData : list ProcessedGoal) : list jsstring :=
  uniq (domainName <$> processedData).

Definition domainGoals (processedData : list ProcessedGoal) (domainName_ : jsstring)
  : list ProcessedGoal :=
  filter (λ g, domainName g = domainName_) processedData.

(** The goal [g] of the domain [d] of the level [l] of the workbook. *)
Definition goalOf (esdmData : list Excel.EsdmLevel) (l d : jsstring) (g : Excel.EsdmGoal)
  : Prop :=
  ∃ lv dm, lv ∈ esdmData ∧ Excel.levelName lv = l
           ∧ dm ∈ Excel.domains lv ∧ Excel.name dm = d ∧ g ∈ Excel.goals dm.

(** What is shown of a selected goal and of a goal of the plan. *)
Definition chosen (sel : UI.Selection) : list (jsstring * jsstring * jsstring * UI.GoalSuffix) :=
  (λ sGoal, (UI.level sel, UI.domain sel, UI.goalId sGoal, UI.suffix sGoal)) <$> UI.goals sel.

Definition shown (g : ProcessedGoal) : jsstring * jsstring * jsstring * UI.GoalSuffix :=
  (levelName g, domainName g, goalId g, suffix g).

End IEP.

(** * Properties *)

Module SynthesizerProps.
Import Synthesizer.
Local Open Scope Z_scope.

Example range_match_10_14 :
  jsmatch (js "10-14 lần") rangeRe
  = Some (Match 0 (js "10-14 lần") [(3%nat, js " lần"); (2%nat, js "14"); (1%nat, js "10")]).
Proof. vm_compute. reflexivity. Qed.

(** The extractor reads at most two digits on each side of the dash. *)
Example range_three_digits :
  shortGoalsRaw true (js "100-200 lần")
  = [js "11-180 lần"; js "11-190 lần"; js "100-200 lần"].
Proof. vm_compute. reflexivity. Qed.

Example range_spaced_upper_case :
  shortGoalsRaw true (js "trẻ làm 5 - 9  LẦN mỗi ngày")
  = [js "trẻ làm 3-7  LẦN mỗi ngày"; js "trẻ làm 4-8  LẦN mỗi ngày";
     js "trẻ làm 5 - 9  LẦN mỗi ngày"].
Proof. vm_compute. reflexivity. Qed.

Example range_not_increasing :
  shortGoalsRaw true (js "5-3 lần, 80%") = [js "5-3 lần, 80%"; js "5-3 lần, 80%"; js "5-3 lần, 80%"].
Proof. vm_compute. reflexivity. Qed.

Example ratio_rows :
  shortGoalsRaw true (js "đạt 3/4 cơ hội")
  = [js "đạt 1/4 cơ hội"; js "đạt 2/4 cơ hội"; js "đạt 3/4 cơ hội"].
Proof. vm_compute. reflexivity. Qed.

Example percent_rows :
  shortGoalsRaw true (js "đạt 80% cơ hội")
  = [js "đạt 27% cơ hội"; js "đạt 53% cơ hội"; js "đạt 80% cơ hội"].
Proof. vm_compute. reflexivity. Qed.

Example count_rows :
  shortGoalsRaw true (js "đạt 5 lần") = [js "đạt 3 lần"; js "đạt 4 lần"; js "đạt 5 lần"].
Proof. vm_compute. reflexivity. Qed.

Lemma shortGoalsRaw_off txt : shortGoalsRaw false txt = [txt; txt; txt].
Proof. reflexivity. Qed.

(** What the range branch computes, for every text on which the range
    extractor matches with increasing bounds. *)
Lemma shortGoalsRaw_range txt m :
  jsmatch txt rangeRe = Some m →
  parseInt (groupOr m 1) < parseInt (groupOr m 2) →
  shortGoalsRaw true txt
  = let a := parseInt (groupOr m 1) in
    let b := parseInt (groupOr m 2) in
    let a1 := Z.max 1 (a - 2) in let b1 := Z.max (a1 + 1) (b - 2) in
    let a2 := Z.max 1 (a - 1) in let b2 := Z.max (a2 + 1) (b - 1) in
    [ replace txt (full m) (ofZ a1 ++ js "-" ++ ofZ b1 ++ groupOr m 3);
      replace txt (full m) (ofZ a2 ++ js "-" ++ ofZ b2 ++ groupOr m 3);
      txt ].
Proof.
  intros Hm Hab. unfold shortGoalsRaw. cbn [negb]. rewrite Hm.
  cbv zeta.
  destruct (Z.gtb_spec (parseInt (groupOr m 2)) (parseInt (groupOr m 1))); [reflexivity | lia].
Qed.

(** C2, as the spec words it, fails: the rows for "10-14 lần" are not
    "6-10 lần", "8-12 lần", "10-14 lần". *)
Lemma short_goal_rows_10_14_not_as_claimed :
  bool_decide (shortGoalsRaw true (js "10-14 lần")
               = [js "6-10 lần"; js "8-12 lần"; js "10-14 lần"]) = false.
Proof. vm_compute. reflexivity. Qed.

(** C2, amended: for "10-14 lần" the three rows are "8-12 lần", "9-13 lần"
    and the unmodified "10-14 lần".  For every text on which the range
    extractor matches: with increasing bounds, the two rewritten rows carry
    bounds that are at least 1; otherwise the three rows are the text
    itself. *)
Theorem short_goal_rows_10_14 :
  shortGoalsRaw true (js "10-14 lần") = [js "8-12 lần"; js "9-13 lần"; js "10-14 lần"]
  ∧ ∀ txt m,
      jsmatch txt rangeRe = Some m →
      (parseInt (groupOr m 1) < parseInt (groupOr m 2) →
       ∃ a1 b1 a2 b2,
         shortGoalsRaw true txt
         = [ replace txt (full m) (ofZ a1 ++ js "-" ++ ofZ b1 ++ groupOr m 3);
             replace txt (full m) (ofZ a2 ++ js "-" ++ ofZ b2 ++ groupOr m 3);
             txt ]
         ∧ 1 ≤ a1 ∧ 1 ≤ b1 ∧ 1 ≤ a2 ∧ 1 ≤ b2)
      ∧ (parseInt (groupOr m 2) ≤ parseInt (groupOr m 1) →
         shortGoalsRaw true txt = [txt; txt; txt]).
Proof.
  split; [vm_compute; reflexivity |].
  intros txt m Hm. split.
  - intros Hab. rewrite (shortGoalsRaw_range txt m Hm Hab). cbv zeta.
    eexists _, _, _, _. split; [reflexivity | lia].
  - intros Hba. unfold shortGoalsRaw. cbn [negb]. rewrite Hm. cbv zeta.
    destruct (Z.gtb_spec (parseInt (groupOr m 2)) (parseInt (groupOr m 1))); [lia | reflexivity].
Qed.

Lemma short_goal_rows_10_14_witness :
  (∃ a1 b1 a2 b2,
     shortGoalsRaw true (js "1-2 từ")
     = [ replace (js "1-2 từ") (js "1-2 từ") (ofZ a1 ++ js "-" ++ ofZ b1 ++ js " từ");
         replace (js "1-2 từ") (js "1-2 từ") (ofZ a2 ++ js "-" ++ ofZ b2 ++ js " từ");
         js "1-2 từ" ]
     ∧ 1 ≤ a1 ∧ 1 ≤ b1 ∧ 1 ≤ a2 ∧ 1 ≤ b2)
  ∧ shortGoalsRaw true (js "1-2 từ") = [js "1-2 từ"; js "1-2 từ"; js "1-2 từ"]
  ∧ shortGoalsRaw true (js "0-0 lần") = [js "0-0 lần"; js "0-0 lần"; js "0-0 lần"].
Proof.
  split; [|split].
  - apply (proj1 (proj2 short_goal_rows_10_14 (js "1-2 từ")
             (Match 0 (js "1-2 từ") [(3%nat, js " từ"); (2%nat, js "2"); (1%nat, js "1")])
             ltac:(vm_compute; reflexivity))).
    vm_compute. reflexivity.
  - vm_compute. reflexivity.
  - apply (proj2 (proj2 short_goal_rows_10_14 (js "0-0 lần")
             (Match 0 (js "0-0 lần") [(3%nat, js " lần"); (2%nat, js "0"); (1%nat, js "0")])
             ltac:(vm_compute; reflexivity))).
    vm_compute. discriminate.
Defined.

End SynthesizerProps.

(** ** Facts about the document tree *)

Module DOMFacts.
Local Arguments ids : simpl never.

(** A decidable proposition about given documents, by evaluation. *)
Ltac by_evaluation :=
  match goal with |- ?G => apply (@bool_decide_unpack G _) end; vm_compute; exact I.


Lemma fmap_flat_map_subtrees (ks : list node) :
  nid <$> flat_map subtrees ks = flat_map ids ks.
Proof.
  induction ks as [|k ks IH]; [done|].
  change (nid <$> (subtrees k ++ flat_map subtrees ks) = ids k ++ flat_map ids ks).
  by rewrite fmap_app, IH.
Qed.

Lemma ids_Elem i nm a ks : ids (Elem i nm a ks) = i :: flat_map ids ks.
Proof.
  change (nid <$> (Elem i nm a ks :: flat_map subtrees ks) = i :: flat_map ids ks).
  rewrite fmap_cons. f_equal. apply fmap_flat_map_subtrees.
Qed.

Lemma ids_Text i d : ids (Text i d) = [i].
Proof. done. Qed.

Lemma ids_Comment i d : ids (Comment i d) = [i].
Proof. done. Qed.

Lemma nid_in_ids n : nid n ∈ ids n.
Proof. destruct n; rewrite ?ids_Elem, ?ids_Text, ?ids_Comment; apply elem_of_cons; by left. Qed.

Lemma in_flat_map_ids (ks : list node) i :
  i ∈ flat_map ids ks ↔ ∃ k, k ∈ ks ∧ i ∈ ids k.
Proof.
  rewrite list_elem_of_In, in_flat_map. setoid_rewrite list_elem_of_In. done.
Qed.

Lemma findMap_app {A B} (f : A → option B) l r :
  findMap f (l ++ r) = match findMap f l with Some y => Some y | None => findMap f r end.
Proof. induction l as [|x l IH]; simpl; [done|]. destruct (f x); done. Qed.

Lemma findMap_none {A B} (f : A → option B) l :
  Forall (λ x, f x = None) l → findMap f l = None.
Proof. induction 1 as [|x l Hx _ IH]; simpl; [done|]. by rewrite Hx. Qed.

Lemma hasChild_false i n : i ∉ flat_map ids (childNodes n) → hasChild i n = false.
Proof.
  intros Hi. unfold hasChild. apply not_true_is_false. intros H.
  apply existsb_exists in H as (k & Hk & Hid). apply bool_decide_eq_true in Hid.
  apply Hi, in_flat_map_ids. exists k. split; [by apply list_elem_of_In|].
  subst i. apply nid_in_ids.
Qed.

Lemma lookup_notin i n : i ∉ ids n → lookup i n = None.
Proof.
  induction n as [j nm a ks IH| |] using node_ind; intros Hi; simpl.
  - rewrite ids_Elem in Hi. apply not_elem_of_cons in Hi as [Hij Hi].
    rewrite bool_decide_eq_false_2 by done.
    apply findMap_none. rewrite Forall_forall in IH |- *.
    intros k Hk. apply IH; [done|]. intros Hin. apply Hi.
    apply in_flat_map_ids. eauto.
  - rewrite ids_Text in Hi. apply not_elem_of_cons in Hi as [Hij Hi].
    by rewrite bool_decide_eq_false_2.
  - rewrite ids_Comment in Hi. apply not_elem_of_cons in Hi as [Hij Hi].
    by rewrite bool_decide_eq_false_2.
Qed.

Lemma ids_child_sub k i : i ∈ flat_map ids (childNodes k) → i ∈ ids k.
Proof. destruct k; simpl; try (by intros ?%elem_of_nil). rewrite ids_Elem. by right. Qed.

Lemma parentOf_notin i n : i ∉ flat_map ids (childNodes n) → parentOf i n = None.
Proof.
  induction n as [j nm a ks IH| |] using node_ind; intros Hi; simpl in *; try done.
  rewrite (hasChild_false i (Elem j nm a ks)) by done.
  apply findMap_none. rewrite Forall_forall in IH |- *.
  intros k Hk. apply IH; [done|]. intros Hin. apply Hi.
  apply in_flat_map_ids. exists k. split; [done|]. by apply ids_child_sub.
Qed.

Lemma updateAt_notin i f n : i ∉ ids n → updateAt i f n = n.
Proof.
  induction n as [j nm a ks IH| |] using node_ind; intros Hi; simpl.
  - rewrite ids_Elem in Hi. apply not_elem_of_cons in Hi as [Hij Hi].
    rewrite bool_decide_eq_false_2 by done.
    f_equal. rewrite <- (map_id ks) at 2. apply map_ext_in.
    rewrite Forall_forall in IH. intros k Hk. apply list_elem_of_In in Hk.
    apply IH; [done|]. intros Hin. apply Hi. apply in_flat_map_ids. eauto.
  - rewrite ids_Text in Hi. apply not_elem_of_cons in Hi as [Hij Hi].
    by rewrite bool_decide_eq_false_2.
  - rewrite ids_Comment in Hi. apply not_elem_of_cons in Hi as [Hij Hi].
    by rewrite bool_decide_eq_false_2.
Qed.


(** *** One level *)

Lemma ids_frame j nm a l x r :
  ids (Elem j nm a (l ++ x :: r)) = j :: flat_map ids l ++ ids x ++ flat_map ids r.
Proof. rewrite ids_Elem, flat_map_app. done. Qed.

Lemma NoDup_frame j nm a l x r :
  NoDup (ids (Elem j nm a (l ++ x :: r))) →
  NoDup (ids x) ∧ (∀ i, i ∈ ids x → i ≠ j ∧ (i ∉ flat_map ids l) ∧ (i ∉ flat_map ids r)).
Proof.
  rewrite ids_frame. intros [Hj H]%NoDup_cons.
  apply NoDup_app in H as (_ & Hl & H). apply NoDup_app in H as (Hx & Hr & _).
  split; [done|]. intros i Hi. repeat split.
  - intros ->. apply Hj. rewrite !elem_of_app. auto.
  - intros Hil. apply (Hl i Hil). rewrite elem_of_app. auto.
  - by apply Hr.
Qed.

Lemma notin_flat_map_ids i (l : list node) k : i ∉ flat_map ids l → k ∈ l → i ∉ ids k.
Proof. intros Hi Hk Hin. apply Hi, in_flat_map_ids. eauto. Qed.

Lemma frame_lookup i j nm a l x r :
  NoDup (ids (Elem j nm a (l ++ x :: r))) → i ∈ ids x →
  lookup i (Elem j nm a (l ++ x :: r)) = lookup i x.
Proof.
  intros [_ H]%NoDup_frame Hi. destruct (H i Hi) as (Hj & Hl & Hr).
  simpl. rewrite bool_decide_eq_false_2 by done.
  rewrite findMap_app, findMap_none; simpl.
  - rewrite (findMap_none _ r); [by destruct (lookup i x)|].
    apply Forall_forall. intros k Hk. apply lookup_notin. eauto using notin_flat_map_ids.
  - apply Forall_forall. intros k Hk. apply lookup_notin. eauto using notin_flat_map_ids.
Qed.

Lemma map_updateAt_notin i f (l : list node) :
  i ∉ flat_map ids l → map (updateAt i f) l = l.
Proof.
  intros Hi. rewrite <- (map_id l) at 2. apply map_ext_in. intros k Hk.
  apply list_elem_of_In in Hk. apply updateAt_notin. eauto using notin_flat_map_ids.
Qed.

Lemma frame_updateAt i f j nm a l x r :
  NoDup (ids (Elem j nm a (l ++ x :: r))) → i ∈ ids x →
  updateAt i f (Elem j nm a (l ++ x :: r)) = Elem j nm a (l ++ updateAt i f x :: r).
Proof.
  intros [_ H]%NoDup_frame Hi. destruct (H i Hi) as (Hj & Hl & Hr).
  simpl. rewrite bool_decide_eq_false_2 by done.
  rewrite map_app. simpl. by rewrite !map_updateAt_notin.
Qed.

Lemma existsb_nid_notin i (l : list node) :
  i ∉ flat_map ids l → existsb (λ k, bool_decide (nid k = i)) l = false.
Proof.
  intros Hi. apply not_true_is_false. intros (k & Hk & Hid)%existsb_exists.
  apply bool_decide_eq_true in Hid. apply Hi, in_flat_map_ids.
  exists k. split; [by apply list_elem_of_In|]. subst i. apply nid_in_ids.
Qed.

Lemma findMap_parentOf_notin i (l : list node) :
  i ∉ flat_map ids l → findMap (parentOf i) l = None.
Proof.
  intros Hi. apply findMap_none, Forall_forall. intros k Hk.
  apply parentOf_notin. intros Hin. apply (notin_flat_map_ids i l k Hi Hk).
  by apply ids_child_sub.
Qed.

Lemma frame_parentOf i j nm a l x r :
  NoDup (ids (Elem j nm a (l ++ x :: r))) → i ∈ ids x → i ≠ nid x →
  parentOf i (Elem j nm a (l ++ x :: r)) = parentOf i x.
Proof.
  intros [_ H]%NoDup_frame Hi Hx. destruct (H i Hi) as (Hj & Hl & Hr).
  simpl. unfold hasChild. simpl. rewrite existsb_app. simpl.
  rewrite !existsb_nid_notin by done.
  rewrite (bool_decide_eq_false_2 (nid x = i)) by done. simpl.
  rewrite findMap_app, findMap_parentOf_notin by done. simpl.
  rewrite (findMap_parentOf_notin i r) by done. by destruct (parentOf i x).
Qed.

(** *** Along a path *)

Lemma ids_plug c n : ids (plug c n) ≡ₚ ctxIds c ++ ids n.
Proof.
  induction c as [|F c IH]; simpl; [done|].
  rewrite ids_frame, IH. apply perm_skip.
  rewrite <- !app_assoc. apply Permutation_app_head.
  rewrite (app_assoc (ctxIds c)). apply Permutation_app_comm.
Qed.

Lemma NoDup_plug c n :
  NoDup (ids (plug c n)) ↔
  NoDup (ctxIds c) ∧ (∀ i, i ∈ ids n → i ∉ ctxIds c) ∧ NoDup (ids n).
Proof.
  rewrite ids_plug, NoDup_app. split.
  - intros (?&H&?). repeat split; try done. intros i Hi Hc. by apply (H i).
  - intros (?&H&?). repeat split; try done. intros i Hi Hc. by apply (H i).
Qed.

Lemma plug_in_ids c n i : i ∈ ids n → i ∈ ids (plug c n).
Proof. rewrite ids_plug, elem_of_app. auto. Qed.

Lemma NoDup_plug_tail F c n :
  NoDup (ids (plug (F :: c) n)) → NoDup (ids (plug c n)).
Proof. cbn [plug]. by intros [? _]%NoDup_frame. Qed.

Lemma plug_app c1 c2 n : plug (c1 ++ c2) n = plug c1 (plug c2 n).
Proof. induction c1 as [|F c1 IH]; simpl; [done|]. by rewrite IH. Qed.

Lemma plug_lookup c n i :
  NoDup (ids (plug c n)) → i ∈ ids n → lookup i (plug c n) = lookup i n.
Proof.
  induction c as [|F c IH]; intros Hnd Hi; [done|].
  cbn [plug]. rewrite frame_lookup; [|done|by apply plug_in_ids].
  apply IH; [|done]. by apply NoDup_plug_tail in Hnd.
Qed.

Lemma plug_updateAt c n i f :
  NoDup (ids (plug c n)) → i ∈ ids n → updateAt i f (plug c n) = plug c (updateAt i f n).
Proof.
  induction c as [|F c IH]; intros Hnd Hi; [done|].
  cbn [plug]. rewrite frame_updateAt; [|done|by apply plug_in_ids].
  rewrite IH; [done| |done]. by apply NoDup_plug_tail in Hnd.
Qed.

Lemma nid_plug_ne c n i :
  NoDup (ids (plug c n)) → i ∈ ids n → i ≠ nid n → i ≠ nid (plug c n).
Proof.
  destruct c as [|F c]; [done|]. intros Hnd Hi _. cbn [plug nid] in *. apply NoDup_frame in Hnd as [_ H].
  destruct (H i (plug_in_ids c n i Hi)) as (?&_). done.
Qed.

Lemma plug_parentOf c n i :
  NoDup (ids (plug c n)) → i ∈ ids n → i ≠ nid n →
  parentOf i (plug c n) = parentOf i n.
Proof.
  induction c as [|F c IH]; intros Hnd Hi Hne; [done|].
  pose proof (NoDup_plug_tail _ _ _ Hnd) as Hnd'.
  cbn [plug]. rewrite frame_parentOf; [|done|by apply plug_in_ids|by apply nid_plug_ne].
  by apply IH.
Qed.

(** *** At the node itself *)

Lemma lookup_self n : lookup (nid n) n = Some n.
Proof. destruct n; simpl; by rewrite bool_decide_eq_true_2. Qed.

Lemma updateAt_self f n : updateAt (nid n) f n = f n.
Proof. destruct n; simpl; by rewrite bool_decide_eq_true_2. Qed.

Lemma plug_lookup_self c n :
  NoDup (ids (plug c n)) → lookup (nid n) (plug c n) = Some n.
Proof. intros. rewrite plug_lookup, lookup_self; auto using nid_in_ids. Qed.

Lemma plug_updateAt_self c n f :
  NoDup (ids (plug c n)) → updateAt (nid n) f (plug c n) = plug c (f n).
Proof. intros. rewrite plug_updateAt, updateAt_self; auto using nid_in_ids. Qed.

(** *** Among the children of a node *)

Lemma NoDup_children j nm a l x r :
  NoDup (ids (Elem j nm a (l ++ x :: r))) →
  nid x ≠ j ∧ (nid x ∉ flat_map ids l) ∧ (nid x ∉ flat_map ids r).
Proof. intros [_ H]%NoDup_frame. apply H, nid_in_ids. Qed.

Lemma after_skip i (l : list node) rest :
  i ∉ flat_map ids l → after i (l ++ rest) = after i rest.
Proof.
  induction l as [|k l IH]; simpl; [done|]. intros Hi.
  apply not_elem_of_app in Hi as [Hk Hl].
  rewrite bool_decide_eq_false_2; [by apply IH|].
  intros <-. apply Hk, nid_in_ids.
Qed.

Lemma after_here (l : list node) x r :
  nid x ∉ flat_map ids l → after (nid x) (l ++ x :: r) = r.
Proof. intros. rewrite after_skip by done. simpl. by rewrite bool_decide_eq_true_2. Qed.

Lemma without_notin i (l : list node) : i ∉ flat_map ids l → without i l = l.
Proof.
  induction l as [|k l IH]; [done|]. simpl. intros [Hk Hl]%not_elem_of_app.
  unfold without in *. rewrite filter_cons_True; [by rewrite IH|].
  intros Heq. apply Hk. rewrite <- Heq. apply nid_in_ids.
Qed.

Lemma without_here (l : list node) x r :
  nid x ∉ flat_map ids l → nid x ∉ flat_map ids r →
  without (nid x) (l ++ x :: r) = l ++ r.
Proof.
  intros Hl Hr. unfold without. rewrite filter_app, filter_cons_False by (by intros []).
  fold (without (nid x) l) (without (nid x) r). by rewrite !without_notin.
Qed.

Lemma hasChild_here j nm a l x r : hasChild (nid x) (Elem j nm a (l ++ x :: r)) = true.
Proof.
  unfold hasChild. simpl. rewrite existsb_app. simpl.
  rewrite bool_decide_eq_true_2 by done. by rewrite orb_true_r.
Qed.

Lemma parentOf_here j nm a l x r :
  parentOf (nid x) (Elem j nm a (l ++ x :: r)) = Some (Elem j nm a (l ++ x :: r)).
Proof.
  change (parentOf (nid x) (Elem j nm a (l ++ x :: r)))
    with (if hasChild (nid x) (Elem j nm a (l ++ x :: r))
          then Some (Elem j nm a (l ++ x :: r))
          else findMap (parentOf (nid x)) (l ++ x :: r)).
  by rewrite hasChild_here.
Qed.

Section Focus.
Context (c : ctx) (j : nodeId) (nm : string) (a : list (string * string)).
Context (l : list node) (x : node) (r : list node).
Let P := Elem j nm a (l ++ x :: r).
Context (Hnd : NoDup (ids (plug c P))).

Lemma focus_NoDup : NoDup (ids P).
Proof. by apply NoDup_plug in Hnd as (_&_&?). Qed.

Lemma focus_parentOf : parentOf (nid x) (plug c P) = Some P.
Proof.
pose proof focus_NoDup as HP. destruct (NoDup_children _ _ _ _ _ _ HP) as (Hj&_).
rewrite plug_parentOf; [apply parentOf_here|done| |done].
unfold P. rewrite ids_frame. right. rewrite !elem_of_app.
right. left. apply nid_in_ids.
Qed.

Lemma focus_nextSiblings : nextSiblings (nid x) (plug c P) = r.
Proof.
unfold nextSiblings. rewrite focus_parentOf. simpl.
apply after_here. by destruct (NoDup_children _ _ _ _ _ _ focus_NoDup) as (_&?&_).
Qed.

Lemma focus_updateChildren g :
updateChildren j g (plug c P) = plug c (Elem j nm a (g (l ++ x :: r))).
Proof. unfold updateChildren. by rewrite (plug_updateAt_self c P). Qed.

Lemma focus_detach : detach (nid x) (plug c P) = plug c (Elem j nm a (l ++ r)).
Proof.
unfold detach. rewrite focus_parentOf. simpl. rewrite focus_updateChildren.
destruct (NoDup_children _ _ _ _ _ _ focus_NoDup) as (_&?&?).
by rewrite without_here.
Qed.
End Focus.


(** *** Document order *)

Lemma subtrees_plug c n : ∃ A B, subtrees (plug c n) = A ++ subtrees n ++ B.
Proof.
  induction c as [|F c (A & B & IH)]; cbn [plug].
  - exists [], []. by rewrite app_nil_r.
  - exists (Elem (fid F) (fname F) (fattrs F) (fleft F ++ plug c n :: fright F)
            :: flat_map subtrees (fleft F) ++ A),
           (B ++ flat_map subtrees (fright F)).
    cbn [subtrees]. rewrite flat_map_app. cbn [flat_map]. rewrite IH.
    rewrite <- app_comm_cons. by rewrite <- !app_assoc.
Qed.

Lemma descendants_focus c j nm a l x r :
  ∃ A B, descendants (plug c (Elem j nm a (l ++ x :: r)))
         = A ++ subtrees x ++ flat_map subtrees r ++ B.
Proof.
  destruct (subtrees_plug c (Elem j nm a (l ++ x :: r))) as (A & B & H).
  unfold descendants. rewrite H. cbn [subtrees]. rewrite flat_map_app. cbn [flat_map].
  destruct A as [|y A]; cbn [tail app].
  - exists (flat_map subtrees l), B. by rewrite <- !app_assoc.
  - exists (A ++ Elem j nm a (l ++ x :: r) :: flat_map subtrees l), B.
    by rewrite <- !app_assoc.
Qed.

Lemma subtrees_cons n : subtrees n = n :: descendants n.
Proof. by destruct n. Qed.

Lemma subtrees_self n : n ∈ subtrees n.
Proof. destruct n; apply elem_of_cons; by left. Qed.

Lemma descendants_subtrees n x : x ∈ descendants n → x ∈ subtrees n.
Proof. unfold descendants. destruct (subtrees n); [done|]. simpl. by right. Qed.

Lemma subtrees_inj n x y :
  NoDup (ids n) → x ∈ subtrees n → y ∈ subtrees n → nid x = nid y → x = y.
Proof.
  unfold ids. generalize (subtrees n). intros l Hnd Hx Hy Heq.
  induction l as [|z l IH]; [by apply elem_of_nil in Hx|].
  rewrite fmap_cons in Hnd. apply NoDup_cons in Hnd as [Hz Hnd].
  apply elem_of_cons in Hx as [->|Hx], Hy as [->|Hy]; auto.
  - exfalso. apply Hz. rewrite Heq. by apply list_elem_of_fmap_2.
  - exfalso. apply Hz. rewrite <- Heq. by apply list_elem_of_fmap_2.
Qed.


(** *** Every node of a tree sits at the end of a path *)

Lemma subtree_plug_inv n x : x ∈ subtrees n → ∃ c, n = plug c x.
Proof.
  induction n as [j nm a ks IH| |] using node_ind; cbn [subtrees].
  - intros [->|Hx]%elem_of_cons; [by exists []|].
    apply list_elem_of_In, in_flat_map in Hx as (k & Hk & Hx).
    apply list_elem_of_In in Hk, Hx.
    rewrite Forall_forall in IH. destruct (IH k Hk Hx) as (c & Hc).
    apply list_elem_of_split in Hk as (l & r & ->).
    exists (Frame j nm a l r :: c). cbn [plug fid fname fattrs fleft fright]. by rewrite <- Hc.
  - intros [->|Hx]%elem_of_cons; [by exists []|]. by apply elem_of_nil in Hx.
  - intros [->|Hx]%elem_of_cons; [by exists []|]. by apply elem_of_nil in Hx.
Qed.

Lemma in_ids_plug_inv n i : i ∈ ids n → ∃ c m, n = plug c m ∧ nid m = i.
Proof.
  unfold ids. intros (m & -> & Hm)%list_elem_of_fmap.
  destruct (subtree_plug_inv n m Hm) as (c & ->). eauto.
Qed.

(** A node strictly below [n] is a child of some element at the end of a
    path in [n]. *)
Lemma strictly_inside_inv n i :
  NoDup (ids n) → i ∈ ids n → i ≠ nid n →
  ∃ c j nm a l x r, n = plug c (Elem j nm a (l ++ x :: r)) ∧ nid x = i.
Proof.
  intros Hnd Hi Hne. destruct (in_ids_plug_inv n i Hi) as (c & m & -> & Hm).
  destruct c as [|F c] using rev_ind; [by subst|].
  clear IHc. destruct F as [j nm a l r]. rewrite plug_app.
  exists c, j, nm, a, l, m, r. done.
Qed.

(** *** Identifier and name of the nodes of a tree *)

Lemma sig_Elem j nm a ks : sig (Elem j nm a ks) = (j, nm) :: flat_map sig ks.
Proof.
  unfold sig. cbn [subtrees]. rewrite fmap_cons. f_equal.
  induction ks as [|k ks IH]; [done|]. cbn [flat_map]. by rewrite fmap_app, IH.
Qed.

Lemma sig_plug c n : sig (plug c n) ≡ₚ ctxSig c ++ sig n.
Proof.
  induction c as [|F c IH]; [done|].
  cbn [ctxSig plug]. rewrite sig_Elem, flat_map_app. cbn [flat_map].
  rewrite IH. cbn [app]. apply perm_skip.
  rewrite <- !app_assoc. apply Permutation_app_head.
  rewrite (app_assoc (ctxSig c)). apply Permutation_app_comm.
Qed.

Lemma ids_sig n : ids n = fst <$> sig n.
Proof. unfold ids, sig. rewrite <- list_fmap_compose. done. Qed.

Lemma sig_perm_ids n n' : sig n ≡ₚ sig n' → ids n ≡ₚ ids n'.
Proof. rewrite !ids_sig. by intros ->. Qed.

Lemma tag_plug c n n' : tag n = tag n' → tag (plug c n) = tag (plug c n').
Proof. by destruct c. Qed.

Lemma sig_cons n : sig n = tag n :: (tag <$> descendants n).
Proof. unfold sig. by rewrite subtrees_cons. Qed.

(** *** Removing children *)

Lemma NoDup_without_child c j nm a l x r :
  NoDup (ids (plug c (Elem j nm a (l ++ x :: r)))) →
  NoDup (ids (plug c (Elem j nm a (l ++ r)))).
Proof.
  rewrite !NoDup_plug, ids_frame, !ids_Elem, flat_map_app.
  intros (Hc & Hd & Hn). split; [done|]. split.
  - intros i Hi. apply Hd. rewrite elem_of_cons, !elem_of_app in *. tauto.
  - apply NoDup_cons in Hn as [Hj Hn]. apply NoDup_cons. split.
    + rewrite !elem_of_app in *. tauto.
    + apply NoDup_app in Hn as (Hl & Hlr & Hn). apply NoDup_app in Hn as (_ & _ & Hr).
      apply NoDup_app. repeat split; try done.
      intros i Hi Hir. apply (Hlr i Hi). rewrite elem_of_app. auto.
Qed.

Lemma detach_all c j nm a l gs r :
  NoDup (ids (plug c (Elem j nm a (l ++ gs ++ r)))) →
  foldl (λ doc g, detach (nid g) doc) (plug c (Elem j nm a (l ++ gs ++ r))) gs
  = plug c (Elem j nm a (l ++ r)).
Proof.
  induction gs as [|g gs IH]; intros Hnd; [done|].
  cbn [foldl]. change ((g :: gs) ++ r) with (g :: gs ++ r) in *.
  rewrite focus_detach by done. apply IH. by apply NoDup_without_child in Hnd.
Qed.

(** *** Inserting a child *)

Lemma insert_perm {A} (C : list A) p (fl ix fr : list A) :
  C ++ p :: fl ++ ix ++ fr ≡ₚ ix ++ C ++ p :: fl ++ fr.
Proof.
  rewrite (Permutation_app_swap_app fl ix fr).
  rewrite (Permutation_middle ix (fl ++ fr) p).
  apply Permutation_app_swap_app.
Qed.

Lemma ids_insert_perm c p nm a l x r :
  ids (plug c (Elem p nm a (l ++ x :: r))) ≡ₚ ids x ++ ids (plug c (Elem p nm a (l ++ r))).
Proof.
  rewrite !ids_plug, !ids_Elem, !flat_map_app. cbn [flat_map]. apply insert_perm.
Qed.

Lemma sig_insert_perm c p nm a l x r :
  sig (plug c (Elem p nm a (l ++ x :: r))) ≡ₚ sig x ++ sig (plug c (Elem p nm a (l ++ r))).
Proof.
  rewrite !sig_plug, !sig_Elem, !flat_map_app. cbn [flat_map]. apply insert_perm.
Qed.

Lemma in_ids_insert c p nm a l x r i :
  i ∈ ids (plug c (Elem p nm a (l ++ x :: r)))
  ↔ i ∈ ids x ∨ i ∈ ids (plug c (Elem p nm a (l ++ r))).
Proof. by rewrite ids_insert_perm, elem_of_app. Qed.

Lemma in_sig_insert c p nm a l x r e :
  e ∈ sig (plug c (Elem p nm a (l ++ x :: r)))
  ↔ e ∈ sig x ∨ e ∈ sig (plug c (Elem p nm a (l ++ r))).
Proof. by rewrite sig_insert_perm, elem_of_app. Qed.

Lemma NoDup_insert c p nm a l x r :
  NoDup (ids (plug c (Elem p nm a (l ++ r)))) → NoDup (ids x) →
  (∀ i, i ∈ ids x → i ∉ ids (plug c (Elem p nm a (l ++ r)))) →
  NoDup (ids (plug c (Elem p nm a (l ++ x :: r)))).
Proof.
  intros Hnd Hx Hfresh. rewrite ids_insert_perm. apply NoDup_app. done.
Qed.

(** Appending a new node to the element at the end of a path. *)
Lemma appendNew_focus c p nm a ks x :
  NoDup (ids (plug c (Elem p nm a ks))) →
  appendNew p x (plug c (Elem p nm a ks)) = plug c (Elem p nm a (ks ++ [x])).
Proof.
  intros Hnd. unfold appendNew, updateChildren.
  by rewrite (plug_updateAt_self c (Elem p nm a ks)).
Qed.

Lemma in_ids_append c p nm a ks x i :
  i ∈ ids (plug c (Elem p nm a (ks ++ [x]))) ↔
  i ∈ ids (plug c (Elem p nm a ks)) ∨ i ∈ ids x.
Proof. rewrite in_ids_insert, app_nil_r. tauto. Qed.

Lemma NoDup_append c p nm a ks x :
  NoDup (ids (plug c (Elem p nm a ks))) → NoDup (ids x) →
  (∀ i, i ∈ ids x → i ∉ ids (plug c (Elem p nm a ks))) →
  NoDup (ids (plug c (Elem p nm a (ks ++ [x])))).
Proof. intros. apply NoDup_insert; by rewrite ?app_nil_r. Qed.

(** Taking children away. *)
Lemma NoDup_sub_gaps c j nm a l gs r :
  NoDup (ids (plug c (Elem j nm a (l ++ gs ++ r)))) →
  NoDup (ids (plug c (Elem j nm a (l ++ r)))).
Proof.
  induction gs as [|g gs IH]; [done|]. intros H. apply IH.
  by apply NoDup_without_child in H.
Qed.

Lemma ids_sub_gaps c j nm a l gs r i :
  i ∈ ids (plug c (Elem j nm a (l ++ r))) → i ∈ ids (plug c (Elem j nm a (l ++ gs ++ r))).
Proof.
  induction gs as [|g gs IH]; [done|]. intros Hi%IH.
  cbn [app]. apply in_ids_insert. by right.
Qed.

(** *** Attributes *)

Lemma ids_attrs c x xn ma ma' ks :
  ids (plug c (Elem x xn ma ks)) ≡ₚ ids (plug c (Elem x xn ma' ks)).
Proof. by rewrite !ids_plug, !ids_Elem. Qed.

Lemma sig_attrs c x xn ma ma' ks :
  sig (plug c (Elem x xn ma ks)) ≡ₚ sig (plug c (Elem x xn ma' ks)).
Proof. by rewrite !sig_plug, !sig_Elem. Qed.

(** *** Paths determine what they lead to *)

Lemma plug_inj c n n' : plug c n = plug c n' → n = n'.
Proof.
  induction c as [|F c IH]; cbn [plug]; [done|].
  intros H. injection H as H. apply app_inv_head in H. injection H as H. by apply IH.
Qed.

Lemma in_sig_plug_inv T e : e ∈ sig T → ∃ cT m, T = plug cT m ∧ tag m = e.
Proof.
  unfold sig. intros (m & -> & Hm)%list_elem_of_fmap.
  destruct (subtree_plug_inv T m Hm) as (cT & ->). eauto.
Qed.

Lemma tag_element m i nm :
  tag m = (i, nm) → elementName nm → ∃ ma ks, m = Elem i nm ma ks.
Proof.
  intros H [Ht Hc]. destruct m as [j mn ma ks|j dt|j dt]; injection H as -> <-; try done. eauto.
Qed.

Lemma in_sig_sub c n e : e ∈ sig n → e ∈ sig (plug c n).
Proof. rewrite sig_plug, elem_of_app. auto. Qed.

Lemma tag_in_sig n x : x ∈ subtrees n → tag x ∈ sig n.
Proof. apply list_elem_of_fmap_2. Qed.

Lemma sig_self n : tag n ∈ sig n.
Proof. apply tag_in_sig, subtrees_self. Qed.

(** *** The identifier of the next node *)

Lemma maxId_bound n i : i ∈ ids n → i ≤ maxId n.
Proof.
  unfold maxId. induction (ids n) as [|j l IH]; [by intros ?%elem_of_nil|].
  cbn [foldr]. intros [->|Hi]%elem_of_cons; [lia|]. apply IH in Hi. lia.
Qed.

Lemma below_mkDom n : below (fresh (mkDom n)) n.
Proof. intros i Hi%maxId_bound. cbn [mkDom fresh]. lia. Qed.

End DOMFacts.

(** ** The Issue Analyzer *)

Module AnalyzerProps.
Import Mod4 DOMFacts.
Local Arguments ids : simpl never.

Lemma named_ne nm nm' n : named nm n = true → nm ≠ nm' → named nm' n = false.
Proof.
  unfold named. intros H%bool_decide_eq_true Hne.
  apply bool_decide_eq_false. congruence.
Qed.

(** The walk over a clean gap counts its paragraphs and stops at the table. *)
Lemma gapWalk_clean next gaps T' post n :
  Forall emptyParagraph gaps → isTable T' →
  Forall (λ g, Some (nid g) ≠ next) gaps →
  gapWalk next (gaps ++ T' :: post) n = (true, n + length gaps).
Proof.
  intros Hg HT'. revert n. induction Hg as [|g gaps [Hp He] _ IH]; intros n Hne; cbn [gapWalk app].
  - rewrite (named_ne _ _ _ HT') by done. unfold isTable in HT'. rewrite HT'.
    rewrite Nat.add_0_r. by case_bool_decide.
  - apply Forall_cons in Hne as [Hg Hne].
    rewrite bool_decide_eq_false_2 by done. rewrite Hp, He. cbn [length].
    rewrite bool_decide_eq_false_2 by lia.
    rewrite IH by done. f_equal. lia.
Qed.

Section Analyzer.
Context (now : Z) (htmlTables : list jsstring).
Context (c : ctx) (p : nodeId) (nm : string) (a : list (string * string)).
Context (pre : list node) (T : node) (gaps : list node) (T' : node) (post : list node).
Let doc := plug c (Elem p nm a (pre ++ T :: gaps ++ T' :: post)).
Context (Hnd : NoDup (ids doc)).
Context (HT : isTable T) (HT' : isTable T') (Hgaps : Forall emptyParagraph gaps).

Lemma tables_decompose :
∃ A B, getElementsByTagName "w:tbl" doc = A ++ T :: B ∧ B ≠ []
       ∧ Forall (λ x, x ∈ subtrees doc ∧ isTable x) (A ++ T :: B).
Proof.
destruct (descendants_focus c p nm a pre T (gaps ++ T' :: post)) as (A & B & H).
fold doc in H.
exists (filter (λ x, named "w:tbl" x = true) A),
       (filter (λ x, named "w:tbl" x = true)
               (descendants T ++ flat_map subtrees (gaps ++ T' :: post) ++ B)).
split; [|split].
- unfold getElementsByTagName. rewrite H, (subtrees_cons T).
  rewrite filter_app. cbn [app]. rewrite filter_cons_True by done. done.
- intros Heq. assert (Hin : T' ∈ filter (λ x, named "w:tbl" x = true)
      (descendants T ++ flat_map subtrees (gaps ++ T' :: post) ++ B)).
  { apply list_elem_of_filter. split; [done|].
    rewrite !elem_of_app. right. left.
    apply list_elem_of_In, in_flat_map. exists T'. split.
    - apply in_or_app. right. by left.
    - apply list_elem_of_In, subtrees_self. }
  rewrite Heq in Hin. by apply elem_of_nil in Hin.
- assert (Hall : Forall (λ x, x ∈ subtrees doc ∧ isTable x)
                        (getElementsByTagName "w:tbl" doc)).
  { apply Forall_forall. intros x [Hx Hd]%list_elem_of_filter.
    split; [by apply descendants_subtrees|done]. }
  unfold getElementsByTagName in Hall. rewrite H, (subtrees_cons T) in Hall.
  rewrite filter_app in Hall. cbn [app] in Hall.
  by rewrite filter_cons_True in Hall by done.
Qed.

Lemma gap_in_doc g : g ∈ gaps → g ∈ subtrees doc.
Proof.
intros Hg. destruct (subtrees_plug c (Elem p nm a (pre ++ T :: gaps ++ T' :: post)))
  as (A & B & H). fold doc in H. rewrite H.
rewrite !elem_of_app. right. left. cbn [subtrees]. right.
apply list_elem_of_In, in_flat_map. exists g. split.
- apply in_or_app. right. right. apply in_or_app. left. by apply list_elem_of_In.
- apply list_elem_of_In, subtrees_self.
Qed.

Lemma mergeable_clean_gap idx :
getElementsByTagName "w:tbl" doc !! idx = Some T →
S idx < length (getElementsByTagName "w:tbl" doc) →
mergeable doc (getElementsByTagName "w:tbl" doc) idx T = bool_decide (length gaps < 5).
Proof.
intros Hidx Hlen. unfold mergeable. rewrite bool_decide_eq_true_2 by done.
unfold doc at 2. rewrite focus_nextSiblings by done.
rewrite gapWalk_clean; [done..|].
apply Forall_forall. intros g Hg Heq.
destruct (getElementsByTagName "w:tbl" doc !! S idx) as [Y|] eqn:HY; [|done].
simpl in Heq. injection Heq as Heq.
apply list_elem_of_lookup_2 in HY. apply list_elem_of_filter in HY as [HYt HY].
apply descendants_subtrees in HY.
pose proof (subtrees_inj doc g Y Hnd (gap_in_doc g Hg) HY Heq) as ->.
rewrite Forall_forall in Hgaps. destruct (Hgaps Y Hg) as [Hp _].
by rewrite (named_ne _ "w:tbl" _ Hp) in HYt.
Qed.

(** C5: in MODULE_4_ANALYZE, a table that is followed, before the next
  table, by empty paragraphs only is flagged [canMergeNext] exactly when
  these paragraphs are fewer than 5: with 4 of them it is flagged, with 5
  it is not. *)
Theorem clean_gap_mergeable_iff_under_five :
∃ idx info,
  getElementsByTagName "w:tbl" doc !! idx = Some T
  ∧ analyzeDocument now htmlTables doc !! idx = Some info
  ∧ index info = idx
  ∧ canMergeNext info = bool_decide (length gaps < 5).
Proof.
destruct tables_decompose as (A & B & Htbl & HB & _).
exists (length A). eexists. unfold analyzeDocument. cbv zeta.
rewrite list_lookup_imap.
assert (Hidx : getElementsByTagName "w:tbl" doc !! length A = Some T).
{ rewrite Htbl. by rewrite list_lookup_middle. }
rewrite Hidx. split; [done|]. split; [done|]. split; [done|].
cbn [canMergeNext tableInfo]. apply mergeable_clean_gap; [done|].
rewrite Htbl, length_app. destruct B; [done|]. simpl. lia.
Qed.
End Analyzer.

Lemma clean_gap_mergeable_iff_under_five_witness :
  (∃ idx info,
     getElementsByTagName "w:tbl" (Examples.gapDocument 4) !! idx = Some Examples.tableA
     ∧ analyzeDocument 0 [] (Examples.gapDocument 4) !! idx = Some info
     ∧ index info = idx ∧ canMergeNext info = true)
  ∧ (∃ idx info,
       getElementsByTagName "w:tbl" (Examples.gapDocument 5) !! idx = Some Examples.tableA
       ∧ analyzeDocument 0 [] (Examples.gapDocument 5) !! idx = Some info
       ∧ index info = idx ∧ canMergeNext info = false).
Proof.
  split.
  - apply (clean_gap_mergeable_iff_under_five 0 [] Examples.toBody 2 "w:body" [] []
             Examples.tableA (Examples.emptyParagraphs 100 4) Examples.tableB
             [Examples.sectPr]); by_evaluation.
  - apply (clean_gap_mergeable_iff_under_five 0 [] Examples.toBody 2 "w:body" [] []
             Examples.tableA (Examples.emptyParagraphs 100 5) Examples.tableB
             [Examples.sectPr]); by_evaluation.
Defined.

End AnalyzerProps.

(** ** Styling a table: changes inside its subtree *)

Module StyleProps.
Import Mod4 DOMFacts.
Local Arguments ids : simpl never.

Lemma isTable_tag T : isTable T → tag T = (nid T, "w:tbl").
Proof. unfold isTable, named, tag. by intros ->%bool_decide_eq_true. Qed.

Lemma tag_isTable T t : tag T = (t, "w:tbl") → isTable T.
Proof. unfold isTable, named, tag. intros H. injection H as _ ->. by apply bool_decide_eq_true. Qed.

(** The element that an identifier inside the subtree designates. *)
Lemma inside_focus c t d x xn :
  within c t d → inside c d (x, xn) → elementName xn →
  ∃ T cT ma ks,
    T = plug cT (Elem x xn ma ks) ∧ root d = plug (c ++ cT) (Elem x xn ma ks) ∧ tag T = t.
Proof.
  intros (T & Hr & Ht & Hnd & Hb) (T0 & Hr0 & He) Hel.
  assert (T0 = T) as -> by (apply (plug_inj c); congruence).
  destruct (in_sig_plug_inv T _ He) as (cT & m & -> & Hm).
  destruct (tag_element m x xn Hm Hel) as (ma & ks & ->).
  exists (plug cT (Elem x xn ma ks)), cT, ma, ks. by rewrite plug_app.
Qed.

Lemma lookup_inside c t d x xn cT ma ks :
  within c t d →
  root d = plug (c ++ cT) (Elem x xn ma ks) → lookup x (root d) = Some (Elem x xn ma ks).
Proof.
  intros (_ & _ & _ & Hnd & _) Hroot.
  rewrite Hroot. apply (plug_lookup_self (c ++ cT) (Elem x xn ma ks)). by rewrite <- Hroot.
Qed.

Lemma keeps_refl c t d : within c t d → keeps c t d d.
Proof. by intros Hw. Qed.

Lemma keeps_trans c t d1 d2 d3 : keeps c t d1 d2 → keeps c t d2 d3 → keeps c t d1 d3.
Proof.
  intros (_ & Hf1 & Hk1) (Hw & Hf2 & Hk2). split; [done|]. split; [lia|]. auto.
Qed.

Lemma within_tree c t d :
  within c t d → ∃ T, root d = plug c T ∧ tag T = t ∧ NoDup (ids (root d))
                     ∧ below (fresh d) (root d) ∧ ∀ e, inside c d e ↔ e ∈ sig T.
Proof.
  intros (T & Hr & Ht & Hnd & Hb). exists T. repeat split; try done.
  - intros (T0 & Hr0 & He). by assert (T0 = T) as -> by (apply (plug_inj c); congruence).
  - intros He. by exists T.
Qed.

(** What an identifier the program holds designates. *)
Lemma known_lookup c t d x :
  within c t d → known c d x →
  ((x ∉ ids (root d)) ∧ lookup x (root d) = None)
  ∨ (∃ cT xn ma ks,
       elementName xn ∧ root d = plug (c ++ cT) (Elem x xn ma ks)
       ∧ lookup x (root d) = Some (Elem x xn ma ks)).
Proof.
  intros Hw (_ & [Hx|(xn & Hel & Hin)]).
  - left. split; [done|]. by apply lookup_notin.
  - right. destruct (inside_focus c t d x xn Hw Hin Hel) as (T & cT & ma & ks & HT & Hroot & _).
    exists cT, xn, ma, ks. split; [done|]. split; [done|].
    by apply (lookup_inside c t d x xn cT ma ks).
Qed.

Lemma descendant_known c t d cT X nm y :
  within c t d → root d = plug (c ++ cT) X →
  y ∈ getElementsByTagName nm X → elementName nm → known c d (nid y).
Proof.
  intros Hw Hroot Hy Hel.
  destruct (within_tree c t d Hw) as (T & Hr & Ht & Hnd & Hb & Hin).
  assert (HT : T = plug cT X).
  { apply (plug_inj c). rewrite <- plug_app. congruence. }
  apply list_elem_of_filter in Hy as [Hn Hy]. apply bool_decide_eq_true in Hn.
  apply descendants_subtrees in Hy.
  assert (Hsig : (nid y, nm) ∈ sig T).
  { rewrite HT. apply in_sig_sub. rewrite <- Hn. by apply (tag_in_sig X y). }
  split.
  - apply Hb. rewrite Hr. apply plug_in_ids. rewrite ids_sig.
    by apply (list_elem_of_fmap_2 fst _ (nid y, nm)).
  - right. exists nm. split; [done|]. by apply Hin.
Qed.

Lemma first_known c t d cT X nm y :
  within c t d → root d = plug (c ++ cT) X →
  first nm X = Some y → elementName nm → known c d (nid y).
Proof.
  intros Hw Hroot Hy Hel. apply (descendant_known c t d cT X nm y); try done.
  by apply head_Some_elem_of.
Qed.


(** *** A new tree becomes a child *)

Section Insert.
Context (c : ctx) (t : nodeId * string) (d : dom) (x : nodeId).
Context (Hw : within c t d) (Hx : known c d x).
Context (n : node) (fr' : nodeId).
Context (Hn : NoDup (ids n)) (Hfresh : ∀ i, i ∈ ids n → fresh d ≤ i < fr').
Context (Hfr : fresh d ≤ fr') (Hel : elementName (nodeName n)).

Lemma insert_keeps cT xn ma l r :
root d = plug (c ++ cT) (Elem x xn ma (l ++ r)) →
let d' := Dom (plug (c ++ cT) (Elem x xn ma (l ++ n :: r))) fr' in
keeps c t d d' ∧ known c d' (nid n).
Proof.
intros Hroot d'.
destruct (within_tree c t d Hw) as (T & Hr & Ht & Hnd & Hb & Hin).
assert (HT : T = plug cT (Elem x xn ma (l ++ r))).
{ apply (plug_inj c). rewrite <- plug_app. congruence. }
set (T' := plug cT (Elem x xn ma (l ++ n :: r))).
assert (Hd' : root d' = plug c T') by (unfold d', T'; cbn [root]; by rewrite plug_app).
assert (Hw' : within c t d').
{ exists T'. split; [done|]. split; [|split].
  - rewrite <- Ht, HT. by apply tag_plug.
  - unfold d'. cbn [root]. apply NoDup_insert; [by rewrite <- Hroot|done|].
    intros i Hi Hi'. rewrite <- Hroot in Hi'. apply Hb in Hi'. apply Hfresh in Hi. lia.
  - unfold d'. cbn [root fresh]. intros i [Hi|Hi]%in_ids_insert.
    + apply Hfresh in Hi. lia.
    + rewrite <- Hroot in Hi. apply Hb in Hi. lia. }
assert (Hin' : ∀ e, e ∈ sig T' ↔ e ∈ sig n ∨ e ∈ sig T).
{ intros e. unfold T'. by rewrite in_sig_insert, HT. }
split; [split; [done|split; [done|]]|].
- intros z (Hz & Hcase). split; [unfold d'; cbn [fresh]; lia|].
  destruct Hcase as [Hout|(zn & Hzn & Hzin)].
  + left. unfold d'. cbn [root]. rewrite in_ids_insert, <- Hroot.
    intros [Hi|Hi]; [|done]. apply Hfresh in Hi. lia.
  + right. exists zn. split; [done|]. exists T'. split; [done|].
    apply Hin'. right. by apply Hin.
- split; [apply Hfresh, nid_in_ids|]. right. exists (nodeName n). split; [done|].
  exists T'. split; [done|]. apply Hin'. left. apply sig_self.
Qed.

(** The identifier designates no node of the document: nothing changes. *)
Lemma absent_keeps f :
x ∉ ids (root d) →
let d' := Dom (updateAt x f (root d)) fr' in
keeps c t d d' ∧ known c d' (nid n).
Proof.
intros Hout d'. assert (Hroot : root d' = root d) by (by apply updateAt_notin).
destruct Hw as (T & Hr & Ht & Hnd & Hb).
assert (Hw' : within c t d').
{ exists T. rewrite Hroot. repeat split; try done. intros i Hi%Hb. unfold d'. cbn [fresh]. lia. }
split; [split; [done|split; [done|]]|].
- intros z (Hz & Hcase). split; [unfold d'; cbn [fresh]; lia|].
  destruct Hcase as [Hzout|(zn & Hzn & T0 & Hr0 & Hzin)].
  + left. by rewrite Hroot.
  + right. exists zn. split; [done|]. exists T0. by rewrite Hroot.
- split; [apply Hfresh, nid_in_ids|]. left. rewrite Hroot. intros Hi%Hb.
  pose proof (Hfresh _ (nid_in_ids n)). lia.
Qed.

Lemma appendNew_keeps :
keeps c t d (Dom (appendNew x n (root d)) fr') ∧ known c (Dom (appendNew x n (root d)) fr') (nid n).
Proof.
destruct (known_lookup c t d x Hw Hx) as [(Hout & _)|(cT & xn & ma & ks & _ & Hroot & _)].
- by apply absent_keeps.
- unfold appendNew, updateChildren. rewrite Hroot.
  pose proof Hw as (_ & _ & _ & Hnd & _).
  rewrite (plug_updateAt_self (c ++ cT) (Elem x xn ma ks)) by (by rewrite <- Hroot).
  cbn [withChildren]. apply (insert_keeps cT xn ma ks []). by rewrite app_nil_r.
Qed.

Lemma prepend_keeps :
keeps c t d (Dom (updateChildren x (λ ks, n :: ks) (root d)) fr')
∧ known c (Dom (updateChildren x (λ ks, n :: ks) (root d)) fr') (nid n).
Proof.
destruct (known_lookup c t d x Hw Hx) as [(Hout & _)|(cT & xn & ma & ks & _ & Hroot & _)].
- by apply absent_keeps.
- unfold updateChildren. rewrite Hroot.
  pose proof Hw as (_ & _ & _ & Hnd & _).
  rewrite (plug_updateAt_self (c ++ cT) (Elem x xn ma ks)) by (by rewrite <- Hroot).
  cbn [withChildren]. by apply (insert_keeps cT xn ma [] ks).
Qed.
End Insert.


(** *** Attributes *)

Lemma setAttribute_keeps c t d x k v :
  within c t d → known c d x →
  keeps c t d (Dom (updateAt x (setAttribute k v) (root d)) (fresh d)).
Proof.
  intros Hw Hx.
  destruct (known_lookup c t d x Hw Hx) as [(Hout & _)|(cT & xn & ma & ks & Hel & Hroot & _)].
  - rewrite updateAt_notin by done. destruct d. by apply keeps_refl.
  - destruct (within_tree c t d Hw) as (T & Hr & Ht & Hnd & Hb & Hin).
    assert (HT : T = plug cT (Elem x xn ma ks)).
    { apply (plug_inj c). rewrite <- plug_app. congruence. }
    set (T' := plug cT (Elem x xn (setAttr k v ma) ks)).
    assert (Hd' : updateAt x (setAttribute k v) (root d) = plug c T').
    { rewrite Hroot.
      rewrite (plug_updateAt_self (c ++ cT) (Elem x xn ma ks)) by (by rewrite <- Hroot).
      unfold T'. by rewrite plug_app. }
    assert (Hids : ids (plug c T') ≡ₚ ids (root d)).
    { unfold T'. by rewrite <- plug_app, (ids_attrs _ _ _ _ ma), <- Hroot. }
    assert (Hsig : sig T' ≡ₚ sig T).
    { unfold T'. by rewrite (sig_attrs _ _ _ _ ma), <- HT. }
    rewrite Hd'. split; [|split; [done|]].
    + exists T'. cbn [root fresh]. split; [done|]. split; [|split].
      * rewrite <- Ht, HT. by apply tag_plug.
      * by rewrite Hids.
      * intros i. rewrite Hids. apply Hb.
    + intros z (Hz & Hcase). split; [done|]. cbn [root].
      destruct Hcase as [Hout|(zn & Hzn & Hzin)].
      * left. by rewrite Hids.
      * right. exists zn. split; [done|]. exists T'. split; [done|].
        rewrite Hsig. by apply Hin.
Qed.

Lemma setAttributes_keeps c t x kvs d :
  within c t d → known c d x → keeps c t d (setAttributes x kvs d).
Proof.
  revert d. induction kvs as [|[k v] kvs IH]; intros d Hw Hx.
  - destruct d. by apply keeps_refl.
  - pose proof (setAttribute_keeps c t d x k v Hw Hx) as Hk.
    eapply keeps_trans; [exact Hk|].
    destruct Hk as (Hw1 & _ & Hk1). apply (IH _ Hw1 (Hk1 _ Hx)).
Qed.

(** *** Removing a child *)

Lemma parentOf_Some i n q :
  parentOf i n = Some q → q ∈ subtrees n ∧ hasChild i q = true.
Proof.
  induction n as [j nm a ks IH| |] using node_ind; cbn [parentOf].
  - destruct (hasChild i (Elem j nm a ks)) eqn:Hc.
    + intros [= <-]. split; [apply subtrees_self|done].
    + intros H. cbn [subtrees].
      assert (∃ k, k ∈ ks ∧ parentOf i k = Some q) as (k & Hk & Hq).
      { clear IH Hc. induction ks as [|k ks IHks]; [done|]. cbn [findMap] in H.
        destruct (parentOf i k) eqn:Hk.
        - exists k. split; [by left|congruence].
        - destruct (IHks H) as (k' & ? & ?). exists k'. split; [by right|done]. }
      rewrite Forall_forall in IH. destruct (IH k Hk Hq) as (Hsub & Hch).
      split; [|done]. right. apply list_elem_of_In, in_flat_map. exists k.
      split; by apply list_elem_of_In.
  - simpl. done.
  - simpl. done.
Qed.

Lemma hasChild_split i j nm a ks :
  hasChild i (Elem j nm a ks) = true → ∃ l y r, ks = l ++ y :: r ∧ nid y = i.
Proof.
  unfold hasChild. cbn [childNodes]. intros (y & Hy & Hid)%existsb_exists.
  apply bool_decide_eq_true in Hid. apply list_elem_of_In, list_elem_of_split in Hy as (l & r & ->).
  eauto.
Qed.

Lemma removeChild_keeps c t d x y r' :
  within c t d → known c d x →
  removeChild x y (root d) = Ok r' → keeps c t d (Dom r' (fresh d)).
Proof.
  intros Hw Hx Hrm. unfold removeChild in Hrm.
  destruct (parentOf y (root d)) as [q|] eqn:Hpar; [|done].
  case_bool_decide as Hq; [|done]. injection Hrm as <-.
  destruct (parentOf_Some _ _ _ Hpar) as (Hqsub & Hch).
  destruct (within_tree c t d Hw) as (T & Hr & Ht & Hnd & Hb & Hin).
  destruct (known_lookup c t d x Hw Hx) as [(Hout & _)|(cT & xn & ma & ks & Hel & Hroot & _)].
  { exfalso. apply Hout. rewrite <- Hq. by apply (list_elem_of_fmap_2 nid). }
  assert (HT : T = plug cT (Elem x xn ma ks)).
  { apply (plug_inj c). rewrite <- plug_app. congruence. }
  assert (q = Elem x xn ma ks) as ->.
  { apply (subtrees_inj (root d)); [done|done| |done].
    rewrite Hroot. destruct (subtrees_plug (c ++ cT) (Elem x xn ma ks)) as (A & B & ->).
    rewrite !elem_of_app. right. left. apply subtrees_self. }
  destruct (hasChild_split _ _ _ _ _ Hch) as (l & k & r & -> & Hk).
  rewrite Hroot in Hnd |- *.
  rewrite focus_updateChildren by done.
  destruct (NoDup_children _ _ _ _ _ _ (focus_NoDup _ _ _ _ _ _ _ Hnd)) as (_ & Hkl & Hkr).
  rewrite <- Hk, without_here by done.
  set (T' := plug cT (Elem x xn ma (l ++ r))).
  assert (Hd' : plug (c ++ cT) (Elem x xn ma (l ++ r)) = plug c T').
  { unfold T'. by rewrite plug_app. }
  assert (Hnd' : NoDup (ids (plug (c ++ cT) (Elem x xn ma (l ++ r)))))
    by (by apply NoDup_without_child in Hnd).
  assert (Hids : ∀ i, i ∈ ids (root d) ↔ i ∈ ids k ∨ i ∈ ids (plug c T')).
  { intros i. by rewrite Hroot, in_ids_insert, Hd'. }
  assert (Hsig : ∀ e, e ∈ sig T ↔ e ∈ sig k ∨ e ∈ sig T').
  { intros e. by rewrite HT, in_sig_insert. }
  assert (Hdis : ∀ i, i ∈ ids k → i ∉ ids (plug c T')).
  { rewrite ids_insert_perm, Hd' in Hnd. apply NoDup_app in Hnd as (_ & Hdis & _). exact Hdis. }
  rewrite Hd'. split; [|split; [done|]].
  - exists T'. cbn [root fresh]. split; [done|]. split; [|split].
    + rewrite <- Ht, HT. by apply tag_plug.
    + by rewrite <- Hd'.
    + intros i Hi. apply Hb, Hids. by right.
  - intros z (Hz & Hcase). split; [done|]. cbn [root].
    destruct Hcase as [Hout|(zn & Hzn & Hzin)].
    + left. intros Hi. apply Hout, Hids. by right.
    + apply Hin, Hsig in Hzin as [Hzk|HzT].
      * left. apply Hdis. rewrite ids_sig. by apply (list_elem_of_fmap_2 fst _ (z, zn)).
      * right. exists zn. split; [done|]. by exists T'.
Qed.

Lemma removeFirst_keeps c t d x nm d' :
  within c t d → known c d x → removeFirst x nm d = Ok d' → keeps c t d d'.
Proof.
  intros Hw Hx. unfold removeFirst.
  destruct (lookup x (root d) ≫= first nm) as [y|].
  - destruct (removeChild x (nid y) (root d)) as [r'|] eqn:Hrm; [|done].
    cbn [mbind result_bind]. intros [= <-]. by apply (removeChild_keeps c t d x (nid y)).
  - intros [= <-]. by apply keeps_refl.
Qed.

(** *** The first element of a name, created if there is none *)

Section First.
Context (c : ctx) (t : nodeId * string) (d : dom) (x : nodeId) (nm : string).
Context (Hw : within c t d) (Hx : known c d x) (Hel : elementName nm).

Lemma created_fresh : ∀ i, i ∈ ids (Elem (fresh d) nm [] []) → fresh d ≤ i < S (fresh d).
Proof. intros i Hi. rewrite ids_Elem in Hi. apply list_elem_of_singleton in Hi. lia. Qed.

Lemma firstOrAppend_keeps :
∃ y d', firstOrAppend x nm d = (y, d') ∧ keeps c t d d' ∧ known c d' y.
Proof.
unfold firstOrAppend.
destruct (lookup x (root d) ≫= first nm) as [y|] eqn:Hy.
- exists (nid y), d. split; [done|]. split; [by apply keeps_refl|].
  destruct (known_lookup c t d x Hw Hx) as [(_ & Hlk)|(cT & xn & ma & ks & _ & Hroot & Hlk)];
    rewrite Hlk in Hy; [done|]. cbn [mbind option_bind] in Hy.
  by apply (first_known c t d cT (Elem x xn ma ks) nm y).
- cbn [createElement root fresh nid]. eexists _, _. split; [reflexivity|].
  apply (appendNew_keeps c t d x Hw Hx (Elem (fresh d) nm [] []) (S (fresh d)));
    [apply NoDup_singleton|apply created_fresh|lia|done].
Qed.

Lemma firstOrPrepend_keeps :
∃ y d', firstOrPrepend x nm d = (y, d') ∧ keeps c t d d' ∧ known c d' y.
Proof.
unfold firstOrPrepend.
destruct (lookup x (root d) ≫= first nm) as [y|] eqn:Hy.
- exists (nid y), d. split; [done|]. split; [by apply keeps_refl|].
  destruct (known_lookup c t d x Hw Hx) as [(_ & Hlk)|(cT & xn & ma & ks & _ & Hroot & Hlk)];
    rewrite Hlk in Hy; [done|]. cbn [mbind option_bind] in Hy.
  by apply (first_known c t d cT (Elem x xn ma ks) nm y).
- cbn [createElement root fresh nid]. eexists _, _. split; [reflexivity|].
  apply (prepend_keeps c t d x Hw Hx (Elem (fresh d) nm [] []) (S (fresh d)));
    [apply NoDup_singleton|apply created_fresh|lia|done].
Qed.
End First.


(** *** The stages of the Repair Pipeline inside the table *)

Lemma ids_newBorders i : ids (newBorders i) = seq i 7.
Proof.
  unfold newBorders, sides. rewrite ids_Elem. cbn.
  by rewrite !Nat.add_succ_r, Nat.add_0_r.
Qed.

Lemma fixBordersStage_keeps c t d tblPr d' :
  within c t d → known c d tblPr → fixBordersStage tblPr d = Ok d' → keeps c t d d'.
Proof.
  intros Hw Hx. unfold fixBordersStage.
  destruct (removeFirst tblPr "w:tblBorders" d) as [d1|] eqn:Hrm; [|done].
  cbn [mbind result_bind]. intros [= <-].
  pose proof (removeFirst_keeps c t d tblPr _ d1 Hw Hx Hrm) as Hk1.
  eapply keeps_trans; [exact Hk1|]. destruct Hk1 as (Hw1 & _ & Hk1).
  apply (appendNew_keeps c t d1 tblPr Hw1 (Hk1 _ Hx) (newBorders (fresh d1))).
  - rewrite ids_newBorders. apply NoDup_seq.
  - intros i. rewrite ids_newBorders, elem_of_seq. cbn [sides length]. lia.
  - lia.
  - done.
Qed.

Lemma autofitStage_keeps c t d tblPr d' :
  within c t d → known c d tblPr → autofitStage tblPr d = Ok d' → keeps c t d d'.
Proof.
  intros Hw Hx. unfold autofitStage.
  destruct (firstOrAppend_keeps c t d tblPr "w:tblW" Hw Hx ltac:(done))
    as (tblW & d1 & -> & Hk1 & HtblW).
  pose proof Hk1 as (Hw1 & _ & Hm1).
  pose proof (setAttributes_keeps c t tblW [("w:w", "4250"); ("w:type", "pct")] d1 Hw1 HtblW)
    as Hk2. pose proof Hk2 as (Hw2 & _ & Hm2).
  destruct (firstOrAppend_keeps c t _ tblPr "w:jc" Hw2 (Hm2 _ (Hm1 _ Hx)) ltac:(done))
    as (jc & d3 & -> & Hk3 & Hjc).
  pose proof Hk3 as (Hw3 & _ & Hm3).
  pose proof (setAttributes_keeps c t jc [("w:val", "center")] d3 Hw3 Hjc) as Hk4.
  pose proof Hk4 as (Hw4 & _ & Hm4).
  intros Hrm.
  pose proof (removeFirst_keeps c t _ tblPr _ d' Hw4
                (Hm4 _ (Hm3 _ (Hm2 _ (Hm1 _ Hx)))) Hrm) as Hk5.
  eapply keeps_trans; [exact Hk1|]. eapply keeps_trans; [exact Hk2|].
  eapply keeps_trans; [exact Hk3|]. eapply keeps_trans; [exact Hk4|]. exact Hk5.
Qed.

Lemma cellMarginsStage_keeps c t d tblPr :
  within c t d → known c d tblPr → keeps c t d (cellMarginsStage tblPr d).
Proof.
  intros Hw Hx. unfold cellMarginsStage.
  destruct (firstOrAppend_keeps c t d tblPr "w:tblCellMar" Hw Hx ltac:(done))
    as (cellMar & d1 & -> & Hk1 & Hcm).
  eapply keeps_trans; [exact Hk1|]. destruct Hk1 as (Hw1 & _ & _).
  revert Hw1 Hcm. generalize d1. clear.
  induction margins as [|[side val] l IH]; intros d Hw Hcm; [by apply keeps_refl|].
  cbn [foldl fst snd].
  destruct (firstOrAppend_keeps c t d cellMar ("w:" +:+ side) Hw Hcm)
    as (m & d' & -> & Hk1 & Hm).
  { split; intros H; simplify_eq/=. }
  pose proof Hk1 as (Hw1 & _ & Hm1).
  pose proof (setAttributes_keeps c t m [("w:w", val); ("w:type", "dxa")] d' Hw1 Hm) as Hk2.
  pose proof Hk2 as (Hw2 & _ & Hm2).
  eapply keeps_trans; [exact Hk1|]. eapply keeps_trans; [exact Hk2|].
  apply IH; [done|]. by apply Hm2, Hm1.
Qed.

Lemma foldM_keeps c t (f : dom → nodeId → result dom) :
  (∀ d x d', within c t d → known c d x → f d x = Ok d' → keeps c t d d') →
  ∀ xs d d', within c t d → Forall (known c d) xs → foldM f d xs = Ok d' → keeps c t d d'.
Proof.
  intros Hf xs. induction xs as [|x xs IH]; intros d d' Hw Hxs; cbn [foldM].
  - intros [= <-]. by apply keeps_refl.
  - apply Forall_cons in Hxs as [Hx Hxs].
    destruct (f d x) as [d1|] eqn:Hfx; [|done]. cbn [mbind result_bind]. intros Hrest.
    pose proof (Hf d x d1 Hw Hx Hfx) as Hk1. pose proof Hk1 as (Hw1 & _ & Hm1).
    eapply keeps_trans; [exact Hk1|]. apply IH; [done| |done].
    eapply Forall_impl; [exact Hxs|]. apply Hm1.
Qed.

(** The elements of a name below a node the program holds. *)
Lemma elements_known c t d x nm :
  within c t d → known c d x → elementName nm →
  Forall (known c d)
         (nid <$> default [] (getElementsByTagName nm <$> lookup x (root d))).
Proof.
  intros Hw Hx Hel.
  destruct (known_lookup c t d x Hw Hx) as [(_ & ->)|(cT & xn & ma & ks & _ & Hroot & ->)].
  - apply Forall_nil_2.
  - cbn [fmap option_fmap option_map default]. apply Forall_fmap, Forall_forall.
    intros y Hy. by apply (descendant_known c t d cT (Elem x xn ma ks) nm y).
Qed.

Lemma alignParagraph_keeps c t conf d p d' :
  within c t d → known c d p → alignParagraph conf d p = Ok d' → keeps c t d d'.
Proof.
  intros Hw Hp. unfold alignParagraph.
  destruct (firstOrPrepend_keeps c t d p "w:pPr" Hw Hp ltac:(done))
    as (pPr & d1 & -> & Hk1 & HpPr).
  pose proof Hk1 as (Hw1 & _ & Hm1).
  destruct (removeFirst pPr "w:ind" d1) as [d2|] eqn:Hrm; [|done].
  cbn [mbind result_bind].
  pose proof (removeFirst_keeps c t d1 pPr _ d2 Hw1 HpPr Hrm) as Hk2.
  pose proof Hk2 as (Hw2 & _ & Hm2).
  set (fullText := trim _).
  set (d3 := if test bulletRe fullText then _ else d2).
  assert (Hk3 : keeps c t d2 d3).
  { unfold d3. destruct (test bulletRe fullText); [|by apply keeps_refl].
    cbn [createElement root fresh].
    apply (appendNew_keeps c t d2 pPr Hw2 (Hm2 _ HpPr)
             (setAttribute "w:hanging" "425"
                (setAttribute "w:left" "425" (Elem (fresh d2) "w:ind" [] [])))
             (S (fresh d2))); [apply NoDup_singleton| |lia|done].
    intros i Hi. cbn [setAttribute] in Hi. rewrite ids_Elem in Hi.
    apply list_elem_of_singleton in Hi. lia. }
  pose proof Hk3 as (Hw3 & _ & Hm3).
  set (d4 := if fixSpacing (options conf) then _ else d3).
  assert (Hk4 : keeps c t d3 d4).
  { unfold d4. destruct (fixSpacing (options conf)); [|by apply keeps_refl].
    destruct (firstOrAppend_keeps c t d3 pPr "w:spacing" Hw3 (Hm3 _ (Hm2 _ HpPr)) ltac:(done))
      as (sp & ds & -> & Hk & Hsp).
    eapply keeps_trans; [exact Hk|]. destruct Hk as (Hw' & _ & _).
    by apply setAttributes_keeps. }
  pose proof Hk4 as (Hw4 & _ & Hm4).
  destruct (firstOrAppend_keeps c t d4 pPr "w:jc" Hw4 (Hm4 _ (Hm3 _ (Hm2 _ HpPr))) ltac:(done))
    as (jc & d5 & -> & Hk5 & Hjc).
  intros [= <-]. pose proof Hk5 as (Hw5 & _ & _).
  pose proof (setAttributes_keeps c t jc [("w:val", "left")] d5 Hw5 Hjc) as Hk6.
  eapply keeps_trans; [exact Hk1|]. eapply keeps_trans; [exact Hk2|].
  eapply keeps_trans; [exact Hk3|]. eapply keeps_trans; [exact Hk4|].
  eapply keeps_trans; [exact Hk5|]. exact Hk6.
Qed.


Lemma focus_descend c d cT X y :
  root d = plug (c ++ cT) X → y ∈ subtrees X → ∃ cT', root d = plug (c ++ cT') y.
Proof.
  intros Hroot Hy. destruct (subtree_plug_inv X y Hy) as (cY & ->).
  exists (cT ++ cY). by rewrite Hroot, app_assoc, (plug_app (c ++ cT)).
Qed.

Lemma first_subtree nm X y : first nm X = Some y → y ∈ subtrees X.
Proof.
  intros H%head_Some_elem_of. apply list_elem_of_filter in H as [_ H].
  by apply descendants_subtrees.
Qed.

Lemma alignCell_keeps c t conf d cell d' :
  within c t d → known c d cell → alignCell conf d cell = Ok d' → keeps c t d d'.
Proof.
  intros Hw Hcell. unfold alignCell.
  set (d1 := if autofit (options conf) then _ else d).
  assert (Hk1 : keeps c t d d1).
  { unfold d1. destruct (autofit (options conf)); [|by apply keeps_refl].
    destruct (known_lookup c t d cell Hw Hcell)
      as [(_ & ->)|(cT & xn & ma & ks & _ & Hroot & ->)]; [by apply keeps_refl|].
    cbn [mbind option_bind].
    destruct (first "w:tcPr" (Elem cell xn ma ks)) as [tcPr|] eqn:HtcPr;
      [|by apply keeps_refl]. cbn [mbind option_bind].
    destruct (first "w:tcW" tcPr) as [tcW|] eqn:HtcW; [|by apply keeps_refl].
    apply setAttributes_keeps; [done|].
    destruct (focus_descend c d cT _ tcPr Hroot (first_subtree _ _ _ HtcPr)) as (cT' & Hroot').
    by apply (first_known c t d cT' tcPr "w:tcW" tcW). }
  pose proof Hk1 as (Hw1 & _ & Hm1). intros Hfold.
  eapply keeps_trans; [exact Hk1|].
  apply (foldM_keeps c t (alignParagraph conf) (alignParagraph_keeps c t conf)
           (nid <$> default [] (getElementsByTagName "w:p" <$> lookup cell (root d1)))
           d1 d' Hw1); [|exact Hfold].
  by apply (elements_known c t d1 cell "w:p" Hw1 (Hm1 _ Hcell)).
Qed.

Lemma fixAlignStage_keeps c t conf d node d' :
  within c t d → known c d node → fixAlignStage conf node d = Ok d' → keeps c t d d'.
Proof.
  intros Hw Hnode Hfold. unfold fixAlignStage in Hfold.
  apply (foldM_keeps c t (alignCell conf) (alignCell_keeps c t conf)
           (nid <$> default [] (getElementsByTagName "w:tc" <$> lookup node (root d)))
           d d' Hw); [|exact Hfold].
  by apply (elements_known c t d node "w:tc" Hw Hnode).
Qed.


(** The styling of a table stays inside the table when it does not reach
    the external-gap step. *)
Lemma styleTable_inside c t d node conf d' :
  within c t d → known c d node →
  fixSpacing (options conf) = false ∨ mergeNext (options conf) = true →
  styleTable d (node, conf) = Ok d' → keeps c t d d'.
Proof.
  intros Hw Hnode Hopt. unfold styleTable.
  destruct (parentOf node (root d)); [|intros [= <-]; by apply keeps_refl].
  destruct (firstOrPrepend_keeps c t d node "w:tblPr" Hw Hnode ltac:(done))
    as (tblPr & d0 & Hens & Hk0 & Hpr).
  change (ensureTblPr node d) with (firstOrPrepend node "w:tblPr" d).
  rewrite Hens. pose proof Hk0 as (Hw0 & _ & Hm0).
  set (rA := if fixBorders (options conf) then fixBordersStage tblPr d0 else Ok d0).
  destruct rA as [dA|] eqn:HA; [|done]. cbn [mbind result_bind].
  assert (HkA : keeps c t d0 dA).
  { unfold rA in HA. destruct (fixBorders (options conf)).
    - by apply (fixBordersStage_keeps c t d0 tblPr).
    - injection HA as <-. by apply keeps_refl. }
  pose proof HkA as (HwA & _ & HmA).
  set (rB := if autofit (options conf) then autofitStage tblPr dA else Ok dA).
  destruct rB as [dB|] eqn:HB; [|done]. cbn [mbind result_bind].
  assert (HkB : keeps c t dA dB).
  { unfold rB in HB. destruct (autofit (options conf)).
    - apply (autofitStage_keeps c t dA tblPr); [done| |done]. by apply HmA.
    - injection HB as <-. by apply keeps_refl. }
  pose proof HkB as (HwB & _ & HmB).
  set (dC := if fixSpacing (options conf) then fixSpacingStage conf node tblPr dB else dB).
  assert (HkC : keeps c t dB dC).
  { unfold dC, fixSpacingStage. destruct (fixSpacing (options conf)); [|by apply keeps_refl].
    destruct Hopt as [Hf|Hm]; [done|]. rewrite Hm.
    apply cellMarginsStage_keeps; [done|]. by apply HmB, HmA. }
  pose proof HkC as (HwC & _ & HmC).
  intros HD.
  assert (HkD : keeps c t dC d').
  { destruct (fixAlign (options conf)).
    - apply (fixAlignStage_keeps c t conf dC node); [done| |done].
      by apply HmC, HmB, HmA, Hm0.
    - injection HD as <-. by apply keeps_refl. }
  eapply keeps_trans; [exact Hk0|]. eapply keeps_trans; [exact HkA|].
  eapply keeps_trans; [exact HkB|]. eapply keeps_trans; [exact HkC|]. exact HkD.
Qed.

(** The table receives a [w:tblPr] as its first child if it has none below
    it; its rows are what they were. *)
Lemma ensureTblPr_table c T d :
  isTable T → NoDup (ids (root d)) → root d = plug c T →
  ∃ y T2 d',
    ensureTblPr (nid T) d = (y, d') ∧ root d' = plug c T2 ∧ tag T2 = tag T
    ∧ getElementsByTagName "w:tr" T2 = getElementsByTagName "w:tr" T.
Proof.
  intros HT Hnd Hroot.
  assert (HT' : ∃ ta tk, T = Elem (nid T) "w:tbl" ta tk).
  { apply tag_element; [by apply isTable_tag|done]. }
  destruct HT' as (ta & tk & HTeq).
  assert (Hlk : lookup (nid T) (root d) = Some T).
  { rewrite Hroot. apply plug_lookup_self. by rewrite <- Hroot. }
  set (t := nid T) in *.
  unfold ensureTblPr. rewrite Hlk. cbn [mbind option_bind].
  destruct (first "w:tblPr" T) as [y|] eqn:Hfirst.
  - by exists (nid y), T, d.
  - cbn [createElement root fresh nid].
    exists (fresh d), (Elem t "w:tbl" ta (Elem (fresh d) "w:tblPr" [] [] :: tk)).
    eexists. split; [reflexivity|]. cbn [root].
    assert (Hupd : updateChildren t (λ ks, Elem (fresh d) "w:tblPr" [] [] :: ks) (root d)
                   = plug c (Elem t "w:tbl" ta (Elem (fresh d) "w:tblPr" [] [] :: tk))).
    { unfold updateChildren. rewrite Hroot. rewrite HTeq at 1.
      rewrite (plug_updateAt_self c (Elem t "w:tbl" ta tk)); [done|].
      rewrite <- HTeq, <- Hroot. done. }
    rewrite Hupd. split; [done|]. rewrite HTeq. done.
Qed.

(** *** One table configured *)

Lemma omap_imap_at {A B} (g : A → B) (l : list A) (k : nat) :
  omap (λ x, x) (imap (λ i x, if bool_decide (k = i) then Some (g x) else None) l)
  = match l !! k with Some x => [g x] | None => [] end.
Proof.
  revert k. induction l as [|x l IH]; intros k; [done|].
  rewrite imap_cons. destruct k as [|k].
  - rewrite bool_decide_eq_true_2 by done. cbn [omap list_omap].
    change ((x :: l) !! 0) with (Some x). f_equal.
    rewrite (imap_ext _ (λ _ _, None)); [|by intros].
    clear. generalize 0. induction l as [|y l IH]; intros n; [done|].
    rewrite imap_cons. cbn. apply (IH 0).
  - rewrite bool_decide_eq_false_2 by done. cbn [omap list_omap].
    change ((x :: l) !! S k) with (l !! k).
    rewrite <- IH. f_equal. apply imap_ext. intros i y _. cbn.
    destruct (decide (k = i)); [by rewrite !bool_decide_eq_true_2 by lia|
                                by rewrite !bool_decide_eq_false_2 by lia].
Qed.

Lemma buildNodeMap_single tables conf T :
  tables !! index conf = Some T → buildNodeMap tables [conf] = [(nid T, conf)].
Proof.
  intros H. unfold buildNodeMap.
  rewrite (imap_ext _ (λ i tbl, if bool_decide (index conf = i)
                                then Some ((λ tbl, (nid tbl, conf)) tbl) else None)).
  - by rewrite (omap_imap_at (λ tbl, (nid tbl, conf))), H.
  - intros i tbl _. cbn [List.find]. by case_bool_decide.
Qed.

(** With one table configured, MODULE_4_FIX is the merge of that table, if
    asked for, and then its styling. *)
Lemma fixDocument_single doc conf T parent :
  getElementsByTagName "w:tbl" doc !! index conf = Some T →
  parentOf (nid T) doc = Some parent →
  fixDocument [conf] doc
  = doc1 ← (if mergeNext (options conf) then mergeWithNext (nid T) doc else Ok doc);
    d2 ← styleTable (Dom doc1 (fresh (mkDom doc))) (nid T, conf);
    Ok (root d2).
Proof.
  intros Htbl Hpar. unfold fixDocument. rewrite (buildNodeMap_single _ _ _ Htbl).
  unfold mergePhase. cbn [sortedConfigs foldl insertByIndex foldM List.find snd fst].
  rewrite bool_decide_eq_true_2 by done. rewrite Hpar.
  destruct (mergeNext (options conf)).
  - destruct (mergeWithNext (nid T) doc) as [doc1|e]; [|done]. cbn [mbind result_bind foldM].
    by destruct (styleTable _ _).
  - cbn [mbind result_bind foldM]. by destruct (styleTable _ _).
Qed.

End StyleProps.

(** ** The gap between two tables *)

Module GapProps.
Import Mod4 DOMFacts AnalyzerProps StyleProps.
Local Arguments ids : simpl never.



Section Gap.
Context (c : ctx) (p : nodeId) (nm : string) (a : list (string * string)).
Context (pre : list node) (T : node) (gaps : list node) (T' : node) (post : list node).
Let doc := plug c (Elem p nm a (pre ++ T :: gaps ++ T' :: post)).
Context (Hnd : NoDup (ids doc)).
Context (HT' : isTable T') (Hgaps : Forall emptyParagraph gaps).

End Gap.


(** The documents that come out: the margins are set in the first table,
    and one paragraph separates it from the second. *)
Example fixDocument_gap_0 :
  fixDocument [Examples.only 0 Examples.spacingOnly] (Examples.gapDocument 0)
  = Ok (Examples.document
          [ Elem 10 "w:tbl" []
              [ Elem 91 "w:tblPr" []
                  [ Elem 92 "w:tblCellMar" []
                      [ Elem 93 "w:top" [("w:w", "50"); ("w:type", "dxa")] [];
                        Elem 94 "w:bottom" [("w:w", "50"); ("w:type", "dxa")] [];
                        Elem 95 "w:left" [("w:w", "100"); ("w:type", "dxa")] [];
                        Elem 96 "w:right" [("w:w", "100"); ("w:type", "dxa")] [] ] ];
                Examples.row 11 (js "a"); Examples.row 21 (js "b") ];
            Elem 97 "w:p" [] [];
            Examples.tableB; Examples.sectPr ]).
Proof. vm_compute. reflexivity. Qed.

End GapProps.

(** ** The Merge Engine *)

Module MergeProps.
Import Mod4 DOMFacts AnalyzerProps StyleProps.
Local Arguments ids : simpl never.

Lemma scanToTable_gap gaps T' post :
  Forall (λ g, named "w:tbl" g = false) gaps → isTable T' →
  scanToTable (gaps ++ T' :: post) = (gaps, Some T').
Proof.
  intros Hg HT'. induction Hg as [|g gaps Hp _ IH]; cbn [scanToTable app].
  - unfold isTable in HT'. by rewrite HT'.
  - by rewrite Hp, IH.
Qed.

Lemma perm_shuffle {A} (l m k r : list A) : l ++ m ++ k ++ r ≡ₚ (l ++ k) ++ m ++ r.
Proof.
  rewrite <- app_assoc. apply Permutation_app_head.
  rewrite !app_assoc. apply Permutation_app_tail, Permutation_app_comm.
Qed.

Lemma sig_perm_ids' l n n' : sig n ++ sig n' ≡ₚ sig l → ids n ++ ids n' ≡ₚ ids l.
Proof. rewrite !ids_sig, <- fmap_app. by intros ->. Qed.

Lemma filter_nil_not_elem_of' {A} (P : A → Prop) `{∀ x, Decision (P x)} (l : list A) :
  (∀ x, x ∈ l → ¬ P x) → filter P l = [].
Proof.
  induction l as [|x l IH]; [done|]. intros Hl.
  rewrite filter_cons_False; [apply IH|]; intros; apply Hl; by (left || right).
Qed.

Section TwoChildren.
Context (c : ctx) (p : nodeId) (nm : string) (a : list (string * string)).
Context (pre mid post : list node).
Local Abbreviation two := (Paths.two c p nm a pre mid post).
Local Abbreviation ctxX := (Paths.ctxX c p nm a pre mid post).
Local Abbreviation ctxY := (Paths.ctxY c p nm a pre mid post).
Local Abbreviation moving := (Paths.moving c p nm a pre mid post).


Lemma two_X X Y : two X Y = plug (ctxX Y) X.
Proof. unfold Paths.two, Paths.ctxX. by rewrite plug_app. Qed.

Lemma two_Y X Y : two X Y = plug (ctxY X) Y.
Proof.
unfold Paths.two, Paths.ctxY. rewrite plug_app. cbn [plug fid fname fattrs fleft fright].
by rewrite <- app_assoc.
Qed.

Lemma two_sig_perm X Y X' Y' :
sig X' ++ sig Y' ≡ₚ sig X ++ sig Y → sig (two X' Y') ≡ₚ sig (two X Y).
Proof.
intros H. unfold Paths.two. rewrite !sig_plug. apply Permutation_app_head.
rewrite !sig_Elem. apply perm_skip. rewrite !flat_map_app. cbn [flat_map].
rewrite !flat_map_app. cbn [flat_map]. apply Permutation_app_head.
rewrite !(perm_shuffle (sig _)). by rewrite H.
Qed.

Lemma two_disjoint X Y i :
NoDup (ids (two X Y)) → i ∈ ids X → i ∉ ids Y.
Proof.
intros Hnd Hi. rewrite two_X in Hnd. apply NoDup_plug in Hnd as (Hc & Hd & _).
intros HiY. apply (Hd i Hi). unfold Paths.ctxX.
clear Hc Hd. induction c as [|F c' IH]; cbn [app ctxIds fid fleft fright].
- right. rewrite !elem_of_app. right. left. rewrite flat_map_app. cbn [flat_map].
  rewrite !elem_of_app. auto.
- right. rewrite !elem_of_app. right. right. apply IH.
Qed.

Lemma move_from_Y t tn ta tk Y r :
NoDup (ids (two (Elem t tn ta tk) Y)) → r ∈ ids Y → r ≠ nid Y →
∃ Y' sub,
  appendChild t r (two (Elem t tn ta tk) Y) = Ok (two (Elem t tn ta (tk ++ [sub])) Y')
  ∧ sig Y' ++ sig sub ≡ₚ sig Y ∧ tag Y' = tag Y ∧ nid sub = r.
Proof.
intros Hnd Hr Hne. set (X := Elem t tn ta tk) in *.
assert (HndY : NoDup (ids Y)).
{ rewrite two_Y in Hnd. by apply NoDup_plug in Hnd as (_&_&?). }
destruct (strictly_inside_inv Y r HndY Hr Hne)
  as (cy & j & nm' & a' & l & sub & r' & -> & Hsub).
exists (plug cy (Elem j nm' a' (l ++ r'))), sub.
assert (Hdoc : two X (plug cy (Elem j nm' a' (l ++ sub :: r')))
               = plug (ctxY X ++ cy) (Elem j nm' a' (l ++ sub :: r'))).
{ by rewrite two_Y, plug_app. }
assert (Hdoc' : two X (plug cy (Elem j nm' a' (l ++ r')))
               = plug (ctxY X ++ cy) (Elem j nm' a' (l ++ r'))).
{ by rewrite two_Y, plug_app. }
assert (Hnd' : NoDup (ids (two X (plug cy (Elem j nm' a' (l ++ r')))))).
{ rewrite Hdoc'. rewrite Hdoc in Hnd. by apply NoDup_without_child in Hnd. }
split; [|split; [|split]]; [| |by apply tag_plug|done].
- unfold appendChild.
  assert (Hlk : lookup r (two X (plug cy (Elem j nm' a' (l ++ sub :: r')))) = Some sub).
  { rewrite Hdoc, <- Hsub.
    change (Elem j nm' a' (l ++ sub :: r')) with (plug [Frame j nm' a' l r'] sub).
    rewrite <- plug_app. apply plug_lookup_self.
    rewrite plug_app. cbn [plug fid fname fattrs fleft fright]. by rewrite <- Hdoc. }
  rewrite Hlk. rewrite bool_decide_eq_false_2.
  + f_equal. rewrite <- Hsub. rewrite Hdoc, focus_detach by (by rewrite <- Hdoc).
    rewrite <- Hdoc'. unfold appendNew, updateChildren.
    rewrite two_X. change t with (nid X).
    rewrite plug_updateAt_self by (by rewrite <- two_X). by rewrite <- two_X.
  + intros Ht. apply (two_disjoint X _ t Hnd); [apply (nid_in_ids X)|].
    apply plug_in_ids. rewrite ids_frame. right. rewrite !elem_of_app. auto.
- rewrite !sig_plug, !sig_Elem, !flat_map_app. cbn [flat_map].
  rewrite <- !app_assoc. apply Permutation_app_head.
  rewrite <- !app_comm_cons. apply perm_skip.
  rewrite <- !app_assoc. apply Permutation_app_head. apply Permutation_app_comm.
Qed.

Lemma root_notin_child cx j nm' a' l sub r' :
NoDup (ids (plug cx (Elem j nm' a' (l ++ sub :: r')))) →
nid (plug cx (Elem j nm' a' (l ++ sub :: r'))) ∉ ids sub.
Proof.
destruct cx as [|F cx]; cbn [plug nid].
- intros [_ H]%NoDup_frame Hin. by destruct (H j Hin) as (?&_).
- intros [_ H]%NoDup_frame Hin.
  destruct (H (fid F)) as (?&_); [|done].
  apply plug_in_ids. rewrite ids_frame. right. rewrite !elem_of_app. auto.
Qed.

Lemma move_from_X t tn ta tk Y r :
NoDup (ids (two (Elem t tn ta tk) Y)) → r ∈ ids (Elem t tn ta tk) → r ≠ t →
∃ tk1 sub,
  appendChild t r (two (Elem t tn ta tk) Y) = Ok (two (Elem t tn ta (tk1 ++ [sub])) Y)
  ∧ sig (Elem t tn ta tk1) ++ sig sub ≡ₚ sig (Elem t tn ta tk) ∧ nid sub = r.
Proof.
intros Hnd Hr Hne. set (X := Elem t tn ta tk) in *.
assert (HndX : NoDup (ids X)).
{ rewrite two_X in Hnd. by apply NoDup_plug in Hnd as (_&_&?). }
destruct (strictly_inside_inv X r HndX Hr Hne)
  as (cx & j & nm' & a' & l & sub & r' & HX & Hsub).
set (X1 := plug cx (Elem j nm' a' (l ++ r'))).
assert (HX1 : ∃ tk1, X1 = Elem t tn ta tk1).
{ unfold X1. destruct cx as [|F cx]; cbn [plug] in *.
  - injection HX as -> -> -> _. eauto.
  - injection HX as -> -> -> _. eauto. }
destruct HX1 as (tk1 & HX1). exists tk1, sub.
assert (Hdoc : two X Y = plug (ctxX Y ++ cx) (Elem j nm' a' (l ++ sub :: r'))).
{ by rewrite two_X, plug_app, <- HX. }
assert (Hdoc' : two X1 Y = plug (ctxX Y ++ cx) (Elem j nm' a' (l ++ r'))).
{ by rewrite two_X, plug_app. }
assert (Hnd' : NoDup (ids (two X1 Y))).
{ rewrite Hdoc'. rewrite Hdoc in Hnd. by apply NoDup_without_child in Hnd. }
split; [|split]; [| |done].
- unfold appendChild.
  assert (Hlk : lookup r (two X Y) = Some sub).
  { rewrite Hdoc, <- Hsub.
    change (Elem j nm' a' (l ++ sub :: r')) with (plug [Frame j nm' a' l r'] sub).
    rewrite <- plug_app. apply plug_lookup_self.
    rewrite plug_app. cbn [plug fid fname fattrs fleft fright]. by rewrite <- Hdoc. }
  rewrite Hlk. rewrite bool_decide_eq_false_2.
  + f_equal. rewrite <- Hsub. rewrite Hdoc, focus_detach by (by rewrite <- Hdoc).
    rewrite <- Hdoc'. unfold appendNew, updateChildren.
    rewrite two_X. rewrite HX1 in *. change t with (nid (Elem t tn ta tk1)) at 1.
    rewrite plug_updateAt_self by (by rewrite <- two_X). by rewrite <- two_X.
  + change t with (nid X). rewrite HX in HndX |- *. by apply root_notin_child.
- rewrite <- HX1. unfold X1. rewrite HX.
  rewrite !sig_plug, !sig_Elem, !flat_map_app. cbn [flat_map].
  rewrite <- !app_assoc. apply Permutation_app_head.
  rewrite <- !app_comm_cons. apply perm_skip.
  rewrite <- !app_assoc. apply Permutation_app_head. apply Permutation_app_comm.
Qed.

Lemma in_ids_sig n e : e ∈ sig n → e.1 ∈ ids n.
Proof. rewrite ids_sig. apply list_elem_of_fmap_2. Qed.

Lemma sig_append t tn ta tk sub :
sig (Elem t tn ta (tk ++ [sub])) = sig (Elem t tn ta tk) ++ sig sub.
Proof.
rewrite !sig_Elem, flat_map_app. cbn [flat_map]. by rewrite app_nil_r.
Qed.

Lemma moving_rows t tn ta X0 Y0 rows doc :
moving t tn ta X0 Y0 (nid <$> rows) doc →
Forall (λ r, nid r ∈ ids Y0 ∧ nid r ≠ t ∧ nid r ≠ nid Y0) rows →
∃ doc', foldM (λ doc r, appendChild t (nid r) doc) doc rows = Ok doc'
        ∧ moving t tn ta X0 Y0 [] doc'.
Proof.
intros Hinv Hrows. revert doc Hinv.
induction Hrows as [|r rows (HrY & Hrt & HrY0) _ IH]; intros doc Hinv.
{ exists doc. done. }
destruct Hinv as (tk & Y & -> & Hnd & HtagY & Hsig & Htr).
cbn [foldM].
assert (HndY : NoDup (ids Y)).
{ rewrite two_Y in Hnd. by apply NoDup_plug in Hnd as (_&_&?). }
assert (Hin : nid r ∈ ids (Elem t tn ta tk) ∨ nid r ∈ ids Y).
{ apply elem_of_app. rewrite !ids_sig, <- fmap_app, Hsig, fmap_app, <- !ids_sig.
  apply elem_of_app. by right. }
destruct (decide (nid r ∈ ids Y)) as [HinY|HninY].
- destruct (move_from_Y t tn ta tk Y (nid r) Hnd HinY)
    as (Y' & sub & -> & HsigY & HtagY' & Hsub).
  { injection HtagY as -> _. done. }
  cbn [mbind result_bind]. apply IH.
  exists (tk ++ [sub]), Y'.
  assert (Hperm : sig (Elem t tn ta (tk ++ [sub])) ++ sig Y'
                  ≡ₚ sig (Elem t tn ta tk) ++ sig Y).
  { rewrite sig_append, <- HsigY, <- app_assoc.
    apply Permutation_app_head, Permutation_app_comm. }
  split; [done|]. split; [|split; [congruence|split]].
  + rewrite (sig_perm_ids _ _ (two_sig_perm _ _ _ _ Hperm)). done.
  + by rewrite Hperm.
  + intros e He Hname.
    assert (HeY : e ∈ sig Y) by (rewrite <- HsigY, elem_of_app; auto).
    pose proof (Htr e HeY Hname) as [Heq|?]%elem_of_cons; [|done].
    exfalso. apply sig_perm_ids' in HsigY.
    rewrite <- HsigY in HndY. apply NoDup_app in HndY as (_ & Hdis & _).
    apply (Hdis e.1); [by apply in_ids_sig|].
    rewrite Heq, <- Hsub. apply nid_in_ids.
- destruct Hin as [HinX|]; [|done].
  destruct (move_from_X t tn ta tk Y (nid r) Hnd HinX Hrt)
    as (tk1 & sub & -> & HsigX & Hsub).
  cbn [mbind result_bind]. apply IH.
  exists (tk1 ++ [sub]), Y.
  assert (Hperm : sig (Elem t tn ta (tk1 ++ [sub])) ++ sig Y
                  ≡ₚ sig (Elem t tn ta tk) ++ sig Y).
  { by rewrite sig_append, HsigX. }
  split; [done|]. split; [|split; [done|split]].
  + rewrite (sig_perm_ids _ _ (two_sig_perm _ _ _ _ Hperm)). done.
  + by rewrite Hperm.
  + intros e He Hname.
    pose proof (Htr e He Hname) as [Heq|?]%elem_of_cons; [|done].
    exfalso. apply HninY. rewrite <- Heq. by apply in_ids_sig.
Qed.
End TwoChildren.

Lemma filter_sig nm (l : list node) :
  filter (λ e : nodeId * string, e.2 = nm) (tag <$> l)
  = tag <$> filter (λ x, named nm x = true) l.
Proof.
  induction l as [|x l IH]; [done|]. rewrite fmap_cons.
  destruct (decide (nodeName x = nm)) as [Heq|Hne].
  - rewrite !filter_cons_True; [by rewrite fmap_cons, IH|by apply bool_decide_eq_true|done].
  - rewrite !filter_cons_False; [done| |done].
    unfold named. rewrite bool_decide_eq_false_2; done.
Qed.

Lemma rows_of_sig n :
  nodeName n ≠ "w:tr" →
  (filter (λ e : nodeId * string, e.2 = "w:tr") (sig n)).*1 = rowIds n.
Proof.
  intros Hn. rewrite sig_cons, filter_cons_False by done.
  rewrite filter_sig. unfold rowIds, getElementsByTagName.
  rewrite <- list_fmap_compose. done.
Qed.

Lemma isTable_inv T : isTable T → ∃ t ta tk, T = Elem t "w:tbl" ta tk.
Proof.
  unfold isTable, named. intros H%bool_decide_eq_true.
  destruct T as [t tn ta tk| |]; try done. simpl in H. subst. eauto.
Qed.

Section Merge.
Context (c : ctx) (p : nodeId) (nm : string) (a : list (string * string)).
Context (pre : list node) (T : node) (gaps : list node) (T' : node) (post : list node).
Let doc := plug c (Elem p nm a (pre ++ T :: gaps ++ T' :: post)).
Context (Hnd : NoDup (ids doc)).
Context (HT : isTable T) (HT' : isTable T').
Context (Hgaps : Forall (λ g, named "w:tbl" g = false) gaps).

(** Whatever lies between the two tables, as long as it is no table, the
  merge absorbs the next table: its rows go to the surviving table, and
  the nodes in between and the emptied table leave the document. *)
Lemma mergeWithNext_absorbs :
∃ Tm,
  mergeWithNext (nid T) doc = Ok (plug c (Elem p nm a (pre ++ Tm :: post)))
  ∧ nid Tm = nid T ∧ isTable Tm
  ∧ rowIds Tm ≡ₚ rowIds T ++ rowIds T'
  ∧ NoDup (ids (plug c (Elem p nm a (pre ++ Tm :: post))))
  ∧ (∀ i, i ∈ ids (plug c (Elem p nm a (pre ++ Tm :: post))) → i ∈ ids doc).
Proof.
destruct (isTable_inv T HT) as (t & ta & tk & ->).
destruct (isTable_inv T' HT') as (t' & ta' & tk' & ->).
set (T := Elem t "w:tbl" ta tk) in *. set (T' := Elem t' "w:tbl" ta' tk') in *.
change (nid T) with t.
unfold mergeWithNext. unfold doc at 1. change t with (nid T) at 1.
rewrite focus_nextSiblings by done. rewrite scanToTable_gap by done.
fold doc. change doc with (two c p nm a pre gaps post T T') in *.
assert (HndT' : NoDup (ids T')).
{ rewrite two_Y in Hnd. by apply NoDup_plug in Hnd as (_&_&?). }
destruct (moving_rows c p nm a pre gaps post t "w:tbl" ta T T'
            (getElementsByTagName "w:tr" T') (two c p nm a pre gaps post T T'))
  as (doc1 & -> & (tk1 & Y & -> & Hnd1 & HtagY & Hsig & Htr)).
{ exists tk, T'. repeat split; try done.
  intros e [x [-> Hx]]%list_elem_of_fmap Hname.
  apply list_elem_of_fmap. exists x. split; [done|].
  apply list_elem_of_filter. split; [by apply bool_decide_eq_true|].
  rewrite subtrees_cons in Hx. apply elem_of_cons in Hx as [->|Hx]; [done|done]. }
{ apply Forall_forall. intros r [Hr Hd]%list_elem_of_filter.
  assert (HrT' : nid r ∈ ids T').
  { unfold ids. apply list_elem_of_fmap_2. by apply descendants_subtrees. }
  split; [done|]. split.
  - intros Heq. apply (two_disjoint c p nm a pre gaps post T T' t Hnd); [|by rewrite <- Heq].
    apply (nid_in_ids T).
  - unfold ids in HndT'. rewrite subtrees_cons, fmap_cons in HndT'.
    apply NoDup_cons in HndT' as [Hn _]. intros Heq. apply Hn.
    rewrite <- Heq. by apply list_elem_of_fmap_2. }
cbn [mbind result_bind].
assert (Hnd2 : NoDup (ids (plug c (Elem p nm a (pre ++ Elem t "w:tbl" ta tk1 :: Y :: post))))).
{ change (pre ++ Elem t "w:tbl" ta tk1 :: Y :: post)
    with (pre ++ [Elem t "w:tbl" ta tk1] ++ Y :: post).
  rewrite app_assoc.
  apply (NoDup_sub_gaps c p nm a (pre ++ [Elem t "w:tbl" ta tk1]) gaps (Y :: post)).
  rewrite <- app_assoc. exact Hnd1. }
assert (Hnd3 : NoDup (ids (plug c (Elem p nm a (pre ++ Elem t "w:tbl" ta tk1 :: post))))).
{ change (pre ++ Elem t "w:tbl" ta tk1 :: Y :: post)
    with (pre ++ [Elem t "w:tbl" ta tk1] ++ Y :: post) in Hnd2.
  rewrite app_assoc in Hnd2. apply NoDup_without_child in Hnd2.
  by rewrite <- app_assoc in Hnd2. }
exists (Elem t "w:tbl" ta tk1). split; [|split; [done|split; [done|split; [|split; [done|]]]]].
3: { intros i Hi.
     assert (Hi1 : i ∈ ids (two c p nm a pre gaps post (Elem t "w:tbl" ta tk1) Y)).
     { unfold two. revert Hi. rewrite !ids_plug, !elem_of_app, !ids_Elem, !elem_of_cons.
       rewrite !flat_map_app. cbn [flat_map]. rewrite !flat_map_app. cbn [flat_map].
       rewrite !elem_of_app. tauto. }
     assert (Hp : ids (two c p nm a pre gaps post (Elem t "w:tbl" ta tk1) Y)
                  ≡ₚ ids (two c p nm a pre gaps post T T')).
     { apply sig_perm_ids, two_sig_perm. by rewrite Hsig. }
     by rewrite <- Hp. }
- f_equal. unfold Paths.two.
  change (pre ++ Elem t "w:tbl" ta tk1 :: gaps ++ Y :: post)
    with (pre ++ [Elem t "w:tbl" ta tk1] ++ gaps ++ Y :: post).
  rewrite app_assoc. rewrite detach_all.
  + replace (nid T') with (nid Y) by (by injection HtagY).
    rewrite focus_detach; [by rewrite <- app_assoc|].
    apply (NoDup_sub_gaps c p nm a (pre ++ [Elem t "w:tbl" ta tk1]) gaps (Y :: post)).
    rewrite <- app_assoc. exact Hnd1.
  + rewrite <- app_assoc. exact Hnd1.
- assert (HY : filter (λ e : nodeId * string, e.2 = "w:tr") (sig Y) = []).
  { apply filter_nil_not_elem_of'. intros e He Hname.
    by apply (elem_of_nil e.1), Htr. }
  rewrite <- !rows_of_sig by done.
  rewrite <- fmap_app, <- filter_app, <- Hsig, filter_app, HY, app_nil_r. done.
Qed.
End Merge.

Lemma emptyParagraph_no_table g : emptyParagraph g → named "w:tbl" g = false.
Proof. intros [Hp _]. by apply (named_ne "w:p"). Qed.

(** MODULE_4_FIX with [mergeNext] as the only option of the only table
    configured: the merge, and nothing but a [w:tblPr] for the table if it
    has none. *)
Lemma fixDocument_merge c p nm a pre T gaps T' post conf :
  let doc := plug c (Elem p nm a (pre ++ T :: gaps ++ T' :: post)) in
  NoDup (ids doc) → isTable T → isTable T' →
  Forall (λ g, named "w:tbl" g = false) gaps →
  getElementsByTagName "w:tbl" doc !! index conf = Some T →
  options conf = Examples.mergeOnly →
  ∃ Tm,
    fixDocument [conf] doc = Ok (plug c (Elem p nm a (pre ++ Tm :: post)))
    ∧ nid Tm = nid T ∧ isTable Tm
    ∧ rowIds Tm ≡ₚ rowIds T ++ rowIds T'.
Proof.
  intros doc Hnd HT HT' Hgaps Hidx Hopt.
  assert (Hpar : parentOf (nid T) doc = Some (Elem p nm a (pre ++ T :: gaps ++ T' :: post)))
    by apply (focus_parentOf c p nm a pre T _ Hnd).
  rewrite (fixDocument_single doc conf T _ Hidx Hpar).
  rewrite Hopt. cbn [mergeNext Examples.mergeOnly].
  destruct (mergeWithNext_absorbs c p nm a pre T gaps T' post Hnd HT HT' Hgaps)
    as (Tm & Hm & Hid & HTm & Hrows & Hnd1 & Hsub).
  fold doc in Hm, Hsub. rewrite Hm. cbn [mbind result_bind].
  unfold styleTable. cbn [root]. rewrite <- Hid.
  rewrite (focus_parentOf c p nm a pre Tm post Hnd1).
  set (c' := c ++ [Frame p nm a pre post]).
  assert (Hdoc1 : plug c (Elem p nm a (pre ++ Tm :: post)) = plug c' Tm).
  { unfold c'. by rewrite plug_app. }
  rewrite Hdoc1 in *.
  destruct (ensureTblPr_table c' Tm (Dom (plug c' Tm) (fresh (mkDom doc))) HTm Hnd1 eq_refl)
    as (tblPr & T2 & d' & -> & Hroot' & Htag3 & Htr).
  rewrite Hopt. cbn [fixBorders autofit fixSpacing fixAlign Examples.mergeOnly
                     mbind result_bind].
  exists T2. rewrite Hroot'. split; [unfold c'; by rewrite plug_app|].
  split; [unfold tag in Htag3; congruence|]. split.
  - apply (tag_isTable T2 (nid Tm)). rewrite Htag3. by apply isTable_tag.
  - unfold rowIds at 1. rewrite Htr. exact Hrows.
Qed.

(** MODULE_4_FIX with [mergeNext] among the options of the only table
    configured, if it does not throw: what stood between the two tables,
    and the second table, are gone. *)
Lemma fixDocument_merge_shape c p nm a pre T gaps T' post conf res :
  let doc := plug c (Elem p nm a (pre ++ T :: gaps ++ T' :: post)) in
  NoDup (ids doc) → isTable T → isTable T' →
  Forall (λ g, named "w:tbl" g = false) gaps →
  getElementsByTagName "w:tbl" doc !! index conf = Some T →
  mergeNext (options conf) = true →
  fixDocument [conf] doc = Ok res →
  ∃ Tm, res = plug c (Elem p nm a (pre ++ Tm :: post)) ∧ nid Tm = nid T.
Proof.
  intros doc Hnd HT HT' Hgaps Hidx Hmg.
  assert (Hpar : parentOf (nid T) doc = Some (Elem p nm a (pre ++ T :: gaps ++ T' :: post)))
    by apply (focus_parentOf c p nm a pre T _ Hnd).
  rewrite (fixDocument_single doc conf T _ Hidx Hpar), Hmg.
  destruct (mergeWithNext_absorbs c p nm a pre T gaps T' post Hnd HT HT' Hgaps)
    as (Tm & Hm & Hid & HTm & _ & Hnd1 & Hsub).
  fold doc in Hm, Hsub. rewrite Hm. cbn [mbind result_bind].
  set (c' := c ++ [Frame p nm a pre post]).
  assert (Hdoc1 : plug c (Elem p nm a (pre ++ Tm :: post)) = plug c' Tm)
    by (unfold c'; by rewrite plug_app).
  rewrite Hdoc1 in *.
  assert (Hb : below (fresh (mkDom doc)) (plug c' Tm)).
  { intros i Hi. by apply below_mkDom, Hsub. }
  assert (Hw : within c' (tag Tm) (Dom (plug c' Tm) (fresh (mkDom doc)))) by (by exists Tm).
  assert (Hnode : known c' (Dom (plug c' Tm) (fresh (mkDom doc))) (nid T)).
  { rewrite <- Hid. split; [apply Hb, plug_in_ids, nid_in_ids|].
    right. exists "w:tbl". split; [done|]. exists Tm. split; [done|].
    rewrite <- isTable_tag by done. apply sig_self. }
  destruct (styleTable _ (nid T, conf)) as [d2|] eqn:Hst; [|done].
  cbn [mbind result_bind]. intros [= <-].
  destruct (styleTable_inside c' (tag Tm) _ (nid T) conf d2 Hw Hnode (or_intror Hmg) Hst)
    as ((T3 & Hr3 & Ht3 & _) & _).
  exists T3. split; [unfold c' in Hr3; by rewrite Hr3, plug_app|].
  unfold tag in Ht3. congruence.
Qed.

(** C1: the merge of MODULE_4_FIX does not look at what stands between the
    table and the next table among its following siblings.  Whatever these
    nodes are, paragraphs with text included, when [mergeNext] is set for
    the table they are removed and so is the next table, whose rows go to
    the table: the document does not stay as it was. *)
Theorem merge_ignores_intervening_content c p nm a pre T gaps T' post conf :
  let doc := plug c (Elem p nm a (pre ++ T :: gaps ++ T' :: post)) in
  NoDup (ids doc) → isTable T → isTable T' →
  Forall (λ g, named "w:tbl" g = false) gaps →
  getElementsByTagName "w:tbl" doc !! index conf = Some T →
  mergeNext (options conf) = true →
  (∀ res,
     fixDocument [conf] doc = Ok res →
     (∃ Tm, res = plug c (Elem p nm a (pre ++ Tm :: post)) ∧ nid Tm = nid T)
     ∧ res ≠ doc)
  ∧ (options conf = Examples.mergeOnly →
     ∃ Tm,
       fixDocument [conf] doc = Ok (plug c (Elem p nm a (pre ++ Tm :: post)))
       ∧ nid Tm = nid T
       ∧ rowIds Tm ≡ₚ rowIds T ++ rowIds T').
Proof.
  intros doc Hnd HT HT' Hgaps Hidx Hmg. split.
  - intros res Hres.
    destruct (fixDocument_merge_shape c p nm a pre T gaps T' post conf res
                Hnd HT HT' Hgaps Hidx Hmg Hres) as (Tm & -> & Hid).
    split; [by exists Tm|]. unfold doc. intros Heq.
    apply plug_inj in Heq. injection Heq as Heq. apply (f_equal length) in Heq.
    rewrite !length_app in Heq. cbn [length] in Heq. rewrite length_app in Heq.
    cbn [length] in Heq. lia.
  - intros Hopt.
    destruct (fixDocument_merge c p nm a pre T gaps T' post conf Hnd HT HT' Hgaps Hidx Hopt)
      as (Tm & Hm & Hid & HTm & Hrows).
    by exists Tm.
Qed.

Lemma merge_ignores_intervening_content_witness :
  trim (textContent (Examples.paragraph 30 (js "Ghi chú"))) = js "Ghi chú"
  ∧ ∃ Tm,
      fixDocument [Examples.only 0 Examples.mergeOnly] Examples.textBetween
      = Ok (Examples.document [Tm; Examples.sectPr])
      ∧ nid Tm = 10
      ∧ rowIds Tm ≡ₚ [11; 21] ++ [42; 52; 62].
Proof.
  split; [vm_compute; reflexivity|].
  apply (proj2 (merge_ignores_intervening_content Examples.toBody 2 "w:body" [] []
                  Examples.tableA [Examples.paragraph 30 (js "Ghi chú")] Examples.tableB
                  [Examples.sectPr] (Examples.only 0 Examples.mergeOnly)
                  ltac:(by_evaluation) eq_refl eq_refl ltac:(by_evaluation)
                  ltac:(vm_compute; reflexivity) eq_refl)).
  reflexivity.
Defined.

(** The document that comes out: the text between the two tables is
    lost. *)
Example fixDocument_textBetween :
  fixDocument [Examples.only 0 Examples.mergeOnly] Examples.textBetween
  = Ok (Examples.document
          [ Elem 10 "w:tbl" []
              [ Elem 91 "w:tblPr" [] [];
                Examples.row 11 (js "a"); Examples.row 21 (js "b");
                Examples.row 42 (js "c"); Examples.row 52 (js "d"); Examples.row 62 (js "e") ];
            Examples.sectPr ]).
Proof. vm_compute. reflexivity. Qed.

End MergeProps.

(** ** MODULE_4_FIX as a whole *)

Module FixProps.
Import Mod4 DOMFacts StyleProps Examples.
Local Arguments ids : simpl never.

Lemma mergePhase_no_tables config doc : mergePhase [] config doc = Ok doc.
Proof.
  unfold mergePhase. induction (sortedConfigs config) as [|conf l IH]; [done|].
  cbn [foldM List.find mbind result_bind]. exact IH.
Qed.

Lemma fixDocument_no_tables config doc :
  getElementsByTagName "w:tbl" doc = [] → fixDocument config doc = Ok doc.
Proof.
  intros H. unfold fixDocument. rewrite H. cbn [buildNodeMap imap omap].
  rewrite mergePhase_no_tables. done.
Qed.

(** C8, as the spec words it, fails: a package without [word/document.xml]
    is transformed without error, and the output package holds, as its main
    document part, the serialized error document of the parser. *)
Lemma fix_without_document_part_succeeds :
  module4_fix parseOrError serialize (Some noDocumentFile) (Some [only 0 mergeOnly])
  = Ok (<[documentPath := js "<parsererror>error on line 1</parsererror>"]>
          (parts noDocumentFile),
        js "bao cao_fixed.docx").
Proof. vm_compute. reflexivity. Qed.

(** C8, amended: when the package has no [word/document.xml], MODULE_4_FIX
    parses the empty text instead; the document the parser answers with
    holds no table, so nothing is merged or styled, and the action returns
    the package with that document, serialized, as its main document part,
    under the name of the input file with [_fixed.docx] in the place of its
    extension. *)
Theorem fix_without_document_part
    (parseFromString : jsstring → node) (serializeToString : node → jsstring)
    (file : File) (config : list Mod4TableInfo) :
  parts file !! documentPath = None →
  getElementsByTagName "w:tbl" (parseFromString []) = [] →
  module4_fix parseFromString serializeToString (Some file) (Some config)
  = Ok (<[documentPath := serializeToString (parseFromString [])]> (parts file),
        baseName (name file) (js "doc") ++ js "_fixed.docx").
Proof.
  intros Hpart Htbl. unfold module4_fix. cbv zeta. unfold jsstring in *.
  rewrite Hpart. cbn [default].
  by rewrite fixDocument_no_tables.
Qed.

Lemma fix_without_document_part_witness :
  module4_fix parseOrError serialize (Some noDocumentFile) (Some [only 0 bordersOnly])
  = Ok (<[documentPath := serialize errorDocument]> (parts noDocumentFile),
        baseName (js "bao cao.docx") (js "doc") ++ js "_fixed.docx").
Proof.
  apply (fix_without_document_part parseOrError serialize noDocumentFile [only 0 bordersOnly]).
  - vm_compute. reflexivity.
  - vm_compute. reflexivity.
Defined.

(** *** [fixBorders] *)

Lemma no_descendant_named nm (l : list node) :
  filter (λ x, named nm x = true) (flat_map subtrees l) = [] →
  ∀ b r i tn ta, named nm b = true →
    first nm (Elem i tn ta (l ++ b :: r)) = Some b.
Proof.
  intros Hl b r i tn ta Hb. unfold first, getElementsByTagName, descendants.
  cbn [subtrees tail]. rewrite flat_map_app, filter_app, Hl. cbn [app flat_map].
  rewrite (subtrees_cons b). cbn [app]. by rewrite filter_cons_True.
Qed.

Section Borders.
Context (c : ctx) (t : nodeId) (tn : string) (ta : list (string * string)).
Context (l : list node) (b : node) (r : list node) (fr : nodeId).
Let doc := plug c (Elem t tn ta (l ++ b :: r)).
Context (Hnd : NoDup (ids doc)) (Hfr : below fr doc).
Context (Hl : filter (λ x, named "w:tblBorders" x = true) (flat_map subtrees l) = []).
Context (Hb : named "w:tblBorders" b = true).

(** When the first [w:tblBorders] below [w:tblPr] is one of its children,
  it gives way to the new borders, which come last. *)
Lemma fixBorders_replaces :
fixBordersStage t (Dom doc fr)
= Ok (Dom (plug c (Elem t tn ta ((l ++ r) ++ [newBorders fr]))) (fr + 7))
∧ NoDup (ids (plug c (Elem t tn ta ((l ++ r) ++ [newBorders fr]))))
∧ below (fr + 7) (plug c (Elem t tn ta ((l ++ r) ++ [newBorders fr]))).
Proof.
assert (Hnd' : NoDup (ids (plug c (Elem t tn ta (l ++ r))))).
{ by apply (NoDup_without_child c t tn ta l b r). }
assert (Hsub : ∀ i, i ∈ ids (plug c (Elem t tn ta (l ++ r))) → i < fr).
{ intros i Hi. apply Hfr. unfold doc. apply in_ids_insert. by right. }
split; [|split].
- unfold fixBordersStage, removeFirst. cbn [root fresh].
  assert (Hlk : lookup t doc = Some (Elem t tn ta (l ++ b :: r)))
    by apply (plug_lookup_self c (Elem t tn ta (l ++ b :: r)) Hnd).
  rewrite Hlk. unfold doc. cbn [mbind option_bind]. rewrite (no_descendant_named _ l Hl b r t tn ta Hb).
  unfold removeChild. rewrite focus_parentOf by done. cbn [nid].
  rewrite bool_decide_eq_true_2 by done. rewrite focus_updateChildren by done.
  destruct (NoDup_children _ _ _ _ _ _ (focus_NoDup c t tn ta l b r Hnd)) as (_ & Hbl & Hbr).
  rewrite without_here by done. cbn [mbind result_bind root fresh].
  unfold appendNew, updateChildren.
  assert (Hup : ∀ f, updateAt t f (plug c (Elem t tn ta (l ++ r)))
                     = plug c (f (Elem t tn ta (l ++ r))))
    by (intros f; apply (plug_updateAt_self c (Elem t tn ta (l ++ r)) f Hnd')).
  rewrite Hup. cbn [withChildren].
  do 2 f_equal. cbn [sides length]. lia.
- apply NoDup_append; [done| |].
  + rewrite ids_newBorders. apply NoDup_seq.
  + intros i Hi Hd. apply Hsub in Hd.
    rewrite ids_newBorders in Hi. apply elem_of_seq in Hi. lia.
- intros i [Hi|Hi]%in_ids_append.
  + apply Hsub in Hi. lia.
  + rewrite ids_newBorders in Hi. apply elem_of_seq in Hi. lia.
Qed.

End Borders.

(** When no [w:tblBorders] lies below [w:tblPr], the new borders are added
    as its last child. *)
Lemma fixBorders_adds c t tn ta ks fr :
  let doc := plug c (Elem t tn ta ks) in
  NoDup (ids doc) → below fr doc →
  filter (λ x, named "w:tblBorders" x = true) (flat_map subtrees ks) = [] →
  fixBordersStage t (Dom doc fr)
  = Ok (Dom (plug c (Elem t tn ta (ks ++ [newBorders fr]))) (fr + 7))
  ∧ NoDup (ids (plug c (Elem t tn ta (ks ++ [newBorders fr]))))
  ∧ below (fr + 7) (plug c (Elem t tn ta (ks ++ [newBorders fr]))).
Proof.
  intros doc Hnd Hfr Hks. split; [|split].
  - unfold fixBordersStage, removeFirst. cbn [root fresh].
    assert (Hlk : lookup t doc = Some (Elem t tn ta ks))
      by apply (plug_lookup_self c (Elem t tn ta ks) Hnd).
    rewrite Hlk. cbn [mbind option_bind].
    unfold first, getElementsByTagName, descendants. cbn [subtrees tail]. rewrite Hks.
    cbn [head mbind result_bind root fresh]. unfold appendNew, updateChildren.
    assert (Hup : ∀ f, updateAt t f doc = plug c (f (Elem t tn ta ks)))
      by (intros f; apply (plug_updateAt_self c (Elem t tn ta ks) f Hnd)).
    rewrite Hup. cbn [withChildren]. do 2 f_equal. cbn [sides length]. lia.
  - apply NoDup_append; [done| |].
    + rewrite ids_newBorders. apply NoDup_seq.
    + intros i Hi Hd. apply Hfr in Hd.
      rewrite ids_newBorders in Hi. apply elem_of_seq in Hi. lia.
  - intros i [Hi|Hi]%in_ids_append.
    + apply Hfr in Hi. lia.
    + rewrite ids_newBorders in Hi. apply elem_of_seq in Hi. lia.
Qed.

(** Then a second [fixBorders] gives the same children again, the borders
    being new ones once more: the repair is idempotent, up to the identity
    of the nodes it creates, as long as no other [w:tblBorders] lies below
    [w:tblPr]. *)
Lemma fixBorders_idempotent c t tn ta l b r fr :
  let doc := plug c (Elem t tn ta (l ++ b :: r)) in
  NoDup (ids doc) → below fr doc →
  filter (λ x, named "w:tblBorders" x = true) (flat_map subtrees (l ++ r)) = [] →
  named "w:tblBorders" b = true →
  ∃ d1 d2,
    fixBordersStage t (Dom doc fr) = Ok d1
    ∧ fixBordersStage t d1 = Ok d2
    ∧ root d1 = plug c (Elem t tn ta ((l ++ r) ++ [newBorders fr]))
    ∧ root d2 = plug c (Elem t tn ta ((l ++ r) ++ [newBorders (fr + 7)])).
Proof.
  intros doc Hnd Hfr Hlr Hb.
  assert (Hl : filter (λ x, named "w:tblBorders" x = true) (flat_map subtrees l) = []).
  { rewrite flat_map_app, filter_app in Hlr. by apply app_eq_nil in Hlr as [? _]. }
  destruct (fixBorders_replaces c t tn ta l b r fr Hnd Hfr Hl Hb) as (Hone & Hnd1 & Hfr1).
  destruct (fixBorders_replaces c t tn ta (l ++ r) (newBorders fr) [] (fr + 7)
              Hnd1 Hfr1 Hlr eq_refl) as (Htwo & _ & _).
  rewrite app_nil_r in Htwo.
  eexists _, _. split; [exact Hone|]. split; [exact Htwo|]. split; reflexivity.
Qed.

Lemma fixBorders_idempotent_from_none c t tn ta ks fr :
  let doc := plug c (Elem t tn ta ks) in
  NoDup (ids doc) → below fr doc →
  filter (λ x, named "w:tblBorders" x = true) (flat_map subtrees ks) = [] →
  ∃ d1 d2,
    fixBordersStage t (Dom doc fr) = Ok d1
    ∧ fixBordersStage t d1 = Ok d2
    ∧ root d1 = plug c (Elem t tn ta (ks ++ [newBorders fr]))
    ∧ root d2 = plug c (Elem t tn ta (ks ++ [newBorders (fr + 7)])).
Proof.
  intros doc Hnd Hfr Hks.
  destruct (fixBorders_adds c t tn ta ks fr Hnd Hfr Hks) as (Hone & Hnd1 & Hfr1).
  destruct (fixBorders_replaces c t tn ta ks (newBorders fr) [] (fr + 7)
              Hnd1 Hfr1 Hks eq_refl) as (Htwo & _ & _).
  rewrite app_nil_r in Htwo.
  eexists _, _. split; [exact Hone|]. split; [exact Htwo|]. split; reflexivity.
Qed.


(** C9: on a table whose properties record a tracked change of its borders,
    a first [fixBorders] gives the six uniform borders, and a second one
    does not give them again: it finds the recorded borders first, which
    are no child of [w:tblPr], and the removal throws. *)
Theorem fixBorders_twice_on_tracked_table :
  fixDocument [only 0 bordersOnly] trackedDocument = Ok trackedOnce
  ∧ fixDocument [only 0 bordersOnly] trackedOnce = Throw NotFoundError.
Proof. split; vm_compute; reflexivity. Qed.

End FixProps.

(** ** The Field Filler *)

Module SmartFillProps.
Import Mod4 SmartFill DOMFacts.
Local Arguments ids : simpl never.

Lemma createRun_plain text i :
  text ≠ [] → createRun text false false i = (plainRun i text, i + 6).
Proof.
  intros H. destruct text as [|ch text]; [done|].
  unfold createRun, plainRun. cbn.
  replace (i + 4 + 0 + 0) with (i + 4) by lia.
  replace (S (i + 4)) with (i + 5) by lia. replace (S (i + 5)) with (i + 6) by lia.
  reflexivity.
Qed.

Lemma createRun_boldRed text i :
  text ≠ [] → createRun text true true i = (boldRedRun i text, i + 8).
Proof.
  intros H. destruct text as [|ch text]; [done|].
  unfold createRun, boldRedRun. cbn.
  replace (i + 4 + 1) with (i + 5) by lia. replace (i + 5 + 1) with (i + 6) by lia.
  replace (S (i + 6)) with (i + 7) by lia. replace (S (i + 7)) with (i + 8) by lia.
  reflexivity.
Qed.

Lemma ids_plainRun i text :
  ids (plainRun i text) = [i; i + 1; i + 2; i + 3; i + 4; i + 5].
Proof. reflexivity. Qed.

Lemma ids_boldRedRun i text :
  ids (boldRedRun i text) = [i; i + 1; i + 2; i + 3; i + 4; i + 5; i + 6; i + 7].
Proof. reflexivity. Qed.


Lemma js_app_ne (s : string) (t : jsstring) : js s ≠ [] → js s ++ t ≠ [].
Proof. destruct (js s); [done|]. intros _. discriminate. Qed.

Section Append.
Context (c : ctx) (p : nodeId) (nm : string) (a : list (string * string)).
Context (ks : list node) (fr : nodeId) (text : jsstring).
Let doc := plug c (Elem p nm a ks).
Context (Hnd : NoDup (ids doc)) (Hfr : ∀ i, i ∈ ids doc → i < fr) (Htext : text ≠ []).

Lemma appendRun_plain :
appendRun p text false false (Dom doc fr)
= Dom (plug c (Elem p nm a (ks ++ [plainRun fr text]))) (fr + 6)
∧ NoDup (ids (plug c (Elem p nm a (ks ++ [plainRun fr text]))))
∧ (∀ i, i ∈ ids (plug c (Elem p nm a (ks ++ [plainRun fr text]))) → i < fr + 6).
Proof.
unfold appendRun. cbn [fresh root]. rewrite createRun_plain by done.
unfold doc. rewrite appendNew_focus by done. split; [done|]. split.
- apply NoDup_append; [done| |].
  + rewrite ids_plainRun.
    repeat (apply NoDup_cons; split; [rewrite ?elem_of_cons, elem_of_nil; lia|]).
    apply NoDup_nil_2.
  + intros i Hi Hd. apply Hfr in Hd. rewrite ids_plainRun in Hi.
    rewrite !elem_of_cons, elem_of_nil in Hi. lia.
- intros i [Hi|Hi]%in_ids_append.
  + apply Hfr in Hi. lia.
  + rewrite ids_plainRun in Hi. rewrite !elem_of_cons, elem_of_nil in Hi. lia.
Qed.

Lemma appendRun_boldRed :
appendRun p text true true (Dom doc fr)
= Dom (plug c (Elem p nm a (ks ++ [boldRedRun fr text]))) (fr + 8)
∧ NoDup (ids (plug c (Elem p nm a (ks ++ [boldRedRun fr text]))))
∧ (∀ i, i ∈ ids (plug c (Elem p nm a (ks ++ [boldRedRun fr text]))) → i < fr + 8).
Proof.
unfold appendRun. cbn [fresh root]. rewrite createRun_boldRed by done.
unfold doc. rewrite appendNew_focus by done. split; [done|]. split.
- apply NoDup_append; [done| |].
  + rewrite ids_boldRedRun.
    repeat (apply NoDup_cons; split; [rewrite ?elem_of_cons, elem_of_nil; lia|]).
    apply NoDup_nil_2.
  + intros i Hi Hd. apply Hfr in Hd. rewrite ids_boldRedRun in Hi.
    rewrite !elem_of_cons, elem_of_nil in Hi. lia.
- intros i [Hi|Hi]%in_ids_append.
  + apply Hfr in Hi. lia.
  + rewrite ids_boldRedRun in Hi. rewrite !elem_of_cons, elem_of_nil in Hi. lia.
Qed.
End Append.

Section Summary.
Context {number : Type} (zero : number) (isFalsy : number → bool).
Context (toFixed1 : number → jsstring) (numberToString : number → jsstring).
Context (parseFromString : jsstring → node) (serializeToString : node → jsstring).

(** C7, amended: when the analysis holds percentages and old percentages,
  and the old ones have an entry for level [l], the summary paragraph
  receives three runs for that level: the lead "cấp độ l con đạt ", then,
  in bold and in red ([w:b] and [w:color] FF0000), the comparison, whose
  text is the old percentage, "% > ", and the new percentage followed by
  "%", and then the closing full stop, or ". Và " before another level. *)
Theorem comparison_rendered_with_gt c p nm a ks fr (result : @ESDMResult number)
  n index l ps old valOld valNew :
let doc := plug c (Elem p nm a ks) in
let key := js "level" ++ ofZ l in
NoDup (ids doc) → (∀ i, i ∈ ids doc → i < fr) →
percents result = Some ps → percentsOld result = Some old →
get old key ≠ Undefined →
toFixedComma zero isFalsy toFixed1 (get ps key) = Ok valNew →
toFixedComma zero isFalsy toFixed1 (get old key) = Ok valOld →
summaryLevel zero isFalsy toFixed1 result p n (Dom doc fr) (index, l)
= Ok (Dom (plug c (Elem p nm a
             (ks ++ [ plainRun fr (js "cấp độ " ++ ofZ l ++ js " con đạt ");
                      boldRedRun (fr + 6) (valOld ++ js "% > " ++ valNew ++ js "%");
                      plainRun (fr + 14)
                               (if bool_decide (S index < n) then js ". Và " else js ".") ])))
          (fr + 20)).
Proof.
intros doc key Hnd Hfr Hps Hold Hdef HvalNew HvalOld.
unfold summaryLevel. fold key. subst doc. rewrite Hps, Hold. cbn [from_option mbind result_bind].
rewrite HvalNew. cbn [mbind result_bind].
destruct (appendRun_plain c p nm a ks fr (js "cấp độ " ++ ofZ l ++ js " con đạt ") Hnd Hfr)
  as (-> & Hnd1 & Hfr1); [apply js_app_ne; vm_compute; discriminate|].
revert Hdef HvalOld. generalize (get old key). intros v Hdef HvalOld.
destruct (appendRun_boldRed c p nm a
            (ks ++ [plainRun fr (js "cấp độ " ++ ofZ l ++ js " con đạt ")]) (fr + 6)
            (valOld ++ js "% > " ++ valNew ++ js "%") Hnd1 Hfr1)
  as (Hrun2 & Hnd2 & Hfr2).
{ intros [_ H]%app_eq_nil.
  apply (js_app_ne "% > " (valNew ++ js "%")).
  - vm_compute. discriminate.
  - exact H. }
replace (fr + 6 + 8) with (fr + 14) in * by lia.
set (closing := if bool_decide (S index < n) then js ". Và " else js ".").
destruct (appendRun_plain c p nm a _ (fr + 14) closing Hnd2 Hfr2) as (Hrun3 & _ & _).
{ unfold closing. case_bool_decide; vm_compute; discriminate. }
replace (fr + 14 + 6) with (fr + 20) in * by lia.
destruct v; [done|..]; rewrite HvalOld; cbn [mbind result_bind]; rewrite Hrun2; f_equal.
all: transitivity (appendRun p closing false false
                     (Dom (plug c (Elem p nm a
                        ((ks ++ [plainRun fr (js "cấp độ " ++ ofZ l ++ js " con đạt ")])
                         ++ [boldRedRun (fr + 6) (valOld ++ js "% > " ++ valNew ++ js "%")])))
                        (fr + 14)));
  [unfold closing; by case_bool_decide | rewrite Hrun3; by rewrite <- !app_assoc].
Qed.

End Summary.

Import Examples FillExamples AnalyzerProps.

(** C7, as the spec words it, fails: with 25.0% before and 50.5% now at
    level 1, the filled document reads "25,0% > 50,5%", and no "=>" occurs
    in it. *)
Lemma comparison_not_rendered_with_arrow :
  match fillBody (js "<x/>") student compared [1%Z] with
  | Ok out => includes out (js "25,0% > 50,5%") && negb (includes out (js "=>"))
  | Throw _ => false
  end = true.
Proof. vm_compute. reflexivity. Qed.

Lemma comparison_rendered_with_gt_witness :
  summaryLevel 0%Z (Z.eqb 0) toFixedTenths compared 10 1 (Dom summaryDocument 100) (0, 1%Z)
  = Ok (Dom (document
               [ Elem 10 "w:p" []
                   [ Elem 11 "w:r" [] [Elem 12 "w:t" [] [Text 13 (js "Nhận định chung về kết quả: ")]];
                     plainRun 100 (js "cấp độ 1 con đạt ");
                     boldRedRun 106 (js "25,0% > 50,5%");
                     plainRun 114 (js ".") ];
                 paragraph 20 (js "Họ và tên: ...") ])
            120).
Proof.
  exact (comparison_rendered_with_gt 0%Z (Z.eqb 0) toFixedTenths
           (toBody ++ [Frame 2 "w:body" [] [] [paragraph 20 (js "Họ và tên: ...")]])
           10 "w:p" []
           [Elem 11 "w:r" [] [Elem 12 "w:t" [] [Text 13 (js "Nhận định chung về kết quả: ")]]]
           100 compared 1 0 1%Z
           {[ js "level1" := Num 505%Z ]} {[ js "level1" := Num 250%Z ]}
           (js "25,0") (js "50,5")
           ltac:(by_evaluation)
           ltac:(apply (proj1 (Forall_forall _ _)); by_evaluation)
           eq_refl eq_refl
           ltac:(vm_compute; discriminate)
           ltac:(vm_compute; reflexivity)
           ltac:(vm_compute; reflexivity)).
Defined.

End SmartFillProps.

(** ** Facts about strings *)

Module StringFacts.
Local Open Scope N_scope.

Lemma startsWith_nil s : startsWith s [] = true.
Proof. by destruct s. Qed.

Lemma includes_unit s c : includes s [c] = true ↔ c ∈ s.
Proof.
  induction s as [|x s IH].
  - cbn. split; [done|]. by intros ?%elem_of_nil.
  - cbn [includes startsWith]. rewrite startsWith_nil, andb_true_r.
    rewrite orb_true_iff, IH, elem_of_cons, N.eqb_eq. split; intros [->|?]; auto.
Qed.

Lemma includes_unit_false s c : includes s [c] = false ↔ c ∉ s.
Proof.
  rewrite <- includes_unit. by destruct (includes s [c]).
Qed.

Lemma split_unit c s : c ∉ s → split c s = [s].
Proof.
  induction s as [|x s IH]; [done|]. intros [Hx Hs]%not_elem_of_cons.
  cbn [split]. rewrite (proj2 (N.eqb_neq x c)) by done. by rewrite IH.
Qed.

Lemma split_app c a b : c ∉ a → split c (a ++ c :: b) = a :: split c b.
Proof.
  induction a as [|x a IH]; intros Ha.
  - cbn [app split]. by rewrite N.eqb_refl.
  - apply not_elem_of_cons in Ha as [Hx Ha]. cbn [app split].
    rewrite (proj2 (N.eqb_neq x c)) by done. by rewrite IH.
Qed.

Lemma lastIndexOf_none c s : c ∉ s → Mod4.lastIndexOf c s = None.
Proof.
  induction s as [|x s IH]; [done|]. intros [Hx Hs]%not_elem_of_cons.
  cbn [Mod4.lastIndexOf]. rewrite IH by done. by rewrite (proj2 (N.eqb_neq x c)).
Qed.

Lemma lastIndexOf_last c stem ext :
  c ∉ ext → Mod4.lastIndexOf c (stem ++ c :: ext) = Some (length stem).
Proof.
  intros He. induction stem as [|x stem IH].
  - cbn [app Mod4.lastIndexOf length]. rewrite lastIndexOf_none by done. by rewrite N.eqb_refl.
  - cbn [app Mod4.lastIndexOf length]. by rewrite IH.
Qed.

End StringFacts.

Module NameProps.
Import Mod4 StringFacts.
Local Open Scope N_scope.

(** X1: the base of a file name is what stands before its last dot; a name
    without a dot, or with nothing before its only dot, gets the default. *)
Theorem baseName_spec stem ext dflt :
  0x2E ∉ ext →
  baseName (stem ++ 0x2E :: ext) dflt = (if stem is [] then dflt else stem)
  ∧ baseName ext dflt = dflt.
Proof.
  intros He. unfold baseName. split.
  - rewrite lastIndexOf_last by done.
    change (default 0%nat (Some (length stem))) with (length stem).
    rewrite take_app_length. by destruct stem.
  - rewrite lastIndexOf_none by done. done.
Qed.

Lemma baseName_spec_witness :
  baseName (js "bao cao.v2.docx") (js "doc") = js "bao cao.v2"
  ∧ baseName (js "docx") (js "doc") = js "doc".
Proof.
  apply (baseName_spec (js "bao cao.v2") (js "docx") (js "doc")).
  DOMFacts.by_evaluation.
Defined.

End NameProps.

(** ** Facts about the matcher *)

Module RegexFacts.
Local Open Scope nat_scope.

Lemma clearCaps_nil s : clearCaps [] s = s.
Proof.
  destruct s as [p r c]. unfold clearCaps. cbn [pos rest caps]. f_equal.
  induction c as [|x c IH]; [done|].
  rewrite filter_cons_True; [by rewrite IH|].
  rewrite bool_decide_eq_false_2; [done|]. apply not_elem_of_nil.
Qed.

(** A pattern that starts with [^] matches at the start of the text or
    nowhere. *)
Lemma execFrom_bol r i s : i ≠ 0 → execFrom (RSeq RBol r) i s = None.
Proof.
  revert i. induction s as [|c s IH]; intros i Hi; cbn [execFrom rmatch pos].
  - by rewrite bool_decide_eq_false_2.
  - rewrite bool_decide_eq_false_2 by done. by apply IH.
Qed.

Lemma jsmatch_anchored r s :
  jsmatch s (RSeq RBol r)
  = (λ e, Match 0 (take (pos e) s) (caps e)) <$> rmatch r Some (MState 0 s []).
Proof.
  unfold jsmatch. destruct s as [|c s]; cbn [execFrom rmatch pos].
  - rewrite bool_decide_eq_true_2 by done.
    destruct (rmatch r Some (MState 0 [] [])) as [e|]; cbn; [|done].
    by rewrite Nat.sub_0_r.
  - rewrite bool_decide_eq_true_2 by done.
    destruct (rmatch r Some (MState 0 (c :: s) [])) as [e|]; cbn [fmap option_fmap option_map].
    + by rewrite Nat.sub_0_r.
    + by apply execFrom_bol.
Qed.

Lemma test_anchored r s :
  test (RSeq RBol r) s = bool_decide (is_Some (rmatch r Some (MState 0 s []))).
Proof.
  unfold test. rewrite jsmatch_anchored.
  destruct (rmatch r Some (MState 0 s [])) as [e|]; cbn [fmap option_fmap option_map].
  - symmetry. apply bool_decide_eq_true_2. eauto.
  - symmetry. apply bool_decide_eq_false_2. by intros [? ?].
Qed.

Lemma rmatch_seq r1 r2 k s : rmatch (RSeq r1 r2) k s = rmatch r1 (rmatch r2 k) s.
Proof. reflexivity. Qed.

Lemma rmatch_rep lo hi g r k s :
  rmatch (RRep lo hi g r) k s
  = repeatMatcher (rmatch r) (groupsOf r) g (S (lo + length (rest s))) lo hi k s.
Proof. reflexivity. Qed.

Lemma rmatch_group g r k s : rmatch (RGroup g r) k s = rmatch r (λ s', k (setCap g s s')) s.
Proof. reflexivity. Qed.

Lemma rmatch_eol k s : rmatch REol k s = match rest s with [] => k s | _ => None end.
Proof. reflexivity. Qed.

Lemma rmatch_empty k s : rmatch REmpty k s = k s.
Proof. reflexivity. Qed.

Lemma rmatch_char p k s :
  rmatch (RChar p) k s
  = match rest s with
    | c :: tl => if p c then k (MState (S (pos s)) tl (caps s)) else None
    | [] => None
    end.
Proof. reflexivity. Qed.

(** Exactly [n] units of a class. *)
Lemma rep_exact p greedy n :
  ∀ fuel k i r c, n < fuel →
    repeatMatcher (rmatch (RChar p)) [] greedy fuel n (Some n) k (MState i r c)
    = if bool_decide (n ≤ length r) && forallb p (take n r)
      then k (MState (i + n) (drop n r) c) else None.
Proof.
  induction n as [|n IH]; intros [|fuel] k i r c Hf; try lia.
  - cbn [repeatMatcher]. rewrite bool_decide_eq_true_2 by done.
    rewrite bool_decide_eq_true_2 by lia. cbn. by rewrite Nat.add_0_r.
  - cbn [repeatMatcher]. rewrite bool_decide_eq_false_2 by done.
    rewrite (bool_decide_eq_false_2 (S n = 0)) by done.
    rewrite clearCaps_nil. cbn [rmatch rest pos caps].
    destruct r as [|x r].
    + by rewrite bool_decide_eq_false_2 by (cbn; lia).
    + cbn [length take forallb drop]. destruct (p x); cbn [andb].
      * cbn [pred decr]. rewrite IH by lia.
        replace (S i + n) with (i + S n) by lia.
        destruct (decide (n ≤ length r)).
        -- rewrite !bool_decide_eq_true_2 by lia. done.
        -- rewrite !bool_decide_eq_false_2 by lia. done.
      * by rewrite andb_false_r.
Qed.

(** A greedy run of units of a class takes all the units there are, up to
    its bound, when what follows matches from there. *)
Lemma rep_greedy p ds :
  ∀ fuel lo hi k i rest0 c e,
    Forall (λ x, p x = true) ds → lo ≤ length ds → length ds ≤ hi → length ds < fuel →
    (length ds = hi ∨ match rest0 with x :: _ => p x = false | [] => True end) →
    k (MState (i + length ds) rest0 c) = Some e →
    repeatMatcher (rmatch (RChar p)) [] true fuel lo (Some hi) k (MState i (ds ++ rest0) c)
    = Some e.
Proof.
  induction ds as [|x ds IH]; intros [|fuel] lo hi k i rest0 c e Hp Hlo Hhi Hf Hrest Hk;
    cbn [length] in *; try lia.
  - assert (lo = 0) as -> by lia. rewrite Nat.add_0_r in Hk. cbn [repeatMatcher app].
    destruct (decide (hi = 0)) as [->|Hne].
    + by rewrite bool_decide_eq_true_2.
    + rewrite bool_decide_eq_false_2 by congruence.
      rewrite bool_decide_eq_true_2 by done.
      rewrite clearCaps_nil, rmatch_char. cbn [rest].
      destruct Hrest as [?|Hrest]; [lia|].
      destruct rest0 as [|y r]; [done|]. by rewrite Hrest.
  - apply Forall_cons in Hp as [Hx Hp].
    cbn [repeatMatcher app]. rewrite bool_decide_eq_false_2 by (intros [= ?]; lia).
    rewrite clearCaps_nil, rmatch_char. cbn [rest pos caps]. rewrite Hx.
    rewrite (bool_decide_eq_false_2 (S i = i)) by lia. rewrite andb_false_r.
    assert (Hagain : repeatMatcher (rmatch (RChar p)) [] true fuel (pred lo) (decr (Some hi)) k
                       (MState (S i) (ds ++ rest0) c) = Some e).
    { cbn [decr]. apply IH; try done; try lia.
      - destruct Hrest as [?|?]; [left; lia|by right].
      - by replace (S i + length ds) with (i + S (length ds)) by lia. }
    rewrite Hagain. by destruct (bool_decide (lo = 0)).
Qed.

Lemma group_run p g lo hi ds rest0 k i c e :
  Forall (λ x, p x = true) ds → lo ≤ length ds → length ds ≤ hi →
  (length ds = hi ∨ match rest0 with x :: _ => p x = false | [] => True end) →
  k (MState (i + length ds) rest0 ((g, ds) :: c)) = Some e →
  rmatch (RGroup g (RRep lo (Some hi) true (RChar p))) k (MState i (ds ++ rest0) c) = Some e.
Proof.
  intros Hp Hlo Hhi Hrest Hk. rewrite rmatch_group, rmatch_rep. cbn [groupsOf rest].
  apply rep_greedy; try done.
  - rewrite length_app. lia.
  - unfold setCap. cbn [pos rest caps].
    replace (i + length ds - i) with (length ds) by lia.
    by rewrite take_app_length.
Qed.

End RegexFacts.

(** ** [formatDateVI] *)

Module DateTextProps.
Import SmartFill StringFacts RegexFacts.
Local Open Scope N_scope.

(** [/^\d{4}$/] accepts the texts of four digits. *)
Lemma yearRe_spec s :
  test yearRe s = true ↔ length s = 4%nat ∧ Forall (λ c, isDigit c = true) s.
Proof.
  unfold yearRe. cbn [seqs foldr]. rewrite test_anchored.
  unfold digit. rewrite rmatch_seq, rmatch_rep. cbn [groupsOf rest].
  rewrite rep_exact by lia. rewrite rmatch_seq, rmatch_eol. cbn [rest].
  rewrite bool_decide_eq_true.
  destruct (decide (4 ≤ length s)%nat) as [Hl|Hl].
  - rewrite bool_decide_eq_true_2 by done. cbn [andb].
    destruct (forallb isDigit (take 4 s)) eqn:Hd.
    + destruct (drop 4 s) as [|x r] eqn:Hr.
      * assert (length s = 4%nat).
        { apply (f_equal length) in Hr. rewrite length_drop in Hr. cbn in Hr. lia. }
        split; [|by eauto]. intros _. split; [done|].
        rewrite <- (take_drop 4 s), Hr, app_nil_r.
        apply Forall_forall. intros c Hc. rewrite forallb_forall in Hd.
        by apply Hd, list_elem_of_In.
      * split; [by intros [? ?]|]. intros [Hlen _].
        apply (f_equal length) in Hr. rewrite length_drop in Hr. cbn in Hr. lia.
    + split; [by intros [? ?]|]. intros [Hlen Hall].
      rewrite firstn_all2 in Hd by lia.
      assert (forallb isDigit s = true); [|congruence].
      apply forallb_forall. intros c Hc. rewrite Forall_forall in Hall.
      by apply Hall, list_elem_of_In.
  - rewrite bool_decide_eq_false_2 by done. cbn [andb].
    split; [by intros [? ?]|]. intros [? _]. lia.
Qed.

Lemma yearRe_not s c : c ∈ s → isDigit c = false → test yearRe s = false.
Proof.
  intros Hc Hd. destruct (test yearRe s) eqn:Ht; [|done].
  apply yearRe_spec in Ht as [_ Hall]. rewrite Forall_forall in Hall.
  specialize (Hall c Hc). congruence.
Qed.

(** X2: a date written year-month-day, as a date field gives it, is shown
    day/month/year. *)
Theorem formatDateVI_iso y m d :
  y ≠ [] → m ≠ [] → d ≠ [] →
  Forall (λ c, c ≠ 0x2D ∧ c ≠ 0x2F) (y ++ m ++ d) →
  formatDateVI (y ++ js "-" ++ m ++ js "-" ++ d) = d ++ js "/" ++ m ++ js "/" ++ y.
Proof.
  intros Hy Hm Hd Hall.
  rewrite !Forall_app in Hall. destruct Hall as (Hay & Ham & Had).
  assert (Hno : ∀ l, Forall (λ c, c ≠ 0x2D ∧ c ≠ 0x2F) l → (0x2D ∉ l) ∧ (0x2F ∉ l)).
  { intros l Hl. rewrite Forall_forall in Hl. split; intros Hc; by destruct (Hl _ Hc). }
  destruct (Hno y Hay) as [Hy1 Hy2]. destruct (Hno m Ham) as [Hm1 Hm2].
  destruct (Hno d Had) as [Hd1 Hd2].
  unfold formatDateVI.
  destruct (y ++ js "-" ++ m ++ js "-" ++ d) as [|x0 s0] eqn:Hs.
  { by destruct y. }
  rewrite <- Hs. clear Hs x0 s0.
  change (js "/") with [0x2F]. change (js "-") with [0x2D]. cbn [app].
  rewrite (proj2 (includes_unit_false _ 0x2F)); cycle 1.
  { intros H.
    repeat (apply elem_of_app in H as [H|H] || apply elem_of_cons in H as [H|H]); done. }
  rewrite (yearRe_not _ 0x2D); [|rewrite elem_of_app, elem_of_cons; auto|done].
  rewrite split_app by done. rewrite split_app by done. rewrite split_unit by done.
  destruct y; [done|]. destruct m; [done|]. destruct d; [done|]. done.
Qed.

Lemma formatDateVI_iso_witness : formatDateVI (js "2020-03-15") = js "15/03/2020".
Proof.
  apply (formatDateVI_iso (js "2020") (js "03") (js "15")); try done.
  DOMFacts.by_evaluation.
Defined.

(** X3: formatting a formatted date changes nothing. *)
Theorem formatDateVI_idempotent s : formatDateVI (formatDateVI s) = formatDateVI s.
Proof.
  assert (Hcase : formatDateVI s = s
                  ∨ ∃ d r, formatDateVI s = d ++ 0x2F :: r ∧ d ≠ []).
  { unfold formatDateVI. destruct s as [|x s]; [by left|].
    destruct (includes (x :: s) (js "/")); [by left|].
    destruct (test yearRe (x :: s)); [by left|].
    destruct (split 0x2D (x :: s)) as [|y [|m [|d ?]]]; try by left.
    destruct y, m, d; try by left.
    right. eexists _, _. split; [reflexivity|done]. }
  destruct Hcase as [H|(d & r & Hf & Hd)]; [by rewrite !H|].
  rewrite Hf. unfold formatDateVI.
  destruct (d ++ 0x2F :: r) as [|x0 s0] eqn:Hs; [done|]. rewrite <- Hs.
  change (js "/") with [0x2F].
  rewrite (proj2 (includes_unit _ 0x2F)); [done|].
  rewrite elem_of_app, elem_of_cons. auto.
Qed.

End DateTextProps.

(** ** The global helpers *)

Module HelpersProps.
Import Helpers DOMFacts.
Local Open Scope N_scope.

Lemma replaceUnits_app class f s t :
  replaceUnits class f (s ++ t) = replaceUnits class f s ++ replaceUnits class f t.
Proof. apply flat_map_app. Qed.

Lemma escapeXml_cons c s : escapeXml (c :: s) = escapeXml [c] ++ escapeXml s.
Proof. apply (replaceUnits_app _ _ [c] s). Qed.

(** What [escapeXml] makes of one unit. *)
Lemma escapeXml_unit c :
  (c = 0x3C ∧ escapeXml [c] = js "&lt;")
  ∨ (c = 0x3E ∧ escapeXml [c] = js "&gt;")
  ∨ (c = 0x26 ∧ escapeXml [c] = js "&amp;")
  ∨ (c = 0x27 ∧ escapeXml [c] = js "&apos;")
  ∨ (c = 0x22 ∧ escapeXml [c] = js "&quot;")
  ∨ (c ≠ 0x3C ∧ c ≠ 0x3E ∧ c ≠ 0x26 ∧ c ≠ 0x27 ∧ c ≠ 0x22 ∧ escapeXml [c] = [c]).
Proof.
  destruct (decide (c = 0x3C)) as [->|H1]; [by left|].
  destruct (decide (c = 0x3E)) as [->|H2]; [by right; left|].
  destruct (decide (c = 0x26)) as [->|H3]; [by right; right; left|].
  destruct (decide (c = 0x27)) as [->|H4]; [by right; right; right; left|].
  destruct (decide (c = 0x22)) as [->|H5]; [by right; right; right; right; left|].
  do 5 right. repeat (split; [done|]).
  unfold escapeXml, replaceUnits, oneOf. cbn [flat_map app].
  rewrite bool_decide_eq_false_2; [done|].
  rewrite !elem_of_cons, elem_of_nil. intros [?|[?|[?|[?|[?|[]]]]]]; done.
Qed.

Ltac norm_js :=
  repeat match goal with
         | |- context [js ?x] => let v := eval vm_compute in (js x) in change (js x) with v
         | H : context [js ?x] |- _ =>
           let v := eval vm_compute in (js x) in change (js x) with v in H
         end.

Lemma escapeXml_nil : escapeXml [] = [].
Proof. reflexivity. Qed.

(** X4: two texts that escape to the same text are the same. *)
Theorem escapeXml_injective s t : escapeXml s = escapeXml t → s = t.
Proof.
  revert t. induction s as [|c s IH]; intros [|d t] H.
  - done.
  - rewrite escapeXml_nil, (escapeXml_cons d) in H.
    destruct (escapeXml_unit d) as [[_ E]|[[_ E]|[[_ E]|[[_ E]|[[_ E]|(_&_&_&_&_&E)]]]]];
      rewrite E in H; norm_js; discriminate.
  - rewrite escapeXml_nil, (escapeXml_cons c) in H.
    destruct (escapeXml_unit c) as [[_ E]|[[_ E]|[[_ E]|[[_ E]|[[_ E]|(_&_&_&_&_&E)]]]]];
      rewrite E in H; norm_js; discriminate.
  - rewrite (escapeXml_cons c), (escapeXml_cons d) in H.
    destruct (escapeXml_unit c) as [[-> E]|[[-> E]|[[-> E]|[[-> E]|[[-> E]|(?&?&?&?&?&E)]]]]];
      rewrite E in H; clear E;
      destruct (escapeXml_unit d) as [[-> E]|[[-> E]|[[-> E]|[[-> E]|[[-> E]|(?&?&?&?&?&E)]]]]];
      rewrite E in H; clear E; norm_js; cbn [app] in H;
      try discriminate; try (injection H as H; f_equal; by apply IH);
      try (injection H as ? H; congruence).
    injection H as -> H. f_equal. by apply IH.
Qed.

Lemma escapeXml_injective_witness : js "a < b" = [0x61; 0x20; 0x3C; 0x20; 0x62].
Proof. apply escapeXml_injective. vm_compute. reflexivity. Defined.

Lemma escapeXml_unit_shape c :
  (∃ e, e ∈ entityNames ∧ escapeXml [c] = 0x26 :: e)
  ∨ (c ≠ 0x3C ∧ c ≠ 0x3E ∧ c ≠ 0x26 ∧ c ≠ 0x27 ∧ c ≠ 0x22 ∧ escapeXml [c] = [c]).
Proof.
  destruct (escapeXml_unit c) as [[_ E]|[[_ E]|[[_ E]|[[_ E]|[[_ E]|H]]]]]; [..|by right];
    left; rewrite E; eexists; (split; [|reflexivity]); unfold entityNames;
    rewrite !elem_of_cons; auto 10.
Qed.

Lemma entity_no_markup e :
  e ∈ entityNames → Forall (λ c, c ≠ 0x3C ∧ c ≠ 0x3E ∧ c ≠ 0x26 ∧ c ≠ 0x27 ∧ c ≠ 0x22) e.
Proof.
  unfold entityNames. rewrite !elem_of_cons, elem_of_nil.
  intros [->|[->|[->|[->|[->|[]]]]]]; norm_js; repeat constructor; done.
Qed.

Lemma escapeXml_no_markup s :
  Forall (λ c, c ≠ 0x3C ∧ c ≠ 0x3E ∧ c ≠ 0x27 ∧ c ≠ 0x22) (escapeXml s).
Proof.
  induction s as [|c s IH]; [constructor|].
  rewrite escapeXml_cons. apply Forall_app. split; [|done].
  destruct (escapeXml_unit_shape c) as [(e & He & ->)|(?&?&?&?&?& ->)].
  - constructor; [done|]. eapply Forall_impl; [by apply entity_no_markup|].
    simpl. tauto.
  - by repeat constructor.
Qed.

(** X5: the escaped text holds none of [<], [>], the apostrophe and the
    quotation mark, and an ampersand only where it starts one of the five
    entities. *)
Theorem escapeXml_well_formed s :
  Forall (λ c, c ≠ 0x3C ∧ c ≠ 0x3E ∧ c ≠ 0x27 ∧ c ≠ 0x22) (escapeXml s)
  ∧ ∀ pre post, escapeXml s = pre ++ 0x26 :: post →
      ∃ e rest, e ∈ entityNames ∧ post = e ++ rest.
Proof.
  split; [apply escapeXml_no_markup|].
  induction s as [|c s IH]; intros pre post H.
  - by destruct pre.
  - rewrite escapeXml_cons in H.
    destruct (escapeXml_unit_shape c) as [(e & He & E)|(?&?&?&?&?& E)]; rewrite E in H.
    + destruct pre as [|x pre]; cbn [app] in H.
      { injection H as <-. exists e, (escapeXml s). by split. }
      injection H as <- H.
      apply app_eq_inv in H as [(k & -> & Hk)|(k & -> & Hk)].
      * destruct k as [|y k]; cbn [app] in Hk; [by apply (IH [] post)|].
        injection Hk as <- ->.
        apply entity_no_markup in He.
        rewrite Forall_app, Forall_cons in He. tauto.
      * by apply (IH k post).
    + destruct pre as [|x pre]; cbn [app] in H; [congruence|].
      injection H as <- H. by eapply IH.
Qed.

(** X6: a text is left as it is exactly when it holds none of the five
    characters; so escaping twice is escaping once only on such texts. *)
Theorem escapeXml_fixed_iff s :
  escapeXml s = s
  ↔ Forall (λ c, c ≠ 0x3C ∧ c ≠ 0x3E ∧ c ≠ 0x26 ∧ c ≠ 0x27 ∧ c ≠ 0x22) s.
Proof.
  split.
  - intros H. pose proof (escapeXml_no_markup s) as Hm. rewrite H in Hm.
    apply Forall_forall. intros c Hc.
    rewrite Forall_forall in Hm. destruct (Hm c Hc) as (?&?&?&?).
    enough (c ≠ 0x26) by tauto. intros ->.
    apply list_elem_of_split in Hc as (pre & post & Hs).
    assert (Hlen : length (escapeXml s) = length s) by (by rewrite H).
    clear Hm H. revert Hlen. rewrite Hs. clear Hs.
    assert (Hge : ∀ t, (length t ≤ length (escapeXml t))%nat).
    { induction t as [|d t IHt]; [done|]. rewrite escapeXml_cons, length_app. cbn [length].
      destruct (escapeXml_unit_shape d) as [(e & He & ->)|(?&?&?&?&?& ->)]; cbn [length]; lia. }
    induction pre as [|d pre IHp]; cbn [app].
    + rewrite escapeXml_cons, length_app. pose proof (Hge post). cbn [length].
      change (escapeXml [0x26]) with (js "&amp;"). norm_js. cbn [length]. lia.
    + rewrite escapeXml_cons, length_app. cbn [length]. intros Hl. apply IHp.
      pose proof (Hge (pre ++ 0x26 :: post)).
      destruct (escapeXml_unit_shape d) as [(e & He & E)|(?&?&?&?&?& E)];
        rewrite E in Hl; cbn [length] in Hl; lia.
  - induction 1 as [|c s (?&?&?&?&?) _ IH]; [done|].
    rewrite escapeXml_cons, IH.
    destruct (escapeXml_unit c) as [[? _]|[[? _]|[[? _]|[[? _]|[[? _]|(_&_&_&_&_&E)]]]]];
      try done. by rewrite E.
Qed.

(** *** [removeVietnameseTones] *)

Lemma removeVietnameseTones_app s t :
  removeVietnameseTones (s ++ t) = removeVietnameseTones s ++ removeVietnameseTones t.
Proof.
  unfold removeVietnameseTones, toLowerCase. cbv zeta.
  rewrite map_app. by rewrite !replaceUnits_app.
Qed.

Lemma below_128 c : c < 0x80 → c ∈ (N.of_nat <$> seq 0 128).
Proof.
  intros H. apply list_elem_of_fmap. exists (N.to_nat c). split; [lia|].
  apply elem_of_seq. lia.
Qed.

Lemma ascii_units :
  forallb (λ c, match removeVietnameseTones [c] with
                | [b] => (b =? toLower c) && (b <? 0x80) && (toLower b =? b)
                | _ => false
                end) (N.of_nat <$> seq 0 128) = true.
Proof. vm_compute. reflexivity. Qed.

Lemma tone_units :
  forallb (λ l, (toLower l =? l)
                && match removeVietnameseTones [l] with
                   | [b] => (b <? 0x80) && (toLower b =? b)
                   | _ => false
                   end) toneLetters = true.
Proof. vm_compute. reflexivity. Qed.

Lemma removeVietnameseTones_unit c :
  c < 0x80 ∨ toLower c ∈ toneLetters →
  ∃ b, removeVietnameseTones [c] = [b] ∧ b < 0x80 ∧ toLower b = b.
Proof.
  intros [H|H].
  - pose proof ascii_units as Hall. rewrite forallb_forall in Hall.
    specialize (Hall c (proj1 (list_elem_of_In _ _) (below_128 c H))). cbv beta in Hall.
    destruct (removeVietnameseTones [c]) as [|b [|]]; try done.
    apply andb_prop in Hall as [[_ H2]%andb_prop H3].
    exists b. split; [done|]. split; [by apply N.ltb_lt|by apply N.eqb_eq].
  - pose proof tone_units as Hall. rewrite forallb_forall in Hall.
    specialize (Hall _ (proj1 (list_elem_of_In _ _) H)). cbv beta in Hall.
    apply andb_prop in Hall as [Hl%N.eqb_eq Hall].
    assert (Heq : removeVietnameseTones [c] = removeVietnameseTones [toLower c]).
    { unfold removeVietnameseTones, toLowerCase. cbn [map]. by rewrite Hl. }
    rewrite Heq.
    destruct (removeVietnameseTones [toLower c]) as [|b [|]]; try done.
    apply andb_prop in Hall as [H2 H3].
    exists b. split; [done|]. split; [by apply N.ltb_lt|by apply N.eqb_eq].
Qed.

(** X7: on a text of ASCII characters and Vietnamese letters, in either case,
    [removeVietnameseTones] gives a text of as many units, all of them ASCII
    and none an upper-case letter. *)
Theorem removeVietnameseTones_ascii s :
  Forall (λ c, c < 0x80 ∨ toLower c ∈ toneLetters) s →
  length (removeVietnameseTones s) = length s
  ∧ Forall (λ b, b < 0x80 ∧ toLower b = b) (removeVietnameseTones s).
Proof.
  induction 1 as [|c s Hc _ [IHl IHf]]; [by split|].
  change (c :: s) with ([c] ++ s). rewrite removeVietnameseTones_app.
  destruct (removeVietnameseTones_unit c Hc) as (b & -> & Hb & Hlow).
  cbn [app length]. split; [by rewrite IHl|]. by constructor.
Qed.

Lemma removeVietnameseTones_ascii_witness :
  length (removeVietnameseTones (js "LĨNH VỰC, Mục tiêu dài hạn")) = 26%nat
  ∧ Forall (λ b, b < 0x80 ∧ toLower b = b)
           (removeVietnameseTones (js "LĨNH VỰC, Mục tiêu dài hạn")).
Proof.
  apply (removeVietnameseTones_ascii (js "LĨNH VỰC, Mục tiêu dài hạn")).
  by_evaluation.
Defined.

Example removeVietnameseTones_header :
  removeVietnameseTones (js "LĨNH VỰC, Mục tiêu dài hạn") = js "linh vuc, muc tieu dai han".
Proof. vm_compute. reflexivity. Qed.

(** A letter written as a base letter and a combining circumflex keeps
    the circumflex: the class of the last replacement holds the modifier
    letter U+02C6 in its place. *)
Example removeVietnameseTones_decomposed :
  removeVietnameseTones [0x61; 0x302] = [0x61; 0x302].
Proof. vm_compute. reflexivity. Qed.

End HelpersProps.

(** ** The age of the child *)

Module AgeProps.
Import Age StringFacts RegexFacts.
Local Open Scope Z_scope.

Example makeDate_rolls_over : makeDate 2021 1 31 = Date 2021 2 3.
Proof. reflexivity. Qed.

Example makeDate_day_zero : makeDate 2024 2 0 = Date 2024 1 29.
Proof. reflexivity. Qed.

Example makeDate_two_digit_year : makeDate 24 0 1 = Date 1924 0 1.
Proof. reflexivity. Qed.

Lemma daysInMonth_range y m : 28 ≤ daysInMonth y m ≤ 31.
Proof.
  unfold daysInMonth. destruct (m =? 1); [destruct (isLeap y); lia|].
  destruct ((m =? 3) || (m =? 5) || (m =? 8) || (m =? 10)); lia.
Qed.

Lemma forward_valid fuel : ∀ y m d,
  0 ≤ m ≤ 11 → 1 ≤ d ≤ Z.of_nat fuel → validDate (forward fuel y m d).
Proof.
  induction fuel as [|fuel IH]; intros y m d Hm Hd; [lia|].
  cbn [forward]. pose proof (daysInMonth_range y m).
  destruct (Z.gtb_spec d (daysInMonth y m)).
  - destruct (Z.eqb_spec m 11); apply IH; lia.
  - unfold validDate. cbn [month day fullYear]. lia.
Qed.

Lemma backward_valid fuel : ∀ y m d,
  0 ≤ m ≤ 11 → d ≤ daysInMonth y m → 1 - d ≤ Z.of_nat fuel → validDate (backward fuel y m d).
Proof.
  induction fuel as [|fuel IH]; intros y m d Hm Hd Hf.
  - unfold validDate. cbn [backward month day fullYear]. lia.
  - cbn [backward]. destruct (Z.ltb_spec d 1).
    + destruct (Z.eqb_spec m 0).
      * pose proof (daysInMonth_range (y - 1) 11). apply IH; lia.
      * pose proof (daysInMonth_range y (m - 1)). apply IH; lia.
    + unfold validDate. cbn [month day fullYear]. lia.
Qed.

(** [new Date(y, m, d)] is a date of the calendar, whatever the numbers. *)
Lemma makeDate_valid y m d : validDate (makeDate y m d).
Proof.
  unfold makeDate. cbv zeta.
  pose proof (Z.mod_pos_bound m 12 ltac:(lia)).
  destruct (Z.ltb_spec d 1).
  - apply backward_valid; [lia| |lia].
    pose proof (daysInMonth_range
      ((if (0 <=? y) && (y <=? 99) then 1900 + y else y) + m / 12) (m mod 12)). lia.
  - apply forward_valid; lia.
Qed.

(** A date of the calendar, in a year that has more than two digits, is
    read back as it was given. *)
Lemma makeDate_id y m d :
  validDate (Date y m d) → ¬ (0 ≤ y ≤ 99) → makeDate y m d = Date y m d.
Proof.
  unfold validDate. cbn [month day fullYear]. intros [Hm Hd] Hy. unfold makeDate. cbv zeta.
  replace ((0 <=? y) && (y <=? 99)) with false
    by (symmetry; apply andb_false_iff; rewrite Z.leb_gt, Z.leb_gt; lia).
  rewrite Z.div_small, Z.mod_small, Z.add_0_r by lia.
  rewrite (proj2 (Z.ltb_ge d 1)) by lia.
  destruct (Z.to_nat d) as [|n] eqn:Hn; [lia|]. cbn [forward].
  destruct (Z.gtb_spec d (daysInMonth y m)); [lia|done].
Qed.

(** The text of a number starts with a digit or with the minus sign. *)
Lemma ofZ_head z : ∃ c r, ofZ z = c :: r ∧ (isDigit c = true ∨ c = 0x2D%N).
Proof.
  unfold ofZ. destruct z as [|p|p]; [by eexists _, _; split; [|left]| |].
  - cbn [Z.to_int]. unfold NilZero.string_of_int, NilZero.string_of_uint.
    destruct (Pos.to_uint p) as [|u|u|u|u|u|u|u|u|u|u] eqn:Hp;
      [by eexists _, _; split; [|left]|..];
      cbn [NilEmpty.string_of_uint]; unfold js; cbn; eexists _, _; (split; [reflexivity|by left]).
  - cbn [Z.to_int]. unfold NilZero.string_of_int. unfold js. cbn.
    eexists _, _. split; [reflexivity|by right].
Qed.

Lemma ageDiff_years b c :
  (ageDiff b c).1.1 < 0 ↔ earlier c b.
Proof.
  unfold ageDiff, earlier. cbv zeta.
  destruct (Z.ltb_spec (day c - day b) 0);
    [destruct (Z.ltb_spec (month c - month b - 1) 0)
    |destruct (Z.ltb_spec (month c - month b) 0)]; cbn [fst]; lia.
Qed.

Lemma ageDiff_total b c :
  let '(years, months, days) := ageDiff b c in
  years * 12 + months
  = (fullYear c * 12 + month c) - (fullYear b * 12 + month b)
    - (if day c <? day b then 1 else 0).
Proof.
  unfold ageDiff. cbv zeta.
  destruct (Z.ltb_spec (day c - day b) 0), (Z.ltb_spec (day c) (day b)); try lia.
  - destruct (Z.ltb_spec (month c - month b - 1) 0); lia.
  - destruct (Z.ltb_spec (month c - month b) 0); lia.
Qed.

Lemma ageText_head b c fmt :
  ¬ earlier c b → ∃ x r, ageText b c fmt = x :: r ∧ (isDigit x = true ∨ x = 0x2D%N).
Proof.
  intros Hne. rewrite <- ageDiff_years in Hne. unfold ageText.
  destruct (ageDiff b c) as [[years months] days]. cbn [fst] in Hne.
  rewrite (proj2 (Z.ltb_ge years 0)) by lia.
  assert (Hpart : ∀ z t rest, ∃ x r, join (js " ") ((ofZ z ++ t) :: rest) = x :: r
                                     ∧ (isDigit x = true ∨ x = 0x2D%N)).
  { intros z t rest. destruct (ofZ_head z) as (x & r & -> & Hx).
    destruct rest; cbn [join app]; by eexists _, _. }
  destruct fmt as [[|]|].
  2: { destruct (ofZ_head (years * 12 + months)) as (x & r & -> & Hx). by eexists _, _. }
  all: cbv zeta; destruct (years >? 0); cbn [app]; [apply Hpart|];
    (destruct (months >? 0); cbn [app]; [apply Hpart|]);
    (destruct ((days >? 0) && (years =? 0)); cbn [app]; [apply Hpart|]);
    eexists _, _; (split; [reflexivity|by left]).
Qed.

(** X8: the age is refused, with the message that the evaluation date is
    smaller than the date of birth, exactly when the evaluation date is an
    earlier day than the date of birth. *)
Theorem age_refused_iff_earlier b c fmt : ageText b c fmt = tooEarly ↔ earlier c b.
Proof.
  split.
  - intros H. destruct (decide (earlier c b)) as [|Hne]; [done|].
    destruct (ageText_head b c fmt Hne) as (x & r & Hx & Hd). rewrite Hx in H.
    injection H as -> _. by destruct Hd.
  - intros He. rewrite <- ageDiff_years in He. unfold ageText.
    destruct (ageDiff b c) as [[years months] days]. cbn [fst] in He.
    by rewrite (proj2 (Z.ltb_lt years 0)).
Qed.

(** X9: in the format by months, the age is the number of months from the
    month of birth to the month of the evaluation, less one when the day of
    the month has not been reached yet. *)
Theorem age_in_months b c :
  ¬ earlier c b →
  ageText b c (Some Month)
  = ofZ ((fullYear c * 12 + month c) - (fullYear b * 12 + month b)
         - (if day c <? day b then 1 else 0)) ++ js " tháng".
Proof.
  intros Hne. rewrite <- ageDiff_years in Hne. pose proof (ageDiff_total b c) as Ht.
  unfold ageText. destruct (ageDiff b c) as [[years months] days]. cbn [fst] in Hne.
  rewrite (proj2 (Z.ltb_ge years 0)) by lia. cbv zeta. by rewrite Ht.
Qed.

Lemma age_in_months_witness :
  ageText (Date 2020 2 15) (Date 2024 0 10) (Some Month) = js "45 tháng".
Proof.
  apply (age_in_months (Date 2020 2 15) (Date 2024 0 10)).
  unfold earlier. cbn. lia.
Defined.

(** X10: between two dates of the calendar, the later one not before the
    earlier, the years are not negative, the months lie between 0 and 11,
    and the days between -2 and 30; they are not negative when the day of
    birth is at most the 28th. *)
Theorem ageDiff_bounds b c :
  validDate b → validDate c → ¬ earlier c b →
  let '(years, months, days) := ageDiff b c in
  0 ≤ years ∧ 0 ≤ months ≤ 11 ∧ -2 ≤ days ≤ 30 ∧ (day b ≤ 28 → 0 ≤ days).
Proof.
  intros [Hbm Hbd] [Hcm Hcd] Hne. unfold earlier in Hne.
  pose proof (daysInMonth_range (fullYear b) (month b)).
  pose proof (daysInMonth_range (fullYear c) (month c)).
  pose proof (makeDate_valid (fullYear c) (month c) 0) as [_ Hp].
  assert (Hprev : 28 ≤ day (makeDate (fullYear c) (month c) 0) ≤ 31).
  { unfold makeDate. cbv zeta. rewrite Z.div_small, Z.mod_small, Z.add_0_r by lia.
    change (0 <? 1) with true. cbv iota.
    change (Z.to_nat (1 - 0)) with 1%nat. cbn [backward].
    change (0 <? 1) with true. cbv iota.
    destruct (month c =? 0); cbn [day];
      match goal with |- context [daysInMonth ?a ?b] => pose proof (daysInMonth_range a b) end;
      lia. }
  unfold ageDiff. cbv zeta.
  destruct (Z.ltb_spec (day c - day b) 0);
    [destruct (Z.ltb_spec (month c - month b - 1) 0)
    |destruct (Z.ltb_spec (month c - month b) 0)]; lia.
Qed.

Lemma ageDiff_bounds_witness :
  let '(years, months, days) := ageDiff (Date 2021 0 31) (Date 2021 2 1) in
  0 ≤ years ∧ 0 ≤ months ≤ 11 ∧ -2 ≤ days ≤ 30 ∧ (31 ≤ 28 → 0 ≤ days).
Proof.
  apply (ageDiff_bounds (Date 2021 0 31) (Date 2021 2 1));
    unfold validDate, earlier; cbn; lia.
Defined.

Example ageDiff_negative_days : ageDiff (Date 2021 0 31) (Date 2021 2 1) = (0, 1, -2).
Proof. reflexivity. Qed.

(** *** Reading the date of birth *)

Lemma digit_not_sep c : isDigit c = true → ((c =? 0x2F) || (c =? 0x2D))%N = false.
Proof.
  unfold isDigit. intros [H1 H2]%andb_prop. apply N.leb_le in H1, H2.
  apply orb_false_iff. split; apply N.eqb_neq; lia.
Qed.

Lemma sep_not_digit c : ((c =? 0x2F) || (c =? 0x2D))%N = true → isDigit c = false.
Proof.
  intros H. destruct (isDigit c) eqn:Hd; [|done].
  apply digit_not_sep in Hd. congruence.
Qed.

Section Read.
Context (parseDate : jsstring → option date).
Context (D M Y : jsstring) (s1 s2 : N).
Context (HD : Forall (λ c, isDigit c = true) D) (HM : Forall (λ c, isDigit c = true) M).
Context (HY : Forall (λ c, isDigit c = true) Y).
Context (HDl : (1 ≤ length D ≤ 2)%nat) (HMl : (1 ≤ length M ≤ 2)%nat) (HYl : length Y = 4%nat).
Context (Hs1 : ((s1 =? 0x2F) || (s1 =? 0x2D))%N = true).
Context (Hs2 : ((s2 =? 0x2F) || (s2 =? 0x2D))%N = true).

Lemma fullDate_match :
rmatch (seqs [RGroup 1 (upTo 1 2 digit); sep; RGroup 2 (upTo 1 2 digit); sep;
              RGroup 3 year4; REol]) Some (MState 0 (D ++ s1 :: M ++ s2 :: Y) [])
= Some (MState (0 + length D + 1 + length M + 1 + length Y) []
               [(3%nat, Y); (2%nat, M); (1%nat, D)]).
Proof.
cbn [seqs foldr]. unfold upTo, year4, digit, sep.
rewrite rmatch_seq. apply group_run; [done|lia|lia| |].
{ right. by apply sep_not_digit. }
rewrite rmatch_seq, rmatch_char. cbn [rest pos caps]. rewrite Hs1.
rewrite rmatch_seq. apply group_run; [done|lia|lia| |].
{ right. by apply sep_not_digit. }
rewrite rmatch_seq, rmatch_char. cbn [rest pos caps]. rewrite Hs2.
rewrite rmatch_seq. rewrite <- (app_nil_r Y) at 1.
apply group_run; [done|lia|lia|by left|].
rewrite rmatch_seq, rmatch_eol. cbn [rest]. rewrite rmatch_empty.
do 2 f_equal. lia.
Qed.

Lemma fullDate_found :
jsmatch (D ++ s1 :: M ++ s2 :: Y) fullDateRegex
= Some (Match 0 (D ++ s1 :: M ++ s2 :: Y) [(3%nat, Y); (2%nat, M); (1%nat, D)]).
Proof.
unfold fullDateRegex.
change (seqs (RBol :: ?l)) with (RSeq RBol (seqs l)).
rewrite jsmatch_anchored, fullDate_match. cbn [fmap option_fmap option_map pos caps].
do 2 f_equal. apply take_ge. rewrite length_app. cbn [length]. rewrite length_app. cbn [length].
lia.
Qed.

(** X11: a date of birth written day, month, year, with one or two digits for
  the day and for the month, four for the year, and [/] or [-] in
  between, is read as [new Date(year, month - 1, day)]: a date of the
  calendar whatever the numbers are, none being refused. *)
Theorem birth_date_read :
birthDateOf parseDate (D ++ s1 :: M ++ s2 :: Y)
= Some (makeDate (parseInt Y) (parseInt M - 1) (parseInt D))
∧ validDate (makeDate (parseInt Y) (parseInt M - 1) (parseInt D)).
Proof.
split; [|apply makeDate_valid].
unfold birthDateOf. rewrite fullDate_found. reflexivity.
Qed.
End Read.

Lemma birth_date_read_witness :
  birthDateOf (λ _, None) (js "31/2/2021") = Some (Date 2021 2 3)
  ∧ validDate (Date 2021 2 3).
Proof.
  apply (birth_date_read (λ _, None) (js "31") (js "2") (js "2021") 0x2F 0x2F);
    try DOMFacts.by_evaluation; try (cbn; lia); reflexivity.
Defined.

(** *** The field of the date of birth *)

Lemma take8 (l : list N) :
  (if bool_decide (8 < length l)%nat then take 8 l else l) = take 8 l.
Proof. case_bool_decide; [done|]. by rewrite take_ge by lia. Qed.

Lemma filter_digits (l : list N) :
  Forall (λ c, isDigit c = true) l → filter (λ c, isDigit c = true) l = l.
Proof.
  intros H. induction l as [|c l IH]; [done|].
  apply Forall_cons in H as [Hc H]. rewrite filter_cons_True by done. by rewrite IH.
Qed.

Lemma digits_filter (v : list N) : Forall (λ c, isDigit c = true) (filter (λ c, isDigit c = true) v).
Proof. apply Forall_forall. by intros c [? _]%list_elem_of_filter. Qed.

Lemma digits_take n (l : list N) :
  Forall (λ c, isDigit c = true) l → Forall (λ c, isDigit c = true) (take n l).
Proof. apply Forall_take. Qed.

Lemma digits_drop n (l : list N) :
  Forall (λ c, isDigit c = true) l → Forall (λ c, isDigit c = true) (drop n l).
Proof. apply Forall_drop. Qed.

Lemma handleDobChange_eq v :
  let ds := take 8 (filter (λ c, isDigit c = true) v) in
  handleDobChange v
  = if bool_decide (4 < length ds)%nat
    then take 2 ds ++ 0x2F%N :: take 2 (drop 2 ds) ++ 0x2F%N :: drop 4 ds
    else if bool_decide (2 < length ds)%nat then take 2 ds ++ 0x2F%N :: drop 2 ds
    else ds.
Proof. unfold handleDobChange. cbv zeta. by rewrite take8. Qed.

Lemma digit_not_slash (l : list N) k :
  Forall (λ c, isDigit c = true) l → l !! k = Some 0x2F%N → False.
Proof.
  intros Hl Hk. apply (proj1 (Forall_lookup _ _) Hl) in Hk. done.
Qed.

(** X12: the field shows the first eight digits [ds] of what was typed, and
    nothing else but the [/] that it puts after the second of them, when
    there are more than two, and after the fourth, when there are more than
    four: [dd], [dd/d], [dd/dd/d] up to [dd/dd/dddd].  So a [/] stands at
    the third place and at the sixth and nowhere else, and the text has
    at most ten characters.  What the field shows is left as it is when it
    goes through the field again. *)
Theorem dob_field_digits (v : list N) :
  ∃ ds, ds = take 8 (filter (λ c, isDigit c = true) v)
  ∧ ((length ds ≤ 2)%nat → handleDobChange v = ds)
  ∧ ((2 < length ds ≤ 4)%nat → handleDobChange v = take 2 ds ++ js "/" ++ drop 2 ds)
  ∧ ((4 < length ds)%nat
     → handleDobChange v = take 2 ds ++ js "/" ++ take 2 (drop 2 ds) ++ js "/" ++ drop 4 ds)
  ∧ (∀ k, handleDobChange v !! k = Some 0x2F%N
          ↔ (k = 2%nat ∧ (2 < length ds)%nat) ∨ (k = 5%nat ∧ (4 < length ds)%nat))
  ∧ filter (λ c, isDigit c = true) (handleDobChange v) = ds
  ∧ Forall (λ c, isDigit c = true ∨ c = 0x2F%N) (handleDobChange v)
  ∧ (length (handleDobChange v) ≤ 10)%nat
  ∧ handleDobChange (handleDobChange v) = handleDobChange v.
Proof.
  exists (take 8 (filter (λ c, isDigit c = true) v)). split; [done|].
  enough (Hmain : filter (λ c, isDigit c = true) (handleDobChange v)
                  = take 8 (filter (λ c, isDigit c = true) v)
                  ∧ Forall (λ c, isDigit c = true ∨ c = 0x2F%N) (handleDobChange v)
                  ∧ (length (handleDobChange v) ≤ 10)%nat).
  { destruct Hmain as (Hd & Hall & Hlen).
    pose proof (handleDobChange_eq v) as Heq. cbv zeta in Heq. unfold jsstring in *.
    set (ds := take 8 (filter (λ c, isDigit c = true) v)) in *.
    assert (Hds : Forall (λ c, isDigit c = true) ds) by apply digits_take, digits_filter.
    split; [|split; [|split; [|split; [|repeat split; try done]]]].
    - intros H. rewrite Heq. by rewrite !bool_decide_eq_false_2 by lia.
    - intros H. rewrite Heq.
      rewrite bool_decide_eq_false_2 by lia. by rewrite bool_decide_eq_true_2 by lia.
    - intros H. rewrite Heq. by rewrite bool_decide_eq_true_2 by lia.
    - intros k. rewrite Heq. repeat case_bool_decide.
      + destruct ds as [|a [|b [|c [|d [|e r]]]]]; cbn [length] in *; try lia.
        cbn [take drop app]. 
        apply Forall_cons in Hds as [Ha Hds]. apply Forall_cons in Hds as [Hb Hds].
        apply Forall_cons in Hds as [Hc Hds]. apply Forall_cons in Hds as [Hd' Hds].
        split.
        * intros Hk.
          destruct k as [|[|[|[|[|[|k]]]]]]; cbn in Hk;
            try (injection Hk as ->; done); [left; lia|right; lia|].
          exfalso. exact (digit_not_slash _ _ Hds Hk).
        * intros [[-> _]|[-> _]]; reflexivity.
      + destruct ds as [|a [|b [|c r]]]; cbn [length] in *; try lia.
        cbn [take drop app].
        apply Forall_cons in Hds as [Ha Hds]. apply Forall_cons in Hds as [Hb Hds].
        split.
        * intros Hk.
          destruct k as [|[|[|k]]]; cbn in Hk;
            try (injection Hk as ->; done); [left; lia|].
          exfalso. exact (digit_not_slash _ _ Hds Hk).
        * intros [[-> _]|[-> ?]]; [reflexivity|lia].
      + split; [|lia]. intros Hk. exfalso. exact (digit_not_slash _ _ Hds Hk).
    - rewrite (handleDobChange_eq (handleDobChange v)). cbv zeta. unfold jsstring in *.
      rewrite Hd. assert (Ht : take 8 ds = ds).
      { unfold ds. by rewrite take_take, Nat.min_id. }
      rewrite Ht. by rewrite Heq. }
  rewrite handleDobChange_eq. cbv zeta. unfold jsstring in *.
  set (ds := take 8 (filter (λ c, isDigit c = true) v)).
  assert (Hds : Forall (λ c, isDigit c = true) ds) by apply digits_take, digits_filter.
  assert (Hlen : (length ds ≤ 8)%nat) by (unfold ds; rewrite length_take; lia).
  assert (Hor : ∀ l : list N, Forall (λ c, isDigit c = true) l
                  → Forall (λ c, isDigit c = true ∨ c = 0x2F%N) l).
  { intros l Hl. eapply Forall_impl; [exact Hl|]. auto. }
  repeat case_bool_decide.
  - split; [|split].
    + rewrite filter_app, filter_cons_False by done.
      rewrite filter_app, filter_cons_False by done.
      rewrite !filter_digits by auto using digits_take, digits_drop.
      rewrite <- (take_drop 2 ds) at 4. f_equal.
      rewrite <- (take_drop 2 (drop 2 ds)) at 2. f_equal. by rewrite drop_drop.
    + apply Forall_app. split; [auto using digits_take|].
      constructor; [by right|]. apply Forall_app. split; [auto using digits_take, digits_drop|].
      constructor; [by right|]. auto using digits_drop.
    + rewrite length_app. cbn [length]. rewrite length_app. cbn [length].
      rewrite !length_take, !length_drop. lia.
  - split; [|split].
    + rewrite filter_app, filter_cons_False by done.
      rewrite !filter_digits by auto using digits_take, digits_drop.
      apply take_drop.
    + apply Forall_app. split; [auto using digits_take|].
      constructor; [by right|]. auto using digits_drop.
    + rewrite length_app. cbn [length]. rewrite !length_take, !length_drop. lia.
  - split; [|split]; [by apply filter_digits|by apply Hor|lia].
Qed.

(** *** From the field to the age *)

Lemma digit_not_space c : isDigit c = true → isSpace c = false.
Proof.
  unfold isDigit. intros [H1 H2]%andb_prop. apply N.leb_le in H1, H2.
  unfold isSpace. repeat (apply orb_false_iff; split);
    try (apply N.eqb_neq; lia); apply andb_false_iff;
    rewrite ?N.leb_gt; lia.
Qed.

Lemma trimStart_id c s : isSpace c = false → trimStart (c :: s) = c :: s.
Proof. intros H. unfold trimStart. cbn [dropWhile]. by rewrite H. Qed.

Lemma trim_id c s d :
  isSpace c = false → isSpace d = false → trim (c :: s ++ [d]) = c :: s ++ [d].
Proof.
  intros Hc Hd. unfold trim. rewrite trimStart_id by done. unfold trimEnd.
  change (c :: s ++ [d]) with ((c :: s) ++ [d]). rewrite reverse_snoc.
  cbn [dropWhile]. rewrite Hd. by rewrite <- reverse_snoc, reverse_involutive.
Qed.

(** X13: eight digits typed into the field give a date of birth that
    CALCULATE_AGE reads as day, month and year: the age is that from
    [new Date(year, month - 1, day)] to the date of the evaluation. *)
Theorem typed_birth_date parseDate v evalDate current fmt :
  let ds := take 8 (filter (λ c, isDigit c = true) v) in
  length ds = 8%nat → evalDate ≠ [] → parseDate evalDate = Some current →
  calculateAge parseDate (Some (handleDobChange v)) (Some evalDate) fmt
  = ageText (makeDate (parseInt (drop 4 ds)) (parseInt (take 2 (drop 2 ds)) - 1)
                      (parseInt (take 2 ds)))
            current fmt.
Proof.
  intros ds Hlen Hev Hcur. unfold jsstring in *.
  assert (Hds : Forall (λ c, isDigit c = true) ds) by apply digits_take, digits_filter.
  assert (Hh : handleDobChange v
               = take 2 ds ++ 0x2F%N :: take 2 (drop 2 ds) ++ 0x2F%N :: drop 4 ds).
  { rewrite handleDobChange_eq. cbv zeta. fold ds. by rewrite bool_decide_eq_true_2 by lia. }
  assert (Hread : birthDateOf parseDate
                    (take 2 ds ++ 0x2F%N :: take 2 (drop 2 ds) ++ 0x2F%N :: drop 4 ds)
                  = Some (makeDate (parseInt (drop 4 ds)) (parseInt (take 2 (drop 2 ds)) - 1)
                                   (parseInt (take 2 ds)))).
  { unfold birthDateOf. rewrite fullDate_found; [reflexivity|..];
      auto using digits_take, digits_drop; rewrite ?length_take, ?length_drop; lia. }
  clearbody ds.
  destruct ds as [|d1 [|d2 [|d3 [|d4 [|d5 [|d6 [|d7 [|d8 [|]]]]]]]]]; try done.
  cbn [take drop app] in *.
  apply Forall_cons in Hds as [H1 Hds]. do 6 apply Forall_cons in Hds as [_ Hds].
  apply Forall_cons in Hds as [H8 _].
  unfold calculateAge. destruct evalDate as [|e0 ev]; [done|]. rewrite Hh.
  pose proof (trim_id d1 [d2; 0x2F%N; d3; d4; 0x2F%N; d5; d6; d7] d8
                (digit_not_space _ H1) (digit_not_space _ H8)) as Htrim.
  cbn [app] in Htrim. rewrite Htrim, Hread. cbv zeta. by rewrite Hcur.
Qed.

Lemma typed_birth_date_witness :
  calculateAge (λ _, Some (Date 2024 0 10)) (Some (handleDobChange (js "1503-2020x")))
               (Some (js "2024-01-10")) (Some Month)
  = js "45 tháng".
Proof.
  apply (typed_birth_date (λ _, Some (Date 2024 0 10)) (js "1503-2020x") (js "2024-01-10")
           (Date 2024 0 10) (Some Month)); done.
Defined.

End AgeProps.

(** ** The selections of the user interface *)

Module UIProps.
Import UI.
Local Open Scope Z_scope.

Lemma insertSorted_perm {A} (le : A → A → bool) x l : insertSorted le x l ≡ₚ x :: l.
Proof.
  induction l as [|y l IH]; [done|]. cbn [insertSorted].
  destruct (le y x); [|done]. rewrite IH. apply perm_swap.
Qed.

Lemma sortBy_perm {A} (le : A → A → bool) l : sortBy le l ≡ₚ l.
Proof.
  unfold sortBy.
  enough (H : ∀ acc, foldl (λ acc x, insertSorted le x acc) acc l ≡ₚ acc ++ l) by apply (H []).
  induction l as [|x l IH]; intros acc; cbn [foldl].
  - by rewrite app_nil_r.
  - rewrite IH, insertSorted_perm. cbn [app]. apply Permutation_middle.
Qed.

(** *** Sorting puts in order *)

Section Sorted.
Context {A : Type} (le : A → A → bool).
Context (le_total : ∀ a b, le a b = true ∨ le b a = true).
Context (le_trans : ∀ a b c, le a b = true → le b c = true → le a c = true).

Lemma insertSorted_sorted x l :
  StronglySorted (λ a b, le a b = true) l →
  StronglySorted (λ a b, le a b = true) (insertSorted le x l).
Proof.
  induction 1 as [|y l Hs IH Hy]; cbn [insertSorted]; [repeat constructor|].
  destruct (le y x) eqn:Hyx.
  - constructor; [done|].
    apply Forall_forall. intros z Hz.
    rewrite (insertSorted_perm le x l) in Hz.
    apply elem_of_cons in Hz as [->|Hz]; [done|].
    rewrite Forall_forall in Hy. by apply Hy.
  - constructor; [by constructor|].
    assert (Hxy : le x y = true) by (destruct (le_total x y); congruence).
    constructor; [done|].
    apply Forall_forall. intros z Hz. rewrite Forall_forall in Hy.
    eapply le_trans; [exact Hxy|]. by apply Hy.
Qed.

Lemma sortBy_sorted l : StronglySorted (λ a b, le a b = true) (sortBy le l).
Proof.
  unfold sortBy.
  enough (H : ∀ acc, StronglySorted (λ a b, le a b = true) acc →
                     StronglySorted (λ a b, le a b = true)
                                    (foldl (λ acc x, insertSorted le x acc) acc l))
    by (apply H; constructor).
  induction l as [|x l IH]; intros acc Hacc; cbn [foldl]; [done|].
  by apply IH, insertSorted_sorted.
Qed.
End Sorted.

Lemma StronglySorted_filter {A} (R : A → A → Prop) (P : A → Prop) `{∀ x, Decision (P x)} l :
  StronglySorted R l → StronglySorted R (filter P l).
Proof.
  induction 1 as [|x l Hs IH Hx]; [constructor|].
  rewrite filter_cons. destruct (decide (P x)); [|done].
  constructor; [done|]. apply Forall_forall. intros y [_ Hy]%list_elem_of_filter.
  rewrite Forall_forall in Hx. by apply Hx.
Qed.

Lemma StronglySorted_impl {A} (R R' : A → A → Prop) l :
  (∀ a b, a ∈ l → b ∈ l → R a b → R' a b) → StronglySorted R l → StronglySorted R' l.
Proof.
  intros Himp. induction 1 as [|x l Hs IH Hx]; [constructor|].
  constructor.
  - apply IH. intros a b Ha Hb. apply Himp; by right.
  - apply Forall_forall. intros y Hy. rewrite Forall_forall in Hx.
    apply Himp; [by left|by right|by apply Hx].
Qed.

(** *** [toggleColumn] *)

Lemma sortBy_two x y :
  sortBy numericLe [x; y] = if bool_decide (x ≤ y) then [x; y] else [y; x].
Proof.
  unfold sortBy, numericLe. cbn [foldl insertSorted].
  destruct (Z.leb_spec (x - y) 0); case_bool_decide; done || lia.
Qed.

Lemma sortBy_one (le : Z → Z → bool) x : sortBy le [x] = [x].
Proof. reflexivity. Qed.

(** X14: one or two columns stay selected, in increasing order.  A click on
    a selected column takes it away, and column 1 is selected when none is
    left; a click on another column adds it, in the place of the smaller
    one when two were selected. *)
Theorem columns_one_or_two col prev :
  (1 ≤ length prev ≤ 2)%nat → StronglySorted Z.lt prev →
  let next := toggleColumn col prev in
  (1 ≤ length next ≤ 2)%nat ∧ StronglySorted Z.lt next
  ∧ (col ∈ prev →
     next = match filter (λ c, c ≠ col) prev with [] => [1] | l => l end)
  ∧ (col ∉ prev → ∀ x, x ∈ next ↔ x = col ∨ last prev = Some x).
Proof.
  intros Hlen Hs next. subst next.
  destruct prev as [|a [|b [|? ?]]]; cbn [length] in Hlen; try lia.
  - unfold toggleColumn. destruct (decide (col = a)) as [->|Hne].
    + rewrite bool_decide_eq_true_2 by (by left). cbv zeta.
      rewrite filter_cons_False, filter_nil by (intros H; by apply H).
      split; [cbn; lia|]. split; [repeat constructor|]. split; [done|].
      intros Hn. exfalso. apply Hn. by left.
    + assert (Hn : col ∉ [a]) by (rewrite list_elem_of_singleton; done).
      rewrite bool_decide_eq_false_2 by done.
      cbn [app]. rewrite sortBy_two.
      case_bool_decide; (split; [cbn; lia|]); (split; [repeat constructor; lia|]);
        (split; [by intros ?|]); intros _ x; cbn [last];
        rewrite !elem_of_cons, elem_of_nil; intuition congruence.
  - apply StronglySorted_inv in Hs as [_ Hab]. apply Forall_cons in Hab as [Hab _].
    unfold toggleColumn.
    destruct (decide (col = a)) as [->|Ha]; [|destruct (decide (col = b)) as [->|Hb]].
    + rewrite bool_decide_eq_true_2 by (by left). cbv zeta.
      rewrite filter_cons_False by (intros H; by apply H).
      rewrite filter_cons_True, filter_nil by lia. rewrite sortBy_one.
      split; [cbn; lia|]. split; [repeat constructor|]. split; [done|].
      intros Hn. exfalso. apply Hn. by left.
    + rewrite bool_decide_eq_true_2 by (right; by left). cbv zeta.
      rewrite filter_cons_True by lia.
      rewrite filter_cons_False, filter_nil by (intros H; by apply H). rewrite sortBy_one.
      split; [cbn; lia|]. split; [repeat constructor|]. split; [done|].
      intros Hn. exfalso. apply Hn. right. by left.
    + assert (Hn : col ∉ [a; b])
        by (rewrite !elem_of_cons, elem_of_nil; intros [?|[?|[]]]; done).
      rewrite bool_decide_eq_false_2 by done.
      rewrite sortBy_two.
      case_bool_decide; (split; [cbn; lia|]); (split; [repeat constructor; lia|]);
        (split; [by intros ?|]); intros _ x; cbn [last];
        rewrite !elem_of_cons, elem_of_nil; intuition congruence.
Qed.

Lemma columns_one_or_two_witness :
  let next := toggleColumn 3 [1; 2] in
  (1 ≤ length next ≤ 2)%nat ∧ StronglySorted Z.lt next
  ∧ (3 ∈ [1; 2] → next = match filter (λ c, c ≠ 3) [1; 2] with [] => [1] | l => l end)
  ∧ (3 ∉ [1; 2] → ∀ x, x ∈ next ↔ x = 3 ∨ last [1; 2] = Some x).
Proof.
  apply (columns_one_or_two 3 [1; 2]); [cbn; lia|repeat constructor; lia].
Defined.

Example toggleColumn_third : toggleColumn 3 [1; 2] = [2; 3].
Proof. reflexivity. Qed.

Example toggleColumn_last : toggleColumn 3 [3] = [1].
Proof. reflexivity. Qed.

(** *** [toggleLevel] *)

Lemma strLt_trans_le a : ∀ b c,
  strLt b a = false → strLt c b = false → strLt c a = false.
Proof.
  induction a as [|x a IH]; intros b c Hba Hcb.
  - by destruct c.
  - destruct b as [|y b]; [done|]. destruct c as [|z c]; [done|].
    cbn [strLt] in *.
    apply orb_false_iff in Hba as [Hyx Hba], Hcb as [Hzy Hcb].
    apply N.ltb_ge in Hyx, Hzy. apply orb_false_iff. split; [apply N.ltb_ge; lia|].
    destruct (N.eqb_spec z x) as [->|]; [|done]. cbn [andb].
    assert (y = x) as -> by lia. rewrite N.eqb_refl in Hba, Hcb. cbn [andb] in Hba, Hcb.
    by apply (IH b c).
Qed.

Lemma strLt_asym s : ∀ t, strLt s t = true → strLt t s = false.
Proof.
  induction s as [|x s IH]; intros [|y t] H; try done.
  cbn [strLt] in *. apply orb_true_iff in H as [H|[H1 H2]%andb_prop].
  - apply N.ltb_lt in H. apply orb_false_iff. split; [apply N.ltb_ge; lia|].
    by rewrite (proj2 (N.eqb_neq y x)) by lia.
  - apply N.eqb_eq in H1 as ->. rewrite N.ltb_irrefl, N.eqb_refl. cbn. by apply IH.
Qed.

Lemma defaultLe_total a b : defaultLe a b = true ∨ defaultLe b a = true.
Proof.
  unfold defaultLe. destruct (strLt (ofZ b) (ofZ a)) eqn:H; [|by left].
  right. by rewrite (strLt_asym _ _ H).
Qed.

Lemma defaultLe_trans a b c :
  defaultLe a b = true → defaultLe b c = true → defaultLe a c = true.
Proof.
  unfold defaultLe. rewrite !negb_true_iff. intros Hab Hbc.
  by apply (strLt_trans_le _ (ofZ b)).
Qed.

Lemma defaultLe_digits a b : 0 ≤ a ≤ 9 → 0 ≤ b ≤ 9 → defaultLe a b = true → a ≤ b.
Proof.
  intros Ha Hb.
  assert (Hcase : ∀ x, 0 ≤ x ≤ 9 →
            x = 0 ∨ x = 1 ∨ x = 2 ∨ x = 3 ∨ x = 4 ∨ x = 5 ∨ x = 6 ∨ x = 7 ∨ x = 8 ∨ x = 9)
    by (intros; lia).
  destruct (Hcase a Ha) as [->|[->|[->|[->|[->|[->|[->|[->|[->| ->]]]]]]]]];
    destruct (Hcase b Hb) as [->|[->|[->|[->|[->|[->|[->|[->|[->| ->]]]]]]]]];
    vm_compute; congruence.
Qed.

(** X15: a click on a level selects it if it was not selected, and takes it
    away if it was; no level comes to stand twice; and the levels from 0 to
    9 stay in increasing order. *)
Theorem level_toggled level prev :
  (∀ x, x ∈ toggleLevel level prev ↔ (x ∈ prev ∧ x ≠ level) ∨ (x = level ∧ level ∉ prev))
  ∧ (NoDup prev → NoDup (toggleLevel level prev))
  ∧ (Forall (λ x, 0 ≤ x ≤ 9) (level :: prev) → StronglySorted Z.le prev →
     StronglySorted Z.le (toggleLevel level prev)).
Proof.
  unfold toggleLevel. case_bool_decide as Hin; (split; [|split]).
  - intros x. rewrite list_elem_of_filter. split; [intros [? ?]; by left|].
    intros [[? ?]|[_ ?]]; done.
  - intros Hnd. by apply NoDup_filter.
  - intros _ Hs. by apply StronglySorted_filter.
  - intros x. rewrite sortBy_perm, elem_of_app, list_elem_of_singleton.
    split; [intros [?| ->]|intros [[? ?]|[-> ?]]]; auto.
    left. split; [done|]. by intros ->.
  - intros Hnd. rewrite sortBy_perm. apply NoDup_app. split; [done|].
    split; [|apply NoDup_singleton].
    intros x Hx ->%list_elem_of_singleton. done.
  - intros Hd _.
    apply (StronglySorted_impl (λ a b, defaultLe a b = true)).
    + intros a b Ha Hb. rewrite Forall_forall in Hd.
      rewrite sortBy_perm, elem_of_app, list_elem_of_singleton in Ha, Hb.
      apply defaultLe_digits; apply Hd; rewrite elem_of_cons; tauto.
    + apply sortBy_sorted; [apply defaultLe_total|apply defaultLe_trans].
Qed.

(** Without a comparator the order is that of the texts: 10 comes before
    2. *)
Example toggleLevel_ten : toggleLevel 10 [2; 3] = [10; 2; 3].
Proof. vm_compute. reflexivity. Qed.

(** *** [toggleMod4Option] *)

(** X16: two clicks on an option of a table leave the options of the tables as
    they were. *)
Theorem option_toggled_twice tableId option prev :
  toggleMod4Option tableId option (toggleMod4Option tableId option prev) = prev.
Proof.
  unfold toggleMod4Option. rewrite map_map. rewrite <- (map_id prev) at 2.
  apply map_ext. intros t. destruct (decide (Mod4.id t = tableId)) as [He|Hne].
  - rewrite (bool_decide_eq_true_2 _ He). simpl. rewrite (bool_decide_eq_true_2 _ He).
    destruct t as [i ix p iss cm mt o]. simpl. f_equal.
    destruct o, option; simpl; by rewrite negb_involutive.
  - rewrite (bool_decide_eq_false_2 _ Hne). by rewrite (bool_decide_eq_false_2 _ Hne).
Qed.

(** *** [toggleGoalSelection] *)

Lemma find_split {A} (P : A → bool) l e :
  List.find P l = Some e →
  ∃ pre post, l = pre ++ e :: post ∧ P e = true ∧ Forall (λ x, P x = false) pre.
Proof.
  induction l as [|x l IH]; [done|]. cbn [List.find].
  destruct (P x) eqn:Hx.
  - intros [= ->]. by exists [], l.
  - intros (pre & post & -> & He & Hpre)%IH.
    exists (x :: pre), post. by repeat split; [|constructor].
Qed.

Lemma find_none {A} (P : A → bool) l :
  List.find P l = None → Forall (λ x, P x = false) l.
Proof.
  induction l as [|x l IH]; [constructor|]. cbn [List.find].
  destruct (P x) eqn:Hx; [done|]. intros H. constructor; auto.
Qed.

Section Toggle.
Context (lv dm gid : jsstring).

Let notFor (s : Selection) : Prop := isFor lv dm s = false.

Lemma isFor_key s : isFor lv dm s = true ↔ (level s, domain s) = (lv, dm).
Proof.
  unfold isFor. rewrite andb_true_iff, !bool_decide_eq_true.
  split; [by intros [-> ->]|by intros [= -> ->]].
Qed.

Lemma notFor_key s : notFor s ↔ (level s, domain s) ≠ (lv, dm).
Proof.
  unfold notFor. rewrite <- isFor_key. by destruct (isFor lv dm s).
Qed.

Lemma selected_app a b l d g : selected (a ++ b) l d g ↔ selected a l d g ∨ selected b l d g.
Proof.
  unfold selected. split.
  - intros (s & x & [Hs|Hs]%elem_of_app & H); [left|right]; by exists s, x.
  - intros [(s & x & Hs & H)|(s & x & Hs & H)]; exists s, x;
      (split; [|done]); apply elem_of_app; auto.
Qed.

Lemma selected_one s l d g :
  selected [s] l d g ↔ level s = l ∧ domain s = d ∧ g ∈ goalId <$> goals s.
Proof.
  unfold selected. split.
  - intros (s' & x & ->%list_elem_of_singleton & ? & ? & Hx & <-).
    split; [done|]. split; [done|]. by apply list_elem_of_fmap_2.
  - intros (? & ? & (x & -> & Hx)%list_elem_of_fmap).
    exists s, x. by rewrite list_elem_of_singleton.
Qed.

Lemma selected_notFor a g : Forall notFor a → ¬ selected a lv dm g.
Proof.
  intros Ha (s & x & Hs & Hl & Hd & _). rewrite Forall_forall in Ha.
  apply Ha, notFor_key in Hs. by rewrite Hl, Hd in Hs.
Qed.

Lemma selected_mid pre e post l d g :
  selected (pre ++ e :: post) l d g
  ↔ selected (pre ++ post) l d g ∨ selected [e] l d g.
Proof.
  change (e :: post) with ([e] ++ post). rewrite !selected_app. tauto.
Qed.

Lemma map_notFor (f : Selection → Selection) a :
  Forall notFor a → map (λ s, if isFor lv dm s then f s else s) a = a.
Proof.
  induction 1 as [|s a Hs _ IH]; [done|]. cbn [map]. unfold notFor in Hs.
  by rewrite Hs, IH.
Qed.

Lemma filter_notFor a :
  Forall notFor a → filter (λ s, isFor lv dm s = false) a = a.
Proof.
  induction 1 as [|s a Hs _ IH]; [done|]. by rewrite filter_cons_True, IH.
Qed.

Lemma wellFormed_split pre e post :
  wellFormed (pre ++ e :: post) → isFor lv dm e = true → Forall notFor pre →
  Forall notFor (pre ++ post).
Proof.
  intros [Hnd _] He Hpre. apply Forall_app. split; [done|].
  rewrite fmap_app, fmap_cons in Hnd.
  apply NoDup_app in Hnd as (_ & _ & Hnd). apply NoDup_cons in Hnd as [Hnot _].
  apply Forall_forall. intros s Hs. apply notFor_key. intros Hk.
  apply Hnot. apply isFor_key in He. rewrite He, <- Hk.
  by apply (list_elem_of_fmap_2 (λ s, (level s, domain s))).
Qed.

Lemma wellFormed_replace pre e post newGoals :
  wellFormed (pre ++ e :: post) → newGoals ≠ [] → NoDup (goalId <$> newGoals) →
  wellFormed (pre ++ withGoals newGoals e :: post).
Proof.
  intros [Hnd Hall] Hne Hg. split.
  - by rewrite fmap_app, fmap_cons in *.
  - rewrite Forall_app, Forall_cons in *. destruct Hall as (? & _ & ?). done.
Qed.

Lemma ids_filter (gs : list SelectedGoal) g :
  g ∈ goalId <$> filter (λ x, goalId x ≠ gid) gs ↔ g ∈ goalId <$> gs ∧ g ≠ gid.
Proof.
  rewrite !list_elem_of_fmap. split.
  - intros (x & -> & [Hx Hin]%list_elem_of_filter). split; [by exists x|done].
  - intros [(x & -> & Hin) Hne]. exists x. split; [done|]. by apply list_elem_of_filter.
Qed.

Lemma find_goal (gs : list SelectedGoal) :
  match List.find (λ g, bool_decide (goalId g = gid)) gs with
  | Some _ => gid ∈ goalId <$> gs
  | None => gid ∉ goalId <$> gs
  end.
Proof.
  destruct (List.find _ gs) as [x|] eqn:Hf.
  - apply find_split in Hf as (pre & post & -> & Hx%bool_decide_eq_true & _).
    rewrite fmap_app, fmap_cons, elem_of_app, elem_of_cons. auto.
  - apply find_none in Hf. rewrite Forall_forall in Hf.
    intros (x & Hx & Hin)%list_elem_of_fmap.
    apply Hf in Hin. by apply bool_decide_eq_false in Hin.
Qed.

(** X17: a click on a goal selects it if it was not selected and takes it away
    if it was, and leaves every other goal as it was; the selections stay
    well formed: one for a domain of a level, none without a goal, no goal
    twice. *)
Theorem goal_toggled prev :
  wellFormed prev →
  let next := toggleGoalSelection lv dm gid prev in
  wellFormed next
  ∧ (selected next lv dm gid ↔ ¬ selected prev lv dm gid)
  ∧ ∀ l d g, (l, d, g) ≠ (lv, dm, gid) → (selected next l d g ↔ selected prev l d g).
Proof.
  intros Hwf next. subst next. unfold toggleGoalSelection.
  destruct (List.find (isFor lv dm) prev) as [e|] eqn:Hfind.
  - apply find_split in Hfind as (pre & post & -> & He & Hpre).
    pose proof (wellFormed_split pre e post Hwf He Hpre) as Hrest.
    apply Forall_app in Hrest as [_ Hpost].
    assert (Hothers : Forall notFor (pre ++ post)) by (by apply Forall_app).
    pose proof (proj1 (isFor_key e) He) as [= Hl Hd].
    destruct Hwf as [Hnd Hall].
    assert (Hge : goals e ≠ [] ∧ NoDup (goalId <$> goals e)).
    { rewrite Forall_app, Forall_cons in Hall. tauto. }
    destruct Hge as [Hge Hgnd].
    assert (Hframe : ∀ e' l d g, level e' = lv → domain e' = dm →
              (g ≠ gid → g ∈ goalId <$> goals e' ↔ g ∈ goalId <$> goals e) →
              (l, d, g) ≠ (lv, dm, gid) →
              selected (pre ++ e' :: post) l d g ↔ selected (pre ++ e :: post) l d g).
    { intros e' l d g Hl' Hd' Hg Hne. rewrite !selected_mid, !selected_one.
      rewrite Hl, Hd, Hl', Hd'.
      destruct (decide (g = gid)) as [->|Hgne].
      - split; (intros [?|(<- & <- & _)]; [by left|done]).
      - specialize (Hg Hgne). tauto. }
    pose proof (find_goal (goals e)) as Hfg.
    destruct (List.find (λ g, bool_decide (goalId g = gid)) (goals e)) as [x|].
    + cbv zeta.
      destruct (filter (λ g, goalId g ≠ gid) (goals e)) as [|y gs] eqn:Hnew.
      * rewrite filter_app, filter_cons_False by (by rewrite He).
        rewrite !filter_notFor by done.
        split; [|split].
        -- split.
           ++ rewrite fmap_app, fmap_cons in Hnd. rewrite fmap_app.
              apply NoDup_app in Hnd as (H1 & H2 & H3). apply NoDup_cons in H3 as [_ H3].
              apply NoDup_app. repeat split; [done| |done].
              intros k Hk Hk'. apply (H2 k Hk). by right.
           ++ rewrite Forall_app, Forall_cons in Hall. apply Forall_app. tauto.
        -- split; [by intros ?%selected_notFor|]. intros Hn. exfalso. apply Hn.
           apply selected_mid. right. by apply selected_one.
        -- intros l d g Hne. rewrite selected_mid, selected_one.
           split; [by left|]. intros [?|(<- & <- & Hg)]; [done|]. exfalso.
           assert (Hgf : g ∈ goalId <$> filter (λ x, goalId x ≠ gid) (goals e)).
           { apply ids_filter. split; [done|]. intros ->. by rewrite Hl, Hd in Hne. }
           rewrite Hnew in Hgf. by apply elem_of_nil in Hgf.
      * rewrite map_app, map_cons, He, !map_notFor by done. rewrite <- Hnew.
        split; [|split].
        -- apply wellFormed_replace; [done|by rewrite Hnew|].
           eapply sublist_NoDup; [exact Hgnd|]. apply fmap_sublist, sublist_filter.
        -- rewrite !selected_mid, !selected_one. cbn [level domain goals withGoals].
           rewrite ids_filter.
           split.
           ++ intros [?%selected_notFor|(_ & _ & _ & ?)]; done.
           ++ intros Hn. exfalso. apply Hn. by right.
        -- intros l d g Hne. apply Hframe; [done|done| |done].
           intros Hgne. cbn [goals withGoals]. rewrite ids_filter. tauto.
    + rewrite map_app, map_cons, He, !map_notFor by done.
      split; [|split].
      * apply wellFormed_replace; [done|by destruct (goals e)|].
        rewrite fmap_app. apply NoDup_app. split; [done|]. split; [|apply NoDup_singleton].
        intros k Hk ->%list_elem_of_singleton. done.
      * rewrite !selected_mid, !selected_one. cbn [level domain goals withGoals].
        rewrite fmap_app, elem_of_app. cbn [fmap list_fmap goalId].
        rewrite list_elem_of_singleton.
        split; [intros _ [?%selected_notFor|(_ & _ & ?)]; done|].
        intros _. right. auto.
      * intros l d g Hne. apply Hframe; [done|done| |done].
        intros Hgne. cbn [goals withGoals].
        rewrite fmap_app, elem_of_app. cbn [fmap list_fmap goalId].
        rewrite list_elem_of_singleton. tauto.
  - apply find_none in Hfind. fold notFor in Hfind.
    destruct Hwf as [Hnd Hall].
    split; [|split].
    + split.
      * rewrite fmap_app. apply NoDup_app. split; [done|]. split; [|apply NoDup_singleton].
        intros k (s & -> & Hs)%list_elem_of_fmap Hk%list_elem_of_singleton.
        rewrite Forall_forall in Hfind. by apply Hfind, notFor_key in Hs.
      * apply Forall_app. split; [done|]. constructor; [|constructor].
        cbn [goals]. split; [done|]. apply NoDup_singleton.
    + rewrite selected_app, selected_one. cbn.
      split; [intros _ ?%selected_notFor; done|]. intros _. right.
      repeat split. by apply list_elem_of_singleton.
    + intros l d g Hne. rewrite selected_app, selected_one. cbn.
      split; [|by left]. intros [?|(<- & <- & ->%list_elem_of_singleton)]; done.
Qed.
End Toggle.

Lemma goal_toggled_witness :
  let prev := [ {| level := js "Cấp độ 1"; domain := js "Chơi";
                   goals := [ {| goalId := js "M1"; suffix := MTC |} ] |} ] in
  let next := toggleGoalSelection (js "Cấp độ 1") (js "Chơi") (js "M1") prev in
  wellFormed next
  ∧ (selected next (js "Cấp độ 1") (js "Chơi") (js "M1")
     ↔ ¬ selected prev (js "Cấp độ 1") (js "Chơi") (js "M1"))
  ∧ ∀ l d g, (l, d, g) ≠ (js "Cấp độ 1", js "Chơi", js "M1") →
             (selected next l d g ↔ selected prev l d g).
Proof.
  apply (goal_toggled (js "Cấp độ 1") (js "Chơi") (js "M1")).
  split; [apply NoDup_singleton|].
  constructor; [|constructor]. split; [done|apply NoDup_singleton].
Defined.

End UIProps.

Module SuffixProps.
Import UI UIProps.

(** X18: choosing a suffix for a goal gives that suffix to the goal if it is
    selected, selects nothing, and leaves every other selected goal with the
    suffix it had. *)
Theorem suffix_updated lv dm gid sfx prev l d g x :
  marked (updateGoalSuffix lv dm gid sfx prev) l d g x
  ↔ if decide ((l, d, g) = (lv, dm, gid)) then selected prev l d g ∧ x = sfx
    else marked prev l d g x.
Proof.
  unfold updateGoalSuffix.
  set (G := λ y : SelectedGoal,
         if bool_decide (goalId y = gid) then {| goalId := goalId y; suffix := sfx |} else y).
  set (F := λ s : Selection, if isFor lv dm s then withGoals (map G (goals s)) s else s).
  assert (HF : ∀ s, level (F s) = level s ∧ domain (F s) = domain s
                    ∧ goals (F s) = if isFor lv dm s then map G (goals s) else goals s).
  { intros s. unfold F. by destruct (isFor lv dm s). }
  assert (HG : ∀ y, goalId (G y) = goalId y
                    ∧ suffix (G y) = if bool_decide (goalId y = gid) then sfx else suffix y).
  { intros y. unfold G. by destruct (bool_decide (goalId y = gid)). }
  assert (Hstep : marked (map F prev) l d g x
            ↔ ∃ s y, s ∈ prev ∧ level s = l ∧ domain s = d ∧ y ∈ goals (F s)
                     ∧ goalId y = g ∧ suffix y = x).
  { unfold marked. split.
    - intros (s' & y & (s & -> & Hs)%(list_elem_of_fmap (B := Selection)) & Hl & Hd & Hy).
      destruct (HF s) as (El & Ed & _). exists s, y. by rewrite <- El, <- Ed.
    - intros (s & y & Hs & Hl & Hd & Hy). exists (F s), y.
      destruct (HF s) as (El & Ed & _). rewrite El, Ed.
      split; [|done]. by apply (list_elem_of_fmap_2 (B := Selection)). }
  rewrite Hstep. clear Hstep. destruct (decide ((l, d, g) = (lv, dm, gid))) as [[= -> -> ->]|Hne].
  - split.
    + intros (s & y' & Hs & Hl & Hd & Hy & Hg & Hx).
      destruct (HF s) as (_ & _ & Eg). rewrite Eg in Hy.
      rewrite (proj2 (isFor_key lv dm s)) in Hy by (by rewrite Hl, Hd).
      apply (list_elem_of_fmap (B := SelectedGoal)) in Hy as (y & -> & Hy).
      destruct (HG y) as [Ei Es]. rewrite Ei in Hg. rewrite Es, bool_decide_eq_true_2 in Hx by done.
      split; [by exists s, y|done].
    + intros [(s & y & Hs & Hl & Hd & Hy & Hg) ->]. exists s, (G y).
      destruct (HF s) as (_ & _ & Eg). destruct (HG y) as [Ei Es].
      rewrite Eg. rewrite (proj2 (isFor_key lv dm s)) by (by rewrite Hl, Hd).
      rewrite Ei, Es, bool_decide_eq_true_2 by done.
      repeat split; try done. by apply (list_elem_of_fmap_2 (B := SelectedGoal)).
  - unfold marked. split.
    + intros (s & y' & Hs & Hl & Hd & Hy & Hg & Hx). exists s.
      destruct (HF s) as (_ & _ & Eg). rewrite Eg in Hy.
      destruct (isFor lv dm s) eqn:Hfor; [|by exists y'].
      apply isFor_key in Hfor as [= El Ed].
      apply (list_elem_of_fmap (B := SelectedGoal)) in Hy as (y & -> & Hy).
      destruct (HG y) as [Ei Es]. rewrite Ei in Hg.
      rewrite Es, bool_decide_eq_false_2 in Hx by congruence. by exists y.
    + intros (s & y & Hs & Hl & Hd & Hy & Hg & Hx).
      destruct (HF s) as (_ & _ & Eg).
      destruct (isFor lv dm s) eqn:Hfor; [|exists s, y; by rewrite Eg].
      apply isFor_key in Hfor as [= El Ed]. exists s, (G y).
      destruct (HG y) as [Ei Es]. rewrite Eg, Ei, Es, bool_decide_eq_false_2 by congruence.
      repeat split; try done. by apply (list_elem_of_fmap_2 (B := SelectedGoal)).
Qed.

End SuffixProps.

(** ** Reading the goals from a workbook *)

Module ExcelProps.
Import UI UIProps Excel.
Local Open Scope nat_scope.

Section Scan.
Context {number : Type} (isFalsy : number → bool) (numberToString : number → jsstring).

Let lowerNames (ds : list EsdmDomain) : list jsstring := (λ d, toLowerCase (name d)) <$> ds.

Let goalsOk (d : EsdmDomain) : Prop :=
  NoDup (id <$> goals d) ∧ Forall (λ g, text g ≠ []) (goals d).

Let inv (st : scan) : Prop :=
  NoDup (lowerNames (found st)) ∧ Forall goalsOk (found st).

Lemma findDomain_none nm ds :
  findDomain nm ds = None → toLowerCase nm ∉ lowerNames ds.
Proof.
  induction ds as [|d ds IH]; cbn [findDomain]; [intros _; apply not_elem_of_nil|].
  case_bool_decide as Hd; [done|].
  destruct (findDomain nm ds); [done|]. intros _.
  unfold lowerNames. rewrite fmap_cons. apply not_elem_of_cons. split; [congruence|by apply IH].
Qed.

Lemma existsb_id (gs : list EsdmGoal) i :
  existsb (λ g, bool_decide (id g = i)) gs = false → i ∉ id <$> gs.
Proof.
  induction gs as [|g gs IH]; [intros _; apply not_elem_of_nil|].
  cbn [existsb]. intros [Hg Hgs]%orb_false_iff. apply bool_decide_eq_false in Hg.
  rewrite fmap_cons. apply not_elem_of_cons. split; [congruence|by apply IH].
Qed.

Lemma scanRow_inv smart st r :
  inv st → inv (scanRow isFalsy numberToString smart st r).
Proof.
  intros [Hn Hg]. unfold scanRow.
  destruct r as [[|c0 cells]|]; try done.
  destruct (trim (textOr isFalsy numberToString (Some c0))) as [|x0 v0] eqn:Hv; [done|].
  rewrite <- Hv. clear Hv x0 v0.
  set (val0 := trim (textOr isFalsy numberToString (Some c0))).
  destruct (isGoalRowIndicator val0).
  - destruct (currentDomain st) as [i|]; [|done].
    destruct (found st !! i) as [d|] eqn:Hd; [|done]. cbv zeta.
    destruct (bool_decide (goalTextOf isFalsy numberToString smart (c0 :: cells) = [])) eqn:Ht;
      [done|].
    destruct (existsb (λ g, bool_decide (id g = goalIdOf val0)) (goals d)) eqn:He; [done|].
    cbn [negb andb]. apply bool_decide_eq_false in Ht. apply existsb_id in He.
    split; cbn [found].
    + unfold lowerNames. rewrite list_fmap_insert. cbn [name addGoal].
      rewrite list_insert_id; [done|]. by rewrite list_lookup_fmap, Hd.
    + apply Forall_insert; [done|].
      rewrite Forall_forall in Hg. destruct (Hg d (list_elem_of_lookup_2 _ _ _ Hd)) as [Hnd Hall].
      split; cbn [goals addGoal].
      * rewrite fmap_app. apply NoDup_app. split; [done|]. split; [|apply NoDup_singleton].
        intros k Hk ->%list_elem_of_singleton. done.
      * apply Forall_app. split; [done|]. by repeat constructor.
  - destruct (isDomainLabel val0); [|done].
    destruct (findDomain val0 (found st)) as [i|] eqn:Hf; [done|].
    apply findDomain_none in Hf. split; cbn [found].
    + unfold lowerNames in *. rewrite fmap_app. apply NoDup_app. split; [done|].
      split; [|apply NoDup_singleton].
      intros k Hk ->%list_elem_of_singleton. done.
    + apply Forall_app. split; [done|]. constructor; [|constructor].
      split; cbn [goals]; constructor.
Qed.

Lemma scan_inv smart rows st :
  inv st → inv (foldl (scanRow isFalsy numberToString smart) st rows).
Proof.
  revert st. induction rows as [|r rows IH]; intros st Hst; [done|].
  cbn [foldl]. by apply IH, scanRow_inv.
Qed.

Lemma sheetDomains_ok rows :
  NoDup (lowerNames (sheetDomains isFalsy numberToString rows))
  ∧ Forall wellFormedDomain (sheetDomains isFalsy numberToString rows).
Proof.
  unfold sheetDomains. cbv zeta.
  destruct (scan_inv (smartGoalColIndex isFalsy numberToString rows) rows (Scan [] None))
    as [Hn Hg].
  { split; cbn; constructor. }
  split.
  - eapply sublist_NoDup; [exact Hn|]. apply fmap_sublist, sublist_filter.
  - apply Forall_forall. intros d [Hne Hd]%list_elem_of_filter.
    rewrite Forall_forall in Hg. destruct (Hg d Hd). by split.
Qed.

Context (collate : jsstring → jsstring → bool).

(** X19: every level that PARSE_EXCEL returns is a sheet of the workbook and
  has a domain; the names of its domains differ, also when upper and
  lower case are taken for the same; and each domain has goals, each
  with a text, no two with the same identifier. *)
Theorem parsed_levels_well_formed sheets :
  Forall (λ lvl,
            levelName lvl ∈ sheets.*1
            ∧ domains lvl ≠ []
            ∧ NoDup ((λ d, toLowerCase (name d)) <$> domains lvl)
            ∧ Forall wellFormedDomain (domains lvl))
         (parseExcel isFalsy numberToString collate sheets).
Proof.
  unfold parseExcel. cbv zeta. apply Forall_forall. intros lvl.
  rewrite sortBy_perm. rewrite list_elem_of_omap.
  intros ([sheetName rows] & Hin & Hl).
  destruct rows as [|r rows]; [done|].
  pose proof (sheetDomains_ok (r :: rows)) as [Hn Hw].
  destruct (sheetDomains isFalsy numberToString (r :: rows)) as [|d ds]; [done|].
  injection Hl as <-. cbn [levelName domains].
  split; [|done].
  apply list_elem_of_fmap. by exists (sheetName, r :: rows).
Qed.

(** X20: goals that stand above the first label of a domain belong to no
  domain and are left out: a sheet without a label gives no domain. *)
Theorem sheet_without_label rows :
  Forall (λ r : @row number,
            match r with
            | Some (c0 :: _) =>
              isGoalRowIndicator (trim (textOr isFalsy numberToString (Some c0))) = true
              ∨ isDomainLabel (trim (textOr isFalsy numberToString (Some c0))) = false
            | _ => True
            end) rows →
  sheetDomains isFalsy numberToString rows = [].
Proof.
  intros Hrows. unfold sheetDomains. cbv zeta.
  enough (H : foldl (scanRow isFalsy numberToString
                       (smartGoalColIndex isFalsy numberToString rows)) (Scan [] None) rows
              = Scan [] None) by (by rewrite H).
  generalize (smartGoalColIndex isFalsy numberToString rows). intros smart.
  induction Hrows as [|r rows Hr _ IH]; [done|]. cbn [foldl].
  enough (Hs : scanRow isFalsy numberToString smart (Scan [] None) r = Scan [] None)
    by (by rewrite Hs).
  unfold scanRow. destruct r as [[|c0 cells]|]; try done.
  destruct (trim (textOr isFalsy numberToString (Some c0))) as [|x0 v0] eqn:Hv; [done|].
  rewrite <- Hv in Hr |- *. destruct Hr as [->|Hr]; [done|].
  rewrite Hr. by destruct (isGoalRowIndicator _).
Qed.
End Scan.

Example sheet_example :
  sheetDomains (Z.eqb 0) ofZ
    [ Some [CStr (js "STT"); CStr (js "Mục tiêu SMART")];
      Some [CNum 1%Z; CStr (js "lạc dòng")];
      Some [CStr (js "Bắt chước"); CStr []];
      Some [CNum 1%Z; CStr (js "bắt chước hành động")];
      Some [CStr (js "m2."); CStr (js "bắt chước âm thanh")];
      Some [CStr (js "M1"); CStr (js "trùng mã")];
      Some [CStr (js "BẮT CHƯỚC"); CStr []];
      Some [CStr (js "1.2"); CStr (js "bắt chước cử chỉ")];
      Some [CStr (js "Chơi"); CStr []] ]
  = [ {| name := js "Bắt chước";
         goals := [ {| id := js "M1"; text := js "bắt chước hành động" |};
                    {| id := js "M2"; text := js "bắt chước âm thanh" |};
                    {| id := js "1.2"; text := js "bắt chước cử chỉ" |} ] |} ].
Proof. vm_compute. reflexivity. Qed.

Lemma sheet_without_label_witness :
  sheetDomains (Z.eqb 0) ofZ
    [ Some [CStr (js "STT"); CStr (js "Mục tiêu SMART")];
      Some [CNum 1%Z; CStr (js "bắt chước hành động")];
      None ]
  = [].
Proof.
  apply (sheet_without_label (Z.eqb 0) ofZ).
  constructor; [right; vm_compute; reflexivity|].
  constructor; [left; vm_compute; reflexivity|].
  constructor; [exact I|constructor].
Defined.

End ExcelProps.

(** ** The goals of the plan *)

Module IEPProps.
Import IEP UIProps.
Local Open Scope nat_scope.

Lemma find_elem {A} (P : A → bool) l e : List.find P l = Some e → e ∈ l ∧ P e = true.
Proof.
  intros (pre & post & -> & He & _)%find_split. split; [|done].
  apply elem_of_app. right. apply elem_of_cons. by left.
Qed.

Lemma find_unique {A B} (f : A → B) `{EqDecision B} (l : list A) (x : A) :
  NoDup (f <$> l) → x ∈ l → List.find (λ y, bool_decide (f y = f x)) l = Some x.
Proof.
  induction l as [|y l IH]; intros Hnd Hx; [by apply elem_of_nil in Hx|].
  rewrite fmap_cons in Hnd. apply NoDup_cons in Hnd as [Hy Hnd]. cbn [List.find].
  apply elem_of_cons in Hx as [->|Hx].
  - by rewrite bool_decide_eq_true_2.
  - rewrite bool_decide_eq_false_2; [by apply IH|].
    intros Heq. apply Hy. rewrite Heq. by apply list_elem_of_fmap_2.
Qed.

Lemma fmap_NoDup_inj {A B} (f : A → B) `{EqDecision B} (l : list A) (x y : A) :
  NoDup (f <$> l) → x ∈ l → y ∈ l → f x = f y → x = y.
Proof.
  intros Hnd Hx Hy Heq. pose proof (find_unique f l x Hnd Hx) as H1.
  pose proof (find_unique f l y Hnd Hy) as H2. rewrite Heq in H1. congruence.
Qed.

Lemma find_some_id (gs : list Excel.EsdmGoal) g :
  g ∈ gs → ∃ g', List.find (λ x, bool_decide (Excel.id x = Excel.id g)) gs = Some g'.
Proof.
  intros Hg. destruct (List.find _ gs) as [g'|] eqn:Hf; [by exists g'|].
  apply find_none in Hf. rewrite Forall_forall in Hf. apply Hf in Hg.
  by apply bool_decide_eq_false in Hg.
Qed.

Lemma goals_of_domain esdmData lvl dom (d : Excel.EsdmDomain) (gs : list UI.SelectedGoal) :
  (∀ x, x ∈ Excel.goals d → goalOf esdmData lvl dom x) →
  Forall (λ sGoal, ∃ x, x ∈ Excel.goals d ∧ Excel.id x = UI.goalId sGoal) gs →
  let row sGoal :=
    (λ goal, {| levelName := lvl; domainName := dom;
                goalId := Excel.id goal; longTermGoal := Excel.text goal;
                suffix := UI.suffix sGoal |})
      <$> (Some d ≫= λ d, List.find (λ g, bool_decide (Excel.id g = UI.goalId sGoal))
                                     (Excel.goals d)) in
  shown <$> omap row gs = (λ sGoal, (lvl, dom, UI.goalId sGoal, UI.suffix sGoal)) <$> gs
  ∧ Forall (λ p, ∃ g, goalOf esdmData (levelName p) (domainName p) g
                      ∧ Excel.id g = goalId p ∧ Excel.text g = longTermGoal p)
           (omap row gs).
Proof.
  intros Hall Hgs row. induction gs as [|sg gs IH]; [by split; [|constructor]|].
  apply Forall_cons in Hgs as [(x & Hx & Hid) Hgs]. destruct (IH Hgs) as [IHa IHb].
  destruct (find_some_id _ _ Hx) as [g' Hg'].
  assert (Hrow : row sg = Some {| levelName := lvl; domainName := dom;
                                  goalId := Excel.id g'; longTermGoal := Excel.text g';
                                  suffix := UI.suffix sg |}).
  { unfold row. cbn [mbind option_bind]. by rewrite <- Hid, Hg'. }
  apply find_elem in Hg' as [Hin Heq%bool_decide_eq_true].
  cbn [omap list_omap]. rewrite Hrow, !fmap_cons. split.
  - rewrite IHa. unfold shown. cbn. by rewrite Heq, Hid.
  - constructor; [|done]. exists g'. cbn. repeat split. by apply Hall.
Qed.

Lemma goals_of_data esdmData lvl dom (domainData : option Excel.EsdmDomain)
    (gs : list UI.SelectedGoal) :
  (∀ d x, domainData = Some d → x ∈ Excel.goals d → goalOf esdmData lvl dom x) →
  let row sGoal :=
    (λ goal, {| levelName := lvl; domainName := dom;
                goalId := Excel.id goal; longTermGoal := Excel.text goal;
                suffix := UI.suffix sGoal |})
      <$> (domainData ≫= λ d, List.find (λ g, bool_decide (Excel.id g = UI.goalId sGoal))
                                         (Excel.goals d)) in
  Forall (λ p, ∃ g, goalOf esdmData (levelName p) (domainName p) g
                    ∧ Excel.id g = goalId p ∧ Excel.text g = longTermGoal p)
         (omap row gs)
  ∧ sublist (shown <$> omap row gs)
            ((λ sGoal, (lvl, dom, UI.goalId sGoal, UI.suffix sGoal)) <$> gs).
Proof.
  intros Hall row. induction gs as [|sg gs [IHa IHb]]; [by split; [constructor|]|].
  cbn [omap list_omap]. rewrite fmap_cons.
  destruct (row sg) as [p|] eqn:Hrow; [|split; [done|by apply sublist_cons]].
  unfold row in Hrow. destruct domainData as [d|]; [|done]. cbn [mbind option_bind] in Hrow.
  destruct (List.find _ (Excel.goals d)) as [g|] eqn:Hfind; [|done].
  apply find_elem in Hfind as [Hin Heq%bool_decide_eq_true].
  injection Hrow as <-. split.
  - constructor; [|done]. exists g. cbn. repeat split. by apply (Hall d).
  - rewrite fmap_cons. unfold shown at 1. cbn. rewrite Heq. by apply sublist_skip.
Qed.

(** X21: whatever the selections and the workbook are, a goal of the plan is
    a goal of the workbook, in the domain and the level it is shown under,
    with its text, and the plan lists selected goals only, in the order of
    the selections, each with its suffix.  When no two levels of the
    workbook share a name and no two domains of a level do, and every
    selected goal is in the workbook, the plan lists all the selected
    goals. *)
Theorem plan_of_selections selections esdmData :
  Forall (λ p, ∃ g, goalOf esdmData (levelName p) (domainName p) g
                    ∧ Excel.id g = goalId p ∧ Excel.text g = longTermGoal p)
         (processedData selections esdmData)
  ∧ sublist (shown <$> processedData selections esdmData) (selections ≫= chosen)
  ∧ (NoDup (Excel.levelName <$> esdmData) →
     Forall (λ l, NoDup (Excel.name <$> Excel.domains l)) esdmData →
     Forall (λ sel, Forall (λ sGoal, ∃ g, goalOf esdmData (UI.level sel) (UI.domain sel) g
                                          ∧ Excel.id g = UI.goalId sGoal) (UI.goals sel))
            selections →
     shown <$> processedData selections esdmData = selections ≫= chosen).
Proof.
  assert (Hsound :
    Forall (λ p, ∃ g, goalOf esdmData (levelName p) (domainName p) g
                      ∧ Excel.id g = goalId p ∧ Excel.text g = longTermGoal p)
           (processedData selections esdmData)
    ∧ sublist (shown <$> processedData selections esdmData) (selections ≫= chosen)).
  { unfold processedData.
    induction selections as [|sel sels [IH1 IH2]]; [by split; [constructor|]|].
    cbn [flat_map]. rewrite fmap_app, Forall_app. cbn [mbind list_bind].
    change (flat_map chosen sels) with (sels ≫= chosen).
    destruct (goals_of_data esdmData (UI.level sel) (UI.domain sel)
                (List.find (λ l, bool_decide (Excel.levelName l = UI.level sel)) esdmData
                   ≫= (λ l, List.find (λ d, bool_decide (Excel.name d = UI.domain sel))
                                      (Excel.domains l)))
                (UI.goals sel)) as [H1 H2].
    - intros d x Hd Hx.
      destruct (List.find _ esdmData) as [lv|] eqn:Hlv; [|done].
      cbn [mbind option_bind] in Hd.
      apply find_elem in Hlv as [Hlv Hname%bool_decide_eq_true].
      apply find_elem in Hd as [Hd Hdname%bool_decide_eq_true].
      by exists lv, d.
    - split; [by split|]. by apply sublist_app. }
  destruct Hsound as [Hs1 Hs2]. split; [done|]. split; [done|]. clear Hs1 Hs2.
  intros Hl Hd Hsel. unfold processedData.
  induction selections as [|sel sels IH]; [done|].
  apply Forall_cons in Hsel as [Hgs Hsel]. specialize (IH Hsel).
  cbn [flat_map]. rewrite fmap_app, IH. cbn [mbind list_bind].
  change (flat_map chosen sels) with (sels ≫= chosen). f_equal.
  assert (Hch : chosen sel = (λ sGoal, (UI.level sel, UI.domain sel, UI.goalId sGoal,
                                        UI.suffix sGoal)) <$> UI.goals sel) by done.
  rewrite Hch. clear Hch.
  destruct (UI.goals sel) as [|sg0 gs0] eqn:Hgoals; [done|].
  pose proof Hgs as Hfirst. rewrite Forall_forall in Hfirst.
  assert (Hdom : ∃ lv dm, lv ∈ esdmData ∧ Excel.levelName lv = UI.level sel
                          ∧ dm ∈ Excel.domains lv ∧ Excel.name dm = UI.domain sel).
  { destruct (Hfirst sg0) as (g & (lv & dm & ? & ? & ? & ? & ?) & _);
      [apply elem_of_cons; by left|]. by exists lv, dm. }
  destruct Hdom as (lv & dm & Hlv & Hname & Hdm & Hdname).
  assert (Hfind : List.find (λ l, bool_decide (Excel.levelName l = UI.level sel)) esdmData
                    ≫= (λ l, List.find (λ d, bool_decide (Excel.name d = UI.domain sel))
                                       (Excel.domains l)) = Some dm).
  { rewrite <- Hname, (find_unique Excel.levelName esdmData lv Hl Hlv).
    cbn [mbind option_bind]. rewrite <- Hdname. rewrite Forall_forall in Hd.
    apply (find_unique Excel.name (Excel.domains lv) dm (Hd lv Hlv) Hdm). }
  rewrite Hfind.
  destruct (goals_of_domain esdmData (UI.level sel) (UI.domain sel) dm (sg0 :: gs0))
    as [H1 H2]; [| |done].
  - intros x Hx. by exists lv, dm.
  - apply Forall_forall. intros sg Hsg.
    destruct (Hfirst sg Hsg) as (g & (lv' & dm' & Hlv' & Hname' & Hdm' & Hdname' & Hg) & Hid).
    assert (lv' = lv) as ->.
    { apply (fmap_NoDup_inj Excel.levelName esdmData); try done. congruence. }
    assert (dm' = dm) as ->.
    { rewrite Forall_forall in Hd.
      apply (fmap_NoDup_inj Excel.name (Excel.domains lv)); try done; [auto|congruence]. }
    by exists g.
Qed.

Lemma plan_of_selections_witness :
  let goal i t := {| Excel.id := js i; Excel.text := js t |} in
  let esdmData :=
    [ {| Excel.levelName := js "Cấp độ 1";
         Excel.domains := [ {| Excel.name := js "Giao tiếp";
                               Excel.goals := [goal "M1" "Nhìn theo vật"; goal "M2" "Với tay"] |} ] |} ] in
  let selections :=
    [ {| UI.level := js "Cấp độ 1"; UI.domain := js "Giao tiếp";
         UI.goals := [ {| UI.goalId := js "M2"; UI.suffix := UI.MTC |} ] |} ] in
  shown <$> processedData selections esdmData = selections ≫= chosen.
Proof.
  intros goal esdmData selections.
  apply (proj2 (proj2 (plan_of_selections selections esdmData))).
  - apply NoDup_singleton.
  - constructor; [|constructor]. apply NoDup_singleton.
  - constructor; [|constructor]. constructor; [|constructor]. exists (goal "M2" "Với tay"). split; [|reflexivity].
    eexists _, _. split; [apply list_elem_of_singleton; reflexivity|].
    split; [reflexivity|]. split; [apply list_elem_of_singleton; reflexivity|].
    split; [reflexivity|]. apply elem_of_cons. right. by apply list_elem_of_singleton.
Defined.

Lemma uniq_spec {A} `{EqDecision A} (l : list A) :
  NoDup (uniq l) ∧ ∀ x, x ∈ uniq l ↔ x ∈ l.
Proof.
  unfold uniq.
  enough (Hall : ∀ seen, NoDup seen →
    NoDup (foldl (λ seen x, if bool_decide (x ∈ seen) then seen else seen ++ [x]) seen l)
    ∧ ∀ x, x ∈ foldl (λ seen x, if bool_decide (x ∈ seen) then seen else seen ++ [x]) seen l
           ↔ x ∈ seen ∨ x ∈ l).
  { destruct (Hall [] (NoDup_nil_2)) as [H1 H2]. split; [done|].
    intros x. rewrite H2. split; [intros [H|H]; [by apply elem_of_nil in H|done]|by right]. }
  induction l as [|y l IH]; intros seen Hnd; cbn [foldl].
  - split; [done|]. intros x. split; [by left|]. intros [?|H]; [done|by apply elem_of_nil in H].
  - case_bool_decide as Hy.
    + destruct (IH seen Hnd) as [H1 H2]. split; [done|].
      intros x. rewrite H2, elem_of_cons. split; [tauto|]. intros [?|[->|?]]; auto.
    + destruct (IH (seen ++ [y])) as [H1 H2].
      { apply NoDup_app. repeat split; [done| |apply NoDup_singleton].
        intros x Hx ->%list_elem_of_singleton. done. }
      split; [done|]. intros x. rewrite H2, elem_of_app, list_elem_of_singleton, elem_of_cons.
      tauto.
Qed.

Lemma filter_keys {A K} `{EqDecision K} (key : A → K) (k : K) (ks : list K) (l : list A) :
  k ∉ ks →
  filter (λ g, key g ∈ k :: ks) l ≡ₚ filter (λ g, key g = k) l ++ filter (λ g, key g ∈ ks) l.
Proof.
  intros Hk. induction l as [|g l IH]; [done|].
  rewrite !filter_cons. destruct (decide (key g = k)) as [Heq|Hne].
  - rewrite decide_True by (apply elem_of_cons; by left).
    rewrite decide_False by (by rewrite Heq). cbn [app]. by rewrite IH.
  - destruct (decide (key g ∈ ks)) as [Hin|Hout].
    + rewrite decide_True by (apply elem_of_cons; by right).
      rewrite IH. apply Permutation_middle.
    + rewrite decide_False; [done|]. by intros [?|?]%elem_of_cons.
Qed.

Lemma filter_all {A} (P : A → Prop) `{∀ x, Decision (P x)} (l : list A) :
  (∀ x, x ∈ l → P x) → filter P l = l.
Proof.
  induction l as [|x l IH]; intros Hall; [done|].
  rewrite filter_cons_True by (apply Hall, elem_of_cons; by left).
  f_equal. apply IH. intros y Hy. apply Hall, elem_of_cons. by right.
Qed.

Lemma groups_by_key {A K} `{EqDecision K} (key : A → K) (ks : list K) (l : list A) :
  NoDup ks →
  mjoin ((λ k, filter (λ g, key g = k) l) <$> ks) ≡ₚ filter (λ g, key g ∈ ks) l.
Proof.
  induction ks as [|k ks IH]; intros Hnd.
  - cbn. induction l as [|g l IHl]; [done|].
    rewrite filter_cons, decide_False; [done|]. apply not_elem_of_nil.
  - apply NoDup_cons in Hnd as [Hk Hnd]. rewrite fmap_cons. cbn [mjoin list_join].
    rewrite IH by done. symmetry. by apply filter_keys.
Qed.

(** X22: the goals of the plan are grouped by the name of their domain, the
    domains in the order of their first goal: no domain comes twice, none is
    without a goal, and the groups together hold every goal of the plan
    once. *)
Theorem goals_grouped processedData :
  NoDup (domainsInOrder processedData)
  ∧ Forall (λ d, domainGoals processedData d ≠ []) (domainsInOrder processedData)
  ∧ mjoin (domainGoals processedData <$> domainsInOrder processedData) ≡ₚ processedData.
Proof.
  unfold domainsInOrder, domainGoals.
  destruct (uniq_spec (domainName <$> processedData)) as [Hnd Hin].
  split; [done|]. split.
  - apply Forall_forall. intros d Hd. apply Hin in Hd.
    apply list_elem_of_fmap in Hd as (g & -> & Hg).
    intros Hnil. assert (Hg' : g ∈ filter (λ x, domainName x = domainName g) processedData)
      by (by apply list_elem_of_filter).
    rewrite Hnil in Hg'. by apply elem_of_nil in Hg'.
  - rewrite (groups_by_key domainName) by done.
    rewrite filter_all; [done|].
    intros g Hg. apply Hin. by apply list_elem_of_fmap_2.
Qed.

End IEPProps.

(** ** The rows of the short goals *)

Module SplitProps.
Import Synthesizer.
Local Open Scope Z_scope.

(** X23: the third row always shows the long-term goal as it is, and there
    are three rows, whatever the text and whether or not the goals are
    split. *)
Theorem three_rows smartSplitting txt :
  ∃ r1 r2, shortGoalsRaw smartSplitting txt = [r1; r2; txt].
Proof.
  unfold shortGoalsRaw. destruct smartSplitting; cbn [negb]; [|by eexists _, _].
  destruct (jsmatch txt rangeRe) as [m|].
  { cbv zeta. destruct (_ >? _); by eexists _, _. }
  destruct (jsmatch txt ratioRe) as [m|].
  { cbv zeta. destruct (_ <=? _); by eexists _, _. }
  destruct (jsmatch txt pctRe) as [m|]; [by eexists _, _|].
  destruct (jsmatch txt unitRe) as [m|]; by eexists _, _.
Qed.

Lemma parseInt_nonneg s : 0 ≤ parseInt s.
Proof.
  unfold parseInt.
  enough (H : ∀ acc, 0 ≤ acc →
            0 ≤ fold_left (λ acc c, acc * 10 + (Z.of_N c - 48)) (takeWhile isDigit s) acc)
    by (by apply H).
  induction s as [|c s IH]; intros acc Hacc; cbn [takeWhile fold_left]; [done|].
  destruct (isDigit c) eqn:Hc; cbn [fold_left]; [|done].
  apply IH. unfold isDigit in Hc. apply andb_prop in Hc as [H1 H2].
  apply N.leb_le in H1, H2. lia.
Qed.

(** X24: a goal with a percentage and neither a range nor a ratio: the first
    two rows carry the third and the two thirds of the percentage, rounded
    to the nearest whole number; so they rise from the first row to the
    third.  The percentage has at most 15 digits here, where the numbers of
    the program are exact. *)
Theorem percent_thirds txt m :
  jsmatch txt rangeRe = None → jsmatch txt ratioRe = None → jsmatch txt pctRe = Some m →
  let x := parseInt (groupOr m 1) in
  x < 10 ^ 15 →
  ∃ x1 x2,
    shortGoalsRaw true txt
    = [ replace txt (full m) (ofZ x1 ++ js "%"); replace txt (full m) (ofZ x2 ++ js "%"); txt ]
    ∧ Z.abs (3 * x1 - x) ≤ 1 ∧ Z.abs (3 * x2 - 2 * x) ≤ 1
    ∧ 0 ≤ x1 ≤ x2 ∧ x2 ≤ x.
Proof.
  intros Hr Hq Hp x _. pose proof (parseInt_nonneg (groupOr m 1)) as Hx. fold x in Hx.
  unfold shortGoalsRaw. cbn [negb]. rewrite Hr, Hq, Hp. cbv zeta. fold x.
  eexists _, _. split; [reflexivity|]. unfold roundDiv3.
  pose proof (Z.div_mod (2 * x + 3) 6 ltac:(lia)).
  pose proof (Z.mod_pos_bound (2 * x + 3) 6 ltac:(lia)).
  pose proof (Z.div_mod (2 * (x * 2) + 3) 6 ltac:(lia)).
  pose proof (Z.mod_pos_bound (2 * (x * 2) + 3) 6 ltac:(lia)).
  lia.
Qed.

Lemma percent_thirds_witness :
  ∃ x1 x2,
    shortGoalsRaw true (js "đạt 80% cơ hội")
    = [ replace (js "đạt 80% cơ hội") (js "80%") (ofZ x1 ++ js "%");
        replace (js "đạt 80% cơ hội") (js "80%") (ofZ x2 ++ js "%");
        js "đạt 80% cơ hội" ]
    ∧ Z.abs (3 * x1 - 80) ≤ 1 ∧ Z.abs (3 * x2 - 2 * 80) ≤ 1
    ∧ 0 ≤ x1 ≤ x2 ∧ x2 ≤ 80.
Proof.
  apply (percent_thirds (js "đạt 80% cơ hội") (Match 4 (js "80%") [(1%nat, js "80")]));
    vm_compute; reflexivity.
Defined.

End SplitProps.

(** ** The header of the skill table *)

Module HeaderProps.
Import DOM SmartFill RegexFacts.
Local Open Scope nat_scope.

(** Whatever a pattern matches first, a successful match went through the
    continuation. *)
Lemma repeatMatcher_through (m1 : cont → cont) gs greedy :
  (∀ k s e, m1 k s = Some e → ∃ s', k s' = Some e) →
  ∀ fuel lo hi k s e,
    repeatMatcher m1 gs greedy fuel lo hi k s = Some e → ∃ s', k s' = Some e.
Proof.
  intros Hm1. induction fuel as [|fuel IH]; intros lo hi k s e H; [done|].
  cbn [repeatMatcher] in H. destruct (bool_decide (hi = Some 0)); [by exists s|].
  assert (Hagain : ∀ t,
    m1 (λ s', if bool_decide (lo = 0) && bool_decide (pos s' = pos s) then None
              else repeatMatcher m1 gs greedy fuel (pred lo) (decr hi) k s') t = Some e →
    ∃ s', k s' = Some e).
  { intros t Ht. apply Hm1 in Ht as [s' Hs'].
    destruct (bool_decide (lo = 0) && bool_decide (pos s' = pos s)); [done|]. by eapply IH. }
  destruct (bool_decide (lo = 0)); [|by eapply Hagain].
  destruct greedy; unfold orElse in H.
  - destruct (m1 _ (clearCaps gs s)) eqn:Ha; [|by exists s].
    apply (Hagain (clearCaps gs s)). by rewrite Ha.
  - destruct (k s) eqn:Hk; [exists s; congruence|]. by eapply Hagain.
Qed.

Lemma rmatch_through r : ∀ k s e, rmatch r k s = Some e → ∃ s', k s' = Some e.
Proof.
  induction r as [|p|r1 IH1 r2 IH2|r1 IH1 r2 IH2|lo hi greedy r IH|g r IH| |];
    intros k s e H; cbn [rmatch] in H.
  - by exists s.
  - destruct (rest s) as [|c tl]; [done|]. destruct (p c); [by eexists (MState _ _ _)|done].
  - apply IH1 in H as [s1 H]. by apply IH2 in H.
  - unfold orElse in H. destruct (rmatch r1 k s) eqn:H1; [|by eapply IH2].
    eapply IH1. by rewrite H1.
  - by eapply repeatMatcher_through.
  - apply IH in H as [s' H]. by exists (setCap g s s').
  - destruct (bool_decide (pos s = 0)); [by exists s|done].
  - destruct (rest s); [by exists s|done].
Qed.

(** What [/(?:cấp độ|level)\s*(\d)/] captures is one digit. *)
Lemma levelDigit_caps s e :
  rmatch levelDigitRe Some s = Some e →
  ∃ c cs, isDigit c = true ∧ caps e = (1, [c]) :: cs.
Proof.
  intros He. unfold levelDigitRe, seqs in He. cbn [foldr] in He.
  rewrite rmatch_seq in He. apply rmatch_through in He as [s1 He].
  rewrite rmatch_seq in He. apply rmatch_through in He as [s2 He].
  rewrite rmatch_seq, rmatch_group in He. unfold digit in He.
  rewrite rmatch_char in He. destruct (rest s2) as [|c tl] eqn:Hr; [done|].
  destruct (isDigit c) eqn:Hc; [|done]. rewrite rmatch_empty in He.
  injection He as <-. exists c, (caps s2). split; [done|].
  unfold setCap. cbn [caps pos]. rewrite Hr.
  by replace (S (pos s2) - pos s2) with 1 by lia.
Qed.

Lemma levelDigit_capture cellText m :
  jsmatch cellText levelDigitRe = Some m →
  ∃ c, isDigit c = true ∧ groupOr m 1 = [c].
Proof.
  unfold jsmatch.
  enough (Hall : ∀ s i, execFrom levelDigitRe i s = Some m →
            ∃ c, isDigit c = true ∧ groupOr m 1 = [c]) by apply Hall.
  assert (Hfound : ∀ i s e, rmatch levelDigitRe Some (MState i s []) = Some e →
            ∃ c, isDigit c = true
                 ∧ groupOr (Match i (take (pos e - i) s) (caps e)) 1 = [c]).
  { intros i s e (c & cs & Hc & Hcs)%levelDigit_caps. exists c. split; [done|].
    unfold groupOr, group. cbn [groups]. rewrite Hcs. cbn [list_find].
    by rewrite decide_True. }
  clear cellText. induction s as [|x s IH]; intros i H; cbn [execFrom] in H.
  - destruct (rmatch levelDigitRe Some (MState i [] [])) as [e|] eqn:He; [|done].
    injection H as <-. by apply Hfound.
  - destruct (rmatch levelDigitRe Some (MState i (x :: s) [])) as [e|] eqn:He.
    + injection H as <-. by apply Hfound.
    + by eapply IH.
Qed.

Lemma parseInt_digit c : isDigit c = true → (0 ≤ parseInt [c] < 10)%Z.
Proof.
  intros Hc. unfold parseInt. cbn [takeWhile]. rewrite Hc. cbn [takeWhile fold_left].
  unfold isDigit in Hc. apply andb_prop in Hc as [H1 H2]. apply N.leb_le in H1, H2. lia.
Qed.

Lemma entries_lookup (columnMap : gmap nat nat) k c :
  (k, c) ∈ entries columnMap ↔ k < 10 ∧ columnMap !! k = Some c.
Proof.
  unfold entries. rewrite list_elem_of_omap. split.
  - intros (j & Hj & Heq). apply elem_of_seq in Hj.
    destruct (columnMap !! j) as [v|] eqn:Hv; [|done]. injection Heq as -> ->.
    split; [lia|done].
  - intros [Hk Hv]. exists k. split; [apply elem_of_seq; lia|]. by rewrite Hv.
Qed.

(** X25: the columns that the header row of the skill table gives: a level is
    one of 0..9 and its column is one of the header's cells after the first.
    So the pairs that the filling of a row walks through are exactly what the
    header gave. *)
Theorem header_columns cells level col :
  columnMapOf cells !! level = Some col →
  (level < 10 ∧ 1 ≤ col < length cells) ∧ (level, col) ∈ entries (columnMapOf cells).
Proof.
  intros H.
  enough (Hb : level < 10 ∧ 1 ≤ col < length cells).
  { split; [done|]. apply entries_lookup. split; [apply Hb|done]. }
  revert H. unfold columnMapOf.
  assert (Hcs : Forall (λ cc : nat * node, 1 ≤ cc.1 < length cells) (drop 1 (imap pair cells))).
  { apply Forall_forall. intros [i x] Hx. apply list_elem_of_lookup in Hx as [j Hj].
    rewrite lookup_drop, list_lookup_imap in Hj.
    destruct (cells !! (1 + j)) as [y|] eqn:Hy; [|done]. injection Hj as <- <-.
    apply lookup_lt_Some in Hy. cbn [fst]. lia. }
  revert Hcs. generalize (drop 1 (imap pair cells)) as l.
  assert (Hinit : ∀ k c, (∅ : gmap nat nat) !! k = Some c → k < 10 ∧ 1 ≤ c < length cells)
    by (intros k c; by rewrite lookup_empty).
  revert Hinit. generalize (∅ : gmap nat nat) as columnMap.
  intros columnMap Hinv l. revert columnMap Hinv.
  induction l as [|[i x] l IH]; intros columnMap Hinv Hl; cbn [foldl]; [by apply Hinv|].
  apply Forall_cons in Hl as [Hi Hl]. cbn [fst snd] in *. apply IH; [|done].
  assert (Hins : ∀ key, key < 10 →
            ∀ k c, <[key := i]> columnMap !! k = Some c → k < 10 ∧ 1 ≤ c < length cells).
  { intros key Hkey k c. destruct (decide (key = k)) as [<-|Hne].
    - rewrite lookup_insert_eq. intros [= <-]. done.
    - rewrite lookup_insert_ne by done. apply Hinv. }
  destruct (jsmatch (normalize (getCellText x)) levelRe) as [m|]; [|done].
  cbv zeta. destruct (Z.ltb_spec (parseInt (groupOr m 1)) 10) as [Hlt|Hge].
  - apply Hins. lia.
  - destruct (jsmatch (normalize (getCellText x)) levelDigitRe) as [dm|] eqn:Hdm; [|done].
    apply levelDigit_capture in Hdm as (c & Hc & ->).
    apply Hins. pose proof (parseInt_digit c Hc). lia.
Qed.

Lemma header_columns_witness :
  let cell i t := Elem i "w:tc" [] [Examples.paragraph (S i) t] in
  let cells := [cell 10 (js "Kỹ năng"); cell 20 (js "Cấp độ 1"); cell 30 (js "Level 12")] in
  (1 < 10 ∧ 1 ≤ 2 < length cells) ∧ (1, 2) ∈ entries (columnMapOf cells).
Proof.
  intros cell cells. apply (header_columns cells 1 2). vm_compute. reflexivity.
Defined.

End HeaderProps.

(** ** More of Module 4 *)

Module RepairProps.
Import Mod4 DOMFacts StyleProps AnalyzerProps FixProps.
Local Arguments ids : simpl never.

(** *** The flag [canMergeNext] *)

Lemma gapWalk_spec next T' post gaps : ∀ n,
  isTable T' →
  Forall (λ g, named "w:tbl" g = false) gaps →
  Forall (λ g, Some (nid g) ≠ next) gaps →
  let w := gapWalk next (gaps ++ T' :: post) n in
  (w.1 = true ↔ Forall (λ g, named "w:p" g = true → trim (textContent g) = []) gaps)
  ∧ (w.1 = true → w.2 = n + length (filter (λ g, named "w:p" g = true) gaps)).
Proof.
  intros n HT' Hg. revert n. induction Hg as [|g gaps Hgt _ IH]; intros n Hne; cbv zeta;
    cbn [app gapWalk].
  - assert (Hw : (if bool_decide (Some (nid T') = next) then (true, n)
                  else if named "w:p" T' then
                         if bool_decide (0 < length (trim (textContent T')))
                         then (false, n) else gapWalk next post (S n)
                       else if named "w:tbl" T' then (true, n) else gapWalk next post n)
                 = (true, n)).
    { case_bool_decide; [done|]. rewrite (named_ne _ _ _ HT') by done.
      unfold isTable in HT'. by rewrite HT'. }
    rewrite Hw. cbn. split; [done|]. intros _. lia.
  - apply Forall_cons in Hne as [Hgn Hne]. rewrite bool_decide_eq_false_2 by done.
    specialize (IH (S n) Hne) as IHp. specialize (IH n Hne) as IHo.
    destruct (named "w:p" g) eqn:Hp.
    + rewrite filter_cons_True by done. cbn [length].
      case_bool_decide as Hlen.
      * cbn [fst snd]. split; [|done]. split; [done|].
        intros [Hc _]%Forall_cons. rewrite Hc in Hlen by done. cbn in Hlen. lia.
      * cbv zeta in IHp. destruct IHp as [IH1 IH2]. split.
        -- rewrite IH1. split; [|by intros [_ ?]%Forall_cons].
           intros H. constructor; [|done]. intros _.
           destruct (trim (textContent g)); [done|]. cbn in Hlen. lia.
        -- intros H. rewrite (IH2 H). lia.
    + rewrite Hgt. rewrite filter_cons_False by (by rewrite Hp).
      cbv zeta in IHo. destruct IHo as [IH1 IH2]. split; [|done].
      rewrite IH1. split; [|by intros [_ ?]%Forall_cons].
      intros H. constructor; [by rewrite Hp|done].
Qed.

Section Flag.
Context (now : Z) (htmlTables : list jsstring).
Context (c : ctx) (p : nodeId) (nm : string) (a : list (string * string)).
Context (pre : list node) (T : node) (gaps : list node) (T' : node) (post : list node).
Let doc := plug c (Elem p nm a (pre ++ T :: gaps ++ T' :: post)).
Context (Hnd : NoDup (ids doc)).
Context (HT : isTable T) (HT' : isTable T').
Context (Hgaps : Forall (λ g, named "w:tbl" g = false) gaps).

(** X26: a table that is followed by another one under the same parent is
  flagged [canMergeNext] exactly when, of the nodes in between, the
  paragraphs are empty and fewer than five; nodes in between that are no
  paragraphs do not count, whatever they hold. *)
Theorem canMergeNext_iff :
∃ idx info,
  getElementsByTagName "w:tbl" doc !! idx = Some T
  ∧ analyzeDocument now htmlTables doc !! idx = Some info
  ∧ (canMergeNext info = true
     ↔ Forall (λ g, named "w:p" g = true → trim (textContent g) = []) gaps
       ∧ length (filter (λ g, named "w:p" g = true) gaps) < 5).
Proof.
destruct (tables_decompose c p nm a pre T gaps T' post HT HT') as (A & B & Htbl & HB & _).
fold doc in Htbl.
exists (length A). eexists. unfold analyzeDocument. cbv zeta.
rewrite list_lookup_imap.
assert (Hidx : getElementsByTagName "w:tbl" doc !! length A = Some T).
{ rewrite Htbl. by rewrite list_lookup_middle. }
rewrite Hidx. split; [done|]. split; [done|].
cbn [canMergeNext tableInfo]. unfold mergeable.
rewrite bool_decide_eq_true_2
  by (rewrite Htbl, length_app; destruct B; [done|]; simpl; lia).
unfold doc at 2. rewrite focus_nextSiblings by done.
pose proof (gapWalk_spec (nid <$> getElementsByTagName "w:tbl" doc !! S (length A))
              T' post gaps 0 HT' Hgaps) as Hw.
destruct Hw as [Hclean Hcount].
{ apply Forall_forall. intros g Hg Heq.
  destruct (getElementsByTagName "w:tbl" doc !! S (length A)) as [Y|] eqn:HY; [|done].
  simpl in Heq. injection Heq as Heq.
  apply list_elem_of_lookup_2 in HY. apply list_elem_of_filter in HY as [HYt HY].
  apply descendants_subtrees in HY.
  pose proof (subtrees_inj doc g Y Hnd (gap_in_doc c p nm a pre T gaps T' post g Hg) HY Heq)
    as ->.
  rewrite Forall_forall in Hgaps. by rewrite (Hgaps Y Hg) in HYt. }
destruct (gapWalk _ _ _) as [isCleanGap gapCount]. cbn [fst snd] in *.
rewrite andb_true_iff, bool_decide_eq_true, Hclean.
split.
- intros [Hc Hn]. split; [done|]. rewrite Hcount in Hn by (by apply Hclean). lia.
- intros [Hc Hn]. split; [done|]. rewrite Hcount by (by apply Hclean). lia.
Qed.
End Flag.

Lemma canMergeNext_iff_witness :
  ∃ idx info,
    getElementsByTagName "w:tbl" Examples.textBetween !! idx = Some Examples.tableA
    ∧ analyzeDocument 0 [] Examples.textBetween !! idx = Some info
    ∧ (canMergeNext info = true
       ↔ Forall (λ g, named "w:p" g = true → trim (textContent g) = [])
                [Examples.paragraph 30 (js "Ghi chú")]
         ∧ length (filter (λ g, named "w:p" g = true)
                          [Examples.paragraph 30 (js "Ghi chú")]) < 5).
Proof.
  apply (canMergeNext_iff 0 [] Examples.toBody 2 "w:body" [] []
           Examples.tableA [Examples.paragraph 30 (js "Ghi chú")] Examples.tableB
           [Examples.sectPr]); by_evaluation.
Defined.

(** *** Nothing ticked *)

Lemma insertByIndex_Forall (P : Mod4TableInfo → Prop) x l :
  P x → Forall P l → Forall P (insertByIndex x l).
Proof.
  intros Hx. induction 1 as [|y l Hy Hl IH]; cbn [insertByIndex]; [by repeat constructor|].
  case_bool_decide; by repeat constructor.
Qed.

Lemma sortedConfigs_Forall (P : Mod4TableInfo → Prop) config :
  Forall P config → Forall P (sortedConfigs config).
Proof.
  unfold sortedConfigs.
  enough (H : ∀ acc, Forall P acc → Forall P config →
                     Forall P (foldl (λ acc c, insertByIndex c acc) acc config))
    by (apply H; constructor).
  induction config as [|x config IH]; intros acc Hacc Hc; [done|].
  apply Forall_cons in Hc as [Hx Hc]. cbn [foldl]. apply IH; [|done].
  by apply insertByIndex_Forall.
Qed.

Lemma mergePhase_off tblNodeMap config doc :
  Forall (λ conf, mergeNext (options conf) = false) config →
  mergePhase tblNodeMap config doc = Ok doc.
Proof.
  intros H%sortedConfigs_Forall. unfold mergePhase.
  induction H as [|conf l Hc _ IH]; [done|]. cbn [foldM].
  destruct (List.find _ tblNodeMap) as [[tblNode ?]|]; [|exact IH].
  destruct (parentOf tblNode doc); [|exact IH]. rewrite Hc. exact IH.
Qed.

Lemma buildNodeMap_entries tables config e :
  e ∈ buildNodeMap tables config →
  ∃ tbl conf, e = (nid tbl, conf) ∧ tbl ∈ tables ∧ conf ∈ config.
Proof.
  unfold buildNodeMap. intros (o & Ho & He)%list_elem_of_omap.
  apply list_elem_of_lookup in Ho as (i & Ho). rewrite list_lookup_imap in Ho.
  destruct (tables !! i) as [tbl|] eqn:Ht; [|done]. cbn in Ho. injection Ho as <-.
  destruct (List.find _ config) as [conf|] eqn:Hf; [|done].
  cbn in He. injection He as <-. exists tbl, conf. split; [done|].
  split; [by eapply list_elem_of_lookup_2|].
  apply find_some in Hf as [Hf _]. by apply list_elem_of_In.
Qed.

Lemma lookup_subtree doc x : NoDup (ids doc) → x ∈ subtrees doc → lookup (nid x) doc = Some x.
Proof.
  intros Hnd (c & ->)%subtree_plug_inv. by apply plug_lookup_self.
Qed.

Lemma styleTable_off doc fr tbl conf :
  NoDup (ids doc) → tbl ∈ subtrees doc → first "w:tblPr" tbl ≠ None →
  options conf = noOptions →
  styleTable (Dom doc fr) (nid tbl, conf) = Ok (Dom doc fr).
Proof.
  intros Hnd Hin Hpr Ho. unfold styleTable. cbn [root].
  destruct (parentOf (nid tbl) doc); [|done].
  unfold ensureTblPr. cbn [root]. rewrite (lookup_subtree doc tbl Hnd Hin).
  cbn [mbind option_bind]. destruct (first "w:tblPr" tbl) as [x|]; [|done].
  by rewrite Ho.
Qed.

(** X27: with no option ticked for any table, MODULE_4_FIX leaves the document
    as it is, provided every table has its [w:tblPr]; so it does with the
    tables as MODULE_4_ANALYZE returns them. *)
Theorem nothing_ticked now htmlTables config doc :
  NoDup (ids doc) →
  Forall (λ tbl, first "w:tblPr" tbl ≠ None) (getElementsByTagName "w:tbl" doc) →
  (Forall (λ conf, options conf = noOptions) config → fixDocument config doc = Ok doc)
  ∧ fixDocument (analyzeDocument now htmlTables doc) doc = Ok doc.
Proof.
  intros Hnd Hpr.
  assert (Hoff : ∀ config, Forall (λ conf, options conf = noOptions) config →
                           fixDocument config doc = Ok doc).
  { clear config. intros config Hc. unfold fixDocument.
    rewrite mergePhase_off by (eapply Forall_impl; [exact Hc|]; by intros ? ->).
    cbn [mbind result_bind].
    assert (Hall : Forall (λ e, styleTable (Dom doc (fresh (mkDom doc))) e
                                = Ok (Dom doc (fresh (mkDom doc))))
                          (buildNodeMap (getElementsByTagName "w:tbl" doc) config)).
    { apply Forall_forall. intros e (tbl & conf & -> & Ht & Hcf)%buildNodeMap_entries.
      rewrite Forall_forall in Hpr. rewrite Forall_forall in Hc.
      apply styleTable_off; [done| |by apply Hpr|by apply Hc].
      apply list_elem_of_filter in Ht as [_ Ht]. by apply descendants_subtrees. }
    induction Hall as [|e l He _ IH]; [done|]. cbn [foldM]. rewrite He. exact IH. }
  split; [apply Hoff|]. apply Hoff.
  unfold analyzeDocument. cbv zeta. apply Forall_forall.
  intros info (i & Hi)%list_elem_of_lookup. rewrite list_lookup_imap in Hi.
  destruct (getElementsByTagName "w:tbl" doc !! i); [|done]. by injection Hi as <-.
Qed.

Lemma nothing_ticked_witness :
  (Forall (λ conf, options conf = noOptions) [Examples.only 0 noOptions] →
   fixDocument [Examples.only 0 noOptions] (Examples.document [Examples.tableB; Examples.sectPr])
   = Ok (Examples.document [Examples.tableB; Examples.sectPr]))
  ∧ fixDocument (analyzeDocument 0 [] (Examples.document [Examples.tableB; Examples.sectPr]))
                (Examples.document [Examples.tableB; Examples.sectPr])
    = Ok (Examples.document [Examples.tableB; Examples.sectPr]).
Proof.
  apply (nothing_ticked 0 [] [Examples.only 0 noOptions]
           (Examples.document [Examples.tableB; Examples.sectPr])); by_evaluation.
Defined.

(** A table without [w:tblPr] gets an empty one, also with nothing
    ticked. *)
Example nothing_ticked_no_tblPr :
  fixDocument [Examples.only 0 noOptions] (Examples.document [Examples.tableA])
  = Ok (Examples.document
          [Elem 10 "w:tbl" [] (Elem 27 "w:tblPr" [] [] :: childNodes Examples.tableA)]).
Proof. vm_compute. reflexivity. Qed.

(** *** Borders repaired *)

Section Repaired.
Context (c : ctx) (p : nodeId) (nm : string) (a : list (string * string)).
Context (pre post : list node).
Context (t : nodeId) (ta : list (string * string)) (l r : list node).
Context (pr : nodeId) (pa : list (string * string)) (ks ks' : list node).
Context (conf : Mod4TableInfo).
Let T := Elem t "w:tbl" ta (l ++ Elem pr "w:tblPr" pa ks :: r).
Let doc := plug c (Elem p nm a (pre ++ T :: post)).
Let fr := fresh (mkDom doc).
Let T1 := Elem t "w:tbl" ta (l ++ Elem pr "w:tblPr" pa (ks' ++ [newBorders fr]) :: r).
Context (Hnd : NoDup (ids doc)).
Context (Hl : filter (λ x, named "w:tblPr" x = true) (flat_map subtrees l) = []).
Context (Hks : (ks' = ks
                ∧ filter (λ x, named "w:tblBorders" x = true) (flat_map subtrees ks) = [])
               ∨ ∃ kl b kr, ks = kl ++ b :: kr ∧ named "w:tblBorders" b = true
                            ∧ ks' = kl ++ kr
                            ∧ filter (λ x, named "w:tblBorders" x = true)
                                     (flat_map subtrees (kl ++ kr)) = []).
Context (Hidx : getElementsByTagName "w:tbl" doc !! index conf = Some T).
Context (Hopt : options conf = Examples.bordersOnly).

Lemma borders_none_left :
filter (λ x, named "w:tblBorders" x = true) (flat_map subtrees ks') = [].
Proof. destruct Hks as [[-> H]|(kl & b & kr & _ & _ & -> & H)]; done. Qed.

Lemma newBorders_complete i : 
existsb (λ s, bool_decide (length (getElementsByTagName ("w:" +:+ s) (newBorders i)) = 0))
        sides = false.
Proof. vm_compute. reflexivity. Qed.

(** X28: with [fixBorders] as the only option ticked for a table whose
  [w:tblPr] is its child and holds borders, if any, as a child of its
  own, MODULE_4_FIX puts the six new borders last in [w:tblPr], in
  the place of the former ones, and MODULE_4_ANALYZE finds no issue of
  borders in the table that results. *)
Theorem borders_repaired :
fixDocument [conf] doc = Ok (plug c (Elem p nm a (pre ++ T1 :: post)))
∧ borderIssues T1 = [].
Proof.
split.
- assert (Hpar : parentOf (nid T) doc = Some (Elem p nm a (pre ++ T :: post)))
    by (by apply focus_parentOf).
  rewrite (fixDocument_single doc conf T _ Hidx Hpar). rewrite Hopt.
  cbn [mergeNext Examples.bordersOnly mbind result_bind].
  unfold styleTable. cbn [root]. rewrite Hpar.
  assert (Hdoc : doc = plug (c ++ [Frame p nm a pre post]) T).
  { rewrite plug_app. done. }
  assert (HlkT : lookup (nid T) doc = Some T).
  { rewrite Hdoc. apply plug_lookup_self. by rewrite <- Hdoc. }
  unfold ensureTblPr. cbn [root]. rewrite HlkT. cbn [mbind option_bind].
  unfold T at 1. rewrite (no_descendant_named _ l Hl) by done. cbn [nid].
  rewrite Hopt. cbn [fixBorders autofit fixSpacing fixAlign Examples.bordersOnly].
  assert (Hdoc2 : doc = plug (c ++ [Frame p nm a pre post; Frame t "w:tbl" ta l r])
                             (Elem pr "w:tblPr" pa ks)).
  { rewrite plug_app. done. }
  assert (Hfr : below fr doc) by apply below_mkDom.
  assert (Hstage : fixBordersStage pr (Dom doc (fresh (mkDom doc)))
                   = Ok (Dom (plug (c ++ [Frame p nm a pre post; Frame t "w:tbl" ta l r])
                                   (Elem pr "w:tblPr" pa (ks' ++ [newBorders fr])))
                             (fr + 7))).
  { fold fr. destruct Hks as [[-> Hn]|(kl & b & kr & -> & Hb & -> & Hn)].
    - rewrite Hdoc2. apply fixBorders_adds; [by rewrite <- Hdoc2|by rewrite <- Hdoc2|done].
    - rewrite Hdoc2.
      refine (proj1 (fixBorders_replaces _ pr "w:tblPr" pa kl b kr fr _ _ _ Hb));
        [by rewrite <- Hdoc2|by rewrite <- Hdoc2|].
      rewrite flat_map_app, filter_app in Hn. by apply app_eq_nil in Hn as [? _]. }
  rewrite Hstage. cbn [mbind result_bind root]. rewrite plug_app. done.
- unfold borderIssues, T1.
  rewrite (no_descendant_named _ l Hl) by done. cbn [mbind option_bind].
  rewrite (no_descendant_named _ ks' borders_none_left) by done.
  by rewrite newBorders_complete.
Qed.
End Repaired.

Lemma borders_repaired_witness :
  fixDocument [Examples.only 0 Examples.bordersOnly]
              (Examples.document [Examples.tableB; Examples.sectPr])
  = Ok (Examples.document
          [ Elem 40 "w:tbl" []
              (Elem 41 "w:tblPr" [] [newBorders 91] :: drop 1 (childNodes Examples.tableB));
            Examples.sectPr ])
  ∧ borderIssues
      (Elem 40 "w:tbl" []
         (Elem 41 "w:tblPr" [] [newBorders 91] :: drop 1 (childNodes Examples.tableB)))
    = [].
Proof.
  apply (borders_repaired Examples.toBody 2 "w:body" [] [] [Examples.sectPr]
           40 [] [] (drop 1 (childNodes Examples.tableB)) 41 [] [] []
           (Examples.only 0 Examples.bordersOnly)); try by_evaluation; try reflexivity.
  left. split; reflexivity.
Defined.

End RepairProps.

(** ** The merge, row by row *)

Module AbsorbProps.
Import DOM Mod4 Paths DOMFacts AnalyzerProps StyleProps MergeProps.
Local Open Scope nat_scope.
Local Arguments ids : simpl never.

Lemma tag_unique (l : list (nodeId * string)) e e' :
  NoDup l.*1 → e ∈ l → e' ∈ l → e.1 = e'.1 → e = e'.
Proof.
  induction l as [|x l IH]; intros Hnd He He' Heq; [by apply elem_of_nil in He|].
  rewrite fmap_cons in Hnd. apply NoDup_cons in Hnd as [Hx Hnd].
  apply elem_of_cons in He as [->|He]; apply elem_of_cons in He' as [->|He']; try done.
  - exfalso. apply Hx. rewrite Heq. by apply list_elem_of_fmap_2.
  - exfalso. apply Hx. rewrite <- Heq. by apply list_elem_of_fmap_2.
  - by apply IH.
Qed.

Lemma sublist_same_length {A} (l k : list A) : sublist l k → length k ≤ length l → l = k.
Proof.
  induction 1 as [|x l k _ IH|x l k Hsub IH]; cbn [length]; intros Hlen; [done| |].
  - f_equal. apply IH. lia.
  - apply sublist_length in Hsub. lia.
Qed.

Lemma children_sublist (ks : list node) : sublist ks (flat_map subtrees ks).
Proof.
  induction ks as [|k ks IH]; [done|]. cbn [flat_map]. rewrite subtrees_cons.
  cbn [app]. apply sublist_skip. by apply sublist_inserts_l.
Qed.

Lemma filter_sublist {A} (P : A → Prop) `{∀ x, Decision (P x)} (l k : list A) :
  sublist l k → sublist (filter P l) (filter P k).
Proof.
  induction 1 as [|x l k _ IH|x l k _ IH]; [done| |].
  - rewrite !filter_cons. destruct (decide (P x)); [by apply sublist_skip|done].
  - rewrite filter_cons. destruct (decide (P x)); [by apply sublist_cons|done].
Qed.

Lemma descendants_Elem i nm a ks : descendants (Elem i nm a ks) = flat_map subtrees ks.
Proof. reflexivity. Qed.

(** The rows of a table are among the [w:tr] elements below it, in their
    order. *)
Lemma rowsOf_sublist n : sublist (rowsOf n) (rowIds n).
Proof.
  unfold rowsOf, rowIds, getElementsByTagName. apply fmap_sublist.
  destruct n as [i nm a ks| |]; [|done..].
  rewrite descendants_Elem. cbn [childNodes]. apply filter_sublist, children_sublist.
Qed.

Lemma rowsOf_tags n :
  rowsOf n = (filter (λ e : nodeId * string, e.2 = "w:tr") (tag <$> childNodes n)).*1.
Proof. unfold rowsOf. rewrite filter_sig, <- list_fmap_compose. done. Qed.

Lemma rows_tags n :
  filter (λ e : nodeId * string, e.2 = "w:tr") (tag <$> getElementsByTagName "w:tr" n)
  = tag <$> getElementsByTagName "w:tr" n.
Proof.
  apply IEPProps.filter_all. intros e [x [-> Hx]]%list_elem_of_fmap.
  apply list_elem_of_filter in Hx as [Hx _]. by apply bool_decide_eq_true in Hx.
Qed.

Section TwoChildren.
Context (c : ctx) (p : nodeId) (nm : string) (a : list (string * string)).
Context (pre mid post : list node).
Local Abbreviation two := (Paths.two c p nm a pre mid post).
Local Abbreviation ctxX := (Paths.ctxX c p nm a pre mid post).
Local Abbreviation ctxY := (Paths.ctxY c p nm a pre mid post).
Local Abbreviation two_X := (MergeProps.two_X c p nm a pre mid post).
Local Abbreviation two_Y := (MergeProps.two_Y c p nm a pre mid post).
Local Abbreviation two_disjoint := (MergeProps.two_disjoint c p nm a pre mid post).
Local Abbreviation two_sig_perm := (MergeProps.two_sig_perm c p nm a pre mid post).
Local Abbreviation move_from_Y := (MergeProps.move_from_Y c p nm a pre mid post).

Lemma two_NoDup X Y : NoDup (ids (two X Y)) → NoDup ((sig X ++ sig Y).*1).
Proof.
intros Hnd. rewrite fmap_app, <- !ids_sig. apply NoDup_app. split; [|split].
- rewrite two_X in Hnd. by apply NoDup_plug in Hnd as (_&_&?).
- intros i. by apply two_disjoint.
- rewrite two_Y in Hnd. by apply NoDup_plug in Hnd as (_&_&?).
Qed.

(** A node that lies deeper in [X] than its children is moved to the end
  of [X]: the children that [X] had are still its children. *)
Lemma move_from_X_deep t tn ta tk Y r :
NoDup (ids (two (Elem t tn ta tk) Y)) → r ∈ ids (Elem t tn ta tk) → r ≠ t →
r ∉ nid <$> tk →
∃ tk1 sub,
  appendChild t r (two (Elem t tn ta tk) Y) = Ok (two (Elem t tn ta (tk1 ++ [sub])) Y)
  ∧ sig (Elem t tn ta tk1) ++ sig sub ≡ₚ sig (Elem t tn ta tk) ∧ nid sub = r
  ∧ tag <$> tk1 = tag <$> tk.
Proof.
intros Hnd Hr Hne Hdeep. set (X := Elem t tn ta tk) in *.
assert (HndX : NoDup (ids X)).
{ rewrite two_X in Hnd. by apply NoDup_plug in Hnd as (_&_&?). }
destruct (strictly_inside_inv X r HndX Hr Hne)
  as (cx & j & nm' & a' & l & sub & r' & HX & Hsub).
set (X1 := plug cx (Elem j nm' a' (l ++ r'))).
assert (HX1 : ∃ tk1, X1 = Elem t tn ta tk1 ∧ tag <$> tk1 = tag <$> tk).
{ unfold X1. destruct cx as [|F cx]; cbn [plug] in *.
  - injection HX as -> -> -> ->. exfalso. apply Hdeep. rewrite <- Hsub.
    apply list_elem_of_fmap_2, elem_of_app. right. apply elem_of_cons. by left.
  - injection HX as -> -> -> ->. eexists. split; [reflexivity|].
    rewrite !fmap_app, !fmap_cons. do 2 f_equal. by apply tag_plug. }
destruct HX1 as (tk1 & HX1 & Htags). exists tk1, sub.
assert (Hdoc : two X Y = plug (ctxX Y ++ cx) (Elem j nm' a' (l ++ sub :: r'))).
{ by rewrite two_X, plug_app, <- HX. }
assert (Hdoc' : two X1 Y = plug (ctxX Y ++ cx) (Elem j nm' a' (l ++ r'))).
{ by rewrite two_X, plug_app. }
assert (Hnd' : NoDup (ids (two X1 Y))).
{ rewrite Hdoc'. rewrite Hdoc in Hnd. by apply NoDup_without_child in Hnd. }
split; [|split; [|split]]; [| |done|done].
- unfold appendChild.
  assert (Hlk : lookup r (two X Y) = Some sub).
  { rewrite Hdoc, <- Hsub.
    change (Elem j nm' a' (l ++ sub :: r')) with (plug [Frame j nm' a' l r'] sub).
    rewrite <- plug_app. apply plug_lookup_self.
    rewrite plug_app. cbn [plug fid fname fattrs fleft fright]. by rewrite <- Hdoc. }
  rewrite Hlk. rewrite bool_decide_eq_false_2.
  + f_equal. rewrite <- Hsub. rewrite Hdoc, focus_detach by (by rewrite <- Hdoc).
    rewrite <- Hdoc'. unfold appendNew, updateChildren.
    rewrite two_X. rewrite HX1 in *. change t with (nid (Elem t tn ta tk1)) at 1.
    rewrite plug_updateAt_self by (by rewrite <- two_X). by rewrite <- two_X.
  + change t with (nid X). rewrite HX in HndX |- *. by apply root_notin_child.
- rewrite <- HX1. unfold X1. rewrite HX.
  rewrite !sig_plug, !sig_Elem, !flat_map_app. cbn [flat_map].
  rewrite <- !app_assoc. apply Permutation_app_head.
  rewrite <- !app_comm_cons. apply perm_skip.
  rewrite <- !app_assoc. apply Permutation_app_head. apply Permutation_app_comm.
Qed.

(** The rows of [Y0] are moved, one after the other, to the end of [X0]:
  they become its last children, in the order in which they are moved,
  whether they were children of [Y0] or lay deeper, in a row moved
  before. *)
Lemma rows_appended t tn ta tk0 Y0 rows :
NoDup (ids (two (Elem t tn ta tk0) Y0)) →
∀ moved tk Y,
  NoDup (ids (two (Elem t tn ta tk) Y)) → tag Y = tag Y0 →
  sig (Elem t tn ta tk) ++ sig Y ≡ₚ sig (Elem t tn ta tk0) ++ sig Y0 →
  (∀ e, e ∈ sig Y → e.2 = "w:tr" → e.1 ∈ nid <$> rows) →
  tag <$> tk = (tag <$> tk0) ++ (tag <$> moved) →
  NoDup (nid <$> (moved ++ rows)) →
  Forall (λ r, tag r ∈ sig Y0 ∧ nid r ≠ nid Y0) rows →
  ∃ tk' Y',
    foldM (λ doc r, appendChild t (nid r) doc) (two (Elem t tn ta tk) Y) rows
    = Ok (two (Elem t tn ta tk') Y')
    ∧ NoDup (ids (two (Elem t tn ta tk') Y')) ∧ tag Y' = tag Y0
    ∧ sig (Elem t tn ta tk') ++ sig Y' ≡ₚ sig (Elem t tn ta tk0) ++ sig Y0
    ∧ (∀ e, e ∈ sig Y' → e.2 ≠ "w:tr")
    ∧ tag <$> tk' = (tag <$> tk0) ++ (tag <$> moved ++ rows).
Proof.
intros Hnd0. pose proof (two_NoDup _ _ Hnd0) as Huniq.
induction rows as [|r rows IH]; intros moved tk Y Hnd HtagY Hsig Htr Htags Hrows Hall.
{ exists tk, Y. rewrite app_nil_r. repeat split; try done.
  intros e He Hname. by apply (elem_of_nil e.1), Htr. }
apply Forall_cons in Hall as [[HrY0 HrneY0] Hall]. cbn [foldM].
assert (HndY : NoDup (ids Y)).
{ rewrite two_Y in Hnd. by apply NoDup_plug in Hnd as (_&_&?). }
assert (Hin : nid r ∈ ids (Elem t tn ta tk) ∨ nid r ∈ ids Y).
{ apply elem_of_app. rewrite !ids_sig, <- fmap_app, Hsig, fmap_app, <- !ids_sig.
  apply elem_of_app. right. by apply (in_ids_sig Y0 (tag r)). }
assert (Hrows' : NoDup (nid <$> ((moved ++ [r]) ++ rows))) by (by rewrite <- app_assoc).
assert (Hsame : ∀ sub, tag sub ∈ sig (Elem t tn ta tk) ++ sig Y → nid sub = nid r →
                       tag sub = tag r).
{ intros sub Hsub Hid. apply (tag_unique _ _ _ Huniq); [by rewrite <- Hsig| |done].
  apply elem_of_app. by right. }
destruct (decide (nid r ∈ ids Y)) as [HinY|HninY].
- destruct (move_from_Y t tn ta tk Y (nid r) Hnd HinY)
    as (Y' & sub & -> & HsigY & HtagY' & Hsub).
  { injection HtagY as -> _. done. }
  cbn [mbind result_bind].
  assert (Hperm : sig (Elem t tn ta (tk ++ [sub])) ++ sig Y'
                  ≡ₚ sig (Elem t tn ta tk) ++ sig Y).
  { rewrite sig_append, <- HsigY, <- app_assoc.
    apply Permutation_app_head, Permutation_app_comm. }
  assert (Htag : tag sub = tag r).
  { apply Hsame; [|done]. apply elem_of_app. right. rewrite <- HsigY.
    apply elem_of_app. right. apply sig_self. }
  destruct (IH (moved ++ [r]) (tk ++ [sub]) Y') as (tk' & Y2 & Hfold & Hrest); try done.
  + rewrite (sig_perm_ids _ _ (two_sig_perm _ _ _ _ Hperm)). done.
  + congruence.
  + by rewrite Hperm.
  + intros e He Hname.
    assert (HeY : e ∈ sig Y) by (rewrite <- HsigY, elem_of_app; auto).
    pose proof (Htr e HeY Hname) as [Heq|?]%elem_of_cons; [|done].
    exfalso. apply sig_perm_ids' in HsigY.
    rewrite <- HsigY in HndY. apply NoDup_app in HndY as (_ & Hdis & _).
    apply (Hdis e.1); [by apply in_ids_sig|].
    rewrite Heq, <- Hsub. apply nid_in_ids.
  + rewrite !fmap_app, Htags, <- app_assoc. cbn [fmap list_fmap]. by rewrite Htag.
  + exists tk', Y2. split; [done|]. by rewrite <- app_assoc in Hrest.
- destruct Hin as [HinX|]; [|done].
  assert (HrY0' : nid r ∈ ids Y0) by (by apply (in_ids_sig Y0 (tag r))).
  assert (Hrt : nid r ≠ t).
  { intros Heq. apply (two_disjoint _ _ t Hnd0); [|by rewrite <- Heq].
    rewrite ids_Elem. apply elem_of_cons. by left. }
  assert (Hdeep : nid r ∉ nid <$> tk).
  { intros Hk. assert (Hk' : nid r ∈ (tag <$> tk).*1).
    { rewrite <- list_fmap_compose. exact Hk. }
    rewrite Htags, fmap_app, <- !list_fmap_compose in Hk'.
    apply elem_of_app in Hk' as [Hk'|Hk'].
    - apply (two_disjoint _ _ (nid r) Hnd0); [|done].
      rewrite ids_Elem. apply elem_of_cons. right.
      apply list_elem_of_fmap in Hk' as (k & -> & Hk').
      apply in_flat_map_ids. exists k. split; [done|apply nid_in_ids].
    - rewrite fmap_app, fmap_cons in Hrows. apply NoDup_app in Hrows as (_ & Hdis & _).
      apply (Hdis (nid r)); [exact Hk'|]. apply elem_of_cons. by left. }
  destruct (move_from_X_deep t tn ta tk Y (nid r) Hnd HinX Hrt Hdeep)
    as (tk1 & sub & -> & HsigX & Hsub & Htk1).
  cbn [mbind result_bind].
  assert (Hperm : sig (Elem t tn ta (tk1 ++ [sub])) ++ sig Y
                  ≡ₚ sig (Elem t tn ta tk) ++ sig Y).
  { by rewrite sig_append, HsigX. }
  assert (Htag : tag sub = tag r).
  { apply Hsame; [|done]. apply elem_of_app. left. rewrite <- HsigX.
    apply elem_of_app. right. apply sig_self. }
  destruct (IH (moved ++ [r]) (tk1 ++ [sub]) Y) as (tk' & Y2 & Hfold & Hrest); try done.
  + rewrite (sig_perm_ids _ _ (two_sig_perm _ _ _ _ Hperm)). done.
  + by rewrite Hperm.
  + intros e He Hname.
    pose proof (Htr e He Hname) as [Heq|?]%elem_of_cons; [|done].
    exfalso. apply HninY. rewrite <- Heq. by apply in_ids_sig.
  + rewrite !fmap_app, Htk1, Htags, <- app_assoc. cbn [fmap list_fmap]. by rewrite Htag.
  + exists tk', Y2. split; [done|]. by rewrite <- app_assoc in Hrest.
Qed.
End TwoChildren.

Lemma sig_sub_gaps c j nm a l gs r e :
  e ∈ sig (plug c (Elem j nm a (l ++ r))) → e ∈ sig (plug c (Elem j nm a (l ++ gs ++ r))).
Proof.
  induction gs as [|g gs IH]; cbn [app]; [done|].
  intros He. apply in_sig_insert. right. by apply IH.
Qed.

Lemma gaps_gone c j nm a l gs r i :
  NoDup (ids (plug c (Elem j nm a (l ++ gs ++ r)))) →
  i ∈ flat_map ids gs → i ∉ ids (plug c (Elem j nm a (l ++ r))).
Proof.
  induction gs as [|g gs IH]; cbn [flat_map app]; intros Hnd Hi; [by apply elem_of_nil in Hi|].
  rewrite ids_insert_perm in Hnd. apply NoDup_app in Hnd as (_ & Hdis & Hnd).
  apply elem_of_app in Hi as [Hi|Hi].
  - intros Hin. apply (Hdis i Hi). by apply ids_sub_gaps.
  - by apply IH.
Qed.

Section Absorbed.
Context (c : ctx) (p : nodeId) (nm : string) (a : list (string * string)).
Context (pre : list node) (T : node) (gaps : list node) (T' : node) (post : list node).
Let doc := plug c (Elem p nm a (pre ++ T :: gaps ++ T' :: post)).
Context (Hnd : NoDup (ids doc)).
Context (HT : isTable T) (HT' : isTable T').
Context (Hgaps : Forall (λ g, named "w:tbl" g = false) gaps).

(** The merge of a table with the next: every [w:tr] below the second
  table becomes a child of the first, after the children it had, in the
  order of the document; the nodes in between and the second table are no
  longer in the document. *)
Lemma mergeWithNext_rows :
∃ Tm,
  mergeWithNext (nid T) doc = Ok (plug c (Elem p nm a (pre ++ Tm :: post)))
  ∧ nid Tm = nid T ∧ isTable Tm
  ∧ (tag <$> childNodes Tm)
    = (tag <$> childNodes T) ++ (tag <$> getElementsByTagName "w:tr" T')
  ∧ rowIds Tm ≡ₚ rowIds T ++ rowIds T'
  ∧ NoDup (ids (plug c (Elem p nm a (pre ++ Tm :: post))))
  ∧ (∀ e, e ∈ sig (plug c (Elem p nm a (pre ++ Tm :: post))) → e ∈ sig doc)
  ∧ (nid T' ∉ ids (plug c (Elem p nm a (pre ++ Tm :: post))))
  ∧ (∀ i, i ∈ flat_map ids gaps → i ∉ ids (plug c (Elem p nm a (pre ++ Tm :: post)))).
Proof.
destruct (isTable_inv T HT) as (t & ta & tk & ->).
destruct (isTable_inv T' HT') as (t' & ta' & tk' & ->).
set (T := Elem t "w:tbl" ta tk) in *. set (T' := Elem t' "w:tbl" ta' tk') in *.
change (nid T) with t.
unfold mergeWithNext. unfold doc at 1. change t with (nid T) at 1.
rewrite focus_nextSiblings by done. rewrite scanToTable_gap by done.
fold doc. change doc with (two c p nm a pre gaps post T T') in *.
assert (HndT' : NoDup (ids T')).
{ rewrite two_Y in Hnd. by apply NoDup_plug in Hnd as (_&_&?). }
destruct (rows_appended c p nm a pre gaps post t "w:tbl" ta tk T'
            (getElementsByTagName "w:tr" T') Hnd [] tk T')
  as (tk1 & Y & Hfold & Hnd1 & HtagY & Hsig & Htr & Htags); try done.
{ intros e [x [-> Hx]]%list_elem_of_fmap Hname.
  apply list_elem_of_fmap. exists x. split; [done|].
  apply list_elem_of_filter. split; [by apply bool_decide_eq_true|].
  rewrite subtrees_cons in Hx. apply elem_of_cons in Hx as [->|Hx]; [done|done]. }
{ by rewrite app_nil_r. }
{ cbn [app]. unfold getElementsByTagName.
  eapply sublist_NoDup; [|apply fmap_sublist, sublist_filter].
  unfold ids in HndT'. rewrite subtrees_cons, fmap_cons in HndT'.
  by apply NoDup_cons in HndT' as [_ ?]. }
{ apply Forall_forall. intros r [Hr Hd]%list_elem_of_filter. split.
  - by apply tag_in_sig, descendants_subtrees.
  - unfold ids in HndT'. rewrite subtrees_cons, fmap_cons in HndT'.
    apply NoDup_cons in HndT' as [Hn _]. intros Heq. apply Hn.
    rewrite <- Heq. by apply list_elem_of_fmap_2. }
change (Elem t "w:tbl" ta tk) with T in Hfold, Hsig. rewrite Hfold. clear Hfold.
cbn [mbind result_bind app] in *.
assert (Hnd2 : NoDup (ids (plug c (Elem p nm a (pre ++ Elem t "w:tbl" ta tk1 :: Y :: post))))).
{ change (pre ++ Elem t "w:tbl" ta tk1 :: Y :: post)
    with (pre ++ [Elem t "w:tbl" ta tk1] ++ Y :: post).
  rewrite app_assoc.
  apply (NoDup_sub_gaps c p nm a (pre ++ [Elem t "w:tbl" ta tk1]) gaps (Y :: post)).
  rewrite <- app_assoc. exact Hnd1. }
assert (Hnd3 : NoDup (ids (plug c (Elem p nm a (pre ++ Elem t "w:tbl" ta tk1 :: post))))).
{ change (pre ++ Elem t "w:tbl" ta tk1 :: Y :: post)
    with (pre ++ [Elem t "w:tbl" ta tk1] ++ Y :: post) in Hnd2.
  rewrite app_assoc in Hnd2. apply NoDup_without_child in Hnd2.
  by rewrite <- app_assoc in Hnd2. }
assert (Hup : ∀ i, i ∈ ids (plug c (Elem p nm a (pre ++ Elem t "w:tbl" ta tk1 :: post)))
                   → i ∈ ids (plug c (Elem p nm a (pre ++ Elem t "w:tbl" ta tk1 :: Y :: post)))).
{ intros i Hi.
  change (pre ++ Elem t "w:tbl" ta tk1 :: Y :: post)
    with (pre ++ [Elem t "w:tbl" ta tk1] ++ Y :: post).
  rewrite app_assoc. apply in_ids_insert. right. by rewrite <- app_assoc. }
exists (Elem t "w:tbl" ta tk1).
split; [|split; [done|split; [done|split; [done|split; [|split; [done|split; [|split]]]]]]].
- f_equal. unfold Paths.two.
  change (pre ++ Elem t "w:tbl" ta tk1 :: gaps ++ Y :: post)
    with (pre ++ [Elem t "w:tbl" ta tk1] ++ gaps ++ Y :: post).
  rewrite app_assoc. rewrite detach_all.
  + replace (nid T') with (nid Y) by (by injection HtagY).
    rewrite focus_detach; [by rewrite <- app_assoc|].
    apply (NoDup_sub_gaps c p nm a (pre ++ [Elem t "w:tbl" ta tk1]) gaps (Y :: post)).
    rewrite <- app_assoc. exact Hnd1.
  + rewrite <- app_assoc. exact Hnd1.
- assert (HY : filter (λ e : nodeId * string, e.2 = "w:tr") (sig Y) = []).
  { apply filter_nil_not_elem_of'. intros e He Hname. by apply (Htr e). }
  rewrite <- !rows_of_sig by done.
  rewrite <- fmap_app, <- filter_app, <- Hsig, filter_app, HY, app_nil_r. done.
- intros e He.
  assert (He1 : e ∈ sig (two c p nm a pre gaps post (Elem t "w:tbl" ta tk1) Y)).
  { unfold two.
    change (pre ++ Elem t "w:tbl" ta tk1 :: gaps ++ Y :: post)
      with (pre ++ [Elem t "w:tbl" ta tk1] ++ gaps ++ [Y] ++ post).
    rewrite (app_assoc gaps), (app_assoc pre). apply sig_sub_gaps.
    by rewrite <- app_assoc. }
  assert (Hp : sig (two c p nm a pre gaps post (Elem t "w:tbl" ta tk1) Y)
               ≡ₚ sig (two c p nm a pre gaps post T T')).
  { apply two_sig_perm. by rewrite Hsig. }
  by rewrite <- Hp.
- replace (nid T') with (nid Y) by (by injection HtagY).
  change (pre ++ Elem t "w:tbl" ta tk1 :: Y :: post)
    with (pre ++ [Elem t "w:tbl" ta tk1] ++ Y :: post) in Hnd2.
  rewrite app_assoc, ids_insert_perm, <- app_assoc in Hnd2.
  apply NoDup_app in Hnd2 as (_ & Hdisj & _). apply Hdisj, nid_in_ids.
- intros i Hi Hin. apply Hup in Hin. revert Hin.
  change (pre ++ Elem t "w:tbl" ta tk1 :: Y :: post)
    with (pre ++ [Elem t "w:tbl" ta tk1] ++ Y :: post).
  rewrite app_assoc.
  apply (gaps_gone c p nm a (pre ++ [Elem t "w:tbl" ta tk1]) gaps (Y :: post)); [|done].
  rewrite <- app_assoc. exact Hnd1.
Qed.

(** The rows of the table that is left. *)
Lemma merged_rows Tm :
tag <$> childNodes Tm = (tag <$> childNodes T) ++ (tag <$> getElementsByTagName "w:tr" T') →
rowsOf Tm = rowsOf T ++ rowIds T'.
Proof.
intros Htags. rewrite !rowsOf_tags, Htags, filter_app, rows_tags, fmap_app.
unfold rowIds. by rewrite <- list_fmap_compose.
Qed.
End Absorbed.

(** *** Two tables, and the configuration of both *)

Lemma scanToTable_none l :
  Forall (λ g, named "w:tbl" g = false) l → scanToTable l = (l, None).
Proof.
  induction 1 as [|g l Hg _ IH]; cbn [scanToTable]; [done|]. by rewrite Hg, IH.
Qed.

(** A table that no table follows under its parent has nothing to
    absorb. *)
Lemma mergeWithNext_last c p nm a pre T post :
  NoDup (ids (plug c (Elem p nm a (pre ++ T :: post)))) →
  Forall (λ g, named "w:tbl" g = false) post →
  mergeWithNext (nid T) (plug c (Elem p nm a (pre ++ T :: post)))
  = Ok (plug c (Elem p nm a (pre ++ T :: post))).
Proof.
  intros Hnd Hpost. unfold mergeWithNext.
  rewrite focus_nextSiblings by done. by rewrite scanToTable_none.
Qed.

(** The tables of a document in which [T] and [T'] are children of the same
    element: the two, in this order, and the tables that stand between and
    after them among the others. *)
Lemma tables_foci c p nm a pre T gaps T' post :
  isTable T → isTable T' →
  ∃ A B C,
    getElementsByTagName "w:tbl" (plug c (Elem p nm a (pre ++ T :: gaps ++ T' :: post)))
    = A ++ T :: B ++ T' :: C
    ∧ (∀ y, y ∈ gaps → isTable y → y ∈ B)
    ∧ (∀ y, y ∈ post → isTable y → y ∈ C).
Proof.
  intros HT HT'.
  destruct (descendants_focus c p nm a pre T (gaps ++ T' :: post)) as (A & B & H).
  unfold getElementsByTagName. rewrite H.
  rewrite flat_map_app. cbn [flat_map]. rewrite !subtrees_cons.
  rewrite !filter_app, filter_cons_True by done.
  rewrite filter_cons_True by done.
  exists (filter (λ x, named "w:tbl" x = true) A),
         (filter (λ x, named "w:tbl" x = true) (descendants T)
          ++ filter (λ x, named "w:tbl" x = true) (flat_map subtrees gaps)),
         (filter (λ x, named "w:tbl" x = true) (descendants T')
          ++ filter (λ x, named "w:tbl" x = true) (flat_map subtrees post)
          ++ filter (λ x, named "w:tbl" x = true) B).
  split; [by rewrite <- ?app_assoc; cbn [app]; rewrite <- ?app_assoc|].
  assert (Hin : ∀ (l : list node) y, y ∈ l → isTable y →
                  y ∈ filter (λ x, named "w:tbl" x = true) (flat_map subtrees l)).
  { intros l y Hy Hty. apply list_elem_of_filter. split; [done|].
    apply list_elem_of_split in Hy as (l1 & l2 & ->). rewrite flat_map_app. cbn [flat_map].
    rewrite !elem_of_app. right. left. apply subtrees_self. }
  split; intros y Hy Hty; rewrite !elem_of_app; auto.
Qed.

(** When they are the only tables of the document, no table follows the
    second under its parent. *)
Lemma two_tables_last c p nm a pre T gaps T' post :
  isTable T → isTable T' →
  getElementsByTagName "w:tbl" (plug c (Elem p nm a (pre ++ T :: gaps ++ T' :: post)))
  = [T; T'] →
  Forall (λ g, named "w:tbl" g = false) post.
Proof.
  intros HT HT' Htables.
  destruct (tables_foci c p nm a pre T gaps T' post HT HT') as (A & B & C & Heq & _ & HC).
  rewrite Htables in Heq. apply (f_equal length) in Heq.
  rewrite length_app in Heq. cbn [length] in Heq. rewrite length_app in Heq.
  cbn [length] in Heq. destruct C as [|x C]; [|cbn [length] in Heq; lia].
  apply Forall_forall. intros y Hy. destruct (named "w:tbl" y) eqn:Hn; [|done].
  by apply HC, elem_of_nil in Hy.
Qed.

Lemma perm_two {A} (l : list A) x y : l ≡ₚ [x; y] → l = [x; y] ∨ l = [y; x].
Proof. intros H. symmetry in H. by apply Permutation_length_2_inv in H. Qed.

(** The configuration of a document of two tables, in whatever order its
    two entries come: [tblNodeMap] has the tables in the order of the
    document, and the merge loop takes the second first. *)
Lemma config_two (T T' : node) conf conf' config :
  index conf = 0 → index conf' = 1 → config ≡ₚ [conf; conf'] →
  buildNodeMap [T; T'] config = [(nid T, conf); (nid T', conf')]
  ∧ sortedConfigs config = [conf'; conf].
Proof.
  intros H0 H1 [-> | ->]%perm_two; unfold buildNodeMap, sortedConfigs;
    cbn [imap List.find foldl insertByIndex compose]; rewrite ?H0, ?H1; cbn; done.
Qed.

(** The [w:tblPr] that a table receives is a new node, and no row. *)
Lemma ensureTblPr_new c T d :
  isTable T → NoDup (ids (root d)) → below (fresh d) (root d) → root d = plug c T →
  ∃ y T2 d',
    ensureTblPr (nid T) d = (y, d') ∧ root d' = plug c T2 ∧ tag T2 = tag T
    ∧ getElementsByTagName "w:tr" T2 = getElementsByTagName "w:tr" T
    ∧ rowsOf T2 = rowsOf T
    ∧ NoDup (ids (root d'))
    ∧ ∀ e, e ∈ sig (root d') → e ∈ sig (root d) ∨ e = (fresh d, "w:tblPr").
Proof.
  intros HT Hnd Hb Hroot.
  assert (HT' : ∃ ta tk, T = Elem (nid T) "w:tbl" ta tk).
  { apply tag_element; [by apply isTable_tag|done]. }
  destruct HT' as (ta & tk & HTeq).
  assert (Hlk : lookup (nid T) (root d) = Some T).
  { rewrite Hroot. apply plug_lookup_self. by rewrite <- Hroot. }
  set (t := nid T) in *.
  unfold ensureTblPr. rewrite Hlk. cbn [mbind option_bind].
  destruct (first "w:tblPr" T) as [y|] eqn:Hfirst.
  - exists (nid y), T, d. repeat split; try done. by left.
  - cbn [createElement root fresh nid].
    exists (fresh d), (Elem t "w:tbl" ta (Elem (fresh d) "w:tblPr" [] [] :: tk)).
    eexists. split; [reflexivity|]. cbn [root].
    assert (Hupd : updateChildren t (λ ks, Elem (fresh d) "w:tblPr" [] [] :: ks) (root d)
                   = plug c (Elem t "w:tbl" ta (Elem (fresh d) "w:tblPr" [] [] :: tk))).
    { unfold updateChildren. rewrite Hroot. rewrite HTeq at 1.
      rewrite (plug_updateAt_self c (Elem t "w:tbl" ta tk)); [done|].
      rewrite <- HTeq, <- Hroot. done. }
    rewrite Hupd. split; [done|]. split; [by rewrite HTeq|]. split; [by rewrite HTeq|].
    split; [by rewrite HTeq|]. split.
    + apply (NoDup_insert c t "w:tbl" ta [] (Elem (fresh d) "w:tblPr" [] []) tk).
      * cbn [app]. by rewrite <- HTeq, <- Hroot.
      * apply NoDup_singleton.
      * intros i Hi. rewrite ids_Elem in Hi. apply list_elem_of_singleton in Hi as ->.
        cbn [app]. rewrite <- HTeq, <- Hroot. intros Hin%Hb. lia.
    + intros e. rewrite Hroot, HTeq, !sig_plug, !elem_of_app, !sig_Elem. cbn [flat_map].
      rewrite sig_Elem. cbn [flat_map app]. rewrite !elem_of_cons. tauto.
Qed.

Lemma parentOf_absent i n : i ∉ ids n → parentOf i n = None.
Proof.
  intros Hi. apply parentOf_notin. destruct n as [j nm a ks| |]; [|apply not_elem_of_nil..].
  rewrite ids_Elem in Hi. apply not_elem_of_cons in Hi as [_ Hi]. exact Hi.
Qed.

(** The styling of a table for which [mergeNext] alone is ticked: a
    [w:tblPr] if it has none. *)
Lemma styleTable_mergeOnly c p nm a pre T post conf fr :
  NoDup (ids (plug c (Elem p nm a (pre ++ T :: post)))) →
  below fr (plug c (Elem p nm a (pre ++ T :: post))) → isTable T →
  options conf = Examples.mergeOnly →
  ∃ T2 d',
    styleTable (Dom (plug c (Elem p nm a (pre ++ T :: post))) fr) (nid T, conf) = Ok d'
    ∧ root d' = plug c (Elem p nm a (pre ++ T2 :: post))
    ∧ nid T2 = nid T ∧ isTable T2 ∧ rowsOf T2 = rowsOf T ∧ rowIds T2 = rowIds T
    ∧ NoDup (ids (root d'))
    ∧ ∀ e, e ∈ sig (root d')
           → e ∈ sig (plug c (Elem p nm a (pre ++ T :: post))) ∨ e = (fr, "w:tblPr").
Proof.
  intros Hnd Hb HT Hopt. unfold styleTable. cbn [root].
  rewrite (focus_parentOf c p nm a pre T post Hnd).
  set (c' := c ++ [Frame p nm a pre post]).
  assert (Hdoc : plug c (Elem p nm a (pre ++ T :: post)) = plug c' T).
  { unfold c'. by rewrite plug_app. }
  rewrite Hdoc in *.
  destruct (ensureTblPr_new c' T (Dom (plug c' T) fr) HT Hnd Hb eq_refl)
    as (tblPr & T2 & d' & -> & Hroot' & Htag & Htr & Hrows & Hnd' & Hsig).
  rewrite Hopt. cbn [fixBorders autofit fixSpacing fixAlign Examples.mergeOnly
                     mbind result_bind].
  exists T2, d'. split; [done|]. split; [rewrite Hroot'; unfold c'; by rewrite plug_app|].
  split; [unfold tag in Htag; congruence|]. split.
  { apply (tag_isTable T2 (nid T)). rewrite Htag. by apply isTable_tag. }
  split; [done|]. split; [|done]. unfold rowIds. by rewrite Htr.
Qed.

(** The tables of a document that came out of another: when no table is new
    and all the tables but [Tm] have left, [Tm] is the only table. *)
Lemma single_table doc res Tm :
  NoDup (ids res) → nid res = nid doc →
  (∀ e, e ∈ sig res → e.2 = "w:tbl" → e ∈ sig doc) →
  (∀ y, y ∈ getElementsByTagName "w:tbl" doc → nid y ≠ nid Tm → nid y ∉ ids res) →
  Tm ∈ getElementsByTagName "w:tbl" res →
  getElementsByTagName "w:tbl" res = [Tm].
Proof.
  intros Hnd Hroot Hsig Hgone HTm.
  assert (Hndd : NoDup (nid <$> descendants res)).
  { unfold ids in Hnd. rewrite subtrees_cons, fmap_cons in Hnd.
    by apply NoDup_cons in Hnd as [_ ?]. }
  assert (Hall : ∀ x, x ∈ getElementsByTagName "w:tbl" res → x = Tm).
  { intros x [Hname Hx]%list_elem_of_filter.
    assert (Hxs : x ∈ subtrees res) by (by apply descendants_subtrees).
    assert (Htag : tag x = (nid x, "w:tbl")) by (by apply isTable_tag).
    assert (He : tag x ∈ sig doc).
    { apply Hsig; [by apply tag_in_sig|by rewrite Htag]. }
    apply list_elem_of_fmap in He as (y & Hy & Hys).
    apply list_elem_of_filter in HTm as [_ HTm].
    apply (subtrees_inj res); [done|done|by apply descendants_subtrees|].
    destruct (decide (nid x = nid Tm)) as [|Hne]; [done|]. exfalso.
    rewrite subtrees_cons in Hys. apply elem_of_cons in Hys as [->|Hys].
    - unfold ids in Hnd. rewrite subtrees_cons, fmap_cons in Hnd.
      apply NoDup_cons in Hnd as [Hn _]. apply Hn. rewrite Hroot.
      replace (nid doc) with (nid x) by (unfold tag in Hy; congruence).
      by apply list_elem_of_fmap_2.
    - apply (Hgone y).
      + apply list_elem_of_filter. split; [|done].
        apply (tag_isTable y (nid x)). by rewrite <- Hy.
      + unfold tag in Hy. congruence.
      + replace (nid y) with (nid x) by (unfold tag in Hy; congruence).
        by apply list_elem_of_fmap_2. }
  assert (Hndt : NoDup (getElementsByTagName "w:tbl" res)).
  { apply NoDup_filter. eapply NoDup_fmap_1. exact Hndd. }
  destruct (getElementsByTagName "w:tbl" res) as [|x [|y l]].
  - by apply elem_of_nil in HTm.
  - f_equal. apply Hall, elem_of_cons. by left.
  - exfalso. apply NoDup_cons in Hndt as [Hx _]. apply Hx.
    rewrite (Hall x), (Hall y); [apply elem_of_cons; by left| |].
    + apply elem_of_cons. right. apply elem_of_cons. by left.
    + apply elem_of_cons. by left.
Qed.

Lemma focus_table c p nm a pre T post :
  isTable T → T ∈ getElementsByTagName "w:tbl" (plug c (Elem p nm a (pre ++ T :: post))).
Proof.
  intros HT. destruct (descendants_focus c p nm a pre T post) as (A & B & H).
  apply list_elem_of_filter. split; [done|]. rewrite H, !elem_of_app. right. left.
  apply subtrees_self.
Qed.

Lemma nid_focus c p nm a ks ks' :
  nid (plug c (Elem p nm a ks)) = nid (plug c (Elem p nm a ks')).
Proof. by destruct c. Qed.

Lemma sig_sub_ids res doc :
  (∀ e, e ∈ sig res → e ∈ sig doc) → ∀ i, i ∈ ids res → i ∈ ids doc.
Proof.
  intros Hsub i. rewrite !ids_sig. intros (e & -> & He)%list_elem_of_fmap.
  by apply list_elem_of_fmap_2, Hsub.
Qed.

(** MODULE_4_FIX on a document of two tables, with [mergeNext] as the only
    option ticked for the first and whatever options for the second, the
    entries of the configuration in any order. *)
Lemma fixDocument_absorbs c p nm a pre T gaps T' post conf conf' config :
  let doc := plug c (Elem p nm a (pre ++ T :: gaps ++ T' :: post)) in
  NoDup (ids doc) → isTable T → isTable T' →
  Forall (λ g, named "w:tbl" g = false) gaps →
  getElementsByTagName "w:tbl" doc = [T; T'] →
  index conf = 0 → index conf' = 1 → id conf ≠ id conf' → config ≡ₚ [conf; conf'] →
  options conf = Examples.mergeOnly →
  ∃ Tm,
    fixDocument config doc = Ok (plug c (Elem p nm a (pre ++ Tm :: post)))
    ∧ nid Tm = nid T ∧ isTable Tm
    ∧ rowsOf Tm = rowsOf T ++ rowIds T'
    ∧ getElementsByTagName "w:tbl" (plug c (Elem p nm a (pre ++ Tm :: post))) = [Tm]
    ∧ (nid T' ∉ ids (plug c (Elem p nm a (pre ++ Tm :: post))))
    ∧ (∀ i, i ∈ flat_map ids gaps → i ∉ ids (plug c (Elem p nm a (pre ++ Tm :: post)))).
Proof.
  intros doc Hnd HT HT' Hgaps Htables Hi Hi' Hid Hconfig Hopt.
  pose proof (two_tables_last c p nm a pre T gaps T' post HT HT' Htables) as Hpost.
  destruct (config_two T T' conf conf' config Hi Hi' Hconfig) as [Hmap Hsorted].
  unfold fixDocument. fold doc. rewrite Htables, Hmap.
  unfold mergePhase. rewrite Hsorted. cbn [foldM List.find fst snd].
  rewrite (bool_decide_eq_false_2 (id conf = id conf')) by done.
  rewrite (bool_decide_eq_true_2 (id conf' = id conf')) by done.
  rewrite (bool_decide_eq_true_2 (id conf = id conf)) by done.
  assert (Hfr : below (fresh (mkDom doc)) doc) by apply below_mkDom.
  set (fr := fresh (mkDom doc)) in *. clearbody fr.
  assert (Hdoc : doc = plug c (Elem p nm a ((pre ++ T :: gaps) ++ T' :: post))).
  { unfold doc. by rewrite <- app_assoc. }
  assert (Hstep : (match parentOf (nid T') doc with
                   | Some _ => if mergeNext (options conf') then mergeWithNext (nid T') doc
                               else Ok doc
                   | None => Ok doc
                   end) = Ok doc).
  { destruct (parentOf (nid T') doc); [|done].
    destruct (mergeNext (options conf')); [|done].
    rewrite Hdoc. apply mergeWithNext_last; [by rewrite <- Hdoc|done]. }
  rewrite Hstep. cbn [mbind result_bind].
  unfold doc at 1. rewrite (focus_parentOf c p nm a pre T _ Hnd).
  rewrite Hopt. cbn [mergeNext Examples.mergeOnly].
  destruct (mergeWithNext_rows c p nm a pre T gaps T' post Hnd HT HT' Hgaps)
    as (Tm & Hm & Hidm & HTm & Htags & _ & Hnd1 & Hsub & Hgone & Hgapsgone).
  fold doc in Hm, Hsub. rewrite Hm. cbn [mbind result_bind foldM].
  assert (Hb1 : below fr (plug c (Elem p nm a (pre ++ Tm :: post)))).
  { intros i Hin. by apply Hfr, (sig_sub_ids _ _ Hsub). }
  destruct (styleTable_mergeOnly c p nm a pre Tm post conf fr Hnd1 Hb1 HTm Hopt)
    as (T2 & d' & Hst & Hroot' & Hid2 & HT2 & Hrows2 & _ & Hnd' & Hsig').
  rewrite <- Hidm, Hst. cbn [mbind result_bind].
  assert (Hout : ∀ i, i ∈ ids doc →
                   i ∉ ids (plug c (Elem p nm a (pre ++ Tm :: post))) →
                   i ∉ ids (root d')).
  { intros i Hin Hout. rewrite ids_sig. intros (e & -> & [He | ->]%Hsig')%list_elem_of_fmap.
    - by apply Hout, in_ids_sig.
    - apply Hfr in Hin. cbn in Hin. lia. }
  assert (HinT' : nid T' ∈ ids doc).
  { rewrite Hdoc. apply plug_in_ids. rewrite ids_frame. right.
    rewrite !elem_of_app. right. left. apply nid_in_ids. }
  unfold styleTable. rewrite parentOf_absent by (by apply Hout).
  cbn [mbind result_bind]. exists T2. rewrite <- Hroot'.
  split; [done|]. split; [congruence|]. split; [done|]. split.
  { rewrite Hrows2. by apply merged_rows. }
  split; [|split; [by apply Hout|]].
  - apply (single_table doc); [done| | | |].
    + rewrite Hroot'. apply nid_focus.
    + intros e [He | ->]%Hsig' Hname; [by apply Hsub|done].
    + rewrite Htables. intros y [-> | ->%list_elem_of_singleton]%elem_of_cons Hne.
      * congruence.
      * by apply Hout.
    + rewrite Hroot'. by apply focus_table.
  - intros i Hi''. apply Hout; [|by apply Hgapsgone].
    unfold doc. apply plug_in_ids. rewrite ids_Elem. apply elem_of_cons. right.
    rewrite flat_map_app. cbn [flat_map]. rewrite flat_map_app, !elem_of_app. auto.
Qed.

(** C4: two tables, children of the same element and separated by fewer
    than 5 empty paragraphs and nothing else.  The merge leaves one table
    in the place of the first, directly followed by what followed the
    second: the paragraphs in between and the second table are no longer in
    the document.  Its rows are the rows of the first table followed by
    every [w:tr] found below the second, in the order of the document: not
    only the rows of the second table but also the rows of the tables that
    lie in its cells, which are left without rows.  So the table has
    [m + n] rows exactly when no [w:tr] lies deeper in the second table than
    its rows; otherwise it has more.  MODULE_4_FIX as a whole does the same on
    a document of two tables, with [mergeNext] ticked for the first, whatever
    the options of the second and the order of the two entries. *)
Theorem merge_moves_every_row_below c p nm a pre T gaps T' post :
  let doc := plug c (Elem p nm a (pre ++ T :: gaps ++ T' :: post)) in
  NoDup (ids doc) → isTable T → isTable T' →
  Forall emptyParagraph gaps → length gaps < 5 →
  (∃ Tm,
     mergeWithNext (nid T) doc = Ok (plug c (Elem p nm a (pre ++ Tm :: post)))
     ∧ nid Tm = nid T ∧ isTable Tm
     ∧ rowsOf Tm = rowsOf T ++ rowIds T'
     ∧ (length (rowsOf Tm) = length (rowsOf T) + length (rowsOf T')
        ↔ rowIds T' = rowsOf T')
     ∧ (nid T' ∉ ids (plug c (Elem p nm a (pre ++ Tm :: post))))
     ∧ (∀ i, i ∈ flat_map ids gaps → i ∉ ids (plug c (Elem p nm a (pre ++ Tm :: post)))))
  ∧ (∀ conf conf' config,
       getElementsByTagName "w:tbl" doc = [T; T'] →
       index conf = 0 → index conf' = 1 → id conf ≠ id conf' → config ≡ₚ [conf; conf'] →
       options conf = Examples.mergeOnly →
       ∃ Tm,
         fixDocument config doc = Ok (plug c (Elem p nm a (pre ++ Tm :: post)))
         ∧ nid Tm = nid T ∧ isTable Tm
         ∧ rowsOf Tm = rowsOf T ++ rowIds T'
         ∧ getElementsByTagName "w:tbl" (plug c (Elem p nm a (pre ++ Tm :: post))) = [Tm]
         ∧ (nid T' ∉ ids (plug c (Elem p nm a (pre ++ Tm :: post))))
         ∧ (∀ i, i ∈ flat_map ids gaps
                 → i ∉ ids (plug c (Elem p nm a (pre ++ Tm :: post))))).
Proof.
  intros doc Hnd HT HT' Hgaps _.
  assert (Hgaps' : Forall (λ g, named "w:tbl" g = false) gaps).
  { eapply Forall_impl; [exact Hgaps|]. apply emptyParagraph_no_table. }
  split.
  - destruct (mergeWithNext_rows c p nm a pre T gaps T' post Hnd HT HT' Hgaps')
      as (Tm & Hm & Hid & HTm & Htags & _ & _ & _ & Hgone & Hgapsgone).
    pose proof (merged_rows T T' Tm Htags) as Hrows.
    exists Tm. repeat split; try done.
    + rewrite Hrows, length_app. intros Hlen. symmetry.
      apply sublist_same_length; [apply rowsOf_sublist|lia].
    + intros Heq. by rewrite Hrows, length_app, Heq.
  - intros conf conf' config Htables Hi Hi' Hid Hconfig Hopt.
    by apply (fixDocument_absorbs c p nm a pre T gaps T' post conf conf' config).
Qed.

Lemma merge_moves_every_row_below_witness :
  length (rowsOf Examples.tableA) = 2 ∧ length (rowsOf Examples.nestedTable) = 1
  ∧ ∃ Tm,
      mergeWithNext 10 Examples.nestedDocument
      = Ok (Examples.document [Tm; Examples.sectPr])
      ∧ nid Tm = 10 ∧ isTable Tm
      ∧ rowsOf Tm = [11; 21] ++ [41; 44; 54].
Proof.
  split; [reflexivity|]. split; [reflexivity|].
  destruct (proj1 (merge_moves_every_row_below Examples.toBody 2 "w:body" [] []
                     Examples.tableA [Elem 30 "w:p" [] []] Examples.nestedTable
                     [Examples.sectPr]
                     ltac:(by_evaluation) eq_refl eq_refl ltac:(by_evaluation)
                     ltac:(vm_compute; lia)))
    as (Tm & Hm & Hid & HTm & Hrows & _).
  exists Tm. repeat split; done.
Defined.

(** The document that comes out of MODULE_4_FIX, with the configuration of
    the three tables as the analysis lists them and [mergeNext] ticked for
    the first: the table that lay in the cell has no row left, and its two
    rows are rows of the table that is left. *)
Example fixDocument_nested :
  fixDocument [Examples.only 0 Examples.mergeOnly; Examples.only 1 noOptions;
               Examples.only 2 noOptions]
              Examples.nestedDocument
  = Ok (Examples.document
          [ Elem 10 "w:tbl" []
              [ Elem 91 "w:tblPr" [] [];
                Examples.row 11 (js "a"); Examples.row 21 (js "b");
                Elem 41 "w:tr" []
                  [ Elem 42 "w:tc" []
                      [ Elem 43 "w:tbl" [] [Elem 92 "w:tblPr" [] []];
                        Examples.paragraph 64 (js "c") ] ];
                Examples.row 44 (js "x"); Examples.row 54 (js "y") ];
            Examples.sectPr ]).
Proof. vm_compute. reflexivity. Qed.
End AbsorbProps.

(** ** Three tables in a row *)

Module ChainProps.
Import DOM Mod4 Paths DOMFacts AnalyzerProps StyleProps MergeProps AbsorbProps.
Local Open Scope nat_scope.
Local Arguments ids : simpl never.

Lemma perm_three {A} (l : list A) x y z :
  l ≡ₚ [x; y; z] →
  l = [x; y; z] ∨ l = [x; z; y] ∨ l = [y; x; z] ∨ l = [y; z; x] ∨ l = [z; x; y]
  ∨ l = [z; y; x].
Proof.
  intros H. apply Permutation_cons_inv_r in H as (k1 & k2 & -> & H).
  symmetry in H. apply perm_two in H.
  destruct k1 as [|u [|v [|w k1]]]; cbn [app] in *.
  - destruct H as [-> | ->]; auto.
  - destruct k2 as [|w [|? ?]]; destruct H as [H | H]; try done;
      injection H as -> ->; auto 10.
  - destruct k2 as [|? ?]; destruct H as [H | H]; try done; injection H as -> ->; auto 10.
  - destruct H as [H | H]; apply (f_equal length) in H; cbn [length] in H;
      rewrite length_app in H; lia.
Qed.

(** The configuration of a document of three tables, in whatever order its
    entries come. *)
Lemma config_three (T1 T2 T3 : node) conf1 conf2 conf3 config :
  index conf1 = 0 → index conf2 = 1 → index conf3 = 2 →
  config ≡ₚ [conf1; conf2; conf3] →
  buildNodeMap [T1; T2; T3] config = [(nid T1, conf1); (nid T2, conf2); (nid T3, conf3)]
  ∧ sortedConfigs config = [conf3; conf2; conf1].
Proof.
  intros H1 H2 H3 Hp. apply perm_three in Hp.
  destruct conf1, conf2, conf3. cbn [index] in H1, H2, H3. subst.
  destruct Hp as [-> | [-> | [-> | [-> | [-> | ->]]]]]; split; vm_compute; reflexivity.
Qed.

Lemma siblings_distinct c p nm a pre T mid T' post :
  NoDup (ids (plug c (Elem p nm a (pre ++ T :: mid ++ T' :: post)))) → nid T ≠ nid T'.
Proof.
  intros Hnd Heq. rewrite ids_insert_perm in Hnd. apply NoDup_app in Hnd as (_ & Hdis & _).
  apply (Hdis (nid T)); [apply nid_in_ids|]. rewrite Heq.
  rewrite app_assoc. apply plug_in_ids. rewrite ids_frame. right.
  rewrite !elem_of_app. right. left. apply nid_in_ids.
Qed.

(** When three tables under the same parent are the only tables of the
    document, nothing that stands between or after them is a table. *)
Lemma three_tables_alone c p nm a pre T1 g1 T2 g2 T3 post :
  let doc := plug c (Elem p nm a (pre ++ T1 :: g1 ++ T2 :: g2 ++ T3 :: post)) in
  NoDup (ids doc) → isTable T1 → isTable T2 → isTable T3 →
  getElementsByTagName "w:tbl" doc = [T1; T2; T3] →
  Forall (λ g, named "w:tbl" g = false) g1
  ∧ Forall (λ g, named "w:tbl" g = false) g2
  ∧ Forall (λ g, named "w:tbl" g = false) post.
Proof.
  intros doc Hnd HT1 HT2 HT3 Htables.
  assert (Hno : ∀ (l B : list node), (∀ y, y ∈ l → isTable y → y ∈ B) → B = [] →
                  Forall (λ g, named "w:tbl" g = false) l).
  { intros l B HB ->. apply Forall_forall. intros y Hy.
    destruct (named "w:tbl" y) eqn:Hn; [|done]. by apply HB, elem_of_nil in Hy. }
  split; [|split].
  - destruct (tables_foci c p nm a pre T1 g1 T2 (g2 ++ T3 :: post) HT1 HT2)
      as (A & B & C & Heq & HB & HC).
    fold doc in Heq. rewrite Htables in Heq. apply (Hno g1 B HB).
    assert (H3 : T3 ∈ C).
    { apply HC; [|done]. apply elem_of_app. right. apply elem_of_cons. by left. }
    apply (f_equal length) in Heq. rewrite length_app in Heq. cbn [length] in Heq.
    rewrite length_app in Heq. cbn [length] in Heq.
    destruct C as [|? ?]; [by apply elem_of_nil in H3|]. cbn [length] in Heq.
    destruct B; [done|]. cbn [length] in Heq. lia.
  - assert (Hdoc : doc = plug c (Elem p nm a ((pre ++ T1 :: g1) ++ T2 :: g2 ++ T3 :: post))).
    { unfold doc. by rewrite <- app_assoc. }
    destruct (tables_foci c p nm a (pre ++ T1 :: g1) T2 g2 T3 post HT2 HT3)
      as (A & B & C & Heq & HB & HC).
    rewrite <- Hdoc, Htables in Heq. apply (Hno g2 B HB).
    destruct A as [|x A].
    + cbn [app] in Heq. injection Heq as Heq _. exfalso.
      apply (siblings_distinct c p nm a pre T1 g1 T2 (g2 ++ T3 :: post) Hnd). by rewrite Heq.
    + apply (f_equal length) in Heq. cbn [app length] in Heq.
      rewrite length_app in Heq. cbn [length] in Heq.
      rewrite length_app in Heq. cbn [length] in Heq.
      destruct B; [done|]. cbn [length] in Heq. lia.
  - assert (Hdoc : doc = plug c (Elem p nm a (pre ++ T1 :: (g1 ++ T2 :: g2) ++ T3 :: post))).
    { unfold doc. by rewrite <- app_assoc. }
    destruct (tables_foci c p nm a pre T1 (g1 ++ T2 :: g2) T3 post HT1 HT3)
      as (A & B & C & Heq & HB & HC).
    rewrite <- Hdoc, Htables in Heq. apply (Hno post C HC).
    assert (H2 : T2 ∈ B).
    { apply HB; [|done]. apply elem_of_app. right. apply elem_of_cons. by left. }
    apply (f_equal length) in Heq. rewrite length_app in Heq. cbn [length] in Heq.
    rewrite length_app in Heq. cbn [length] in Heq.
    destruct B as [|? ?]; [by apply elem_of_nil in H2|]. cbn [length] in Heq.
    destruct C; [done|]. cbn [length] in Heq. lia.
Qed.

(** X29: a document whose tables are three tables in a row, children of the
    same element, with [mergeNext] alone ticked for the first and for the
    second, whatever the options of the third and the order of the three
    entries in the configuration.  MODULE_4_FIX takes the larger index
    first, so the second table absorbs the third and then the first absorbs
    the second.  The table that stands in the place of the first is then
    the only table of the document: the second and the third table are no
    longer in it, nor is anything that stood between the three.  Its rows are the
    rows of the first table and every [w:tr] that lay below the second and
    the third. *)
Theorem merge_chain c p nm a pre T1 g1 T2 g2 T3 post conf1 conf2 conf3 config :
  let doc := plug c (Elem p nm a (pre ++ T1 :: g1 ++ T2 :: g2 ++ T3 :: post)) in
  NoDup (ids doc) → isTable T1 → isTable T2 → isTable T3 →
  getElementsByTagName "w:tbl" doc = [T1; T2; T3] →
  index conf1 = 0 → index conf2 = 1 → index conf3 = 2 →
  NoDup [id conf1; id conf2; id conf3] →
  config ≡ₚ [conf1; conf2; conf3] →
  options conf1 = Examples.mergeOnly → options conf2 = Examples.mergeOnly →
  ∃ Tm,
    fixDocument config doc = Ok (plug c (Elem p nm a (pre ++ Tm :: post)))
    ∧ nid Tm = nid T1 ∧ isTable Tm
    ∧ rowsOf Tm ≡ₚ rowsOf T1 ++ rowIds T2 ++ rowIds T3
    ∧ getElementsByTagName "w:tbl" (plug c (Elem p nm a (pre ++ Tm :: post))) = [Tm]
    ∧ (nid T2 ∉ ids (plug c (Elem p nm a (pre ++ Tm :: post))))
    ∧ (nid T3 ∉ ids (plug c (Elem p nm a (pre ++ Tm :: post))))
    ∧ (∀ i, i ∈ flat_map ids (g1 ++ g2)
            → i ∉ ids (plug c (Elem p nm a (pre ++ Tm :: post)))).
Proof.
  intros doc Hnd HT1 HT2 HT3 Htables Hi1 Hi2 Hi3 Hids Hconfig Hopt1 Hopt2.
  destruct (three_tables_alone c p nm a pre T1 g1 T2 g2 T3 post Hnd HT1 HT2 HT3 Htables)
    as (Hg1 & Hg2 & Hpost).
  destruct (config_three T1 T2 T3 conf1 conf2 conf3 config Hi1 Hi2 Hi3 Hconfig)
    as [Hmap Hsorted].
  apply NoDup_cons in Hids as [Hn1 Hids]. apply NoDup_cons in Hids as [Hn2 _].
  assert (H12 : id conf1 ≠ id conf2).
  { intros Heq. apply Hn1. rewrite Heq. apply elem_of_cons. by left. }
  assert (H13 : id conf1 ≠ id conf3).
  { intros Heq. apply Hn1. rewrite Heq. apply elem_of_cons. right.
    apply elem_of_cons. by left. }
  assert (H23 : id conf2 ≠ id conf3).
  { intros Heq. apply Hn2. rewrite Heq. apply elem_of_cons. by left. }
  unfold fixDocument. fold doc. rewrite Htables, Hmap.
  unfold mergePhase. rewrite Hsorted. cbn [foldM List.find fst snd].
  rewrite (bool_decide_eq_false_2 (id conf1 = id conf3)) by done.
  rewrite (bool_decide_eq_false_2 (id conf2 = id conf3)) by done.
  rewrite (bool_decide_eq_true_2 (id conf3 = id conf3)) by done.
  rewrite (bool_decide_eq_false_2 (id conf1 = id conf2)) by done.
  rewrite (bool_decide_eq_true_2 (id conf2 = id conf2)) by done.
  rewrite (bool_decide_eq_true_2 (id conf1 = id conf1)) by done.
  assert (Hfr : below (fresh (mkDom doc)) doc) by apply below_mkDom.
  set (fr := fresh (mkDom doc)) in *. clearbody fr.
  assert (Hdoc3 : doc = plug c (Elem p nm a ((pre ++ T1 :: g1 ++ T2 :: g2) ++ T3 :: post))).
  { unfold doc. rewrite <- app_assoc. cbn [app]. by rewrite <- app_assoc. }
  assert (Hstep : (match parentOf (nid T3) doc with
                   | Some _ => if mergeNext (options conf3) then mergeWithNext (nid T3) doc
                               else Ok doc
                   | None => Ok doc
                   end) = Ok doc).
  { destruct (parentOf (nid T3) doc); [|done].
    destruct (mergeNext (options conf3)); [|done].
    rewrite Hdoc3. apply mergeWithNext_last; [by rewrite <- Hdoc3|done]. }
  rewrite Hstep. cbn [mbind result_bind].
  assert (Hdoc : doc = plug c (Elem p nm a ((pre ++ T1 :: g1) ++ T2 :: g2 ++ T3 :: post))).
  { unfold doc. by rewrite <- app_assoc. }
  assert (Hnd' : NoDup (ids (plug c (Elem p nm a ((pre ++ T1 :: g1) ++ T2 :: g2 ++ T3 :: post)))))
    by (by rewrite <- Hdoc).
  rewrite Hdoc. rewrite (focus_parentOf c p nm a (pre ++ T1 :: g1) T2 _ Hnd').
  rewrite Hopt2. cbn [mergeNext Examples.mergeOnly].
  destruct (mergeWithNext_rows c p nm a (pre ++ T1 :: g1) T2 g2 T3 post Hnd' HT2 HT3 Hg2)
    as (T2m & -> & Hid2 & HT2m & _ & Hrows2 & Hnd1 & Hsub1 & Hgone3 & Hgone2).
  cbn [mbind result_bind]. rewrite <- Hdoc in Hsub1.
  rewrite <- app_assoc in Hnd1, Hsub1, Hgone3, Hgone2 |- *.
  cbn [app] in Hnd1, Hsub1, Hgone3, Hgone2 |- *.
  rewrite (focus_parentOf c p nm a pre T1 _ Hnd1).
  rewrite Hopt1. cbn [mergeNext Examples.mergeOnly].
  destruct (mergeWithNext_rows c p nm a pre T1 g1 T2m post Hnd1 HT1 HT2m Hg1)
    as (T1m & -> & Hid1 & HT1m & Htags & _ & Hnd2 & Hsub2 & Hgonem & Hgone1).
  cbn [mbind result_bind foldM].
  assert (Hsub : ∀ e, e ∈ sig (plug c (Elem p nm a (pre ++ T1m :: post))) → e ∈ sig doc)
    by auto.
  assert (Hb2 : below fr (plug c (Elem p nm a (pre ++ T1m :: post)))).
  { intros i Hin. by apply Hfr, (sig_sub_ids _ _ Hsub). }
  destruct (styleTable_mergeOnly c p nm a pre T1m post conf1 fr Hnd2 Hb2 HT1m Hopt1)
    as (T1' & d' & Hst & Hroot' & Hid' & HT1' & Hrows' & _ & Hnd3 & Hsig').
  rewrite <- Hid1, Hst. cbn [mbind result_bind].
  assert (Hout : ∀ i, i ∈ ids doc →
                   i ∉ ids (plug c (Elem p nm a (pre ++ T1m :: post))) →
                   i ∉ ids (root d')).
  { intros i Hin Hout. rewrite ids_sig. intros (e & -> & [He | ->]%Hsig')%list_elem_of_fmap.
    - by apply Hout, in_ids_sig.
    - apply Hfr in Hin. cbn in Hin. lia. }
  assert (Hin2 : nid T2 ∈ ids doc).
  { rewrite Hdoc. apply plug_in_ids. rewrite ids_frame. right.
    rewrite !elem_of_app. right. left. apply nid_in_ids. }
  assert (Hin3 : nid T3 ∈ ids doc).
  { rewrite Hdoc3. apply plug_in_ids. rewrite ids_frame. right.
    rewrite !elem_of_app. right. left. apply nid_in_ids. }
  assert (Hno2 : nid T2 ∉ ids (plug c (Elem p nm a (pre ++ T1m :: post)))).
  { by rewrite <- Hid2. }
  assert (Hno3 : nid T3 ∉ ids (plug c (Elem p nm a (pre ++ T1m :: post)))).
  { intros Hin. apply Hgone3. by apply (sig_sub_ids _ _ Hsub2). }
  unfold styleTable. rewrite parentOf_absent by (by apply Hout).
  cbn [mbind result_bind]. rewrite parentOf_absent by (by apply Hout).
  cbn [mbind result_bind]. exists T1'. rewrite <- Hroot'.
  split; [done|]. split; [congruence|]. split; [done|]. split.
  { rewrite Hrows', (merged_rows T1 T2m T1m Htags). by rewrite Hrows2. }
  split; [|split; [by apply Hout|split; [by apply Hout|]]].
  - apply (single_table doc); [done| | | |].
    + rewrite Hroot'. apply nid_focus.
    + intros e [He | ->]%Hsig' Hname; [by apply Hsub|done].
    + rewrite Htables. intros y Hy Hne.
      apply elem_of_cons in Hy as [-> | Hy]; [congruence|].
      apply elem_of_cons in Hy as [-> | ->%list_elem_of_singleton]; by apply Hout.
    + rewrite Hroot'. by apply focus_table.
  - intros i Hi. rewrite flat_map_app in Hi. apply Hout.
    + unfold doc. apply plug_in_ids. rewrite ids_Elem. apply elem_of_cons. right.
      rewrite flat_map_app. cbn [flat_map]. rewrite flat_map_app. cbn [flat_map].
      rewrite flat_map_app. rewrite !elem_of_app. apply elem_of_app in Hi as [Hi | Hi]; auto 10.
    + apply elem_of_app in Hi as [Hi | Hi]; [by apply Hgone1|].
      intros Hin. apply (Hgone2 i Hi). by apply (sig_sub_ids _ _ Hsub2).
Qed.

Lemma merge_chain_witness :
  let tableC := Elem 200 "w:tbl" [] [Examples.row 201 (js "f")] in
  ∃ Tm,
    fixDocument [Examples.only 1 Examples.mergeOnly; Examples.only 2 Examples.spacingOnly;
                 Examples.only 0 Examples.mergeOnly]
                (Examples.document [Examples.tableA; Examples.tableB; tableC; Examples.sectPr])
    = Ok (Examples.document [Tm; Examples.sectPr])
    ∧ nid Tm = 10 ∧ isTable Tm
    ∧ rowsOf Tm ≡ₚ [11; 21] ++ [42; 52; 62] ++ [201]
    ∧ getElementsByTagName "w:tbl" (Examples.document [Tm; Examples.sectPr]) = [Tm].
Proof.
  intros tableC.
  destruct (merge_chain Examples.toBody 2 "w:body" [] [] Examples.tableA [] Examples.tableB []
              tableC [Examples.sectPr]
              (Examples.only 0 Examples.mergeOnly) (Examples.only 1 Examples.mergeOnly)
              (Examples.only 2 Examples.spacingOnly)
              [Examples.only 1 Examples.mergeOnly; Examples.only 2 Examples.spacingOnly;
               Examples.only 0 Examples.mergeOnly]
              ltac:(by_evaluation) eq_refl eq_refl eq_refl eq_refl eq_refl eq_refl eq_refl
              ltac:(by_evaluation))
    as (Tm & Hfix & Hid & HTm & Hrows & Htables & _); [|reflexivity|reflexivity|].
  - symmetry. apply (Permutation_cons_append [_; _]). 
  - exists Tm. repeat split; done.
Defined.
End ChainProps.

(** ** The gap between two tables, with the configuration of both *)

Module SpacingProps.
Import DOM Mod4 Paths DOMFacts AnalyzerProps StyleProps GapProps MergeProps AbsorbProps.
Local Open Scope nat_scope.
Local Arguments ids : simpl never.







(** The documents that come out: the margins are set in both tables, and
    one paragraph separates them. *)
Example fixDocument_gap_both :
  fixDocument [Examples.only 0 Examples.spacingOnly; Examples.only 1 Examples.spacingOnly]
              (Examples.gapDocument 0)
  = Ok (Examples.document
          [ Elem 10 "w:tbl" []
              [ Elem 91 "w:tblPr" []
                  [ Elem 92 "w:tblCellMar" []
                      [ Elem 93 "w:top" [("w:w", "50"); ("w:type", "dxa")] [];
                        Elem 94 "w:bottom" [("w:w", "50"); ("w:type", "dxa")] [];
                        Elem 95 "w:left" [("w:w", "100"); ("w:type", "dxa")] [];
                        Elem 96 "w:right" [("w:w", "100"); ("w:type", "dxa")] [] ] ];
                Examples.row 11 (js "a"); Examples.row 21 (js "b") ];
            Elem 97 "w:p" [] [];
            Elem 40 "w:tbl" []
              [ Elem 41 "w:tblPr" []
                  [ Elem 98 "w:tblCellMar" []
                      [ Elem 99 "w:top" [("w:w", "50"); ("w:type", "dxa")] [];
                        Elem 100 "w:bottom" [("w:w", "50"); ("w:type", "dxa")] [];
                        Elem 101 "w:left" [("w:w", "100"); ("w:type", "dxa")] [];
                        Elem 102 "w:right" [("w:w", "100"); ("w:type", "dxa")] [] ] ];
                Examples.row 42 (js "c"); Examples.row 52 (js "d"); Examples.row 62 (js "e") ];
            Examples.sectPr ]).
Proof. vm_compute. reflexivity. Qed.
End SpacingProps.

(** ** The range of a long-term goal *)

Module RangeProps.
Import Synthesizer StringFacts RegexFacts SynthesizerProps.
Local Open Scope nat_scope.















End RangeProps.

(** ** The exceptions of the Field Filler *)

Module CatchProps.
Import Mod4 SmartFill DOMFacts.
Local Open Scope nat_scope.

Lemma foldM_returns {A B} (f : A → B → result A) :
  (∀ a x, ∃ a', f a x = Ok a') → ∀ l a, ∃ a', foldM f a l = Ok a'.
Proof.
  intros Hf l. induction l as [|x l IH]; intros a; cbn [foldM]; [by exists a|].
  destruct (Hf a x) as [a1 ->]. cbn [mbind result_bind]. apply IH.
Qed.

Section Catch.
Context {number : Type} (zero : number) (isFalsy : number → bool).
Context (toFixed1 : number → jsstring) (numberToString : number → jsstring).
Context (parseFromString : jsstring → node) (serializeToString : node → jsstring).

Lemma toFixedComma_returns (o : gmap jsstring (@jsval number)) k :
readable o → ∃ s, toFixedComma zero isFalsy toFixed1 (get o k) = Ok s.
Proof.
intros Ho. unfold get. destruct (o !! k) as [v|] eqn:Hk; cbn [default]; [|by eexists].
destruct v as [| |x|[|c s]]; try (by eexists). by destruct (Ho k c s).
Qed.

Lemma toFixedPercent_returns (o : gmap jsstring (@jsval number)) k :
readable o → ∃ s, toFixedPercent zero isFalsy toFixed1 (get o k) = Ok s.
Proof.
intros Ho. unfold get. destruct (o !! k) as [v|] eqn:Hk; cbn [default]; [|by eexists].
destruct v as [| |x|[|c s]]; try (by eexists). by destruct (Ho k c s).
Qed.

Lemma dataMapping_returns info (result : @ESDMResult number) ps :
percents result = Some ps → readable ps →
∃ data, dataMapping zero isFalsy toFixed1 info result = Ok data.
Proof.
intros Hps Hr. unfold dataMapping. rewrite Hps.
cbn [from_option mbind result_bind].
destruct (toFixedPercent_returns ps (js "level0") Hr) as [p0 ->]. cbn [mbind result_bind].
destruct (toFixedPercent_returns ps (js "level1") Hr) as [p1 ->]. cbn [mbind result_bind].
destruct (toFixedPercent_returns ps (js "level2") Hr) as [p2 ->]. cbn [mbind result_bind].
destruct (toFixedPercent_returns ps (js "level3") Hr) as [p3 ->]. cbn [mbind result_bind].
destruct (toFixedPercent_returns ps (js "level4") Hr) as [p4 ->]. cbn [mbind result_bind].
by eexists.
Qed.

Section WellFormed.
Context (result : @ESDMResult number) (Hwf : wellFormedResult result).

Lemma summaryLevel_returns p n d entry :
∃ d', summaryLevel zero isFalsy toFixed1 result p n d entry = Ok d'.
Proof.
destruct Hwf as ((ps & Hps & Hr) & Hold & _). destruct entry as [index l].
unfold summaryLevel. rewrite Hps. cbn [from_option mbind result_bind].
destruct (toFixedComma_returns ps (js "level" ++ ofZ l) Hr) as [valNew ->].
cbn [mbind result_bind].
destruct (percentsOld result) as [old|] eqn:Ho; [|cbn [mbind result_bind]; by eexists].
destruct (toFixedComma_returns old (js "level" ++ ofZ l) (Hold old eq_refl)) as [valOld HvalOld].
destruct (get old (js "level" ++ ofZ l)); rewrite ?HvalOld; cbn [mbind result_bind];
  by eexists.
Qed.

Lemma fillParagraph_returns info levels d p :
∃ d', fillParagraph zero isFalsy toFixed1 info result levels d p = Ok d'.
Proof.
unfold fillParagraph. destruct (DOM.lookup p (root d)) as [P|]; [|by exists d].
destruct (getElementsByTagName "w:t" P) as [|t0 ts]; [by exists d|].
destruct (includes _ _); [|by eexists].
unfold rebuildSummary. destruct (firstOrPrepend p "w:pPr" d) as [pPr d1].
destruct (firstOrAppend pPr "w:jc" d1) as [jc d2].
destruct levels as [|l levels]; [by eexists|].
apply foldM_returns. intros a x. apply summaryLevel_returns.
Qed.

Lemma findSkill_returns (rowTitle : jsstring) (items : list (gmap jsstring (@jsval number))) :
Forall (λ item, ∃ s, get item (js "skill") = Str s) items →
∃ r, findSkill rowTitle items = Ok r.
Proof.
induction 1 as [|item items [s Hs] _ IH]; cbn [findSkill]; [by eexists|].
rewrite Hs. destruct (_ || _); [by eexists|exact IH].
Qed.

Lemma fillRow_returns levels columnMap d row :
∃ d', fillRow numberToString result levels columnMap d row = Ok d'.
Proof.
destruct Hwf as (_ & _ & items & Hitems & Hskill).
unfold fillRow. destruct (DOM.lookup row (root d)) as [R|]; [|by exists d].
destruct (getElementsByTagName "w:tc" R) as [|cell0 cells]; [by exists d|].
destruct (_ || _); [by exists d|]. rewrite Hitems. cbn [from_option mbind result_bind].
destruct (findSkill_returns (normalize (getCellText cell0)) items Hskill) as [r ->].
cbn [mbind result_bind]. destruct r; by eexists.
Qed.

Lemma fillTables_returns levels tables d :
∃ d', fillTables numberToString result levels tables d = Ok d'.
Proof.
revert d. induction tables as [|tbl tables IH]; intros d; cbn [fillTables]; [by exists d|].
destruct (getElementsByTagName "w:tr" tbl) as [|r rows]; [apply IH|].
destruct (findHeader _) as [columnMap|]; [|apply IH].
unfold fillSkillTable. destruct (firstOrPrepend _ _ d) as [tblPr d1].
destruct (firstOrAppend tblPr "w:tblW" d1) as [tblW d2].
destruct (firstOrAppend tblPr "w:jc" _) as [jc d4].
apply foldM_returns. intros a x. apply fillRow_returns.
Qed.

(** With a well-formed analysis result nothing throws inside
  [smartFillXML], whatever the parser has made of the text. *)
Lemma smartFillBody_returns xml info levels :
∃ d,
  smartFillBody zero isFalsy toFixed1 numberToString parseFromString serializeToString
                xml info result levels
  = Ok (serializeToString (root d)).
Proof.
unfold smartFillBody.
destruct (foldM_returns (fillParagraph zero isFalsy toFixed1 info result levels)
            (fillParagraph_returns info levels)
            (nid <$> getElementsByTagName "w:p" (parseFromString xml))
            (mkDom (parseFromString xml))) as [d1 ->].
cbn [mbind result_bind].
destruct (fillTables_returns levels (getElementsByTagName "w:tbl" (root d1)) d1) as [d2 ->].
cbn [mbind result_bind]. by exists d2.
Qed.

End WellFormed.

(** C10: when something throws inside [smartFillXML], it returns the text
  it was given, whatever the paragraphs had already received: GENERATE_DOCX
  writes the main document part back as it was, and, when the percentages
  of the analysis result are readable, goes on and hands the template
  engine the package unchanged.  What throws is the analysis result, not
  the parser: with a well-formed result nothing throws, whatever the parser
  has made of the text, and the part is replaced by the text of the tree
  that was filled.  On a text that cannot be parsed the parser answers with
  a document; when it holds no paragraph and no table, as an error
  document, the part is replaced by the text of that document. *)
Theorem smartFill_exception_returns_original :
(∀ xml info (result : @ESDMResult number) levels e,
   smartFillBody zero isFalsy toFixed1 numberToString parseFromString serializeToString
                 xml info result levels = Throw e →
   smartFillXML zero isFalsy toFixed1 numberToString parseFromString serializeToString
                xml info result levels = xml
   ∧ ∀ zip, zip !! documentPath = Some xml →
       smartFillStep zero isFalsy toFixed1 numberToString parseFromString serializeToString
                     zip info result levels = zip
       ∧ ∀ ps, percents result = Some ps → readable ps →
           ∃ data,
             generateDocxInput zero isFalsy toFixed1 numberToString parseFromString
                               serializeToString zip info result levels
             = Ok (zip, data))
∧ (∀ xml info (result : @ESDMResult number) levels,
     wellFormedResult result →
     ∃ d,
       smartFillBody zero isFalsy toFixed1 numberToString parseFromString serializeToString
                     xml info result levels = Ok (serializeToString (root d))
       ∧ smartFillXML zero isFalsy toFixed1 numberToString parseFromString serializeToString
                      xml info result levels = serializeToString (root d))
∧ (∀ xml info (result : @ESDMResult number) levels,
     getElementsByTagName "w:p" (parseFromString xml) = [] →
     getElementsByTagName "w:tbl" (parseFromString xml) = [] →
     smartFillXML zero isFalsy toFixed1 numberToString parseFromString serializeToString
                  xml info result levels = serializeToString (parseFromString xml)
     ∧ ∀ zip c s, zip !! documentPath = Some xml → xml = c :: s →
         smartFillStep zero isFalsy toFixed1 numberToString parseFromString serializeToString
                       zip info result levels
         = <[documentPath := serializeToString (parseFromString xml)]> zip).
Proof.
split; [|split].
- intros xml info result levels e H.
  assert (Hxml : smartFillXML zero isFalsy toFixed1 numberToString parseFromString
                              serializeToString xml info result levels = xml).
  { unfold smartFillXML. by rewrite H. }
  split; [done|]. intros zip Hz.
  assert (Hstep : smartFillStep zero isFalsy toFixed1 numberToString parseFromString
                                serializeToString zip info result levels = zip).
  { unfold smartFillStep. unfold jsstring in *. rewrite Hz.
    destruct xml as [|ch xml]; [done|]. rewrite Hxml. by apply insert_id. }
  split; [done|]. intros ps Hps Hr.
  destruct (dataMapping_returns info result ps Hps Hr) as [data Hdata].
  exists data. unfold generateDocxInput. rewrite Hstep, Hdata. done.
- intros xml info result levels Hwf.
  destruct (smartFillBody_returns result Hwf xml info levels) as [d Hd].
  exists d. split; [done|]. unfold smartFillXML. by rewrite Hd.
- intros xml info result levels Hp Ht.
  assert (Hxml : smartFillXML zero isFalsy toFixed1 numberToString parseFromString
                              serializeToString xml info result levels
                 = serializeToString (parseFromString xml)).
  { unfold smartFillXML, smartFillBody. rewrite Hp. cbn [fmap list_fmap foldM mbind result_bind].
    cbn [mkDom root]. rewrite Ht. done. }
  split; [done|]. intros zip c s Hz ->. unfold smartFillStep. unfold jsstring in *.
  rewrite Hz. by rewrite Hxml.
Qed.
End Catch.

Import Examples FillExamples.

Lemma smartFill_exception_returns_original_witness :
  let xml := js "<w:document>...</w:document>" in
  let zip : gmap string jsstring := {[ documentPath := xml ]} in
  smartFillBody 0%Z (Z.eqb 0) toFixedTenths tenthsToString parseOrBroken serialize
                xml student withoutTable [1%Z] = Throw TypeError
  ∧ smartFillXML 0%Z (Z.eqb 0) toFixedTenths tenthsToString parseOrBroken serialize
                 xml student withoutTable [1%Z] = xml
  ∧ smartFillStep 0%Z (Z.eqb 0) toFixedTenths tenthsToString parseOrBroken serialize
                  zip student withoutTable [1%Z] = zip
  ∧ ∃ data,
      generateDocxInput 0%Z (Z.eqb 0) toFixedTenths tenthsToString parseOrBroken serialize
                        zip student withoutTable [1%Z] = Ok (zip, data).
Proof.
  intros xml zip.
  assert (H : smartFillBody 0%Z (Z.eqb 0) toFixedTenths tenthsToString parseOrBroken serialize
                            xml student withoutTable [1%Z] = Throw TypeError)
    by (vm_compute; reflexivity).
  destruct (proj1 (smartFill_exception_returns_original 0%Z (Z.eqb 0) toFixedTenths
                     tenthsToString parseOrBroken serialize) _ _ _ _ _ H) as [H1 H2].
  destruct (H2 zip ltac:(vm_compute; reflexivity)) as [H3 H4].
  split; [exact H|]. split; [exact H1|]. split; [exact H3|].
  apply (H4 {[ js "level1" := Num 505%Z ]} eq_refl).
  intros k c s Hk. apply lookup_singleton_Some in Hk as [_ Hk]. done.
Defined.

(** What the paragraphs had received before the table threw: the name is
    in the tree that is given up. *)
Example paragraphs_filled_before_throw :
  match foldM (fillParagraph 0%Z (Z.eqb 0) toFixedTenths student withoutTable [1%Z])
              (mkDom skillDocument) (nid <$> getElementsByTagName "w:p" skillDocument) with
  | Ok d => includes (serialize (root d)) (js "Họ và tên: Nguyễn Văn A")
  | Throw _ => false
  end = true.
Proof. vm_compute. reflexivity. Qed.

(** C10, as the spec words it, fails on its own example: a text that cannot
    be parsed throws nothing, and what comes back is not the text but the
    error document of the parser. *)
Lemma unparseable_text_replaced :
  smartFillXML 0%Z (Z.eqb 0) toFixedTenths tenthsToString parseOrBroken serialize
               brokenXml student compared [1%Z]
  = js "<parsererror>error on line 1</parsererror>"
  ∧ bool_decide (smartFillXML 0%Z (Z.eqb 0) toFixedTenths tenthsToString parseOrBroken serialize
                              brokenXml student compared [1%Z] = brokenXml) = false
  ∧ smartFillStep 0%Z (Z.eqb 0) toFixedTenths tenthsToString parseOrBroken serialize
                  {[ documentPath := brokenXml ]} student compared [1%Z]
    = {[ documentPath := js "<parsererror>error on line 1</parsererror>" ]}.
Proof.
  split; [vm_compute; reflexivity|]. split; [vm_compute; reflexivity|].
  vm_compute. reflexivity.
Qed.
End CatchProps.
